(** * sagarrows: the signal engine of [src/game.ts]

    A shallow embedding of the connectivity resolver, the cellular-automaton
    tick, the node tick and the graph compiler of [Game], with the
    properties of the specification stated over it, followed by the
    handlers and the drawing code that read or write the same state. *)

From Stdlib Require Import ZArith Lia Bool List.
From Stdlib Require Qround.
From stdpp Require Import base option list gmap.

Local Open Scope Z_scope.

(** ** Data model *)

(** [CHUNK_SIZE] is imported from [logic/chunk]; its value 16 is the one the
    specification gives for the chunk edge (N = 16), and the one
    [updatePlayerInput] divides world coordinates by. *)
Definition CHUNK_SIZE : Z := 16.

(** Modelled from the spec: [Arrow.copyState] (class [Arrow] of
    [logic/arrow] is missing) returns the snapshot the specification calls
    [caLastSnapshot]: the cell's [active] flag and [signalCount]. *)
Record ArrowState := mkArrowState {
  st_active : bool;
  st_signalCount : nat
}.

(** A node handle: the index of the [LogicNode] object in the arena. *)
Abbreviation NodeId := nat.

(** The fields of [Arrow] that [game.ts] reads and writes. Ids and counters
    are natural numbers: they only ever hold a shape id, a rotation step, a
    medal id, or a counter incremented from zero. *)
Record Arrow := mkArrow {
  arrowType : nat;
  rotation : nat;
  flipped : bool;
  medalType : nat;
  active : bool;
  signalCount : nat;
  lastState : ArrowState;
  node : option NodeId;
  originalNode : option NodeId;
  offset : nat
}.

Definition copyState (a : Arrow) : ArrowState :=
  mkArrowState (active a) (signalCount a).

(** A chunk is addressed by its chunk coordinate; a cell by its chunk and its
    local coordinate. An [Arrow] object is identified by the place it lives
    at, so an [ArrowRef] stands for the object reference. *)
Abbreviation ChunkPos := (Z * Z)%type.
Abbreviation ArrowRef := ((Z * Z) * (Z * Z))%type.

(** Modelled from the spec: [Chunk] (of [logic/chunk], missing) is a fixed
    block of cells read through [getArrow(x, y)], which always yields an
    [Arrow] object (shape 0 when the cell is empty). *)
Record Chunk := mkChunk { getArrow : Z -> Z -> Arrow }.

Definition setArrow (c : Chunk) (x y : Z) (a : Arrow) : Chunk :=
  mkChunk (fun x' y' =>
    if (x' =? x) && (y' =? y) then a else getArrow c x' y').

(** [GameMap.chunks]: the materialised chunks by chunk coordinate. *)
Abbreviation GameMap := (gmap ChunkPos Chunk).

(** Modelled from the spec: [Chunk.adjacentChunks] holds the eight compass
    neighbours of a chunk, a slot being absent while that neighbour is not
    materialised. The slot numbering is the one both resolvers of [game.ts]
    use: 0 is the chunk above (y < 0), then clockwise. *)
Definition adjacent_dir (i : nat) : Z * Z :=
  match i with
  | 0%nat => (0, -1)
  | 1%nat => (1, -1)
  | 2%nat => (1, 0)
  | 3%nat => (1, 1)
  | 4%nat => (0, 1)
  | 5%nat => (-1, 1)
  | 6%nat => (-1, 0)
  | _ => (-1, -1)
  end.

Definition adjacentChunks (m : GameMap) (cp : ChunkPos) (i : nat)
  : option ChunkPos :=
  let cp' := (fst cp + fst (adjacent_dir i), snd cp + snd (adjacent_dir i)) in
  match m !! cp' with
  | Some _ => Some cp'
  | None => None
  end.

Definition arrowAt (m : GameMap) (r : ArrowRef) : option Arrow :=
  match m !! (fst r) with
  | Some c => Some (getArrow c (fst (snd r)) (snd (snd r)))
  | None => None
  end.

Definition updateArrow (m : GameMap) (r : ArrowRef) (f : Arrow -> Arrow)
  : GameMap :=
  alter (fun c =>
    setArrow c (fst (snd r)) (snd (snd r))
      (f (getArrow c (fst (snd r)) (snd (snd r))))) (fst r) m.

(** ** Connectivity resolver *)

(** The relative offsets of each shape, in the order the three if-chains of
    [createNode], [getTargetArrows] and [updateCA] list them (the three
    chains are the same table). *)
Definition shape_offsets (shape : nat) : list (Z * Z) :=
  match shape with
  | 1%nat => [(0, -1)]
  | 2%nat => [(-1, 0); (1, 0)]
  | 3%nat => [(0, -1); (1, 0)]
  | 4%nat => [(-1, 0); (0, -1); (1, 0)]
  | 5%nat => [(-1, 0); (1, 0); (0, -1); (0, 1)]
  | 6%nat => [(0, -2)]
  | 7%nat => [(1, -1)]
  | 8%nat => [(0, -1); (1, -1)]
  | 9%nat => [(0, -2); (1, 0)]
  | 10%nat => [(-2, 0); (1, 0)]
  | 11%nat => [(0, -1); (0, -2)]
  | 12%nat => [(0, 0); (0, -1)]
  | 13%nat => [(-1, 0); (0, 0); (1, 0)]
  | _ => []
  end.

(** Lines 313-327 of [getArrowRelative]: mirror, then turn. *)
Definition getArrowRelative_transform (arrow : Arrow) (x y dx dy : Z)
  : Z * Z :=
  let dx := if flipped arrow then - dx else dx in
  match rotation arrow with
  | 0%nat => (x + dx, y + dy)
  | 1%nat => (x + dy, y - dx)
  | 2%nat => (x - dx, y - dy)
  | 3%nat => (x - dy, y + dx)
  | _ => (x, y)
  end.

(** Lines 150-164 of [addTargetNode]. *)
Definition addTargetNode_transform (arrow : Arrow) (x y dx dy : Z) : Z * Z :=
  let dx := if flipped arrow then - dx else dx in
  match rotation arrow with
  | 0%nat => let y := y + dy in let x := x + dx in (x, y)
  | 1%nat => let x := x + dy in let y := y - dx in (x, y)
  | 2%nat => let y := y - dy in let x := x - dx in (x, y)
  | 3%nat => let x := x - dy in let y := y + dx in (x, y)
  | _ => (x, y)
  end.

(** Lines 328-361 (and 165-198): which chunk the coordinate belongs to.
    [None] stands for [targetChunk = chunk], [Some i] for
    [targetChunk = chunk.adjacentChunks[i]]. *)
Definition rebase (x y : Z) : option nat * (Z * Z) :=
  if x >=? CHUNK_SIZE then
    if y >=? CHUNK_SIZE then (Some 3%nat, (x - CHUNK_SIZE, y - CHUNK_SIZE))
    else if y <? 0 then (Some 1%nat, (x - CHUNK_SIZE, y + CHUNK_SIZE))
    else (Some 2%nat, (x - CHUNK_SIZE, y))
  else if x <? 0 then
    if y <? 0 then (Some 7%nat, (x + CHUNK_SIZE, y + CHUNK_SIZE))
    else if y >=? CHUNK_SIZE then (Some 5%nat, (x + CHUNK_SIZE, y - CHUNK_SIZE))
    else (Some 6%nat, (x + CHUNK_SIZE, y))
  else if y <? 0 then (Some 0%nat, (x, y + CHUNK_SIZE))
  else if y >=? CHUNK_SIZE then (Some 4%nat, (x, y - CHUNK_SIZE))
  else (None, (x, y)).

Definition targetChunk (m : GameMap) (chunk : ChunkPos) (sel : option nat)
  : option ChunkPos :=
  match sel with
  | None => Some chunk
  | Some i => adjacentChunks m chunk i
  end.

(** [getArrowRelative]: the resolved chunk, arrow and local coordinate, or
    [None] where the source returns [undefined]. *)
Definition getArrowRelative (m : GameMap) (chunk : ChunkPos) (arrow : Arrow)
    (x y dx dy : Z) : option (ChunkPos * Arrow * (Z * Z)) :=
  let '(x1, y1) := getArrowRelative_transform arrow x y dx dy in
  let '(sel, (x2, y2)) := rebase x1 y1 in
  match targetChunk m chunk sel with
  | None => None
  | Some tc =>
    match m !! tc with
    | None => None
    | Some c =>
      let targetArrow := getArrow c x2 y2 in
      if (0 <? arrowType targetArrow)%nat
      then Some (tc, targetArrow, (x2, y2))
      else None
    end
  end.

(** [getTargetArrows]: one resolution per table entry, the [undefined]
    results filtered out; arrows are returned as references. *)
Definition getTargetArrows (m : GameMap) (chunk : ChunkPos) (arrow : Arrow)
    (x y : Z) : list ArrowRef :=
  omap (fun d : Z * Z =>
          match getArrowRelative m chunk arrow x y (fst d) (snd d) with
          | Some (tc, _, p) => Some (tc, p)
          | None => None
          end)
       (shape_offsets (arrowType arrow)).

(** The candidate offsets of [getSourceArrows], in source order. *)
Definition source_candidates : list (Z * Z) :=
  [(-1, 0); (1, 0); (0, 1); (0, -1); (-2, 0); (2, 0); (0, 2); (0, -2);
   (-1, 1); (1, 1); (-1, -1); (1, -1)].

Definition ArrowRef_eqb (a b : ArrowRef) : bool :=
  (fst (fst a) =? fst (fst b)) && (snd (fst a) =? snd (fst b))
  && (fst (snd a) =? fst (snd b)) && (snd (snd a) =? snd (snd b)).

(** [getSourceArrows]: the cell itself and the twelve candidates, kept when
    their forward targets include the queried arrow. *)
Definition getSourceArrows (m : GameMap) (chunk : ChunkPos) (arrow : Arrow)
    (x y : Z) : list ArrowRef :=
  let arrows :=
    Some (chunk, arrow, (x, y))
    :: map (fun d : Z * Z =>
              getArrowRelative m chunk arrow x y (fst d) (snd d))
           source_candidates in
  let found := omap (fun o => o) arrows in
  let kept :=
    List.filter
      (fun s : ChunkPos * Arrow * (Z * Z) =>
         let '(sourceChunk, sourceArrow, (sourceX, sourceY)) := s in
         existsb (ArrowRef_eqb (chunk, (x, y)))
                 (getTargetArrows m sourceChunk sourceArrow sourceX sourceY))
      found in
  map (fun s : ChunkPos * Arrow * (Z * Z) => (fst (fst s), snd s)) kept.

(** ** CA simulator *)

Definition incrSignalCount (a : Arrow) : Arrow :=
  mkArrow (arrowType a) (rotation a) (flipped a) (medalType a) (active a)
          (S (signalCount a)) (lastState a) (node a) (originalNode a)
          (offset a).

(** Modelled from the spec: [sendSignal] (of [logic/utils], missing)
    resolves one forward target of the cell and increments that target's
    [signalCount]; an edge that does not exist sends nothing. *)
Definition sendSignal (m : GameMap) (chunk : ChunkPos) (arrow : Arrow)
    (x y dx dy : Z) : GameMap :=
  match getArrowRelative m chunk arrow x y dx dy with
  | Some (tc, _, p) => updateArrow m (tc, p) incrSignalCount
  | None => m
  end.

(** The cells of a chunk in the order of the two nested loops
    ([y] outside, [x] inside). *)
Definition cell_coords : list (Z * Z) :=
  flat_map (fun y => List.map (fun x => (x, y)) (seqZ 0 CHUNK_SIZE))
           (seqZ 0 CHUNK_SIZE).

(** The chunk coordinates of the grid. [map.chunks] is a JS [Map], which
    [forEach] visits in the order the chunks were inserted; the grid does
    not record that order, and [chunk_keys] lists the coordinates in the
    order of the keys. The graph compiler, whose result depends on the
    order of the visit, takes the order as a parameter: a list [ks] that
    holds every coordinate of the grid once ([ks ≡ₚ chunk_keys m]). The
    loops that write each cell from its own value alone walk
    [chunk_keys]; for the two passes of the CA tick the result is shown
    below to be the same for every other order. *)
Definition chunk_keys (m : GameMap) : list ChunkPos :=
  List.map fst (map_to_list m).

Definition all_cells (m : GameMap) : list ArrowRef :=
  flat_map (fun cp => List.map (fun p => (cp, p)) cell_coords) (chunk_keys m).

(** The cells in the order of a visit that takes the chunks in the order
    [ks]. *)
Definition cells_in (ks : list ChunkPos) : list ArrowRef :=
  flat_map (fun cp => List.map (fun p => (cp, p)) cell_coords) ks.

(** Body of the first loop nest of [updateCA] (lines 501-544). *)
Definition updateCA_send (m : GameMap) (r : ArrowRef) : GameMap :=
  match arrowAt m r with
  | None => m
  | Some arrow =>
    if (0 <? arrowType arrow)%nat && active arrow then
      fold_left
        (fun m' (d : Z * Z) =>
           sendSignal m' (fst r) arrow (fst (snd r)) (snd (snd r))
                      (fst d) (snd d))
        (shape_offsets (arrowType arrow)) m
    else m
  end.

(** Lines 552-568: the new [active] of a cell. *)
Definition updateCA_active (medal : nat) (count : nat) (act : bool) : bool :=
  match medal with
  | 0%nat => (0 <? count)%nat
  | 1%nat => true
  | 2%nat => (count =? 0)%nat
  | 3%nat => (2 <=? count)%nat
  | 4%nat => (count mod 2 =? 1)%nat
  | 5%nat => if (0 <? count)%nat then negb act else act
  | 6%nat => if (0 <? count)%nat then (count mod 2 =? 0)%nat else act
  | _ => act
  end.

(** Lines 551-571: activation, snapshot, reset, in that order. *)
Definition updateCA_cell (arrow : Arrow) : Arrow :=
  if (0 <? arrowType arrow)%nat then
    let act := updateCA_active (medalType arrow) (signalCount arrow)
                               (active arrow) in
    let a1 := mkArrow (arrowType arrow) (rotation arrow) (flipped arrow)
                      (medalType arrow) act (signalCount arrow)
                      (lastState arrow) (node arrow) (originalNode arrow)
                      (offset arrow) in
    let a2 := mkArrow (arrowType a1) (rotation a1) (flipped a1)
                      (medalType a1) (active a1) (signalCount a1)
                      (copyState a1) (node a1) (originalNode a1)
                      (offset a1) in
    mkArrow (arrowType a2) (rotation a2) (flipped a2) (medalType a2)
            (active a2) 0 (lastState a2) (node a2) (originalNode a2)
            (offset a2)
  else arrow.

Definition updateCA_pass1 (m : GameMap) : GameMap :=
  fold_left updateCA_send (all_cells m) m.

Definition updateCA_pass2 (m : GameMap) : GameMap :=
  fold_left (fun m' r => updateArrow m' r updateCA_cell) (all_cells m) m.

Definition updateCA (m : GameMap) : GameMap :=
  updateCA_pass2 (updateCA_pass1 m).

(** ** Logic nodes *)

(** Modelled from the spec: class [LogicNode] (of [logic/node], missing) is
    a delay line: the ordered cells it owns, [size] their number, its logic
    function [type], the [ready] mark of the compiler, the edges [targets]
    and [sources], the per-tick scratch values, and the history [signals] of
    capacity [size] with offset 0 the newest entry and offset [size - 1] the
    value about to be delivered downstream. *)
Module LogicNode.

Record t := mk {
  arrows : list ArrowRef;
  type : nat;
  size : nat;
  ready : bool;
  targets : list NodeId;
  sources : list NodeId;
  signals : list bool;
  signalCount : nat;
  lastSignal : bool;
  lastSignalCount : nat
}.

(** [new LogicNode(arrows, type, size)]: no edges, an all-false history. *)
Definition new (arrows : list ArrowRef) (type size : nat) : t :=
  mk arrows type size false [] [] (replicate size false) 0 false 0.

(** [copy()]: a node over the same cells with the same function and size;
    the compiler fills in its edges afterwards. *)
Definition copy (n : t) : t := new (arrows n) (type n) (size n).

(** [resize(size)]: the history is reallocated, keeping the most recent
    values in order. *)
Definition resize (n : t) (sz : nat) : t :=
  mk (arrows n) (type n) sz (ready n) (targets n) (sources n)
     (take sz (signals n ++ replicate sz false))
     (signalCount n) (lastSignal n) (lastSignalCount n).

Definition push_arrows (n : t) (l : list ArrowRef) : t :=
  mk (arrows n ++ l) (type n) (size n) (ready n) (targets n) (sources n)
     (signals n) (signalCount n) (lastSignal n) (lastSignalCount n).

Definition push_targets (n : t) (l : list NodeId) : t :=
  mk (arrows n) (type n) (size n) (ready n) (targets n ++ l) (sources n)
     (signals n) (signalCount n) (lastSignal n) (lastSignalCount n).

Definition push_sources (n : t) (l : list NodeId) : t :=
  mk (arrows n) (type n) (size n) (ready n) (targets n) (sources n ++ l)
     (signals n) (signalCount n) (lastSignal n) (lastSignalCount n).

Definition set_ready (n : t) (b : bool) : t :=
  mk (arrows n) (type n) (size n) b (targets n) (sources n)
     (signals n) (signalCount n) (lastSignal n) (lastSignalCount n).

Definition set_lastSignal (n : t) (b : bool) : t :=
  mk (arrows n) (type n) (size n) (ready n) (targets n) (sources n)
     (signals n) (signalCount n) b (lastSignalCount n).

Definition incr_signalCount (n : t) : t :=
  mk (arrows n) (type n) (size n) (ready n) (targets n) (sources n)
     (signals n) (S (signalCount n)) (lastSignal n) (lastSignalCount n).

(** [signals.at(0)] and [signals.at(-1)]; a missing entry reads as
    [undefined], which every use treats as false. *)
Definition signals_first (n : t) : bool := hd false (signals n).
Definition signals_last (n : t) : bool := List.last (signals n) false.

(** [signals.insert(v)]: [v] becomes the newest entry and the oldest one
    drops, the capacity staying what it was. *)
Definition signals_insert (v : bool) (l : list bool) : list bool :=
  take (length l) (v :: l).

End LogicNode.

(** The state of [Game] the engine works on: the grid, the arena of
    [LogicNode] objects, the live set [nodes] (a JS [Set], so insertion
    ordered and duplicate free), its snapshot [nodeArray], and the
    [WeakMap] of the compiler. *)
Record Game := mkGame {
  chunks : GameMap;
  heap : list LogicNode.t;
  nodes : list NodeId;
  nodeArray : list NodeId;
  simplifiedNodes : gmap NodeId NodeId
}.

Definition set_chunks (g : Game) (m : GameMap) : Game :=
  mkGame m (heap g) (nodes g) (nodeArray g) (simplifiedNodes g).
Definition set_heap (g : Game) (h : list LogicNode.t) : Game :=
  mkGame (chunks g) h (nodes g) (nodeArray g) (simplifiedNodes g).
Definition set_nodes (g : Game) (l : list NodeId) : Game :=
  mkGame (chunks g) (heap g) l (nodeArray g) (simplifiedNodes g).
Definition set_nodeArray (g : Game) (l : list NodeId) : Game :=
  mkGame (chunks g) (heap g) (nodes g) l (simplifiedNodes g).
Definition set_simplifiedNodes (g : Game) (s : gmap NodeId NodeId) : Game :=
  mkGame (chunks g) (heap g) (nodes g) (nodeArray g) s.

Definition alterNode (g : Game) (n : NodeId) (f : LogicNode.t -> LogicNode.t)
  : Game := set_heap g (alter f n (heap g)).

Definition alterArrow (g : Game) (r : ArrowRef) (f : Arrow -> Arrow) : Game :=
  set_chunks g (updateArrow (chunks g) r f).

(** [Set.add] and [Set.delete]. *)
Definition set_add (n : NodeId) (l : list NodeId) : list NodeId :=
  if existsb (Nat.eqb n) l then l else l ++ [n].
Definition set_delete (n : NodeId) (l : list NodeId) : list NodeId :=
  List.filter (fun k => negb (Nat.eqb n k)) l.

(** ** Graph compiler: raw nodes *)

Definition attachNode (nid : NodeId) (a : Arrow) : Arrow :=
  mkArrow (arrowType a) (rotation a) (flipped a) (medalType a) (active a)
          (signalCount a) (lastState a) (Some nid) (Some nid) 0.

(** Lines 214-217: the node of a cell is allocated and attached. *)
Definition markCell (g : Game) (r : ArrowRef) (medal : nat) : Game :=
  alterArrow (set_heap g (heap g ++ [LogicNode.new [r] medal 1])) r
             (attachNode (length (heap g))).

(** The two pushes of lines 203-204. *)
Definition linkRaw (g : Game) (nd target : NodeId) : Game :=
  alterNode (alterNode g nd (fun n => LogicNode.push_targets n [target]))
            target (fun n => LogicNode.push_sources n [nd]).

(** [addTargetNode], given the recursive [createNode] to call. *)
Definition addTargetNode
    (createNode : Game -> ChunkPos -> Z -> Z -> option (Game * option NodeId))
    (g : Game) (nd : NodeId) (chunk : ChunkPos) (arrow : Arrow)
    (x y dx dy : Z) : option Game :=
  let '(x1, y1) := addTargetNode_transform arrow x y dx dy in
  let '(sel, (x2, y2)) := rebase x1 y1 in
  match targetChunk (chunks g) chunk sel with
  | None => Some g
  | Some tc =>
    match createNode g tc x2 y2 with
    | None => None
    | Some (g1, None) => Some g1
    | Some (g1, Some target) => Some (linkRaw g1 nd target)
    end
  end.

Definition addTargetNodes
    (createNode : Game -> ChunkPos -> Z -> Z -> option (Game * option NodeId))
    (nd : NodeId) (chunk : ChunkPos) (arrow : Arrow) (x y : Z)
    (ds : list (Z * Z)) (g : Game) : option Game :=
  fold_left
    (fun (og : option Game) (d : Z * Z) =>
       match og with
       | None => None
       | Some g' => addTargetNode createNode g' nd chunk arrow x y
                                  (fst d) (snd d)
       end)
    ds (Some g).

(** [createNode]: the recursion follows the edges of the grid, so it is
    bounded by [fuel]; [None] means the bound was reached. *)
Fixpoint createNode (fuel : nat) (g : Game) (chunk : ChunkPos) (x y : Z)
  : option (Game * option NodeId) :=
  match fuel with
  | O => None
  | S fuel' =>
    match chunks g !! chunk with
    | None => None
    | Some c =>
      let arrow := getArrow c x y in
      if (arrowType arrow =? 0)%nat then Some (g, None)
      else
        match originalNode arrow with
        | Some n => Some (g, Some n)
        | None =>
          let nd := length (heap g) in
          let g2 := markCell g (chunk, (x, y)) (medalType arrow) in
          match addTargetNodes (createNode fuel') nd chunk arrow x y
                               (shape_offsets (arrowType arrow)) g2 with
          | None => None
          | Some g3 => Some (g3, Some nd)
          end
        end
    end
  end.

(** [createNodes]: every cell of every chunk, the chunks in the order
    [ks]. *)
Definition createNodes (ks : list ChunkPos) (fuel : nat) (g : Game)
  : option Game :=
  fold_left
    (fun (og : option Game) (r : ArrowRef) =>
       match og with
       | None => None
       | Some g' =>
         match createNode fuel g' (fst r) (fst (snd r)) (snd (snd r)) with
         | None => None
         | Some (g'', _) => Some g''
         end
       end)
    (cells_in ks) (Some g).

(** ** Graph compiler: simplification *)

Definition addOffset (k : nat) (a : Arrow) : Arrow :=
  mkArrow (arrowType a) (rotation a) (flipped a) (medalType a) (active a)
          (signalCount a) (lastState a) (node a) (originalNode a)
          (offset a + k).

(** The test of line 293, on the raw target and its compiled form. *)
Definition fusable (target simplifiedTarget : LogicNode.t) : bool :=
  (LogicNode.type target =? 0)%nat
  && (length (LogicNode.sources target) =? 1)%nat
  && LogicNode.ready simplifiedTarget.

(** Lines 294-299. *)
Definition fuse (g : Game) (nd simplified simplifiedTarget : NodeId)
  : option Game :=
  match heap g !! nd, heap g !! simplifiedTarget with
  | Some n, Some st =>
    let g1 := set_nodes g (set_delete simplifiedTarget (nodes g)) in
    let g2 := alterNode g1 simplified (fun s =>
                LogicNode.resize s (LogicNode.size n + LogicNode.size st)) in
    let g3 := alterNode g2 simplified (fun s =>
                LogicNode.push_arrows s (LogicNode.arrows st)) in
    let g4 := alterNode g3 simplified (fun s =>
                LogicNode.push_targets s (LogicNode.targets st)) in
    Some (fold_left (fun g' r => alterArrow g' r (addOffset (LogicNode.size n)))
                    (LogicNode.arrows st) g4)
  | _, _ => None
  end.

(** Lines 286-289: the copy is allocated, recorded for both the raw node
    and itself, and added to the live set. *)
Definition simplifyNode_enter (g : Game) (nd : NodeId) (n : LogicNode.t)
  : Game :=
  let simplified := length (heap g) in
  let g1 := set_heap g (heap g ++ [LogicNode.copy n]) in
  let g2 := set_simplifiedNodes g1
              (<[simplified := simplified]>
                 (<[nd := simplified]> (simplifiedNodes g1))) in
  set_nodes g2 (set_add simplified (nodes g2)).

(** [simplified.targets.push(st)]. *)
Definition linkTarget (simplified : NodeId) (g : Game) (st : NodeId) : Game :=
  alterNode g simplified (fun s => LogicNode.push_targets s [st]).

(** Lines 293-302, once the single target has been simplified. *)
Definition fuseOrLink (g : Game) (nd simplified target simplifiedTarget : NodeId)
  : option Game :=
  match heap g !! target, heap g !! simplifiedTarget with
  | Some t, Some st =>
    if fusable t st
    then fuse g nd simplified simplifiedTarget
    else Some (linkTarget simplified g simplifiedTarget)
  | _, _ => None
  end.

(** [simplifyNode], bounded by [fuel] like [createNode]. *)
Fixpoint simplifyNode (fuel : nat) (g : Game) (nd : NodeId)
  : option (Game * NodeId) :=
  match fuel with
  | O => None
  | S fuel' =>
    match simplifiedNodes g !! nd with
    | Some existing => Some (g, existing)
    | None =>
      match heap g !! nd with
      | None => None
      | Some n =>
        let simplified := length (heap g) in
        let g3 := simplifyNode_enter g nd n in
        let linked :=
          match LogicNode.targets n with
          | [target] =>
            match simplifyNode fuel' g3 target with
            | None => None
            | Some (g4, simplifiedTarget) =>
              fuseOrLink g4 nd simplified target simplifiedTarget
            end
          | ts =>
            fold_left
              (fun (og : option Game) (target : NodeId) =>
                 match og with
                 | None => None
                 | Some g' =>
                   match simplifyNode fuel' g' target with
                   | None => None
                   | Some (g'', st) => Some (linkTarget simplified g'' st)
                   end
                 end)
              ts (Some g3)
          end in
        match linked with
        | None => None
        | Some g5 =>
          Some (alterNode g5 simplified (fun s => LogicNode.set_ready s true),
                simplified)
        end
      end
    end
  end.

Definition setNode (nid : NodeId) (a : Arrow) : Arrow :=
  mkArrow (arrowType a) (rotation a) (flipped a) (medalType a) (active a)
          (signalCount a) (lastState a) (Some nid) (originalNode a)
          (offset a).

(** Lines 273-278: each live node claims its cells and registers with its
    targets. *)
Definition relink (g : Game) (nd : NodeId) : Game :=
  match heap g !! nd with
  | None => g
  | Some n =>
    let g1 := fold_left (fun g' r => alterArrow g' r (setNode nd))
                        (LogicNode.arrows n) g in
    fold_left (fun g' target =>
                 alterNode g' target (fun s => LogicNode.push_sources s [nd]))
              (LogicNode.targets n) g1
  end.

(** [simplifyNodes], the chunks visited in the order [ks]. *)
Definition simplifyNodes (ks : list ChunkPos) (fuel : nat) (g : Game)
  : option Game :=
  let g0 := set_simplifiedNodes g ∅ in
  let compiled :=
    fold_left
      (fun (og : option Game) (r : ArrowRef) =>
         match og with
         | None => None
         | Some g' =>
           match arrowAt (chunks g') r with
           | None => None
           | Some arrow =>
             match node arrow with
             | None => Some g'
             | Some nd =>
               match simplifyNode fuel g' nd with
               | None => None
               | Some (g'', _) => Some g''
               end
             end
           end
         end)
      (cells_in ks) (Some g0) in
  match compiled with
  | None => None
  | Some g1 =>
    let g2 := set_simplifiedNodes g1 ∅ in
    let g3 := fold_left relink (nodes g2) g2 in
    Some (set_nodeArray g3 (nodes g3))
  end.

(** ** Node simulator *)

(** First callback of [updateNodes] (lines 578-584). *)
Definition updateNodes_send (h : list LogicNode.t) (nd : NodeId)
  : list LogicNode.t :=
  match h !! nd with
  | None => h
  | Some n0 =>
    let h1 := alter (fun n => LogicNode.set_lastSignal n
                                (LogicNode.signals_first n)) nd h in
    match h1 !! nd with
    | None => h1
    | Some n =>
      if LogicNode.signals_last n then
        fold_left (fun h' target => alter LogicNode.incr_signalCount target h')
                  (LogicNode.targets n) h1
      else h1
    end
  end.

(** The [switch] of lines 587-612. *)
Definition updateNodes_active (type : nat) (count : nat) (lastSignal : bool)
  : bool :=
  let active := lastSignal in
  match type with
  | 0%nat => (0 <? count)%nat
  | 1%nat => true
  | 2%nat => (count =? 0)%nat
  | 3%nat => (2 <=? count)%nat
  | 4%nat => (count mod 2 =? 1)%nat
  | 5%nat => if (0 <? count)%nat then negb active else active
  | 6%nat => if (0 <? count)%nat then (count mod 2 =? 0)%nat else active
  | _ => active
  end.

(** Second callback of [updateNodes] (lines 587-615). *)
Definition updateNodes_node (n : LogicNode.t) : LogicNode.t :=
  let active := updateNodes_active (LogicNode.type n)
                  (LogicNode.signalCount n) (LogicNode.lastSignal n) in
  LogicNode.mk (LogicNode.arrows n) (LogicNode.type n) (LogicNode.size n)
    (LogicNode.ready n) (LogicNode.targets n) (LogicNode.sources n)
    (LogicNode.signals_insert active (LogicNode.signals n))
    0 (LogicNode.lastSignal n) (LogicNode.signalCount n).

Definition updateNodes_pass1 (g : Game) : Game :=
  set_heap g (fold_left updateNodes_send (nodeArray g) (heap g)).

Definition updateNodes_pass2 (g : Game) : Game :=
  set_heap g (fold_left (fun h nd => alter updateNodes_node nd h)
                        (nodeArray g) (heap g)).

Definition updateNodes (g : Game) : Game :=
  updateNodes_pass2 (updateNodes_pass1 g).

(** ** Edits of the logic function in [updatePlayerInput] *)

(** [arrow.medalType = medal] (lines 649 and 677). *)
Definition setMedalType (medal : nat) (a : Arrow) : Arrow :=
  mkArrow (arrowType a) (rotation a) (flipped a) medal (active a)
          (signalCount a) (lastState a) (node a) (originalNode a)
          (offset a).

(** Modelled from the spec: a cell handed over by a split to the node
    [nid], which lists it [off] places earlier than its former node did. *)
Definition moveCell (nid : NodeId) (off : nat) (a : Arrow) : Arrow :=
  mkArrow (arrowType a) (rotation a) (flipped a) (medalType a) (active a)
          (signalCount a) (lastState a) (Some nid) (originalNode a)
          (offset a - off).

(** Modelled from the spec: the node with the function [fn]. *)
Definition set_type (fn : nat) (n : LogicNode.t) : LogicNode.t :=
  LogicNode.mk (LogicNode.arrows n) fn (LogicNode.size n)
    (LogicNode.ready n) (LogicNode.targets n) (LogicNode.sources n)
    (LogicNode.signals n) (LogicNode.signalCount n)
    (LogicNode.lastSignal n) (LogicNode.lastSignalCount n).

(** Modelled from the spec: the node with its source [old] replaced by
    [new], the node that feeds it once [old] has been cut. *)
Definition replace_source (old new : NodeId) (n : LogicNode.t)
  : LogicNode.t :=
  LogicNode.mk (LogicNode.arrows n) (LogicNode.type n) (LogicNode.size n)
    (LogicNode.ready n) (LogicNode.targets n)
    (List.map (fun s => if (s =? old)%nat then new else s)
              (LogicNode.sources n))
    (LogicNode.signals n) (LogicNode.signalCount n)
    (LogicNode.lastSignal n) (LogicNode.lastSignalCount n).

(** Modelled from the spec: [NodeRestructuring.splitNode] (module
    [util/node-restructuring] is missing) is the [split] of the
    specification: it cuts a node into two nodes at the offset, deletes
    nothing and returns both. The front keeps the cells before the offset
    and the function, which its first cell carries; a new node takes the
    cells from the offset on, as the transparent cells they were (function
    0), and with them the downstream edges; the front feeds the new node;
    each history keeps the entries of its own cells; the cells of the new
    node point to it, at their offset in it; the new node joins the live
    set. A cell without a node and an offset past the end of the node are
    the invariant violations that stop the operation ([None]). The
    specification does not say what a cut at offset 0 returns: here it
    cuts nothing and the node itself is the second node of the pair, the
    one [game.ts] goes on with. *)
Definition splitNode (g : Game) (nd : option NodeId) (off : nat)
  : option (Game * (option NodeId * option NodeId)) :=
  match nd with
  | None => None
  | Some nd =>
    match heap g !! nd with
    | None => None
    | Some n =>
      if (off =? 0)%nat then Some (g, (None, Some nd))
      else if (LogicNode.size n <=? off)%nat then None
      else
        let back := length (heap g) in
        let front_node :=
          LogicNode.mk (take off (LogicNode.arrows n)) (LogicNode.type n)
            off (LogicNode.ready n) [back] (LogicNode.sources n)
            (take off (LogicNode.signals n)) (LogicNode.signalCount n)
            (LogicNode.lastSignal n) (LogicNode.lastSignalCount n) in
        let back_node :=
          LogicNode.mk (drop off (LogicNode.arrows n)) 0
            (LogicNode.size n - off) (LogicNode.ready n)
            (LogicNode.targets n) [nd]
            (drop off (LogicNode.signals n)) 0 false 0 in
        let g1 := set_heap g (<[nd := front_node]> (heap g)
                              ++ [back_node]) in
        let g2 := fold_left
                    (fun g' t => alterNode g' t (replace_source nd back))
                    (LogicNode.targets n) g1 in
        let g3 := fold_left
                    (fun g' c => alterArrow g' c (moveCell back off))
                    (drop off (LogicNode.arrows n)) g2 in
        Some (set_nodes g3 (set_add back (nodes g3)),
              (Some nd, Some back))
    end
  end.

(** Modelled from the spec: the split of [updateNode], the cut after the
    first cell of the node, made when the node has more cells than that
    one. *)
Definition isolateHead (g : Game) (nd : NodeId) : option Game :=
  match heap g !! nd with
  | None => None
  | Some n =>
    if (1 <? LogicNode.size n)%nat
    then fst <$> splitNode g (Some nd) 1
    else Some g
  end.

(** Modelled from the spec: the function is set on the node. *)
Definition applyFunction (g : Game) (nd : NodeId) (fn : nat) : Game :=
  alterNode g nd (set_type fn).

(** Modelled from the spec: [NodeRestructuring.updateNode] is the
    [updateNode] of the specification: "apply a logic-function change; if
    the affected cell is not the sole cell of its node, split is invoked
    first to isolate it into its own node, then the function is set on
    that isolated node". The affected cell of the node handed over is the
    cell that carries the node's function, its first cell. *)
Definition updateNode (g : Game) (nd : option NodeId) (fn : nat)
  : option Game :=
  match nd with
  | None => None
  | Some nd =>
    match isolateHead g nd with
    | None => None
    | Some g1 => Some (applyFunction g1 nd fn)
    end
  end.

(** [this.nodeArray = Array.from(this.nodes)]. *)
Definition refreshNodeArray (g : Game) : Game := set_nodeArray g (nodes g).

(** Lines 647-654: the mouse is down, no arrows are selected and [r] is
    the place under the mouse; [medal] is [this.selection.medal], which
    the test of line 647 takes for absent when it is 0. [None] where a
    call into [NodeRestructuring] stops. *)
Definition placeMedal (g : Game) (r : ArrowRef) (medal : nat)
  : option Game :=
  if (medal =? 0)%nat then Some g
  else
    match arrowAt (chunks g) r with
    | Some arrow =>
      if (0 <? arrowType arrow)%nat then
        let g1 := alterArrow g r (setMedalType medal) in
        match splitNode g1 (node arrow) (offset arrow) with
        | None => None
        | Some (g2, (_, nd)) =>
          match updateNode g2 nd medal with
          | None => None
          | Some g3 => Some (refreshNodeArray g3)
          end
        end
      else Some g
    | None => Some g
    end.

(** What [KeyR] does over the place [r] (lines 674-686), for a cell not
    touched yet in this remove gesture: nothing where there is no cell;
    the reset of the function of a cell that has one, with the game it
    leaves ([None] where [updateNode] stops); else the removal of the
    cell, which changes no function and is kept as the arguments of its
    calls to [GameMap.removeArrow] and [NodeRestructuring.spliceNode]. *)
Inductive KeyR : Type :=
| KeyR_nothing
| KeyR_medal (res : option Game)
| KeyR_arrow (r : ArrowRef) (nd : option NodeId) (offset : nat).

Definition removeMedalOrArrow (g : Game) (r : ArrowRef) : KeyR :=
  match arrowAt (chunks g) r with
  | Some arrow =>
    if (0 <? arrowType arrow)%nat then
      if negb (medalType arrow =? 0)%nat then
        let g1 := alterArrow g r (setMedalType 0) in
        KeyR_medal
          match updateNode g1 (node arrow) 0 with
          | None => None
          | Some g2 => Some (refreshNodeArray g2)
          end
      else KeyR_arrow r (node arrow) (offset arrow)
    else KeyR_nothing
  | None => KeyR_nothing
  end.

(** ** A sample grid *)

Definition emptyArrow : Arrow :=
  mkArrow 0 0 false 0 false 0 (mkArrowState false 0) None None 0.

Definition plainArrow (shape rot medal : nat) : Arrow :=
  mkArrow shape rot false medal false 0 (mkArrowState false 0) None None 0.

Definition emptyChunk : Chunk := mkChunk (fun _ _ => emptyArrow).

Definition chunkOf (l : list (Z * Z * Arrow)) : Chunk :=
  fold_left (fun c e => setArrow c (fst (fst e)) (snd (fst e)) (snd e))
            l emptyChunk.

Definition gameOf (m : GameMap) : Game := mkGame m [] [] [] ∅.

(** A four-way cell at (5,5) with a straight cell on each side pointing
    away from it. *)
Definition branchGrid : GameMap :=
  {[ (0, 0) := chunkOf
       [ (5, 5, plainArrow 5 0 0);
         (4, 5, plainArrow 1 1 0);
         (6, 5, plainArrow 1 3 0);
         (5, 4, plainArrow 1 0 0);
         (5, 6, plainArrow 1 2 0) ] ]}.

(** An inverter at (3,5) pointing up into a straight cell at (3,4). *)
Definition inverterGrid : GameMap :=
  {[ (0, 0) := chunkOf
       [ (3, 5, plainArrow 1 0 2);
         (3, 4, plainArrow 1 0 0) ] ]}.

(** Lines 113-114: [start] compiles the loaded grid, first the raw nodes
    and then their simplification; both walk [map.chunks], in the same
    order [ks]. *)
Definition compile (ks : list ChunkPos) (fuel : nat) (m : GameMap)
  : option Game :=
  match createNodes ks fuel (gameOf m) with
  | None => None
  | Some g => simplifyNodes ks fuel g
  end.

(** ** Vocabulary of the specification for the resolver *)

(** "If mirrored, negate the lateral component". *)
Definition mirror (arrow : Arrow) (dx : Z) : Z :=
  if flipped arrow then - dx else dx.

Definition withRotation (r : nat) (a : Arrow) : Arrow :=
  mkArrow (arrowType a) r (flipped a) (medalType a) (active a)
          (signalCount a) (lastState a) (node a) (originalNode a) (offset a).

(** The displacement a rotation-1, unmirrored arrow gives to an offset. *)
Definition quarter_turn (v : Z * Z) : Z * Z :=
  getArrowRelative_transform (plainArrow 1 1 0) 0 0 (fst v) (snd v).

(** The chunk step a [rebase] selection stands for. *)
Definition chunk_step (sel : option nat) : Z * Z :=
  match sel with
  | None => (0, 0)
  | Some i => adjacent_dir i
  end.

(** The world coordinate of a cell. *)
Definition world (r : ArrowRef) : Z * Z :=
  (CHUNK_SIZE * fst (fst r) + fst (snd r),
   CHUNK_SIZE * snd (fst r) + snd (snd r)).

(** A non-empty cell of a materialised chunk. *)
Definition cell_of (m : GameMap) (r : ArrowRef) (a : Arrow) : Prop :=
  arrowAt m r = Some a /\ (0 < arrowType a)%nat
  /\ 0 <= fst (snd r) < CHUNK_SIZE /\ 0 <= snd (snd r) < CHUNK_SIZE.

(** ** Vocabulary of the specification for the simulators *)

(** The activation table of the specification, row by row, for a count [n]
    and the previous value [prev]. *)
Definition activation_table (fn n : nat) (prev : bool) : bool :=
  match fn with
  | 0%nat => (0 <? n)%nat
  | 1%nat => true
  | 2%nat => (n =? 0)%nat
  | 3%nat => (2 <=? n)%nat
  | 4%nat => Nat.odd n
  | 5%nat => if (0 <? n)%nat then negb prev else prev
  | 6%nat => if (0 <? n)%nat then Nat.even n else prev
  | _ => prev
  end.

(** A constant source next to a plain cell. *)
Definition sourceGrid : GameMap :=
  {[ (0, 0) := chunkOf
       [ (2, 2, plainArrow 1 3 1);
         (3, 2, plainArrow 1 3 0) ] ]}.

(** A constant source at the right edge of chunk (0,0) feeding a row of
    plain cells that runs on into chunk (1,0). *)
Definition borderGrid : GameMap :=
  <[ (1, 0) := chunkOf
       [ (0, 2, plainArrow 1 3 0);
         (1, 2, plainArrow 1 3 0) ] ]>
  {[ (0, 0) := chunkOf
       [ (14, 2, plainArrow 1 3 1);
         (15, 2, plainArrow 1 3 0) ] ]}.

(** A visit of [borderGrid] that takes chunk (1,0) before chunk (0,0). *)
Definition borderOrder : list ChunkPos := [(1, 0); (0, 0)].

(** ** Relations between grid states used in the proofs *)

(** [a'] is [a] with a possibly larger [signalCount]: what the send pass
    may do to a cell. *)
Definition count_only (a a' : Arrow) : Prop :=
  arrowType a' = arrowType a /\ rotation a' = rotation a
  /\ flipped a' = flipped a /\ medalType a' = medalType a
  /\ active a' = active a /\ lastState a' = lastState a
  /\ node a' = node a /\ originalNode a' = originalNode a
  /\ offset a' = offset a
  /\ (signalCount a <= signalCount a')%nat.

Definition grid_le (m m' : GameMap) : Prop :=
  (forall c, is_Some (m' !! c) -> is_Some (m !! c))
  /\ (forall r a, arrowAt m r = Some a ->
        exists a', arrowAt m' r = Some a' /\ count_only a a').

(** ** Relations between compiler states used in the proofs *)

(** Every node of the arena owns at least one cell. *)
Definition all_own_cells (h : list LogicNode.t) : Prop :=
  forall i x, h !! i = Some x -> LogicNode.arrows x <> [].

(** [g'] keeps every node object [g] already had, unchanged. *)
Definition heap_frame (g g' : Game) : Prop :=
  (length (heap g) <= length (heap g'))%nat
  /\ (forall i, (i < length (heap g))%nat -> heap g' !! i = heap g !! i)
  /\ (all_own_cells (heap g) -> all_own_cells (heap g')).

(** [g'] is [g] with [k] more targets pushed on the node [sid], possibly
    new node objects, and every other old node unchanged. *)
Definition linked_frame (sid k : nat) (g g' : Game) : Prop :=
  (length (heap g) <= length (heap g'))%nat
  /\ (forall i, (i < length (heap g))%nat -> i <> sid ->
        heap g' !! i = heap g !! i)
  /\ (forall s, heap g !! sid = Some s ->
        exists s', heap g' !! sid = Some s'
          /\ LogicNode.arrows s' = LogicNode.arrows s
          /\ LogicNode.size s' = LogicNode.size s
          /\ LogicNode.type s' = LogicNode.type s
          /\ length (LogicNode.targets s')
             = (length (LogicNode.targets s) + k)%nat)
  /\ (all_own_cells (heap g) -> all_own_cells (heap g')).

(** As [heap_frame], except for the node [sid]. *)
Definition frame_except (sid : nat) (g g' : Game) : Prop :=
  (length (heap g) <= length (heap g'))%nat
  /\ (forall i, (i < length (heap g))%nat -> i <> sid ->
        heap g' !! i = heap g !! i)
  /\ (all_own_cells (heap g) -> all_own_cells (heap g')).

(** The loop of lines 304-306 as a function of the recursive call. *)
Definition linkTargets (fuel : nat) (simplified : NodeId)
    (ts : list NodeId) (og : option Game) : option Game :=
  fold_left
    (fun (og : option Game) (target : NodeId) =>
       match og with
       | None => None
       | Some g' =>
         match simplifyNode fuel g' target with
         | None => None
         | Some (g'', st) => Some (linkTarget simplified g'' st)
         end
       end)
    ts og.

(** ** Vocabulary for the raw node graph *)

(** The cell an offset of [arrow] resolves to. *)
Definition resolve (m : GameMap) (chunk : ChunkPos) (arrow : Arrow)
    (x y : Z) (d : Z * Z) : option ArrowRef :=
  match getArrowRelative m chunk arrow x y (fst d) (snd d) with
  | Some (tc, _, p) => Some (tc, p)
  | None => None
  end.

(** The raw node created for a cell, if any. *)
Definition nodeOf (m : GameMap) (r : ArrowRef) : option NodeId :=
  match arrowAt m r with
  | Some a => originalNode a
  | None => None
  end.

Definition same_shape (a a' : Arrow) : Prop :=
  arrowType a' = arrowType a /\ rotation a' = rotation a
  /\ flipped a' = flipped a /\ medalType a' = medalType a
  /\ active a' = active a /\ signalCount a' = signalCount a
  /\ lastState a' = lastState a.

(** What [createNode] may do to a cell: attach a node to a cell that had
    none. *)
Definition arrow_ext (a a' : Arrow) : Prop :=
  same_shape a a'
  /\ (forall nd, originalNode a = Some nd ->
        originalNode a' = Some nd /\ node a' = node a
        /\ offset a' = offset a).

Definition grid_ext (m m' : GameMap) : Prop :=
  (forall c, is_Some (m' !! c) -> is_Some (m !! c))
  /\ (forall r a, arrowAt m r = Some a ->
        exists a', arrowAt m' r = Some a' /\ arrow_ext a a').

(** What [createNode] may do to an existing node: register more sources. *)
Definition node_ext (n n' : LogicNode.t) : Prop :=
  LogicNode.arrows n' = LogicNode.arrows n
  /\ LogicNode.type n' = LogicNode.type n
  /\ LogicNode.size n' = LogicNode.size n
  /\ LogicNode.ready n' = LogicNode.ready n
  /\ LogicNode.targets n' = LogicNode.targets n
  /\ LogicNode.signals n' = LogicNode.signals n
  /\ LogicNode.signalCount n' = LogicNode.signalCount n
  /\ LogicNode.lastSignal n' = LogicNode.lastSignal n
  /\ LogicNode.lastSignalCount n' = LogicNode.lastSignalCount n
  /\ exists l, LogicNode.sources n' = LogicNode.sources n ++ l.

Definition raw_frame (g g' : Game) : Prop :=
  (length (heap g) <= length (heap g'))%nat
  /\ (forall i n, heap g !! i = Some n ->
        exists n', heap g' !! i = Some n' /\ node_ext n n')
  /\ nodes g' = nodes g /\ nodeArray g' = nodeArray g
  /\ simplifiedNodes g' = simplifiedNodes g.

(** The raw graph is well formed: a marked cell and its one-cell node point
    at each other, and every edge is recorded on both of its ends. *)
Definition raw_wf (g : Game) : Prop :=
  (forall r a nd, arrowAt (chunks g) r = Some a ->
      originalNode a = Some nd ->
      (0 < arrowType a)%nat /\ node a = Some nd /\ offset a = 0%nat
      /\ exists n, heap g !! nd = Some n
           /\ LogicNode.arrows n = [r]
           /\ LogicNode.type n = medalType a)
  /\ (forall nd n, heap g !! nd = Some n ->
        LogicNode.size n = 1%nat /\ LogicNode.ready n = false
        /\ LogicNode.signals n = [false]
        /\ LogicNode.signalCount n = 0%nat
        /\ exists r, LogicNode.arrows n = [r]
             /\ nodeOf (chunks g) r = Some nd)
  /\ (forall p n np nn, heap g !! p = Some np -> heap g !! n = Some nn ->
        count_occ Nat.eq_dec (LogicNode.targets np) n
        = count_occ Nat.eq_dec (LogicNode.sources nn) p)
  /\ (forall p np k, heap g !! p = Some np ->
        In k (LogicNode.targets np) \/ In k (LogicNode.sources np) ->
        (k < length (heap g))%nat).

(** The first [k] table entries of the cell [r] have been linked: the
    targets of its node are the nodes of the cells they resolve to. *)
Definition targets_upto (g : Game) (r : ArrowRef) (k : nat) : Prop :=
  exists a nd n,
    arrowAt (chunks g) r = Some a /\ originalNode a = Some nd
    /\ heap g !! nd = Some n
    /\ List.map Some (LogicNode.targets n)
       = List.map (nodeOf (chunks g))
           (omap (resolve (chunks g) (fst r) a (fst (snd r)) (snd (snd r)))
                 (take k (shape_offsets (arrowType a)))).

Definition complete (g : Game) (r : ArrowRef) : Prop :=
  exists a, arrowAt (chunks g) r = Some a
    /\ targets_upto g r (length (shape_offsets (arrowType a))).

(** A non-empty cell that has no raw node yet. *)
Definition is_unmarked (m : GameMap) (r : ArrowRef) : bool :=
  match arrowAt m r with
  | Some a =>
    (0 <? arrowType a)%nat
    && match originalNode a with None => true | Some _ => false end
  | None => false
  end.

Definition unmarked (refs : list ArrowRef) (m : GameMap) : nat :=
  length (List.filter (is_unmarked m) refs).

(** What a call of [createNode] establishes. *)
Definition created (g g' : Game) : Prop :=
  grid_ext (chunks g) (chunks g') /\ raw_frame g g' /\ raw_wf g'
  /\ (forall r, nodeOf (chunks g) r = None ->
        nodeOf (chunks g') r <> None -> complete g' r).

Definition created_res (g' : Game) (r : ArrowRef) (res : option NodeId)
  : Prop :=
  exists a', arrowAt (chunks g') r = Some a'
    /\ ((arrowType a' = 0%nat /\ res = None)
        \/ ((0 < arrowType a')%nat
            /\ exists nd, res = Some nd /\ originalNode a' = Some nd)).

(** The state of the loop of [createNode] over the table of the cell [r],
    started from [g0], after [k] entries. *)
Definition linking (g0 : Game) (r : ArrowRef) (k : nat) (g : Game) : Prop :=
  grid_ext (chunks g0) (chunks g) /\ raw_frame g0 g /\ raw_wf g
  /\ targets_upto g r k
  /\ nodeOf (chunks g) r = Some (length (heap g0))
  /\ (forall r', r' <> r -> nodeOf (chunks g0) r' = None ->
        nodeOf (chunks g) r' <> None -> complete g r').

(** [refs] lists every cell of every materialised chunk of [m]. *)
Definition covers (refs : list ArrowRef) (m : GameMap) : Prop :=
  forall r, is_Some (m !! fst r) ->
    0 <= fst (snd r) < CHUNK_SIZE -> 0 <= snd (snd r) < CHUNK_SIZE ->
    In r refs.

(** Every cell that has a raw node has all its targets linked. *)
Definition all_complete (g : Game) : Prop :=
  forall r, nodeOf (chunks g) r <> None -> complete g r.

(** A grid as it is after loading: no cell has a node yet. *)
Definition fresh (m : GameMap) : Prop :=
  forall r a, arrowAt m r = Some a ->
    originalNode a = None /\ node a = None.

(** An active cell that routes into itself, at the border of its chunk. *)
Definition selfGrid : GameMap :=
  {[ (0, 0) := chunkOf [ (15, 3, mkArrow 12 3 false 0 true 0
                                    (mkArrowState false 0) None None 0) ] ]}.

(** ** Vocabulary for the comparison of the two simulators *)

(** The number of times the cell [c] occurs in a list of cells. *)
Definition count_ref (c : ArrowRef) (l : list ArrowRef) : nat :=
  length (List.filter (ArrowRef_eqb c) l).

(** The forward targets of the cell at [r]. *)
Definition edges (m : GameMap) (r : ArrowRef) : list ArrowRef :=
  match arrowAt m r with
  | Some a => getTargetArrows m (fst r) a (fst (snd r)) (snd (snd r))
  | None => []
  end.

(** What the cell [p] sends to the cell [c] in the send pass. *)
Definition ca_contrib (m : GameMap) (c p : ArrowRef) : nat :=
  match arrowAt m p with
  | Some a =>
    if (0 <? arrowType a)%nat && active a then count_ref c (edges m p) else 0
  | None => 0
  end.

(** Two grids with the same chunks and the same shapes. *)
Definition grid_static (m m' : GameMap) : Prop :=
  (forall c, is_Some (m' !! c) <-> is_Some (m !! c))
  /\ (forall r a a', arrowAt m r = Some a -> arrowAt m' r = Some a' ->
        arrowType a' = arrowType a).

(** What a node sends to the node [t] in the first pass of [updateNodes]. *)
Definition node_contrib (h : list LogicNode.t) (t s : NodeId) : nat :=
  match h !! s with
  | Some n =>
    if LogicNode.signals_last n
    then count_occ Nat.eq_dec (LogicNode.targets n) t else 0%nat
  | None => 0%nat
  end.

(** [n'] is [n] up to the scratch values of a tick. *)
Definition node_dyn (n n' : LogicNode.t) : Prop :=
  LogicNode.arrows n' = LogicNode.arrows n
  /\ LogicNode.type n' = LogicNode.type n
  /\ LogicNode.size n' = LogicNode.size n
  /\ LogicNode.ready n' = LogicNode.ready n
  /\ LogicNode.targets n' = LogicNode.targets n
  /\ LogicNode.sources n' = LogicNode.sources n
  /\ LogicNode.signals n' = LogicNode.signals n.

Definition heap_dyn (h h' : list LogicNode.t) : Prop :=
  forall i n, h !! i = Some n -> exists n', h' !! i = Some n' /\ node_dyn n n'.

(** Where a cell sits in the compressed graph: its node and its offset. *)
Definition position (g : Game) (c : ArrowRef) : option (NodeId * nat) :=
  match arrowAt (chunks g) c with
  | Some a =>
    match node a with
    | Some nd => Some (nd, offset a)
    | None => None
    end
  | None => None
  end.

(** What the node model shows for a cell: [arrow.node.signals.at(offset)]. *)
Definition cell_view (g : Game) (c : ArrowRef) : option bool :=
  match position g c with
  | Some (nd, j) =>
    match heap g !! nd with
    | Some n => LogicNode.signals n !! j
    | None => None
    end
  | None => None
  end.

(** The compiled graph of [inverterGrid]. *)
Definition inverterGraph : Game :=
  default (gameOf inverterGrid) (compile [(0, 0)] 10 inverterGrid).

(** The cell [r] is the only cell of the live node [s]. *)
Definition sole_cell (g : Game) (r : ArrowRef) (s : NodeId) : Prop :=
  position g r = Some (s, 0%nat)
  /\ In s (nodes g)
  /\ exists n, heap g !! s = Some n
       /\ LogicNode.arrows n = [r] /\ LogicNode.size n = 1%nat.

(** The cell [c] belongs to a live node, which lists it at the offset
    the cell records. *)
Definition owned (g : Game) (c : ArrowRef) : Prop :=
  exists s k n,
    position g c = Some (s, k) /\ In s (nodes g)
    /\ heap g !! s = Some n /\ LogicNode.arrows n !! k = Some c.

(** The cells keep what the grid holds of them when nodes are cut. *)
Definition same_cells (g g' : Game) : Prop :=
  forall c,
    match arrowAt (chunks g) c, arrowAt (chunks g') c with
    | Some a, Some a' =>
      arrowType a' = arrowType a /\ rotation a' = rotation a
      /\ flipped a' = flipped a /\ medalType a' = medalType a
      /\ active a' = active a
    | None, None => True
    | _, _ => False
    end.

(** What the CA model shows for a cell. *)
Definition ca_view (m : GameMap) (c : ArrowRef) : option bool :=
  match arrowAt m c with
  | Some a => Some (active a)
  | None => None
  end.

(** Two grids that differ only in the state of the simulation. *)
Definition grid_dyn (m m' : GameMap) : Prop :=
  (forall c, is_Some (m' !! c) <-> is_Some (m !! c))
  /\ (forall r a, arrowAt m r = Some a ->
        exists a', arrowAt m' r = Some a'
          /\ arrowType a' = arrowType a /\ rotation a' = rotation a
          /\ flipped a' = flipped a /\ medalType a' = medalType a).

(** A live node of the compiled graph, against the grid it was compiled
    from: its cells sit at consecutive offsets, the first carries the
    node's function, every later one is a function-0 cell fed by its
    predecessor alone, and the node's targets are the nodes headed by the
    targets of its last cell. *)
Definition node_ok (m : GameMap) (g : Game) (s : NodeId) (n : LogicNode.t)
  : Prop :=
  length (LogicNode.signals n) = length (LogicNode.arrows n)
  /\ LogicNode.arrows n <> []
  /\ Forall (fun b => b = false) (LogicNode.signals n)
  /\ LogicNode.signalCount n = 0%nat
  /\ (forall j c, LogicNode.arrows n !! j = Some c ->
        (exists a, cell_of m c a) /\ position g c = Some (s, j))
  /\ (forall c a, LogicNode.arrows n !! 0%nat = Some c ->
        arrowAt m c = Some a -> LogicNode.type n = medalType a)
  /\ (forall j c c', LogicNode.arrows n !! j = Some c ->
        LogicNode.arrows n !! S j = Some c' ->
        edges m c = [c']
        /\ (forall a', arrowAt m c' = Some a' -> medalType a' = 0%nat)
        /\ (forall p ap, cell_of m p ap ->
              count_ref c' (edges m p) = if decide (p = c) then 1%nat
                                         else 0%nat))
  /\ (forall t nt h tl, In t (nodeArray g) -> heap g !! t = Some nt ->
        LogicNode.arrows nt !! 0%nat = Some h ->
        last (LogicNode.arrows n) = Some tl ->
        count_occ Nat.eq_dec (LogicNode.targets n) t
        = count_ref h (edges m tl)).

(** The compiled graph [g] represents the grid [m]. *)
Definition compiled_ok (m : GameMap) (g : Game) : Prop :=
  NoDup (nodeArray g)
  /\ (forall s, In s (nodeArray g) ->
        exists n, heap g !! s = Some n /\ node_ok m g s n)
  /\ (forall c a, cell_of m c a ->
        exists s j n, position g c = Some (s, j) /\ In s (nodeArray g)
          /\ heap g !! s = Some n /\ LogicNode.arrows n !! j = Some c).

(** A grid in which nothing is active and nothing has been sent. *)
Definition quiet (m : GameMap) : Prop :=
  forall r a, arrowAt m r = Some a ->
    active a = false /\ signalCount a = 0%nat.

(** [n] is the node [n0] at a later tick. *)
Definition node_static (n0 n : LogicNode.t) : Prop :=
  LogicNode.arrows n = LogicNode.arrows n0
  /\ LogicNode.type n = LogicNode.type n0
  /\ LogicNode.targets n = LogicNode.targets n0
  /\ length (LogicNode.signals n) = length (LogicNode.signals n0).

(** The two models agree: after the same number of ticks from the grid
    [m0] and its compiled graph [g0], every cell shows the same value in
    the grid [m] and in the graph [g]. *)
Definition agree (m0 : GameMap) (g0 : Game) (m : GameMap) (g : Game)
  : Prop :=
  grid_dyn m0 m
  /\ (forall c a, cell_of m c a -> signalCount a = 0%nat)
  /\ chunks g = chunks g0 /\ nodeArray g = nodeArray g0
  /\ length (heap g) = length (heap g0)
  /\ (forall i n0, heap g0 !! i = Some n0 ->
        exists n, heap g !! i = Some n /\ node_static n0 n)
  /\ (forall s n, In s (nodeArray g) -> heap g !! s = Some n ->
        LogicNode.signalCount n = 0%nat)
  /\ (forall c a, cell_of m c a -> cell_view g c = Some (active a)).

(** The last cell of a node. *)
Definition tailOf (g : Game) (s : NodeId) : ArrowRef :=
  match heap g !! s with
  | Some n => List.last (LogicNode.arrows n) ((0, 0), (0, 0))
  | None => ((0, 0), (0, 0))
  end.

(** Only cells inside the chunk bounds carry a raw node, and before the
    simplification the node of a cell is its raw node. *)
Definition marked_in_range (g : Game) : Prop :=
  (forall r nd, nodeOf (chunks g) r = Some nd ->
     0 <= fst (snd r) < CHUNK_SIZE /\ 0 <= snd (snd r) < CHUNK_SIZE)
  /\ (forall r a, arrowAt (chunks g) r = Some a -> node a = originalNode a).

(** ** Vocabulary for the simplification *)

Definition offsetOf (m : GameMap) (c : ArrowRef) : nat :=
  match arrowAt m c with
  | Some a => offset a
  | None => 0%nat
  end.

(** [a'] is [a] up to its [offset]. *)
Definition offset_only (a a' : Arrow) : Prop :=
  same_shape a a' /\ node a' = node a /\ originalNode a' = originalNode a.

Definition grid_off (m m' : GameMap) : Prop :=
  (forall c, is_Some (m' !! c) <-> is_Some (m !! c))
  /\ (forall r a, arrowAt m r = Some a ->
        exists a', arrowAt m' r = Some a' /\ offset_only a a').

(** The cell [c'] can be fused behind the cell [c]: it is the only target
    of [c], it has function 0, and [c] is its only source. *)
Definition link (m : GameMap) (c c' : ArrowRef) : Prop :=
  edges m c = [c']
  /\ (forall a', arrowAt m c' = Some a' -> medalType a' = 0%nat)
  /\ (forall p ap, cell_of m p ap ->
        count_ref c' (edges m p) = if decide (p = c) then 1%nat else 0%nat).

Definition memo_le (g g' : Game) : Prop :=
  forall y s, simplifiedNodes g !! y = Some s ->
    simplifiedNodes g' !! y = Some s.

(** The simplified node [n] of the raw node [x], in the state [g] of the
    simplification of the raw graph [gr] of the grid [m]. *)
Definition chain (m : GameMap) (gr g : Game) (x : NodeId) (n : LogicNode.t)
  : Prop :=
  (exists c0, nodeOf (chunks gr) c0 = Some x
     /\ LogicNode.arrows n !! 0%nat = Some c0
     /\ forall a, arrowAt m c0 = Some a -> LogicNode.type n = medalType a)
  /\ LogicNode.size n = length (LogicNode.arrows n)
  /\ LogicNode.signals n = replicate (LogicNode.size n) false
  /\ LogicNode.signalCount n = 0%nat
  /\ (forall j c, LogicNode.arrows n !! j = Some c ->
        (exists y, nodeOf (chunks gr) c = Some y
           /\ is_Some (simplifiedNodes g !! y))
        /\ offsetOf (chunks g) c = j)
  /\ (forall j c c', LogicNode.arrows n !! j = Some c ->
        LogicNode.arrows n !! S j = Some c' -> link m c c')
  /\ (LogicNode.ready n = false -> length (LogicNode.arrows n) = 1%nat)
  /\ (LogicNode.ready n = true ->
      forall tl xt rt, last (LogicNode.arrows n) = Some tl ->
        nodeOf (chunks gr) tl = Some xt -> heap gr !! xt = Some rt ->
        List.map Some (LogicNode.targets n)
        = List.map (fun y => simplifiedNodes g !! y) (LogicNode.targets rt)).

(** The invariant of the simplification: the raw nodes are untouched, the
    memo sends raw nodes to distinct simplified ones, every live node is a
    chain of cells at consecutive offsets, and the visited cells are
    partitioned among the live nodes. *)
Record simp_inv (m : GameMap) (gr g : Game) : Prop := mk_simp_inv {
  si_raw : forall x, (x < length (heap gr))%nat -> heap g !! x = heap gr !! x;
  si_len : (length (heap gr) <= length (heap g))%nat;
  si_grid : grid_off (chunks gr) (chunks g);
  si_memo_range : forall x s, (x < length (heap gr))%nat ->
      simplifiedNodes g !! x = Some s ->
      (length (heap gr) <= s < length (heap g))%nat;
  si_memo_inj : forall x x' s,
      (x < length (heap gr))%nat -> (x' < length (heap gr))%nat ->
      simplifiedNodes g !! x = Some s -> simplifiedNodes g !! x' = Some s ->
      x = x';
  si_memo_dom : forall y, is_Some (simplifiedNodes g !! y) ->
      (y < length (heap g))%nat;
  si_nodup : NoDup (nodes g);
  si_live : forall s, In s (nodes g) ->
      exists x n, (x < length (heap gr))%nat
        /\ simplifiedNodes g !! x = Some s /\ heap g !! s = Some n
        /\ chain m gr g x n;
  si_part : forall y c, nodeOf (chunks gr) c = Some y ->
      is_Some (simplifiedNodes g !! y) ->
      exists s n j, In s (nodes g) /\ heap g !! s = Some n
        /\ LogicNode.arrows n !! j = Some c;
  si_uniq : forall s s' n n' j j' c,
      In s (nodes g) -> In s' (nodes g) ->
      heap g !! s = Some n -> heap g !! s' = Some n' ->
      LogicNode.arrows n !! j = Some c -> LogicNode.arrows n' !! j' = Some c ->
      s = s' /\ j = j';
  si_dead : forall y s c, nodeOf (chunks gr) c = Some y ->
      simplifiedNodes g !! y = Some s -> ~ In s (nodes g) ->
      (1 <= offsetOf (chunks g) c)%nat;
  si_unvisited : forall y c, nodeOf (chunks gr) c = Some y ->
      simplifiedNodes g !! y = None -> offsetOf (chunks g) c = 0%nat
}.

(** What the construction of the node [sid] does to the rest of the state
    between [g] and [g']: the memo grows, every other node object is kept,
    every other unfinished node stays live, and every other new node is
    finished. *)
Definition simp_step (sid : NodeId) (g g' : Game) : Prop :=
  memo_le g g'
  /\ (length (heap g) <= length (heap g'))%nat
  /\ (forall i, (i < length (heap g))%nat -> i <> sid ->
        heap g' !! i = heap g !! i)
  /\ (forall s0 n0, s0 <> sid -> In s0 (nodes g) -> heap g !! s0 = Some n0 ->
        LogicNode.ready n0 = false -> In s0 (nodes g'))
  /\ (forall i, (length (heap g) <= i < length (heap g'))%nat -> i <> sid ->
        exists n, heap g' !! i = Some n /\ LogicNode.ready n = true).

(** What a call of [simplifyNode] does to the state. *)
Definition simp_call (g g' : Game) : Prop :=
  memo_le g g'
  /\ (length (heap g) <= length (heap g'))%nat
  /\ (forall i, (i < length (heap g))%nat -> heap g' !! i = heap g !! i)
  /\ (forall s0 n0, In s0 (nodes g) -> heap g !! s0 = Some n0 ->
        LogicNode.ready n0 = false -> In s0 (nodes g'))
  /\ (forall i, (length (heap g) <= i < length (heap g'))%nat ->
        exists n, heap g' !! i = Some n /\ LogicNode.ready n = true).

(** The raw nodes [simplifyNode] has not reached yet. *)
Definition is_unvisited (g : Game) (x : NodeId) : bool :=
  match simplifiedNodes g !! x with
  | None => true
  | Some _ => false
  end.

Definition unvisited (k : nat) (g : Game) : nat :=
  length (List.filter (is_unvisited g) (seq 0 k)).

(** Every simplified node is finished. *)
Definition all_ready (gr g : Game) : Prop :=
  forall i n, (length (heap gr) <= i)%nat -> heap g !! i = Some n ->
    LogicNode.ready n = true.

(** The loop of lines 264-271 over a list of cells. *)
Definition simplifyCells (fuel : nat) (l : list ArrowRef) (og : option Game)
  : option Game :=
  fold_left
    (fun (og : option Game) (r : ArrowRef) =>
       match og with
       | None => None
       | Some g' =>
         match arrowAt (chunks g') r with
         | None => None
         | Some arrow =>
           match node arrow with
           | None => Some g'
           | Some nd =>
             match simplifyNode fuel g' nd with
             | None => None
             | Some (g'', _) => Some g''
             end
           end
         end
       end)
    l og.

(** A live node after the simplification, before its cells are pointed at
    it. *)
Definition live_node (m : GameMap) (g : Game) (n : LogicNode.t) : Prop :=
  length (LogicNode.signals n) = length (LogicNode.arrows n)
  /\ LogicNode.arrows n <> []
  /\ Forall (fun b => b = false) (LogicNode.signals n)
  /\ LogicNode.signalCount n = 0%nat
  /\ (forall j c, LogicNode.arrows n !! j = Some c ->
        (exists a, cell_of m c a) /\ offsetOf (chunks g) c = j
        /\ is_Some (arrowAt (chunks g) c))
  /\ (forall c a, LogicNode.arrows n !! 0%nat = Some c ->
        arrowAt m c = Some a -> LogicNode.type n = medalType a)
  /\ (forall j c c', LogicNode.arrows n !! j = Some c ->
        LogicNode.arrows n !! S j = Some c' -> link m c c')
  /\ (forall t nt h tl, In t (nodes g) -> heap g !! t = Some nt ->
        LogicNode.arrows nt !! 0%nat = Some h ->
        last (LogicNode.arrows n) = Some tl ->
        count_occ Nat.eq_dec (LogicNode.targets n) t
        = count_ref h (edges m tl)).

Definition live_ok (m : GameMap) (g : Game) : Prop :=
  NoDup (nodes g)
  /\ (forall s, In s (nodes g) ->
        exists n, heap g !! s = Some n /\ live_node m g n)
  /\ (forall s s' n n' j j' c,
        In s (nodes g) -> In s' (nodes g) ->
        heap g !! s = Some n -> heap g !! s' = Some n' ->
        LogicNode.arrows n !! j = Some c ->
        LogicNode.arrows n' !! j' = Some c -> s = s')
  /\ (forall c a, cell_of m c a ->
        exists s j n, In s (nodes g) /\ heap g !! s = Some n
          /\ LogicNode.arrows n !! j = Some c).

(** ** Vocabulary for the last loop of [simplifyNodes] *)

(** [n'] is [n] with more sources registered. *)
Definition src_only (n n' : LogicNode.t) : Prop :=
  LogicNode.arrows n' = LogicNode.arrows n
  /\ LogicNode.type n' = LogicNode.type n
  /\ LogicNode.targets n' = LogicNode.targets n
  /\ LogicNode.signals n' = LogicNode.signals n
  /\ LogicNode.signalCount n' = LogicNode.signalCount n.

Definition nodeAt (mm : GameMap) (c : ArrowRef) : option NodeId :=
  match arrowAt mm c with
  | Some a => node a
  | None => None
  end.

Definition relinked (g g' : Game) : Prop :=
  nodes g' = nodes g
  /\ (forall i n, heap g !! i = Some n ->
        exists n', heap g' !! i = Some n' /\ src_only n n')
  /\ (forall c, offsetOf (chunks g') c = offsetOf (chunks g) c)
  /\ (forall c, is_Some (arrowAt (chunks g') c)
                <-> is_Some (arrowAt (chunks g) c)).

(** The second invariant of the simplification: no simplified node has a
    source yet, and every target of a live node is itself live and stands
    for a raw target of the node's last cell. *)
Record simp_inv2 (gr g : Game) : Prop := mk_simp_inv2 {
  si_sources : forall i n, (length (heap gr) <= i)%nat ->
      heap g !! i = Some n -> LogicNode.sources n = [];
  si_targets : forall s n t, In s (nodes g) -> heap g !! s = Some n ->
      In t (LogicNode.targets n) ->
      In t (nodes g)
      /\ exists tl z rz y,
           last (LogicNode.arrows n) = Some tl
           /\ nodeOf (chunks gr) tl = Some z /\ heap gr !! z = Some rz
           /\ In y (LogicNode.targets rz)
           /\ simplifiedNodes g !! y = Some t
}.

(** The targets of a node of the arena, none for a missing node. *)
Definition targets_of (g : Game) (s : NodeId) : list NodeId :=
  match heap g !! s with
  | Some n => LogicNode.targets n
  | None => []
  end.

(** The flat list of a compiled graph is closed under edges, its nodes are
    finished and as large as their cell lists, and their sources are the
    reverse of their targets. *)
Definition graph_ok (g : Game) : Prop :=
  nodes g = nodeArray g
  /\ (forall s n, In s (nodeArray g) -> heap g !! s = Some n ->
        LogicNode.size n = length (LogicNode.arrows n)
        /\ LogicNode.ready n = true)
  /\ (forall s n t, In s (nodeArray g) -> heap g !! s = Some n ->
        In t (LogicNode.targets n) -> In t (nodeArray g))
  /\ (forall s t ns nt, In s (nodeArray g) -> In t (nodeArray g) ->
        heap g !! s = Some ns -> heap g !! t = Some nt ->
        count_occ Nat.eq_dec (LogicNode.sources nt) s
        = count_occ Nat.eq_dec (LogicNode.targets ns) t)
  /\ (forall s t nt, In t (nodeArray g) -> heap g !! t = Some nt ->
        In s (LogicNode.sources nt) -> In s (nodeArray g)).

(** The cells of a node of the arena, none for a missing node. *)
Definition arrows_of (g : Game) (s : NodeId) : list ArrowRef :=
  match heap g !! s with
  | Some n => LogicNode.arrows n
  | None => []
  end.

Definition size_of (g : Game) (s : NodeId) : nat :=
  match heap g !! s with
  | Some n => LogicNode.size n
  | None => 0%nat
  end.

(** A cell of a materialised chunk that holds an arrow. *)
Definition nonempty (m : GameMap) (c : ArrowRef) : bool :=
  match arrowAt m c with
  | Some a => (0 <? arrowType a)%nat
  | None => false
  end.

(** ** Vocabulary for what a tick leaves alone *)

(** The fields of a cell no tick assigns: what the player drew and what the
    compiler wrote. *)
Definition same_drawing (a a' : Arrow) : Prop :=
  arrowType a' = arrowType a /\ rotation a' = rotation a
  /\ flipped a' = flipped a /\ medalType a' = medalType a
  /\ node a' = node a /\ originalNode a' = originalNode a
  /\ offset a' = offset a.

(** A grid at rest: no cell the loops of the engine visit is active or has
    a signal pending. *)
Definition at_rest (m : GameMap) : Prop :=
  forall r a, In r (all_cells m) -> arrowAt m r = Some a ->
    active a = false /\ signalCount a = 0%nat.

(** ** The reset key *)

(** Lines 929-931 of [onKeyDown]: the three assignments, in order. *)
Definition resetArrow (arrow : Arrow) : Arrow :=
  let a1 := mkArrow (arrowType arrow) (rotation arrow) (flipped arrow)
                    (medalType arrow) (active arrow) 0 (lastState arrow)
                    (node arrow) (originalNode arrow) (offset arrow) in
  let a2 := mkArrow (arrowType a1) (rotation a1) (flipped a1)
                    (medalType a1) false (signalCount a1) (lastState a1)
                    (node a1) (originalNode a1) (offset a1) in
  mkArrow (arrowType a2) (rotation a2) (flipped a2) (medalType a2)
          (active a2) (signalCount a2) (copyState a2) (node a2)
          (originalNode a2) (offset a2).

(** Lines 924-933: key N visits every cell of every chunk. *)
Definition onKeyDown_KeyN (m : GameMap) : GameMap :=
  fold_left (fun m' r => updateArrow m' r resetArrow) (all_cells m) m.

(** ** Vocabulary for the senders of a cell *)

(** [arrow.active] of the cell at [r], false where there is no chunk. *)
Definition is_active (m : GameMap) (r : ArrowRef) : bool :=
  match arrowAt m r with
  | Some a => active a
  | None => false
  end.

(** ** Drawing *)

(** The three colours [draw] paints a cell in: [1, 0, 0], [.3, .5, 1] and
    [1, 1, 1]. *)
Inductive Color := Red | Blue | White.

(** Lines 729-731 of [draw]: the colour of a cell while the CA is shown. *)
Definition draw_colorCA (arrow : Arrow) : Color :=
  if active arrow then Red
  else if (0 <? st_signalCount (lastState arrow))%nat then Blue
  else White.

(** Modelled from the spec: [signals.at(i)] of the missing [LogicNode]
    history reads the entry at offset [i], offset 0 being the newest; a
    missing entry reads as [undefined], which every test takes for
    false. *)
Definition signals_at (n : LogicNode.t) (i : nat) : bool :=
  default false (LogicNode.signals n !! i).

(** Lines 733-735: the colour while the node model is shown. [None] stands
    for the exception raised when [arrow.node] is not a node. *)
Definition draw_colorNodes (g : Game) (arrow : Arrow) : option Color :=
  match node arrow with
  | None => None
  | Some nd =>
    match heap g !! nd with
    | None => None
    | Some n =>
      Some (if signals_at n (offset arrow) then Red
            else if (offset arrow =? 0)%nat
                    && (0 <? LogicNode.lastSignalCount n)%nat then Blue
            else White)
    end
  end.

(** ** Placing a cell *)

(** [~~v] on a number whose value is the integer [z] (ToInt32): the value
    wrapped to the 32-bit two's-complement range. *)
Definition toInt32 (z : Z) : Z := (z + 2 ^ 31) mod 2 ^ 32 - 2 ^ 31.

(** Lines 629-632 of [updatePlayerInput], on an integer coordinate:
    [nX = +(x < 0)] and [~~((x + nX) / 16) - nX]. The division by 16 is
    exact in a double, and [~~] drops the fraction toward zero before it
    wraps. *)
Definition place_chunk (x : Z) : Z :=
  let nX := if x <? 0 then 1 else 0 in
  toInt32 (Z.quot (x + nX) 16) - nX.

(** Lines 640 and 642: the local coordinate handed to the resolvers,
    [x - chunkX * CHUNK_SIZE]. *)
Definition place_local (x : Z) : Z := x - place_chunk x * CHUNK_SIZE.

(** The cell the placement path hands to [getTargetArrows] and
    [getSourceArrows] for the world coordinate [(x, y)]. *)
Definition place_ref (x y : Z) : ArrowRef :=
  ((place_chunk x, place_chunk y), (place_local x, place_local y)).

(** ** Vocabulary for what the compiler leaves alone *)

(** The grid [m'] holds, in the same chunks, cells with the shape and the
    state of those of [m]: only [node], [originalNode] and [offset] may
    differ. *)
Definition grid_kept (m m' : GameMap) : Prop :=
  (forall c, is_Some (m' !! c) <-> is_Some (m !! c))
  /\ (forall r a, arrowAt m r = Some a ->
        exists a', arrowAt m' r = Some a' /\ same_shape a a').

(** ** Clicking a cell *)

(** Line 995 of [onClick]: [arrow.active = !arrow.active]. *)
Definition toggleActive (a : Arrow) : Arrow :=
  mkArrow (arrowType a) (rotation a) (flipped a) (medalType a)
          (negb (active a)) (signalCount a) (lastState a) (node a)
          (originalNode a) (offset a).

(** Modelled from the spec: [signals.set(i, v)] of the missing [LogicNode]
    history overwrites the entry at offset [i]; the capacity stays what it
    was, so a write outside it changes nothing. *)
Definition signals_set (n : LogicNode.t) (i : nat) (v : bool)
  : LogicNode.t :=
  LogicNode.mk (LogicNode.arrows n) (LogicNode.type n) (LogicNode.size n)
    (LogicNode.ready n) (LogicNode.targets n) (LogicNode.sources n)
    (<[i := v]> (LogicNode.signals n))
    (LogicNode.signalCount n) (LogicNode.lastSignal n)
    (LogicNode.lastSignalCount n).

(** Lines 990-995 of [onClick] with nothing selected, while the CA is
    shown; [c] is the place under the pointer. *)
Definition onClick_CA (m : GameMap) (c : ArrowRef) : GameMap :=
  match arrowAt m c with
  | None => m
  | Some arrow =>
    if (arrowType arrow =? 0)%nat then m
    else updateArrow m c toggleActive
  end.

(** Lines 990-997 while the node model is shown. [None] stands for the
    exception raised when [arrow.node] is not a node. *)
Definition onClick_nodes (g : Game) (c : ArrowRef) : option Game :=
  match arrowAt (chunks g) c with
  | None => Some g
  | Some arrow =>
    if (arrowType arrow =? 0)%nat then Some g
    else
      match node arrow with
      | None => None
      | Some nd =>
        match heap g !! nd with
        | None => None
        | Some _ =>
          Some (alterNode g nd
                  (fun n => signals_set n (offset arrow)
                              (negb (signals_at n (offset arrow)))))
        end
      end
  end.

(** ** The visiting order of the two passes *)

(** [updateCA] when [chunks.forEach] and the loops over a chunk hand the
    cells to the first loop nest in the order [l1] and to the second in
    the order [l2]. *)
Definition updateCA_in (l1 l2 : list ArrowRef) (m : GameMap) : GameMap :=
  fold_left (fun m' r => updateArrow m' r updateCA_cell) l2
            (fold_left updateCA_send l1 m).

(** [updateNodes] when the first [forEach] visits the nodes in the order
    [l1] and the second in the order [l2]. *)
Definition updateNodes_in (l1 l2 : list NodeId) (g : Game) : Game :=
  set_heap g
    (fold_left (fun h nd => alter updateNodes_node nd h) l2
               (fold_left updateNodes_send l1 (heap g))).

(** ** Copying a selection *)

(** Lines 1013-1021 of [copy]: the smallest coordinate among the
    highlighted positions, [None] standing for [Infinity], the value the
    loop starts from. The highlighted set is given by the positions
    [hash2pos] yields for its elements, in iteration order. *)
Definition copy_min (coord : Z * Z -> Z) (highlighted : list (Z * Z))
  : option Z :=
  fold_left
    (fun mn pos =>
       match mn with
       | None => Some (coord pos)
       | Some v => if coord pos <? v then Some (coord pos) else Some v
       end)
    highlighted None.

(** Lines 1022-1025: the place in the temporary map each highlighted
    position is merged into, [(arrowX - minX, arrowY - minY)], paired with
    the position it is read from. With nothing highlighted the loop body
    never runs. *)
Definition copy_places (highlighted : list (Z * Z))
  : list ((Z * Z) * (Z * Z)) :=
  match copy_min fst highlighted, copy_min snd highlighted with
  | Some minX, Some minY =>
    List.map (fun pos => ((fst pos - minX, snd pos - minY), pos)) highlighted
  | _, _ => []
  end.

(** ** Turning and mirroring the cell under the pointer *)

(** The keys [isKeyPressed] is asked about in lines 658-663. *)
Record HeldKeys := mkHeldKeys {
  KeyW : bool; KeyA : bool; KeyS : bool; KeyD : bool; KeyF : bool
}.

Definition set_rotation (a : Arrow) (r : nat) : Arrow :=
  mkArrow (arrowType a) r (flipped a) (medalType a) (active a)
          (signalCount a) (lastState a) (node a) (originalNode a)
          (offset a).

Definition set_flipped (a : Arrow) (b : bool) : Arrow :=
  mkArrow (arrowType a) (rotation a) b (medalType a) (active a)
          (signalCount a) (lastState a) (node a) (originalNode a)
          (offset a).

(** Lines 658-671 of [updatePlayerInput], for a non-empty cell under the
    pointer while no arrows are selected: the new cell and the new
    [flipState] ([None] for [undefined]). *)
Definition turn_or_flip (keys : HeldKeys) (arrow : Arrow)
    (flipState : option bool) : Arrow * option bool :=
  if KeyW keys then (set_rotation arrow 0, flipState)
  else if KeyA keys then (set_rotation arrow 1, flipState)
  else if KeyS keys then (set_rotation arrow 2, flipState)
  else if KeyD keys then (set_rotation arrow 3, flipState)
  else if KeyF keys then
    match flipState with
    | None =>
      let v := negb (flipped arrow) in (set_flipped arrow v, Some v)
    | Some v => (set_flipped arrow v, Some v)
    end
  else (arrow, None).

(** Lines 656-673 in one frame with the pointer over the place [c]: the
    block is skipped when there is no cell there or the cell is empty. *)
Definition frame_turn (keys : HeldKeys) (st : GameMap * option bool)
    (c : ArrowRef) : GameMap * option bool :=
  match arrowAt (fst st) c with
  | None => st
  | Some arrow =>
    if (0 <? arrowType arrow)%nat then
      (updateArrow (fst st) c (fun a => fst (turn_or_flip keys a (snd st))),
       snd (turn_or_flip keys arrow (snd st)))
    else st
  end.

(** Only the mirror key is held. *)
Definition holdF : HeldKeys := mkHeldKeys false false false false true.

(** ** Vocabulary for a graph at rest *)

(** A graph at rest: every node of the flat list has an all-false history
    and no signal pending. *)
Definition nodes_at_rest (g : Game) : Prop :=
  forall s n, In s (nodeArray g) -> heap g !! s = Some n ->
    Forall (fun b => b = false) (LogicNode.signals n)
    /\ LogicNode.signalCount n = 0%nat.

(** ** From the screen to a cell *)

(** Line 828 of [screenToWorld], [~~arrowX - +(arrowX < 0)], on a finite
    number: [v] is the exact value of the double [arrowX], a rational;
    [~~] drops its fraction toward zero and wraps to 32 bits. *)
Definition cell_index (v : QArith_base.Q) : Z :=
  toInt32 (Z.quot (QArith_base.Qnum v) (Zpos (QArith_base.Qden v)))
  - (if QArith_base.Qnum v <? 0 then 1 else 0).

(** ** Counting the signals of a send pass *)

(** [arrow.signalCount] of the cell at [c], 0 where there is no chunk. *)
Definition count_at (m : GameMap) (c : ArrowRef) : nat :=
  match arrowAt m c with
  | Some a => signalCount a
  | None => 0%nat
  end.

(** The number of [sendSignal] calls of the cell at [p] that find a
    target: none unless the cell is non-empty and active. *)
Definition sent_by (m : GameMap) (p : ArrowRef) : nat :=
  match arrowAt m p with
  | Some a =>
    if (0 <? arrowType a)%nat && active a then length (edges m p) else 0%nat
  | None => 0%nat
  end.

(** The raw graph of [inverterGrid], and the state of its simplification
    once the loop has visited the cell (3,4) and not yet the inverter at
    (3,5). *)
Definition inverterRaw : Game :=
  default (gameOf inverterGrid)
          (createNodes [(0, 0)] 257 (gameOf inverterGrid)).

Definition inverterHalf : Game :=
  default inverterRaw
          (simplifyCells 257 (take 68 (cells_in [(0, 0)]))
                         (Some (set_simplifiedNodes inverterRaw ∅))).

(** * Properties *)

(** ** Resolver: transform *)

Lemma quarter_turn_eq v : quarter_turn v = (snd v, - fst v).
Proof. destruct v as [a b]; unfold quarter_turn; simpl; f_equal; lia. Qed.

Lemma transform_same arrow x y dx dy :
  addTargetNode_transform arrow x y dx dy
  = getArrowRelative_transform arrow x y dx dy.
Proof.
  unfold addTargetNode_transform, getArrowRelative_transform.
  destruct (rotation arrow) as [|[|[|[|r]]]]; reflexivity.
Qed.

(** C6: the resolver mirrors the lateral component first and then applies
    the quarter turn [rotation] times; a rotation of 2 negates both
    components; [addTargetNode] and [getArrowRelative] compute the same
    coordinate. *)
Theorem transform_mirror_then_turn (arrow : Arrow) (x y dx dy : Z) :
  (rotation arrow < 4)%nat ->
  let v := Nat.iter (rotation arrow) quarter_turn (mirror arrow dx, dy) in
  getArrowRelative_transform arrow x y dx dy = (x + fst v, y + snd v)
  /\ (rotation arrow = 2%nat ->
      getArrowRelative_transform arrow x y dx dy
      = (x - mirror arrow dx, y - dy))
  /\ (forall a b, quarter_turn (quarter_turn (a, b)) = (- a, - b))
  /\ addTargetNode_transform arrow x y dx dy
     = getArrowRelative_transform arrow x y dx dy.
Proof.
  intros Hr v. subst v.
  split; [|split; [|split]].
  - unfold getArrowRelative_transform, mirror.
    destruct (rotation arrow) as [|[|[|[|r]]]]; try lia;
      simpl; rewrite ?quarter_turn_eq; simpl; f_equal; lia.
  - intros H2. unfold getArrowRelative_transform, mirror. rewrite H2.
    reflexivity.
  - intros a b. rewrite !quarter_turn_eq. simpl. f_equal.
  - apply transform_same.
Qed.

Lemma transform_mirror_then_turn_witness :
  getArrowRelative_transform (mkArrow 8 3 true 0 false 0
                                (mkArrowState false 0) None None 0)
                             4 7 1 (-1)
  = (5, 6).
Proof.
  pose proof (transform_mirror_then_turn
                (mkArrow 8 3 true 0 false 0 (mkArrowState false 0)
                         None None 0) 4 7 1 (-1)) as H.
  simpl in H. destruct H as [H _]; [lia|]. rewrite H.
  vm_compute. reflexivity.
Defined.

(** ** Resolver: chunk borders and missing edges *)

Lemma transform_bounds arrow x y dx dy x1 y1 :
  getArrowRelative_transform arrow x y dx dy = (x1, y1) ->
  Z.abs (x1 - x) + Z.abs (y1 - y) <= Z.abs dx + Z.abs dy.
Proof.
  unfold getArrowRelative_transform.
  destruct (flipped arrow), (rotation arrow) as [|[|[|[|r]]]];
    intros [= <- <-]; lia.
Qed.

Lemma rebase_spec x1 y1 sel x2 y2 :
  - CHUNK_SIZE <= x1 < 2 * CHUNK_SIZE ->
  - CHUNK_SIZE <= y1 < 2 * CHUNK_SIZE ->
  rebase x1 y1 = (sel, (x2, y2)) ->
  (0 <= x2 < CHUNK_SIZE /\ 0 <= y2 < CHUNK_SIZE)
  /\ x1 = x2 + CHUNK_SIZE * fst (chunk_step sel)
  /\ y1 = y2 + CHUNK_SIZE * snd (chunk_step sel)
  /\ fst (chunk_step sel) = x1 / CHUNK_SIZE
  /\ snd (chunk_step sel) = y1 / CHUNK_SIZE.
Proof.
  unfold rebase, CHUNK_SIZE. intros Hx Hy.
  assert (Hdx : x1 / 16 = -1 \/ x1 / 16 = 0 \/ x1 / 16 = 1) by
    (pose proof (Z.div_mod x1 16); pose proof (Z.mod_pos_bound x1 16); lia).
  assert (Hdy : y1 / 16 = -1 \/ y1 / 16 = 0 \/ y1 / 16 = 1) by
    (pose proof (Z.div_mod y1 16); pose proof (Z.mod_pos_bound y1 16); lia).
  pose proof (Z.div_mod x1 16) as Ex. pose proof (Z.mod_pos_bound x1 16) as Bx.
  pose proof (Z.div_mod y1 16) as Ey. pose proof (Z.mod_pos_bound y1 16) as By.
  destruct (x1 >=? 16) eqn:E1; [|destruct (x1 <? 0) eqn:E2];
    (destruct (y1 >=? 16) eqn:E3; [|destruct (y1 <? 0) eqn:E4]);
    try (destruct (y1 <? 0) eqn:E5);
    intros [= <- <- <-]; simpl; lia.
Qed.

Lemma ArrowRef_eqb_eq a b : ArrowRef_eqb a b = true <-> a = b.
Proof.
  destruct a as [[a1 a2] [a3 a4]], b as [[b1 b2] [b3 b4]].
  unfold ArrowRef_eqb; simpl.
  rewrite !andb_true_iff, !Z.eqb_eq.
  split; [intros [[[-> ->] ->] ->]; reflexivity|intros [= -> -> -> ->]; auto].
Qed.

Lemma getArrowRelative_Some m chunk arrow x y dx dy tc a p :
  getArrowRelative m chunk arrow x y dx dy = Some (tc, a, p) ->
  arrowAt m (tc, p) = Some a /\ (0 < arrowType a)%nat.
Proof.
  unfold getArrowRelative, arrowAt.
  destruct (getArrowRelative_transform arrow x y dx dy) as [x1 y1].
  destruct (rebase x1 y1) as [sel [x2 y2]].
  destruct (targetChunk m chunk sel) as [tc'|]; [|discriminate].
  destruct (m !! tc') as [c|] eqn:Hc; [|discriminate].
  destruct (0 <? arrowType (getArrow c x2 y2))%nat eqn:Hpos; [|discriminate].
  intros [= <- <- <-]. simpl. rewrite Hc. split; [reflexivity|].
  apply Nat.ltb_lt in Hpos. exact Hpos.
Qed.

Lemma In_getTargetArrows m chunk arrow x y r :
  In r (getTargetArrows m chunk arrow x y) <->
  exists d a, In d (shape_offsets (arrowType arrow))
    /\ getArrowRelative m chunk arrow x y (fst d) (snd d)
       = Some (fst r, a, snd r).
Proof.
  unfold getTargetArrows. rewrite <- list_elem_of_In, list_elem_of_omap.
  split.
  - intros [d [Hd Hr]]. apply list_elem_of_In in Hd.
    destruct (getArrowRelative m chunk arrow x y (fst d) (snd d))
      as [[[tc a] p]|] eqn:E; [|discriminate].
    injection Hr as <-. exists d, a. auto.
  - intros [d [a [Hd Hr]]]. exists d. split; [apply list_elem_of_In, Hd|].
    rewrite Hr. destruct r; reflexivity.
Qed.

Lemma getTargetArrows_nonempty m chunk arrow x y r :
  In r (getTargetArrows m chunk arrow x y) ->
  exists a, arrowAt m r = Some a /\ (0 < arrowType a)%nat.
Proof.
  intros H. apply In_getTargetArrows in H as [d [a [_ H]]].
  apply getArrowRelative_Some in H. exists a. destruct r; exact H.
Qed.

Lemma In_getSourceArrows m chunk arrow x y r :
  In r (getSourceArrows m chunk arrow x y) <->
  exists a,
    ((fst r, a, snd r) = (chunk, arrow, (x, y))
     \/ exists d, In d source_candidates
          /\ getArrowRelative m chunk arrow x y (fst d) (snd d)
             = Some (fst r, a, snd r))
    /\ In (chunk, (x, y))
          (getTargetArrows m (fst r) a (fst (snd r)) (snd (snd r))).
Proof.
  unfold getSourceArrows. rewrite in_map_iff. split.
  - intros [[[sc sa] [sx sy]] [<- Hin]]. cbn [fst snd].
    apply filter_In in Hin as [Hfound Hkeep].
    exists sa. split.
    + apply list_elem_of_In, list_elem_of_omap in Hfound
        as [o [Ho Heq]]. simpl in Heq. subst o.
      apply list_elem_of_In in Ho. destruct Ho as [Ho|Ho].
      * left. injection Ho as <- <- <- <-. reflexivity.
      * right. apply in_map_iff in Ho as [d [Hd Hin]]. exists d. auto.
    + apply existsb_exists in Hkeep as [r' [Hr' Heq]].
      apply ArrowRef_eqb_eq in Heq. subst r'. exact Hr'.
  - intros [a [Hfrom Hto]]. destruct r as [sc [sx sy]].
    cbn [fst snd] in Hfrom, Hto.
    exists (sc, a, (sx, sy)). split; [reflexivity|].
    apply filter_In. split.
    + apply list_elem_of_In, list_elem_of_omap.
      exists (Some (sc, a, (sx, sy))). split; [|reflexivity].
      apply list_elem_of_In. destruct Hfrom as [Hs|[d [Hd Hr]]].
      * left. f_equal. symmetry. exact Hs.
      * right. apply in_map_iff. exists d. auto.
    + apply existsb_exists. exists (chunk, (x, y)). split; [exact Hto|].
      apply ArrowRef_eqb_eq. reflexivity.
Qed.

Lemma getSourceArrows_nonempty m chunk arrow x y r :
  In r (getSourceArrows m chunk arrow x y) ->
  exists a, arrowAt m r = Some a /\ (0 < arrowType a)%nat.
Proof.
  intros H. apply In_getSourceArrows in H as [a [[Hs|[d [_ Hr]]] Hto]].
  - injection Hs as Hc Ha Hp. rewrite Ha, Hc in Hto.
    destruct r as [rc [rx ry]]. simpl in *. injection Hp as -> ->. subst rc.
    exact (getTargetArrows_nonempty _ _ _ _ _ _ Hto).
  - apply getArrowRelative_Some in Hr. exists a. destruct r; exact Hr.
Qed.

(** The chunk [getArrowRelative] consults: the chunk itself when nothing
    overflowed, else the neighbour one step away along the overflowing
    axes, when the grid holds it. *)
Lemma targetChunk_step m chunk sel :
  is_Some (m !! chunk) ->
  targetChunk m chunk sel
  = match m !! (fst chunk + fst (chunk_step sel),
                snd chunk + snd (chunk_step sel)) with
    | Some _ => Some (fst chunk + fst (chunk_step sel),
                      snd chunk + snd (chunk_step sel))
    | None => None
    end.
Proof.
  intros [c0 Hc0]. destruct sel as [i|]; simpl.
  - reflexivity.
  - destruct chunk as [cx cy]. simpl. rewrite !Z.add_0_r, Hc0. reflexivity.
Qed.

(** C7: a coordinate resolved from a cell of the chunk is re-based by 16
    per overflowing axis and lands in the chunk bounds; the chunk the
    resolver then reads is the one at [chunk + chunk_step sel], one step
    from [chunk] along each axis that overflowed. The resolver yields no
    edge exactly when the grid holds no chunk at that coordinate or the
    cell of that chunk at the re-based coordinate has shape 0; otherwise
    it yields that chunk, that cell and the re-based coordinate. Neither
    the target list nor the source list ever holds a missing or empty
    cell. *)
Theorem rebase_into_neighbor (m : GameMap) (chunk : ChunkPos) (arrow : Arrow)
    (x y dx dy x1 y1 x2 y2 : Z) (sel : option nat) :
  is_Some (m !! chunk) ->
  0 <= x < CHUNK_SIZE -> 0 <= y < CHUNK_SIZE ->
  -2 <= dx <= 2 -> -2 <= dy <= 2 ->
  getArrowRelative_transform arrow x y dx dy = (x1, y1) ->
  rebase x1 y1 = (sel, (x2, y2)) ->
  (0 <= x2 < CHUNK_SIZE /\ 0 <= y2 < CHUNK_SIZE)
  /\ x2 = x1 - CHUNK_SIZE * fst (chunk_step sel)
  /\ y2 = y1 - CHUNK_SIZE * snd (chunk_step sel)
  /\ (fst (chunk_step sel) = 1 <-> CHUNK_SIZE <= x1)
  /\ (fst (chunk_step sel) = -1 <-> x1 < 0)
  /\ (fst (chunk_step sel) = 0 <-> 0 <= x1 < CHUNK_SIZE)
  /\ (snd (chunk_step sel) = 1 <-> CHUNK_SIZE <= y1)
  /\ (snd (chunk_step sel) = -1 <-> y1 < 0)
  /\ (snd (chunk_step sel) = 0 <-> 0 <= y1 < CHUNK_SIZE)
  /\ (sel = None <-> (0 <= x1 < CHUNK_SIZE /\ 0 <= y1 < CHUNK_SIZE))
  /\ (getArrowRelative m chunk arrow x y dx dy = None <->
      m !! (fst chunk + fst (chunk_step sel),
            snd chunk + snd (chunk_step sel)) = None
      \/ exists c,
           m !! (fst chunk + fst (chunk_step sel),
                 snd chunk + snd (chunk_step sel)) = Some c
           /\ arrowType (getArrow c x2 y2) = 0%nat)
  /\ (forall c,
        m !! (fst chunk + fst (chunk_step sel),
              snd chunk + snd (chunk_step sel)) = Some c ->
        (0 < arrowType (getArrow c x2 y2))%nat ->
        getArrowRelative m chunk arrow x y dx dy
        = Some ((fst chunk + fst (chunk_step sel),
                 snd chunk + snd (chunk_step sel)),
                getArrow c x2 y2, (x2, y2)))
  /\ (forall r, In r (getTargetArrows m chunk arrow x y) ->
        exists a, arrowAt m r = Some a /\ (0 < arrowType a)%nat)
  /\ (forall r, In r (getSourceArrows m chunk arrow x y) ->
        exists a, arrowAt m r = Some a /\ (0 < arrowType a)%nat).
Proof.
  intros Hc0 Hx Hy Hdx Hdy Ht Hr.
  pose proof (transform_bounds _ _ _ _ _ _ _ Ht) as Hb.
  assert (Hx1 : - CHUNK_SIZE <= x1 < 2 * CHUNK_SIZE)
    by (unfold CHUNK_SIZE in *; lia).
  assert (Hy1 : - CHUNK_SIZE <= y1 < 2 * CHUNK_SIZE)
    by (unfold CHUNK_SIZE in *; lia).
  destruct (rebase_spec _ _ _ _ _ Hx1 Hy1 Hr) as (Hin & Ex & Ey & Dx & Dy).
  assert (Hq : forall z, - CHUNK_SIZE <= z < 2 * CHUNK_SIZE ->
             (z / CHUNK_SIZE = 1 <-> CHUNK_SIZE <= z)
             /\ (z / CHUNK_SIZE = -1 <-> z < 0)
             /\ (z / CHUNK_SIZE = 0 <-> 0 <= z < CHUNK_SIZE)).
  { unfold CHUNK_SIZE. intros z Hz.
    pose proof (Z.div_mod z 16). pose proof (Z.mod_pos_bound z 16). lia. }
  destruct (Hq x1 Hx1) as (Qx1 & Qx2 & Qx3).
  destruct (Hq y1 Hy1) as (Qy1 & Qy2 & Qy3).
  split; [exact Hin|]. split; [lia|]. split; [lia|].
  split; [rewrite Dx; exact Qx1|]. split; [rewrite Dx; exact Qx2|].
  split; [rewrite Dx; exact Qx3|].
  split; [rewrite Dy; exact Qy1|]. split; [rewrite Dy; exact Qy2|].
  split; [rewrite Dy; exact Qy3|].
  split; [|split; [|split; [|split]]].
  - split.
    + intros ->. simpl in Dx, Dy. symmetry in Dx, Dy.
      apply Qx3 in Dx. apply Qy3 in Dy. auto.
    + intros [H1 H2]. apply Qx3 in H1. apply Qy3 in H2.
      rewrite <- Dx in H1. rewrite <- Dy in H2.
      destruct sel as [[|[|[|[|[|[|[|i]]]]]]]|]; simpl in *;
        try reflexivity; discriminate.
  - unfold getArrowRelative.
    rewrite Ht, Hr, (targetChunk_step m chunk sel Hc0).
    destruct (m !! (fst chunk + fst (chunk_step sel),
                    snd chunk + snd (chunk_step sel))) as [c|] eqn:Hc.
    + rewrite Hc.
      destruct (0 <? arrowType (getArrow c x2 y2))%nat eqn:Hpos.
      * split; [discriminate|]. apply Nat.ltb_lt in Hpos.
        intros [H|(c' & [= <-] & Hz)]; [discriminate|lia].
      * split; [|reflexivity]. intros _. right. exists c.
        apply Nat.ltb_ge in Hpos. split; [reflexivity|lia].
    + split; [auto|reflexivity].
  - intros c Hc Hpos. unfold getArrowRelative.
    rewrite Ht, Hr, (targetChunk_step m chunk sel Hc0), Hc, Hc.
    apply Nat.ltb_lt in Hpos. rewrite Hpos. reflexivity.
  - apply getTargetArrows_nonempty.
  - apply getSourceArrows_nonempty.
Qed.

Lemma rebase_into_neighbor_witness :
  getArrowRelative selfGrid (0, 0)
    (mkArrow 12 3 false 0 true 0 (mkArrowState false 0) None None 0)
    15 3 0 (-1) = None
  /\ getArrowRelative borderGrid (0, 0) (plainArrow 1 3 0) 15 2 0 (-1)
     = Some ((1, 0), plainArrow 1 3 0, (0, 2)).
Proof.
  assert (Hx : 0 <= 15 < CHUNK_SIZE) by (unfold CHUNK_SIZE; lia).
  assert (H3 : 0 <= 3 < CHUNK_SIZE) by (unfold CHUNK_SIZE; lia).
  assert (H2 : 0 <= 2 < CHUNK_SIZE) by (unfold CHUNK_SIZE; lia).
  assert (Hdx : -2 <= 0 <= 2) by lia.
  assert (Hdy : -2 <= -1 <= 2) by lia.
  split.
  - assert (H0 : is_Some (selfGrid !! (0, 0))).
    { unfold selfGrid. rewrite lookup_singleton_eq. eauto. }
    destruct (rebase_into_neighbor selfGrid (0, 0)
                (mkArrow 12 3 false 0 true 0 (mkArrowState false 0)
                         None None 0)
                15 3 0 (-1) 16 3 0 3 (Some 2%nat) H0 Hx H3 Hdx Hdy
                eq_refl eq_refl)
      as (_ & _ & _ & _ & _ & _ & _ & _ & _ & _ & Hnone & _).
    apply Hnone. left. unfold selfGrid. simpl.
    apply lookup_singleton_ne. discriminate.
  - assert (H0 : is_Some (borderGrid !! (0, 0))).
    { unfold borderGrid. rewrite lookup_insert_ne by discriminate.
      rewrite lookup_singleton_eq. eauto. }
    destruct (rebase_into_neighbor borderGrid (0, 0) (plainArrow 1 3 0)
                15 2 0 (-1) 16 2 0 2 (Some 2%nat) H0 Hx H2 Hdx Hdy
                eq_refl eq_refl)
      as (_ & _ & _ & _ & _ & _ & _ & _ & _ & _ & _ & Hsome & _).
    apply (Hsome (chunkOf [ (0, 2, plainArrow 1 3 0);
                           (1, 2, plainArrow 1 3 0) ])).
    + unfold borderGrid. simpl. apply lookup_insert_eq.
    + simpl. lia.
Defined.

(** ** Resolver: the reverse query *)

Lemma world_inj r1 r2 :
  0 <= fst (snd r1) < CHUNK_SIZE -> 0 <= snd (snd r1) < CHUNK_SIZE ->
  0 <= fst (snd r2) < CHUNK_SIZE -> 0 <= snd (snd r2) < CHUNK_SIZE ->
  world r1 = world r2 -> r1 = r2.
Proof.
  destruct r1 as [[a1 b1] [x1 y1]], r2 as [[a2 b2] [x2 y2]].
  unfold world, CHUNK_SIZE. simpl. intros ? ? ? ? [= Hx Hy].
  assert (a1 = a2) by lia. assert (b1 = b2) by lia.
  subst. repeat f_equal; lia.
Qed.

Lemma shape_offsets_small k d :
  In d (shape_offsets k) -> Z.abs (fst d) + Z.abs (snd d) <= 2.
Proof.
  do 14 (destruct k as [|k]; [simpl; intuition; subst; simpl; lia|]).
  simpl. tauto.
Qed.

Lemma source_candidates_cover d :
  Z.abs (fst d) + Z.abs (snd d) <= 2 -> d <> (0, 0) ->
  In d source_candidates.
Proof.
  destruct d as [a b]. simpl. intros Hn Hz.
  assert (Ha : a = -2 \/ a = -1 \/ a = 0 \/ a = 1 \/ a = 2) by lia.
  assert (Hb : b = -2 \/ b = -1 \/ b = 0 \/ b = 1 \/ b = 2) by lia.
  destruct Ha as [->|[->|[->|[->| ->]]]], Hb as [->|[->|[->|[->| ->]]]];
    simpl in Hn; try lia; try congruence; simpl; tauto.
Qed.

(** Every displacement of taxicab length at most 2 is the image, under the
    transform of any arrow with a legal rotation, of an offset of the same
    length. *)
Lemma transform_onto arrow vx vy :
  (rotation arrow < 4)%nat ->
  exists d, getArrowRelative_transform arrow 0 0 (fst d) (snd d) = (vx, vy)
            /\ Z.abs (fst d) + Z.abs (snd d) = Z.abs vx + Z.abs vy.
Proof.
  intros Hr. unfold getArrowRelative_transform.
  destruct (flipped arrow), (rotation arrow) as [|[|[|[|r]]]]; try lia.
  - exists (- vx, vy). simpl. split; [f_equal|]; lia.
  - exists (vy, vx). simpl. split; [f_equal|]; lia.
  - exists (vx, - vy). simpl. split; [f_equal|]; lia.
  - exists (- vy, - vx). simpl. split; [f_equal|]; lia.
  - exists (vx, vy). simpl. split; [f_equal|]; lia.
  - exists (- vy, vx). simpl. split; [f_equal|]; lia.
  - exists (- vx, - vy). simpl. split; [f_equal|]; lia.
  - exists (vy, - vx). simpl. split; [f_equal|]; lia.
Qed.

Lemma transform_shift arrow x y dx dy :
  getArrowRelative_transform arrow x y dx dy
  = (x + fst (getArrowRelative_transform arrow 0 0 dx dy),
     y + snd (getArrowRelative_transform arrow 0 0 dx dy)).
Proof.
  unfold getArrowRelative_transform.
  destruct (rotation arrow) as [|[|[|[|r]]]]; simpl; f_equal; lia.
Qed.

(** Forward: a resolution moves by the transformed offset in world
    coordinates. *)
Lemma getArrowRelative_world m chunk arrow x y dx dy tc a p :
  0 <= x < CHUNK_SIZE -> 0 <= y < CHUNK_SIZE ->
  Z.abs dx + Z.abs dy <= 2 ->
  getArrowRelative m chunk arrow x y dx dy = Some (tc, a, p) ->
  world (tc, p)
  = (fst (world (chunk, (x, y)))
     + fst (getArrowRelative_transform arrow 0 0 dx dy),
     snd (world (chunk, (x, y)))
     + snd (getArrowRelative_transform arrow 0 0 dx dy))
  /\ cell_of m (tc, p) a.
Proof.
  intros Hx Hy Hd H.
  pose proof (getArrowRelative_Some _ _ _ _ _ _ _ _ _ _ H) as [Hat Hpos].
  unfold getArrowRelative in H.
  destruct (getArrowRelative_transform arrow x y dx dy) as [x1 y1] eqn:Ht.
  destruct (rebase x1 y1) as [sel [x2 y2]] eqn:Hr.
  pose proof (transform_bounds _ _ _ _ _ _ _ Ht) as Hb.
  assert (Hx1 : - CHUNK_SIZE <= x1 < 2 * CHUNK_SIZE)
    by (unfold CHUNK_SIZE in *; lia).
  assert (Hy1 : - CHUNK_SIZE <= y1 < 2 * CHUNK_SIZE)
    by (unfold CHUNK_SIZE in *; lia).
  destruct (rebase_spec _ _ _ _ _ Hx1 Hy1 Hr) as (Hin & Ex & Ey & _ & _).
  rewrite transform_shift in Ht. injection Ht as Hx1' Hy1'.
  destruct (targetChunk m chunk sel) as [tc'|] eqn:Htc; [|discriminate].
  destruct (m !! tc') as [c|] eqn:Hc; [|discriminate].
  destruct (0 <? arrowType (getArrow c x2 y2))%nat; [|discriminate].
  injection H as <- <- <-.
  assert (Etc : tc' = (fst chunk + fst (chunk_step sel),
                       snd chunk + snd (chunk_step sel))).
  { destruct sel as [i|]; simpl in Htc.
    - unfold adjacentChunks in Htc.
      destruct (m !! (_, _)) in Htc; [|discriminate].
      injection Htc as <-. reflexivity.
    - injection Htc as <-. destruct chunk; simpl. f_equal; lia. }
  split.
  - subst tc'. unfold world. simpl. f_equal; lia.
  - unfold cell_of. simpl. tauto.
Qed.

(** Backward: a non-empty cell at the displaced world coordinate is what
    the resolution returns. *)
Lemma getArrowRelative_complete m chunk arrow x y dx dy r a :
  is_Some (m !! chunk) ->
  0 <= x < CHUNK_SIZE -> 0 <= y < CHUNK_SIZE ->
  Z.abs dx + Z.abs dy <= 2 ->
  cell_of m r a ->
  world r
  = (fst (world (chunk, (x, y)))
     + fst (getArrowRelative_transform arrow 0 0 dx dy),
     snd (world (chunk, (x, y)))
     + snd (getArrowRelative_transform arrow 0 0 dx dy)) ->
  getArrowRelative m chunk arrow x y dx dy = Some (fst r, a, snd r).
Proof.
  intros Hchunk Hx Hy Hd (Hat & Hpos & Hrx & Hry) Hw.
  unfold getArrowRelative.
  destruct (getArrowRelative_transform arrow x y dx dy) as [x1 y1] eqn:Ht.
  destruct (rebase x1 y1) as [sel [x2 y2]] eqn:Hr.
  pose proof (transform_bounds _ _ _ _ _ _ _ Ht) as Hb.
  assert (Hx1 : - CHUNK_SIZE <= x1 < 2 * CHUNK_SIZE)
    by (unfold CHUNK_SIZE in *; lia).
  assert (Hy1 : - CHUNK_SIZE <= y1 < 2 * CHUNK_SIZE)
    by (unfold CHUNK_SIZE in *; lia).
  destruct (rebase_spec _ _ _ _ _ Hx1 Hy1 Hr) as (Hin & Ex & Ey & _ & _).
  rewrite transform_shift in Ht. injection Ht as Hx1' Hy1'.
  assert (Er : r = ((fst chunk + fst (chunk_step sel),
                     snd chunk + snd (chunk_step sel)), (x2, y2))).
  { apply world_inj; simpl; try tauto.
    rewrite Hw. unfold world. simpl. f_equal; lia. }
  subst r. unfold arrowAt in Hat. simpl in Hat, Hrx, Hry |- *.
  destruct (m !! (_, _)) as [c|] eqn:Hc in Hat; [|discriminate].
  injection Hat as <-.
  assert (Htc : targetChunk m chunk sel
                = Some (fst chunk + fst (chunk_step sel),
                        snd chunk + snd (chunk_step sel))).
  { destruct sel as [i|]; simpl in *.
    - unfold adjacentChunks. rewrite Hc. reflexivity.
    - destruct chunk; simpl. do 2 f_equal; lia. }
  rewrite Htc, Hc. apply Nat.ltb_lt in Hpos. rewrite Hpos. reflexivity.
Qed.

(** C5: on a grid, a non-empty cell [s] is among the sources found for a
    non-empty cell [c] exactly when [c] is among the forward targets of
    [s]. *)
Theorem getSourceArrows_inverse (m : GameMap) (s c : ArrowRef)
    (sa ca : Arrow) :
  cell_of m s sa -> cell_of m c ca -> (rotation ca < 4)%nat ->
  In s (getSourceArrows m (fst c) ca (fst (snd c)) (snd (snd c)))
  <-> In c (getTargetArrows m (fst s) sa (fst (snd s)) (snd (snd s))).
Proof.
  intros Hs Hc Hrot.
  destruct s as [sc [sx sy]], c as [cc [cx cy]]. cbn [fst snd].
  pose proof Hs as (Hsat & Hspos & Hsx & Hsy).
  pose proof Hc as (Hcat & Hcpos & Hcx & Hcy).
  cbn [fst snd] in Hsx, Hsy, Hcx, Hcy.
  rewrite In_getSourceArrows. cbn [fst snd]. split.
  - intros [a [Hfrom Hto]].
    assert (a = sa) as ->; [|exact Hto].
    destruct Hfrom as [Heq|[d [_ Hr]]].
    + injection Heq as -> -> -> ->. congruence.
    + apply getArrowRelative_Some in Hr as [Hr _]. congruence.
  - intros Hto. exists sa. split; [|exact Hto].
    apply In_getTargetArrows in Hto as [o [a' [Ho Hr]]]. cbn [fst snd] in Hr.
    pose proof (shape_offsets_small _ _ Ho) as Hsmall.
    apply getArrowRelative_world in Hr as [Hw _]; try assumption.
    destruct (getArrowRelative_transform sa 0 0 (fst o) (snd o))
      as [tx ty] eqn:Ht.
    pose proof (transform_bounds _ _ _ _ _ _ _ Ht) as Hb.
    cbn [fst snd] in Hw.
    destruct (transform_onto ca (- tx) (- ty) Hrot) as [d [Hd Hn]].
    destruct (decide (d = (0, 0))) as [->|Hnz].
    + left. simpl in Hn.
      assert (tx = 0) by lia. assert (ty = 0) by lia. subst tx ty.
      assert (E : (cc, (cx, cy)) = (sc, (sx, sy))).
      { apply world_inj; simpl; try assumption.
        rewrite Hw. unfold world. simpl. f_equal; lia. }
      injection E as -> -> ->. f_equal. f_equal. congruence.
    + right. exists d. split.
      * apply source_candidates_cover; [lia|exact Hnz].
      * apply (getArrowRelative_complete m cc ca cx cy (fst d) (snd d)
                 (sc, (sx, sy)) sa); try assumption; try lia.
        -- unfold arrowAt in Hcat. simpl in Hcat.
           destruct (m !! cc); [eauto|discriminate].
        -- rewrite Hd. unfold world in *. simpl in *.
           injection Hw as Hw1 Hw2. f_equal; lia.
Qed.

Lemma getSourceArrows_inverse_witness :
  In ((0, 0), (5, 5))
     (getSourceArrows branchGrid (0, 0) (plainArrow 1 0 0) 5 4).
Proof.
  assert (Hs : cell_of branchGrid ((0, 0), (5, 5)) (plainArrow 5 0 0)).
  { unfold cell_of, CHUNK_SIZE. cbn [fst snd].
    split; [vm_compute; reflexivity|]. simpl. lia. }
  assert (Hc : cell_of branchGrid ((0, 0), (5, 4)) (plainArrow 1 0 0)).
  { unfold cell_of, CHUNK_SIZE. cbn [fst snd].
    split; [vm_compute; reflexivity|]. simpl. lia. }
  assert (Hr : (rotation (plainArrow 1 0 0) < 4)%nat) by (simpl; lia).
  apply (getSourceArrows_inverse branchGrid ((0, 0), (5, 5))
           ((0, 0), (5, 4)) (plainArrow 5 0 0) (plainArrow 1 0 0) Hs Hc Hr).
  vm_compute. tauto.
Defined.

(** ** Grid updates *)

Lemma arrowAt_updateArrow m r f r' :
  arrowAt (updateArrow m r f) r'
  = if decide (r = r') then f <$> arrowAt m r' else arrowAt m r'.
Proof.
  destruct r as [c [x y]], r' as [c' [x' y']].
  unfold arrowAt, updateArrow. cbn [fst snd].
  destruct (decide (c = c')) as [->|Hc].
  - rewrite lookup_alter_eq. destruct (m !! c') as [ch|]; simpl.
    + destruct (decide (x' = x)) as [->|Hx], (decide (y' = y)) as [->|Hy].
      * rewrite decide_True by reflexivity. rewrite !Z.eqb_refl. reflexivity.
      * rewrite decide_False by congruence.
        apply Z.eqb_neq in Hy. rewrite Hy, andb_false_r. reflexivity.
      * rewrite decide_False by congruence.
        apply Z.eqb_neq in Hx. rewrite Hx. reflexivity.
      * rewrite decide_False by congruence.
        apply Z.eqb_neq in Hx. rewrite Hx. reflexivity.
    + destruct (decide _); reflexivity.
  - rewrite lookup_alter_ne by exact Hc.
    rewrite decide_False by congruence. reflexivity.
Qed.

Lemma arrowAt_updateArrow_eq m r f :
  arrowAt (updateArrow m r f) r = f <$> arrowAt m r.
Proof. rewrite arrowAt_updateArrow, decide_True; reflexivity. Qed.

Lemma arrowAt_updateArrow_ne m r f r' :
  r <> r' -> arrowAt (updateArrow m r f) r' = arrowAt m r'.
Proof. intros H. rewrite arrowAt_updateArrow, decide_False; auto. Qed.

Lemma lookup_updateArrow_is_Some m r f c :
  is_Some (updateArrow m r f !! c) <-> is_Some (m !! c).
Proof.
  unfold updateArrow. destruct (decide (fst r = c)) as [<-|H].
  - rewrite lookup_alter_eq. rewrite fmap_is_Some. reflexivity.
  - rewrite lookup_alter_ne by exact H. reflexivity.
Qed.

Lemma In_cell_coords p :
  In p cell_coords
  <-> (0 <= fst p < CHUNK_SIZE /\ 0 <= snd p < CHUNK_SIZE).
Proof.
  unfold cell_coords. rewrite in_flat_map. split.
  - intros [y [Hy Hp]]. apply in_map_iff in Hp as [x [<- Hx]].
    apply list_elem_of_In, elem_of_seqZ in Hy.
    apply list_elem_of_In, elem_of_seqZ in Hx. simpl. lia.
  - intros [Hx Hy]. exists (snd p). split.
    + apply list_elem_of_In, elem_of_seqZ. lia.
    + apply in_map_iff. exists (fst p). split; [destruct p; reflexivity|].
      apply list_elem_of_In, elem_of_seqZ. lia.
Qed.

Lemma In_all_cells m r :
  In r (all_cells m)
  <-> (is_Some (m !! fst r)
       /\ 0 <= fst (snd r) < CHUNK_SIZE /\ 0 <= snd (snd r) < CHUNK_SIZE).
Proof.
  unfold all_cells, chunk_keys. rewrite in_flat_map. split.
  - intros [cp [Hcp Hr]]. apply in_map_iff in Hr as [p [<- Hp]].
    apply In_cell_coords in Hp. split; [|exact Hp].
    apply in_map_iff in Hcp as [[cp' ch] [<- Hin]]. simpl.
    apply list_elem_of_In, elem_of_map_to_list in Hin. eauto.
  - intros [[ch Hch] Hp]. exists (fst r). split.
    + apply in_map_iff. exists (fst r, ch). split; [reflexivity|].
      apply list_elem_of_In, elem_of_map_to_list. exact Hch.
    + apply in_map_iff. exists (snd r). split; [destruct r; reflexivity|].
      apply In_cell_coords. exact Hp.
Qed.

Lemma NoDup_cell_coords : NoDup cell_coords.
Proof. apply (bool_decide_unpack _). vm_compute. reflexivity. Qed.

Lemma NoDup_flat_map_pairs {A B : Type} (ks : list A) (ps : list B) :
  NoDup ks -> NoDup ps ->
  NoDup (flat_map (fun k => List.map (fun p => (k, p)) ps) ks).
Proof.
  intros Hks Hps. induction Hks as [|k ks Hk Hks IH]; simpl.
  - constructor.
  - apply NoDup_app. split; [|split].
    + apply (NoDup_fmap_2 (fun p => (k, p))). exact Hps.
    + intros [k' p] Hin Hin'.
      apply list_elem_of_In, in_map_iff in Hin as [p' [[= <- <-] _]].
      apply list_elem_of_In, in_flat_map in Hin' as [k'' [Hk'' Hin']].
      apply in_map_iff in Hin' as [p'' [[= -> _] _]].
      apply Hk, list_elem_of_In, Hk''.
    + exact IH.
Qed.

Lemma NoDup_all_cells m : NoDup (all_cells m).
Proof.
  apply NoDup_flat_map_pairs.
  - apply NoDup_fst_map_to_list.
  - apply NoDup_cell_coords.
Qed.

Lemma In_cells_in ks r :
  In r (cells_in ks)
  <-> (In (fst r) ks
       /\ 0 <= fst (snd r) < CHUNK_SIZE /\ 0 <= snd (snd r) < CHUNK_SIZE).
Proof.
  unfold cells_in. rewrite in_flat_map. split.
  - intros [cp [Hcp Hr]]. apply in_map_iff in Hr as [p [<- Hp]].
    apply In_cell_coords in Hp. split; [exact Hcp|exact Hp].
  - intros [Hk Hp]. exists (fst r). split; [exact Hk|].
    apply in_map_iff. exists (snd r). split; [destruct r; reflexivity|].
    apply In_cell_coords. exact Hp.
Qed.

Lemma In_chunk_keys m c : In c (chunk_keys m) <-> is_Some (m !! c).
Proof.
  unfold chunk_keys. split.
  - intros Hc. apply in_map_iff in Hc as [[c' ch] [<- Hin]]. simpl.
    apply list_elem_of_In, elem_of_map_to_list in Hin. eauto.
  - intros [ch Hch]. apply in_map_iff. exists (c, ch).
    split; [reflexivity|].
    apply list_elem_of_In, elem_of_map_to_list. exact Hch.
Qed.

(** Every order of the chunks visits the cells of the grid, and only
    them. *)
Lemma cells_in_keys m ks r :
  ks ≡ₚ chunk_keys m -> In r (cells_in ks) <-> In r (all_cells m).
Proof.
  intros Hp. rewrite In_cells_in, In_all_cells, <- In_chunk_keys.
  rewrite <- !list_elem_of_In, Hp. reflexivity.
Qed.

Lemma fold_updateArrow f l : forall m r,
  NoDup l ->
  arrowAt (fold_left (fun m' r' => updateArrow m' r' f) l m) r
  = if bool_decide (r ∈ l) then f <$> arrowAt m r else arrowAt m r.
Proof.
  induction l as [|r0 l IH]; intros m r Hnd; cbn [fold_left].
  - rewrite bool_decide_eq_false_2 by apply not_elem_of_nil. reflexivity.
  - apply NoDup_cons in Hnd as [Hr0 Hnd]. rewrite IH by exact Hnd.
    rewrite arrowAt_updateArrow.
    destruct (decide (r0 = r)) as [->|Hne].
    + rewrite (bool_decide_eq_false_2 (r ∈ l)) by exact Hr0.
      rewrite bool_decide_eq_true_2 by (apply elem_of_cons; auto).
      reflexivity.
    + destruct (bool_decide (r ∈ l)) eqn:E.
      * apply bool_decide_eq_true_1 in E.
        rewrite bool_decide_eq_true_2 by (apply elem_of_cons; auto).
        reflexivity.
      * apply bool_decide_eq_false_1 in E.
        rewrite bool_decide_eq_false_2; [reflexivity|].
        intros [->|H]%elem_of_cons; auto.
Qed.

(** ** CA simulator: the send pass only counts *)

Lemma count_only_refl a : count_only a a.
Proof. unfold count_only. repeat split; lia. Qed.

Lemma count_only_trans a b c :
  count_only a b -> count_only b c -> count_only a c.
Proof. unfold count_only. intuition (try congruence); lia. Qed.

Lemma grid_le_at m m' r a :
  grid_le m m' -> arrowAt m r = Some a ->
  exists a', arrowAt m' r = Some a' /\ count_only a a'.
Proof. intros [_ H]. apply H. Qed.

Lemma grid_le_refl m : grid_le m m.
Proof.
  split; [auto|]. intros r a H. exists a.
  split; [exact H|apply count_only_refl].
Qed.

Lemma grid_le_trans m1 m2 m3 :
  grid_le m1 m2 -> grid_le m2 m3 -> grid_le m1 m3.
Proof.
  intros [D12 H12] [D23 H23]. split; [auto|].
  intros r a H. destruct (H12 r a H) as [b [Hb Hab]].
  destruct (H23 r b Hb) as [c [Hc Hbc]].
  exists c. split; [exact Hc|eapply count_only_trans; eauto].
Qed.

Lemma grid_le_incr m r : grid_le m (updateArrow m r incrSignalCount).
Proof.
  split; [intros c; apply lookup_updateArrow_is_Some|].
  intros r' a H. rewrite arrowAt_updateArrow.
  destruct (decide (r = r')) as [->|Hne].
  - rewrite H. simpl. eexists. split; [reflexivity|].
    unfold count_only. simpl. repeat split; lia.
  - exists a. split; [exact H|apply count_only_refl].
Qed.

Lemma grid_le_sendSignal m chunk arrow x y dx dy :
  grid_le m (sendSignal m chunk arrow x y dx dy).
Proof.
  unfold sendSignal.
  destruct (getArrowRelative m chunk arrow x y dx dy) as [[[tc a] p]|].
  - apply grid_le_incr.
  - apply grid_le_refl.
Qed.

Lemma grid_le_fold {A : Type} (f : GameMap -> A -> GameMap) (l : list A) :
  (forall m x, grid_le m (f m x)) ->
  forall m, grid_le m (fold_left f l m).
Proof.
  intros Hf. induction l as [|x l IH]; intros m; simpl.
  - apply grid_le_refl.
  - eapply grid_le_trans; [apply Hf|apply IH].
Qed.

Lemma grid_le_updateCA_send m r : grid_le m (updateCA_send m r).
Proof.
  unfold updateCA_send. destruct (arrowAt m r) as [arrow|];
    [|apply grid_le_refl].
  destruct (_ && _); [|apply grid_le_refl].
  apply grid_le_fold. intros m' d. apply grid_le_sendSignal.
Qed.

Lemma grid_le_pass1 m : grid_le m (updateCA_pass1 m).
Proof. apply grid_le_fold. apply grid_le_updateCA_send. Qed.

Lemma grid_le_is_Some m m' c :
  grid_le m m' -> is_Some (m !! c) -> is_Some (m' !! c).
Proof.
  intros [_ Hle] [ch Hch].
  destruct (Hle (c, (0, 0)) (getArrow ch 0 0)) as [a' [Ha' _]].
  - unfold arrowAt. simpl. rewrite Hch. reflexivity.
  - unfold arrowAt in Ha'. simpl in Ha'.
    destruct (m' !! c); [eauto|discriminate].
Qed.

Lemma arrowAt_pass2 m r a :
  arrowAt m r = Some a ->
  0 <= fst (snd r) < CHUNK_SIZE -> 0 <= snd (snd r) < CHUNK_SIZE ->
  arrowAt (updateCA_pass2 m) r = Some (updateCA_cell a).
Proof.
  intros Hat Hx Hy. unfold updateCA_pass2.
  rewrite fold_updateArrow by apply NoDup_all_cells.
  rewrite bool_decide_eq_true_2.
  - rewrite Hat. reflexivity.
  - apply list_elem_of_In, In_all_cells. split; [|tauto].
    unfold arrowAt in Hat. destruct (m !! fst r); [eauto|discriminate].
Qed.

Lemma mod2_odd n : (n mod 2 =? 1)%nat = Nat.odd n.
Proof.
  rewrite <- Nat.bit0_mod. simpl. destruct (Nat.odd n); reflexivity.
Qed.

Lemma mod2_even n : (n mod 2 =? 0)%nat = Nat.even n.
Proof.
  rewrite <- Nat.bit0_mod, <- Nat.negb_odd. simpl.
  destruct (Nat.odd n); reflexivity.
Qed.

Lemma updateCA_active_table fn n prev :
  updateCA_active fn n prev = activation_table fn n prev.
Proof.
  unfold updateCA_active, activation_table.
  destruct fn as [|[|[|[|[|[|[|k]]]]]]]; try reflexivity.
  - apply mod2_odd.
  - rewrite mod2_even. reflexivity.
Qed.

(** C2: one CA tick gives every non-empty cell the value of the activation
    table at the count [n] it accumulated in the send pass and its value
    [prev] before the tick, and leaves its [signalCount] at 0. *)
Theorem updateCA_activation (m : GameMap) (r : ArrowRef) (a : Arrow) :
  cell_of m r a ->
  exists a1 a2,
    arrowAt (updateCA_pass1 m) r = Some a1
    /\ arrowAt (updateCA m) r = Some a2
    /\ active a2 = activation_table (medalType a) (signalCount a1) (active a)
    /\ signalCount a2 = 0%nat
    /\ (medalType a = 5%nat -> signalCount a1 = 0%nat ->
        active a2 = active a)
    /\ (medalType a = 6%nat -> signalCount a1 = 0%nat ->
        active a2 = active a).
Proof.
  intros (Hat & Hpos & Hx & Hy).
  destruct (grid_le_at _ _ r a (grid_le_pass1 m) Hat) as [a1 [Ha1 Hco]].
  exists a1, (updateCA_cell a1). split; [exact Ha1|].
  unfold updateCA. split; [apply arrowAt_pass2; assumption|].
  destruct Hco as (Ht & _ & _ & Hm & Hact & _).
  unfold updateCA_cell. rewrite Ht.
  apply Nat.ltb_lt in Hpos. rewrite Hpos. simpl.
  rewrite Hm, Hact, updateCA_active_table.
  repeat split; intros -> ->; reflexivity.
Qed.

Lemma updateCA_activation_witness :
  exists a2, arrowAt (updateCA sourceGrid) ((0, 0), (3, 2)) = Some a2
             /\ signalCount a2 = 0%nat.
Proof.
  assert (H : cell_of sourceGrid ((0, 0), (3, 2)) (plainArrow 1 3 0)).
  { unfold cell_of, CHUNK_SIZE. cbn [fst snd].
    split; [vm_compute; reflexivity|]. simpl. lia. }
  destruct (updateCA_activation sourceGrid ((0, 0), (3, 2))
              (plainArrow 1 3 0) H) as (a1 & a2 & _ & H2 & _ & H4 & _).
  exists a2. split; [exact H2|exact H4].
Defined.

(** ** CA simulator: the snapshot *)

(** C9, as stated, fails: the constant source of [sourceGrid] is inactive
    before the tick, and after the tick its snapshot says active. *)
Lemma lastState_is_not_previous_active :
  active <$> arrowAt sourceGrid ((0, 0), (2, 2)) = Some false
  /\ (fun a => st_active (lastState a))
       <$> arrowAt (updateCA sourceGrid) ((0, 0), (2, 2)) = Some true.
Proof. vm_compute. split; reflexivity. Qed.

(** C9, amended: after a CA tick the snapshot of every non-empty cell holds
    the [active] value the tick has just computed, together with the
    [signalCount] the cell had before the reset. *)
Theorem lastState_after_tick (m : GameMap) (r : ArrowRef) (a : Arrow) :
  cell_of m r a ->
  exists a1 a2,
    arrowAt (updateCA_pass1 m) r = Some a1
    /\ arrowAt (updateCA m) r = Some a2
    /\ lastState a2 = mkArrowState (active a2) (signalCount a1)
    /\ count_only a a1.
Proof.
  intros (Hat & Hpos & Hx & Hy).
  destruct (grid_le_at _ _ r a (grid_le_pass1 m) Hat) as [a1 [Ha1 Hco]].
  exists a1, (updateCA_cell a1). split; [exact Ha1|].
  unfold updateCA. split; [apply arrowAt_pass2; assumption|].
  split; [|exact Hco].
  destruct Hco as (Ht & _). unfold updateCA_cell. rewrite Ht.
  apply Nat.ltb_lt in Hpos. rewrite Hpos. reflexivity.
Qed.

Lemma lastState_after_tick_witness :
  exists a2, arrowAt (updateCA sourceGrid) ((0, 0), (2, 2)) = Some a2
             /\ st_active (lastState a2) = active a2.
Proof.
  assert (H : cell_of sourceGrid ((0, 0), (2, 2)) (plainArrow 1 3 1)).
  { unfold cell_of, CHUNK_SIZE. cbn [fst snd].
    split; [vm_compute; reflexivity|]. simpl. lia. }
  destruct (lastState_after_tick sourceGrid ((0, 0), (2, 2))
              (plainArrow 1 3 1) H) as (a1 & a2 & _ & H2 & H3 & _).
  exists a2. split; [exact H2|]. rewrite H3. reflexivity.
Defined.

(** ** Node simulator: the second pass *)

Lemma updateNodes_active_eq fn n prev :
  updateNodes_active fn n prev = updateCA_active fn n prev.
Proof. reflexivity. Qed.

Lemma fold_alter_lookup {A : Type} (f : A -> A) (l : list nat) :
  forall (h : list A) (i : nat),
  NoDup l ->
  fold_left (fun h' k => alter f k h') l h !! i
  = if bool_decide (i ∈ l) then f <$> h !! i else h !! i.
Proof.
  induction l as [|k l IH]; intros h i Hnd; cbn [fold_left].
  - rewrite bool_decide_eq_false_2 by apply not_elem_of_nil. reflexivity.
  - apply NoDup_cons in Hnd as [Hk Hnd]. rewrite IH by exact Hnd.
    destruct (decide (k = i)) as [->|Hne].
    + rewrite list_lookup_alter_eq.
      rewrite (bool_decide_eq_false_2 (i ∈ l)) by exact Hk.
      rewrite bool_decide_eq_true_2 by (apply elem_of_cons; auto).
      reflexivity.
    + rewrite list_lookup_alter_ne by exact Hne.
      destruct (bool_decide (i ∈ l)) eqn:E.
      * apply bool_decide_eq_true_1 in E.
        rewrite bool_decide_eq_true_2 by (apply elem_of_cons; auto).
        reflexivity.
      * apply bool_decide_eq_false_1 in E.
        rewrite bool_decide_eq_false_2; [reflexivity|].
        intros [->|H]%elem_of_cons; auto.
Qed.

(** C3: the switch of the node simulator and the if-chain of the CA
    simulator are the same function of (fn, n, prev), both equal to the
    activation table; the second pass gives every node of the flat list the
    table's value at its [signalCount] and [lastSignal] as the newest entry
    of [signals] (the capacity unchanged), records the count in
    [lastSignalCount] and resets [signalCount]. *)
Theorem updateNodes_pass2_table (g : Game) (nd : NodeId) (n : LogicNode.t) :
  NoDup (nodeArray g) -> In nd (nodeArray g) -> heap g !! nd = Some n ->
  (forall fn k prev,
      updateNodes_active fn k prev = updateCA_active fn k prev
      /\ updateNodes_active fn k prev = activation_table fn k prev)
  /\ exists n',
      heap (updateNodes_pass2 g) !! nd = Some n'
      /\ LogicNode.signals n'
         = take (length (LogicNode.signals n))
             (activation_table (LogicNode.type n) (LogicNode.signalCount n)
                               (LogicNode.lastSignal n)
              :: LogicNode.signals n)
      /\ length (LogicNode.signals n') = length (LogicNode.signals n)
      /\ LogicNode.lastSignalCount n' = LogicNode.signalCount n
      /\ LogicNode.signalCount n' = 0%nat.
Proof.
  intros Hnd Hin Hn. split.
  - intros fn k prev. split; [reflexivity|].
    rewrite updateNodes_active_eq. apply updateCA_active_table.
  - exists (updateNodes_node n). split.
    + unfold updateNodes_pass2. simpl.
      rewrite fold_alter_lookup by exact Hnd.
      rewrite bool_decide_eq_true_2 by (apply list_elem_of_In; exact Hin).
      rewrite Hn. reflexivity.
    + unfold updateNodes_node. simpl.
      rewrite updateNodes_active_eq, updateCA_active_table.
      unfold LogicNode.signals_insert.
      repeat split. rewrite length_take. simpl. lia.
Qed.

Lemma updateNodes_pass2_table_witness :
  exists n',
    heap (updateNodes_pass2
            (mkGame ∅ [LogicNode.new [] 2 1] [0%nat] [0%nat] ∅)) !! 0%nat
    = Some n'
    /\ LogicNode.signals n' = [true].
Proof.
  assert (Hnd : NoDup [0%nat]) by (apply NoDup_singleton).
  destruct (updateNodes_pass2_table
              (mkGame ∅ [LogicNode.new [] 2 1] [0%nat] [0%nat] ∅)
              0%nat (LogicNode.new [] 2 1) Hnd (or_introl eq_refl) eq_refl)
    as [_ (n' & H1 & H2 & _)].
  exists n'. split; [exact H1|]. rewrite H2. reflexivity.
Defined.

(** ** Graph compiler: what [simplifyNode] touches *)

Lemma heap_frame_refl g : heap_frame g g.
Proof. unfold heap_frame. auto. Qed.

Lemma heap_frame_trans g1 g2 g3 :
  heap_frame g1 g2 -> heap_frame g2 g3 -> heap_frame g1 g3.
Proof.
  intros (L1 & F1 & N1) (L2 & F2 & N2). split; [lia|]. split; [|auto].
  intros i Hi. rewrite F2 by lia. apply F1. exact Hi.
Qed.

Lemma all_own_cells_alter h i f :
  (forall x, LogicNode.arrows x <> [] -> LogicNode.arrows (f x) <> []) ->
  all_own_cells h -> all_own_cells (alter f i h).
Proof.
  intros Hf Hh j x. destruct (decide (i = j)) as [->|Hne].
  - rewrite list_lookup_alter_eq.
    destruct (h !! j) as [y|] eqn:E; [|discriminate].
    intros [= <-]. apply Hf. eapply Hh. exact E.
  - rewrite list_lookup_alter_ne by exact Hne. apply Hh.
Qed.

Lemma linked_frame_alter sid f g :
  (forall x, LogicNode.arrows (f x) = LogicNode.arrows x
             /\ LogicNode.size (f x) = LogicNode.size x
             /\ LogicNode.type (f x) = LogicNode.type x
             /\ LogicNode.targets (f x) = LogicNode.targets x) ->
  linked_frame sid 0 g (alterNode g sid f).
Proof.
  intros Hf. unfold linked_frame, alterNode. simpl.
  rewrite length_alter. split; [lia|]. split; [|split].
  - intros i _ Hne. apply list_lookup_alter_ne. auto.
  - intros s Hs. rewrite list_lookup_alter_eq, Hs. simpl.
    eexists. split; [reflexivity|].
    destruct (Hf s) as (-> & -> & -> & ->). repeat split. lia.
  - apply all_own_cells_alter. intros x Hx.
    destruct (Hf x) as (-> & _). exact Hx.
Qed.

Lemma linked_frame_trans sid j k g1 g2 g3 :
  (sid < length (heap g1))%nat ->
  linked_frame sid j g1 g2 -> linked_frame sid k g2 g3 ->
  linked_frame sid (j + k) g1 g3.
Proof.
  intros Hsid (L1 & F1 & S1 & N1) (L2 & F2 & S2 & N2).
  split; [lia|]. split; [|split; [|auto]].
  - intros i Hi Hne. rewrite F2 by (auto; lia). apply F1; auto.
  - intros s Hs. destruct (S1 s Hs) as (s1 & Hs1 & A1 & Z1 & T1 & G1).
    destruct (S2 s1 Hs1) as (s2 & Hs2 & A2 & Z2 & T2 & G2).
    exists s2. split; [exact Hs2|]. repeat split; try congruence. lia.
Qed.

Lemma heap_frame_linked sid g g' :
  heap_frame g g' -> linked_frame sid 0 g g'.
Proof.
  intros (L & F & N). split; [exact L|]. split; [|split; [|exact N]].
  - intros i Hi _. apply F. exact Hi.
  - intros s Hs. exists s. split.
    + rewrite F; [exact Hs|]. apply lookup_lt_Some in Hs. exact Hs.
    + repeat split. lia.
Qed.

Lemma linked_frame_push sid g st :
  linked_frame sid 1 g (linkTarget sid g st).
Proof.
  unfold linked_frame, linkTarget, alterNode. simpl.
  rewrite length_alter. split; [lia|]. split; [|split].
  - intros i _ Hne. apply list_lookup_alter_ne. auto.
  - intros s Hs. rewrite list_lookup_alter_eq, Hs. simpl.
    eexists. split; [reflexivity|]. simpl. repeat split.
    rewrite length_app. simpl. lia.
  - apply all_own_cells_alter. intros x Hx. exact Hx.
Qed.

Lemma linkTargets_None fuel sid ts : linkTargets fuel sid ts None = None.
Proof. induction ts as [|t ts IH]; [reflexivity|exact IH]. Qed.

Lemma linkTargets_frame fuel sid :
  (forall g nd g' r, simplifyNode fuel g nd = Some (g', r) ->
                     heap_frame g g') ->
  forall ts g g',
    (sid < length (heap g))%nat ->
    linkTargets fuel sid ts (Some g) = Some g' ->
    linked_frame sid (length ts) g g'.
Proof.
  intros IH. induction ts as [|t ts IHts]; intros g g' Hsid H.
  - injection H as <-. apply heap_frame_linked, heap_frame_refl.
  - unfold linkTargets in H. cbn [fold_left] in H.
    destruct (simplifyNode fuel g t) as [[g1 st]|] eqn:E.
    + fold (linkTargets fuel sid ts (Some (linkTarget sid g1 st))) in H.
      pose proof (IH _ _ _ _ E) as Hf.
      assert (Hl1 : (sid < length (heap g1))%nat) by (destruct Hf; lia).
      assert (Hl2 : (sid < length (heap (linkTarget sid g1 st)))%nat).
      { unfold linkTarget, alterNode. simpl. rewrite length_alter. lia. }
      specialize (IHts _ _ Hl2 H).
      change (length (t :: ts)) with (0 + (1 + length ts))%nat.
      eapply linked_frame_trans; [exact Hsid| |].
      * apply heap_frame_linked. exact Hf.
      * eapply linked_frame_trans; [exact Hl1| |exact IHts].
        apply linked_frame_push.
    + fold (linkTargets fuel sid ts None) in H.
      rewrite linkTargets_None in H. discriminate.
Qed.

Lemma fold_alterArrow_fields f l : forall g,
  heap (fold_left (fun g' r => alterArrow g' r f) l g) = heap g
  /\ nodes (fold_left (fun g' r => alterArrow g' r f) l g) = nodes g
  /\ simplifiedNodes (fold_left (fun g' r => alterArrow g' r f) l g)
     = simplifiedNodes g
  /\ chunks (fold_left (fun g' r => alterArrow g' r f) l g)
     = fold_left (fun m r => updateArrow m r f) l (chunks g).
Proof.
  induction l as [|r l IH]; intros g; simpl; [auto|].
  destruct (IH (alterArrow g r f)) as (-> & -> & -> & ->). auto.
Qed.

(** What lines 294-299 leave behind. *)
Lemma fuse_spec g nd sid st n stn s g' :
  heap g !! nd = Some n -> heap g !! st = Some stn ->
  heap g !! sid = Some s ->
  fuse g nd sid st = Some g' ->
  (exists s', heap g' !! sid = Some s'
     /\ LogicNode.arrows s' = LogicNode.arrows s ++ LogicNode.arrows stn
     /\ LogicNode.size s' = (LogicNode.size n + LogicNode.size stn)%nat
     /\ LogicNode.type s' = LogicNode.type s
     /\ LogicNode.ready s' = LogicNode.ready s
     /\ LogicNode.targets s'
        = LogicNode.targets s ++ LogicNode.targets stn)
  /\ length (heap g') = length (heap g)
  /\ (forall i, i <> sid -> heap g' !! i = heap g !! i)
  /\ nodes g' = set_delete st (nodes g)
  /\ chunks g'
     = fold_left (fun m r => updateArrow m r (addOffset (LogicNode.size n)))
                 (LogicNode.arrows stn) (chunks g).
Proof.
  intros Hn Hst Hs. unfold fuse. rewrite Hn, Hst. intros [= <-].
  destruct (fold_alterArrow_fields (addOffset (LogicNode.size n))
              (LogicNode.arrows stn)
              (alterNode
                 (alterNode
                    (alterNode (set_nodes g (set_delete st (nodes g))) sid
                       (fun s0 => LogicNode.resize s0
                          (LogicNode.size n + LogicNode.size stn)))
                    sid (fun s0 => LogicNode.push_arrows s0
                                     (LogicNode.arrows stn)))
                 sid (fun s0 => LogicNode.push_targets s0
                                  (LogicNode.targets stn))))
    as (-> & -> & _ & ->).
  unfold alterNode. simpl. rewrite !length_alter.
  split; [|split; [reflexivity|split; [|split; reflexivity]]].
  - rewrite !list_lookup_alter_eq, Hs. simpl.
    eexists. split; [reflexivity|]. simpl. auto.
  - intros i Hne. rewrite !list_lookup_alter_ne by auto. reflexivity.
Qed.

Lemma fuse_own_cells g nd sid st g' :
  fuse g nd sid st = Some g' ->
  all_own_cells (heap g) -> all_own_cells (heap g').
Proof.
  unfold fuse. destruct (heap g !! nd) as [n|]; [|discriminate].
  destruct (heap g !! st) as [stn|]; [|discriminate]. intros [= <-] H.
  destruct (fold_alterArrow_fields (addOffset (LogicNode.size n))
              (LogicNode.arrows stn)
              (alterNode
                 (alterNode
                    (alterNode (set_nodes g (set_delete st (nodes g))) sid
                       (fun s0 => LogicNode.resize s0
                          (LogicNode.size n + LogicNode.size stn)))
                    sid (fun s0 => LogicNode.push_arrows s0
                                     (LogicNode.arrows stn)))
                 sid (fun s0 => LogicNode.push_targets s0
                                  (LogicNode.targets stn))))
    as (-> & _).
  unfold alterNode. simpl.
  repeat apply all_own_cells_alter; auto; simpl; intros x Hx;
    try exact Hx.
  intros E. apply app_eq_nil in E as [E _]. auto.
Qed.

Lemma heap_frame_except sid g g' :
  heap_frame g g' -> frame_except sid g g'.
Proof.
  intros (L & F & N). split; [exact L|]. split; [|exact N].
  intros i Hi _. apply F. exact Hi.
Qed.

Lemma linked_frame_except sid k g g' :
  linked_frame sid k g g' -> frame_except sid g g'.
Proof. intros (L & F & _ & N). split; [exact L|]. split; assumption. Qed.

Lemma frame_except_trans sid g1 g2 g3 :
  frame_except sid g1 g2 -> frame_except sid g2 g3 ->
  frame_except sid g1 g3.
Proof.
  intros (L1 & F1 & N1) (L2 & F2 & N2). split; [lia|]. split; [|auto].
  intros i Hi Hne. rewrite F2 by (auto; lia). apply F1; auto.
Qed.

Lemma fuse_except g nd sid st g' :
  fuse g nd sid st = Some g' -> frame_except sid g g'.
Proof.
  intros H. split; [|split].
  - unfold fuse in H. destruct (heap g !! nd) as [n|]; [|discriminate].
    destruct (heap g !! st) as [stn|]; [|discriminate].
    injection H as <-.
    rewrite (proj1 (fold_alterArrow_fields _ _ _)).
    unfold alterNode. simpl. rewrite !length_alter. lia.
  - intros i _ Hne.
    unfold fuse in H. destruct (heap g !! nd) as [n|]; [|discriminate].
    destruct (heap g !! st) as [stn|]; [|discriminate].
    injection H as <-.
    rewrite (proj1 (fold_alterArrow_fields _ _ _)).
    unfold alterNode. simpl.
    rewrite !list_lookup_alter_ne by auto. reflexivity.
  - eapply fuse_own_cells. exact H.
Qed.

Lemma simplifyNode_enter_spec g nd n :
  heap g !! nd = Some n ->
  heap (simplifyNode_enter g nd n) = heap g ++ [LogicNode.copy n]
  /\ heap_frame g (simplifyNode_enter g nd n).
Proof.
  intros Hn. split; [reflexivity|].
  unfold heap_frame, simplifyNode_enter. simpl.
  rewrite length_app. simpl. split; [lia|]. split.
  - intros i Hi. apply lookup_app_l. exact Hi.
  - intros Hown i x Hx. apply lookup_app_Some in Hx as [Hx|[_ Hx]].
    + eapply Hown. exact Hx.
    + apply list_lookup_singleton_Some in Hx as [_ <-]. simpl.
      eapply Hown. exact Hn.
Qed.

Lemma simplifyNode_frame fuel : forall g nd g' r,
  simplifyNode fuel g nd = Some (g', r) -> heap_frame g g'.
Proof.
  induction fuel as [|fuel IH]; intros g nd g' r H; [discriminate|].
  cbn [simplifyNode] in H.
  destruct (simplifiedNodes g !! nd) as [e|].
  { injection H as <- <-. apply heap_frame_refl. }
  destruct (heap g !! nd) as [n|] eqn:Hn; [|discriminate].
  destruct (simplifyNode_enter_spec g nd n Hn) as [Hheap Henter].
  set (g3 := simplifyNode_enter g nd n) in *.
  set (sid := length (heap g)) in *.
  assert (Hsid3 : (sid < length (heap g3))%nat).
  { rewrite Hheap, length_app. simpl. lia. }
  match type of H with
  | match ?linked with _ => _ end = _ =>
    destruct linked as [g5|] eqn:Hlinked; [|discriminate]
  end.
  injection H as <- <-.
  assert (Hlf : frame_except sid g3 g5).
  { destruct (LogicNode.targets n) as [|t1 [|t2 ts]] eqn:Hts.
    - eapply linked_frame_except.
      apply (linkTargets_frame fuel sid IH [] g3 g5 Hsid3 Hlinked).
    - destruct (simplifyNode fuel g3 t1) as [[g4 st]|] eqn:E;
        [|discriminate].
      pose proof (IH _ _ _ _ E) as Hf.
      eapply frame_except_trans; [apply heap_frame_except; exact Hf|].
      unfold fuseOrLink in Hlinked.
      destruct (heap g4 !! t1) as [t|] eqn:Ht; [|discriminate].
      destruct (heap g4 !! st) as [stn|] eqn:Hst; [|discriminate].
      destruct (fusable t stn).
      + eapply fuse_except. exact Hlinked.
      + injection Hlinked as <-.
        eapply linked_frame_except. apply linked_frame_push.
    - eapply linked_frame_except.
      apply (linkTargets_frame fuel sid IH _ g3 g5 Hsid3 Hlinked). }
  destruct Henter as (L0 & F0 & N0). destruct Hlf as (L & F & N).
  unfold heap_frame, alterNode. cbn [heap set_heap].
  rewrite length_alter. split; [lia|]. split.
  - intros i Hi. assert (i <> sid) by (unfold sid; lia).
    rewrite list_lookup_alter_ne by auto.
    rewrite F by (auto; lia). apply F0. exact Hi.
  - intros Hown. apply all_own_cells_alter; auto.
Qed.

Lemma not_In_set_delete n l : ~ In n (set_delete n l).
Proof.
  unfold set_delete. intros H. apply filter_In in H as [_ H].
  rewrite Nat.eqb_refl in H. discriminate.
Qed.

Lemma fusable_iff t stn :
  fusable t stn = true
  <-> (LogicNode.type t = 0%nat /\ length (LogicNode.sources t) = 1%nat
       /\ LogicNode.ready stn = true).
Proof.
  unfold fusable. rewrite !andb_true_iff, !Nat.eqb_eq. tauto.
Qed.

(** A first visit of [simplifyNode] that returns: what the compiled node
    holds, by the number of targets of the raw node. *)
Lemma simplifyNode_first_visit :
  forall (fuel : nat) (g : Game) (nd : NodeId) (n : LogicNode.t)
          (g' : Game) (sid : NodeId),
    simplifiedNodes g !! nd = None -> heap g !! nd = Some n ->
    all_own_cells (heap g) ->
    simplifyNode (S fuel) g nd = Some (g', sid) ->
    exists s',
      heap g' !! sid = Some s' /\ LogicNode.ready s' = true
      /\ LogicNode.type s' = LogicNode.type n
      /\ (forall target, LogicNode.targets n = [target] ->
          exists g4 st t stn,
            simplifyNode fuel (simplifyNode_enter g nd n) target
            = Some (g4, st)
            /\ heap g4 !! target = Some t /\ heap g4 !! st = Some stn
            /\ (LogicNode.arrows s' <> LogicNode.arrows n <->
                (LogicNode.type t = 0%nat
                 /\ length (LogicNode.sources t) = 1%nat
                 /\ LogicNode.ready stn = true))
            /\ (fusable t stn = true ->
                LogicNode.arrows s'
                = LogicNode.arrows n ++ LogicNode.arrows stn
                /\ LogicNode.size s'
                   = (LogicNode.size n + LogicNode.size stn)%nat
                /\ LogicNode.targets s' = LogicNode.targets stn
                /\ ~ In st (nodes g')
                /\ (NoDup (LogicNode.arrows stn) ->
                    forall r, In r (LogicNode.arrows stn) ->
                      offset <$> arrowAt (chunks g') r
                      = (fun a => (offset a + LogicNode.size n)%nat)
                          <$> arrowAt (chunks g4) r))
            /\ (fusable t stn = false ->
                LogicNode.arrows s' = LogicNode.arrows n
                /\ LogicNode.size s' = LogicNode.size n
                /\ LogicNode.targets s' = [st]
                /\ nodes g' = nodes g4 /\ chunks g' = chunks g4))
      /\ (length (LogicNode.targets n) <> 1%nat ->
          LogicNode.arrows s' = LogicNode.arrows n
          /\ LogicNode.size s' = LogicNode.size n
          /\ length (LogicNode.targets s')
             = length (LogicNode.targets n)).
Proof.
  intros fuel g nd n g' sid Hmemo Hn Hown H.
  cbn [simplifyNode] in H. rewrite Hmemo, Hn in H.
  destruct (simplifyNode_enter_spec g nd n Hn) as [Hheap Henter].
  set (g3 := simplifyNode_enter g nd n) in *.
  assert (Hsid3 : (length (heap g) < length (heap g3))%nat).
  { rewrite Hheap, length_app. simpl. lia. }
  assert (Hs3 : heap g3 !! length (heap g) = Some (LogicNode.copy n)).
  { rewrite Hheap. apply list_lookup_middle. reflexivity. }
  match type of H with
  | match ?linked with _ => _ end = _ =>
    destruct linked as [g5|] eqn:Hlinked; [|discriminate]
  end.
  injection H as <- <-.
  unfold alterNode. cbn [heap set_heap nodes chunks].
  rewrite list_lookup_alter_eq.
  destruct (LogicNode.targets n) as [|t1 [|t2 ts]] eqn:Hts.
  + destruct (linkTargets_frame fuel _ (simplifyNode_frame fuel) []
                g3 g5 Hsid3 Hlinked) as (_ & _ & S & _).
    destruct (S _ Hs3) as (s5 & -> & A & Z & T & G). simpl.
    eexists. split; [reflexivity|]. simpl.
    split; [reflexivity|]. split; [exact T|]. split.
    * intros target [=].
    * intros _. simpl in G. auto.
  + destruct (simplifyNode fuel g3 t1) as [[g4 st]|] eqn:E;
      [|discriminate].
    pose proof (simplifyNode_frame _ _ _ _ _ E) as (L4 & F4 & N4).
    assert (Hs4 : heap g4 !! length (heap g) = Some (LogicNode.copy n)).
    { rewrite F4 by exact Hsid3. exact Hs3. }
    assert (Hn4 : heap g4 !! nd = Some n).
    { apply lookup_lt_Some in Hn as Hlt. rewrite F4 by lia.
      destruct Henter as (_ & F3 & _). rewrite F3 by exact Hlt.
      exact Hn. }
    unfold fuseOrLink in Hlinked.
    destruct (heap g4 !! t1) as [t|] eqn:Ht; [|discriminate].
    destruct (heap g4 !! st) as [stn|] eqn:Hst; [|discriminate].
    assert (Hstn : LogicNode.arrows stn <> []).
    { eapply N4; [|exact Hst]. destruct Henter as (_ & _ & N3). auto. }
    destruct (fusable t stn) eqn:Hfus.
    * destruct (fuse_spec _ _ _ _ _ _ _ _ Hn4 Hst Hs4 Hlinked)
        as ((s' & Hs' & A & Z & T & R & G) & L & F & Nd & Ch).
      rewrite Hs'. simpl. eexists. split; [reflexivity|]. simpl.
      split; [reflexivity|]. split; [exact T|]. split.
      -- intros target [= <-]. exists g4, st, t, stn.
         split; [exact E|]. split; [exact Ht|].
         split; [exact Hst|]. rewrite <- fusable_iff, Hfus, A. simpl.
         split; [|split].
         ++ split; [reflexivity|]. intros _ Heq.
            rewrite <- (app_nil_r (LogicNode.arrows n)) in Heq at 2.
            apply app_inv_head in Heq. auto.
         ++ intros _. split; [reflexivity|]. split; [exact Z|].
            split; [exact G|]. split.
            ** rewrite Nd. apply not_In_set_delete.
            ** intros Hnd r Hr. rewrite Ch.
               rewrite fold_updateArrow by exact Hnd.
               rewrite bool_decide_eq_true_2
                 by (apply list_elem_of_In; exact Hr).
               destruct (arrowAt (chunks g4) r); reflexivity.
         ++ discriminate.
      -- simpl. intros Hlen. exfalso. apply Hlen. reflexivity.
    * injection Hlinked as <-. unfold linkTarget, alterNode.
      cbn [heap set_heap nodes chunks].
      rewrite list_lookup_alter_eq, Hs4. simpl.
      eexists. split; [reflexivity|]. simpl.
      split; [reflexivity|]. split; [reflexivity|]. split.
      -- intros target [= <-]. exists g4, st, t, stn.
         split; [exact E|]. split; [exact Ht|].
         split; [exact Hst|]. rewrite <- fusable_iff, Hfus.
         split; [|split].
         ++ split; [intros Hne; exfalso; apply Hne; reflexivity
                   |discriminate].
         ++ discriminate.
         ++ intros _. auto.
      -- simpl. intros Hlen. exfalso. apply Hlen. reflexivity.
  + destruct (linkTargets_frame fuel _ (simplifyNode_frame fuel)
                _ g3 g5 Hsid3 Hlinked) as (_ & _ & S & _).
    destruct (S _ Hs3) as (s5 & -> & A & Z & T & G). simpl.
    eexists. split; [reflexivity|]. simpl.
    split; [reflexivity|]. split; [exact T|]. split.
    * intros target [=].
    * intros _. simpl in G. auto.
Qed.

(** ** Raw node graph: grids that differ by attached nodes *)

Lemma same_shape_refl a : same_shape a a.
Proof. unfold same_shape. tauto. Qed.

Lemma same_shape_trans a b c :
  same_shape a b -> same_shape b c -> same_shape a c.
Proof. unfold same_shape. intuition congruence. Qed.

Lemma arrow_ext_refl a : arrow_ext a a.
Proof. split; [apply same_shape_refl|auto]. Qed.

Lemma arrow_ext_trans a b c :
  arrow_ext a b -> arrow_ext b c -> arrow_ext a c.
Proof.
  intros [S1 O1] [S2 O2]. split; [eapply same_shape_trans; eauto|].
  intros nd H. destruct (O1 nd H) as (H1 & H2 & H3).
  destruct (O2 nd H1) as (H4 & H5 & H6). repeat split; congruence.
Qed.

Lemma grid_ext_refl m : grid_ext m m.
Proof.
  split; [auto|]. intros r a H. exists a. split; [exact H|].
  apply arrow_ext_refl.
Qed.

Lemma grid_ext_trans m1 m2 m3 :
  grid_ext m1 m2 -> grid_ext m2 m3 -> grid_ext m1 m3.
Proof.
  intros [D1 E1] [D2 E2]. split; [auto|].
  intros r a H. destruct (E1 r a H) as [b [Hb Hab]].
  destruct (E2 r b Hb) as [c [Hc Hbc]].
  exists c. split; [exact Hc|eapply arrow_ext_trans; eauto].
Qed.

Lemma arrowAt_is_Some m r : is_Some (arrowAt m r) <-> is_Some (m !! fst r).
Proof.
  unfold arrowAt. destruct (m !! fst r); split; intros [? H]; eauto;
    discriminate.
Qed.

Lemma grid_ext_lookup m m' c :
  grid_ext m m' -> (is_Some (m !! c) <-> is_Some (m' !! c)).
Proof.
  intros [D E]. split; [|apply D]. intros [ch Hch].
  destruct (E (c, (0, 0)) (getArrow ch 0 0)) as [a' [Ha' _]].
  - unfold arrowAt. simpl. rewrite Hch. reflexivity.
  - apply (arrowAt_is_Some m' (c, (0, 0))). eauto.
Qed.

Lemma grid_ext_updateArrow m r f :
  (forall a, arrowAt m r = Some a -> arrow_ext a (f a)) ->
  grid_ext m (updateArrow m r f).
Proof.
  intros Hf. split.
  - intros c. apply lookup_updateArrow_is_Some.
  - intros r' a H. rewrite arrowAt_updateArrow.
    destruct (decide (r = r')) as [->|Hne].
    + rewrite H. simpl. eexists. split; [reflexivity|]. apply Hf, H.
    + exists a. split; [exact H|apply arrow_ext_refl].
Qed.

Lemma adjacentChunks_ext m m' chunk i :
  grid_ext m m' -> adjacentChunks m' chunk i = adjacentChunks m chunk i.
Proof.
  intros Hext. unfold adjacentChunks.
  pose proof (grid_ext_lookup m m'
                (fst chunk + fst (adjacent_dir i),
                 snd chunk + snd (adjacent_dir i)) Hext) as H.
  destruct (m !! (_, _)) as [c|], (m' !! (_, _)) as [c'|]; try reflexivity.
  - destruct H as [H _]. destruct H as [? H]; [eauto|discriminate].
  - destruct H as [_ H]. destruct H as [? H]; [eauto|discriminate].
Qed.

Lemma resolve_ext m m' chunk a a' x y d :
  grid_ext m m' -> rotation a' = rotation a -> flipped a' = flipped a ->
  resolve m' chunk a' x y d = resolve m chunk a x y d.
Proof.
  intros Hext Hr Hf. unfold resolve, getArrowRelative.
  assert (Ht : getArrowRelative_transform a' x y (fst d) (snd d)
               = getArrowRelative_transform a x y (fst d) (snd d)).
  { unfold getArrowRelative_transform. rewrite Hr, Hf. reflexivity. }
  rewrite Ht.
  destruct (getArrowRelative_transform a x y (fst d) (snd d)) as [x1 y1].
  destruct (rebase x1 y1) as [sel [x2 y2]].
  assert (Htc : targetChunk m' chunk sel = targetChunk m chunk sel).
  { destruct sel; simpl; [apply adjacentChunks_ext; exact Hext|reflexivity]. }
  rewrite Htc. destruct (targetChunk m chunk sel) as [tc|]; [|reflexivity].
  destruct (m !! tc) as [c|] eqn:Hc.
  - destruct Hext as [_ E].
    destruct (E (tc, (x2, y2)) (getArrow c x2 y2)) as [b [Hb [Hs _]]].
    { unfold arrowAt. simpl. rewrite Hc. reflexivity. }
    unfold arrowAt in Hb. simpl in Hb.
    destruct (m' !! tc) as [c'|]; [|discriminate].
    injection Hb as Hb. rewrite Hb. destruct Hs as (-> & _).
    destruct (0 <? arrowType (getArrow c x2 y2))%nat; reflexivity.
  - destruct (m' !! tc) as [c'|] eqn:Hc'; [|reflexivity].
    destruct Hext as [D _]. destruct (D tc) as [? H]; [eauto|].
    congruence.
Qed.

Lemma getTargetArrows_resolve m chunk arrow x y :
  getTargetArrows m chunk arrow x y
  = omap (resolve m chunk arrow x y) (shape_offsets (arrowType arrow)).
Proof. reflexivity. Qed.

Lemma nodeOf_ext m m' r nd :
  grid_ext m m' -> nodeOf m r = Some nd -> nodeOf m' r = Some nd.
Proof.
  intros [_ E] H. unfold nodeOf in *.
  destruct (arrowAt m r) as [a|] eqn:Ha; [|discriminate].
  destruct (E r a Ha) as [a' [-> [_ O]]]. apply O. exact H.
Qed.

(** ** Raw node graph: one link *)

Lemma node_ext_refl n : node_ext n n.
Proof.
  unfold node_ext. repeat split. exists []. rewrite app_nil_r. reflexivity.
Qed.

Lemma node_ext_trans a b c : node_ext a b -> node_ext b c -> node_ext a c.
Proof.
  unfold node_ext.
  intros (A1 & A2 & A3 & A4 & A5 & A6 & A7 & A8 & A9 & l1 & A10)
         (B1 & B2 & B3 & B4 & B5 & B6 & B7 & B8 & B9 & l2 & B10).
  repeat split; try congruence.
  exists (l1 ++ l2). rewrite B10, A10, app_assoc. reflexivity.
Qed.

Lemma raw_frame_refl g : raw_frame g g.
Proof.
  unfold raw_frame. split; [lia|]. split; [|auto].
  intros i n H. exists n. split; [exact H|apply node_ext_refl].
Qed.

Lemma raw_frame_trans g1 g2 g3 :
  raw_frame g1 g2 -> raw_frame g2 g3 -> raw_frame g1 g3.
Proof.
  intros (L1 & F1 & A1 & B1 & C1) (L2 & F2 & A2 & B2 & C2).
  split; [lia|]. split; [|repeat split; congruence].
  intros i n H. destruct (F1 i n H) as [n1 [H1 E1]].
  destruct (F2 i n1 H1) as [n2 [H2 E2]].
  exists n2. split; [exact H2|eapply node_ext_trans; eauto].
Qed.

Lemma linkRaw_lookup g nd t i :
  heap (linkRaw g nd t) !! i
  = (fun n => if decide (i = t) then LogicNode.push_sources n [nd] else n)
      <$> ((fun n => if decide (i = nd)
                     then LogicNode.push_targets n [t] else n)
             <$> heap g !! i).
Proof.
  unfold linkRaw, alterNode. cbn [heap set_heap].
  destruct (decide (i = t)) as [->|Ht].
  - rewrite list_lookup_alter_eq. destruct (decide (t = nd)) as [->|Hn].
    + rewrite list_lookup_alter_eq. reflexivity.
    + rewrite list_lookup_alter_ne by auto.
      destruct (heap g !! t); reflexivity.
  - rewrite list_lookup_alter_ne by auto. destruct (decide (i = nd)) as [->|Hn].
    + rewrite list_lookup_alter_eq. destruct (heap g !! nd); reflexivity.
    + rewrite list_lookup_alter_ne by auto.
      destruct (heap g !! i); reflexivity.
Qed.

Lemma linkRaw_fields g nd t :
  chunks (linkRaw g nd t) = chunks g
  /\ nodes (linkRaw g nd t) = nodes g
  /\ nodeArray (linkRaw g nd t) = nodeArray g
  /\ simplifiedNodes (linkRaw g nd t) = simplifiedNodes g
  /\ length (heap (linkRaw g nd t)) = length (heap g).
Proof.
  unfold linkRaw, alterNode. simpl. rewrite !length_alter. auto.
Qed.

Lemma linkRaw_Some g nd t i n' :
  heap (linkRaw g nd t) !! i = Some n' ->
  exists n, heap g !! i = Some n
    /\ LogicNode.arrows n' = LogicNode.arrows n
    /\ LogicNode.type n' = LogicNode.type n
    /\ LogicNode.size n' = LogicNode.size n
    /\ LogicNode.ready n' = LogicNode.ready n
    /\ LogicNode.signals n' = LogicNode.signals n
    /\ LogicNode.signalCount n' = LogicNode.signalCount n
    /\ LogicNode.lastSignal n' = LogicNode.lastSignal n
    /\ LogicNode.lastSignalCount n' = LogicNode.lastSignalCount n
    /\ LogicNode.targets n'
       = LogicNode.targets n ++ (if decide (i = nd) then [t] else [])
    /\ LogicNode.sources n'
       = LogicNode.sources n ++ (if decide (i = t) then [nd] else []).
Proof.
  rewrite linkRaw_lookup. destruct (heap g !! i) as [n|]; [|discriminate].
  simpl. intros [= <-]. exists n. split; [reflexivity|].
  destruct (decide (i = t)), (decide (i = nd)); simpl;
    rewrite ?app_nil_r; repeat split; reflexivity.
Qed.

Lemma linkRaw_Some_inv g nd t i n :
  heap g !! i = Some n ->
  exists n', heap (linkRaw g nd t) !! i = Some n'.
Proof. intros H. rewrite linkRaw_lookup, H. simpl. eauto. Qed.

Lemma count_occ_snoc (l : list nat) x y :
  count_occ Nat.eq_dec (l ++ [x]) y
  = (count_occ Nat.eq_dec l y + if decide (x = y) then 1 else 0)%nat.
Proof.
  rewrite count_occ_app. simpl.
  destruct (Nat.eq_dec x y), (decide (x = y)); try contradiction; lia.
Qed.

Lemma raw_wf_linkRaw g nd t :
  raw_wf g -> (nd < length (heap g))%nat -> (t < length (heap g))%nat ->
  raw_wf (linkRaw g nd t).
Proof.
  intros (R1 & R2 & R3 & R4) Hnd Ht.
  destruct (linkRaw_fields g nd t) as (Hc & _ & _ & _ & Hl).
  split; [|split; [|split]].
  - rewrite Hc. intros r a k Ha Ho.
    destruct (R1 r a k Ha Ho) as (P & N & O & n & Hn & A & T).
    split; [exact P|]. split; [exact N|]. split; [exact O|].
    destruct (linkRaw_Some_inv g nd t k n Hn) as [n' Hn'].
    exists n'. split; [exact Hn'|].
    destruct (linkRaw_Some _ _ _ _ _ Hn') as (n0 & Hn0 & A' & T' & _).
    rewrite Hn in Hn0. injection Hn0 as <-. split; congruence.
  - rewrite Hc. intros k n' Hn'.
    destruct (linkRaw_Some _ _ _ _ _ Hn')
      as (n & Hn & A & T & Z & Rd & Sg & Sc & _).
    destruct (R2 k n Hn) as (Z0 & Rd0 & Sg0 & Sc0 & r & Ar & Nr).
    split; [congruence|]. split; [congruence|]. split; [congruence|].
    split; [congruence|]. exists r. split; [congruence|exact Nr].
  - intros p n np' nn' Hp Hn.
    destruct (linkRaw_Some _ _ _ _ _ Hp)
      as (np & Hp0 & _ & _ & _ & _ & _ & _ & _ & _ & Tp & _).
    destruct (linkRaw_Some _ _ _ _ _ Hn)
      as (nn & Hn0 & _ & _ & _ & _ & _ & _ & _ & _ & _ & Sn).
    rewrite Tp, Sn. specialize (R3 p n np nn Hp0 Hn0).
    destruct (decide (p = nd)) as [->|Hpn], (decide (n = t)) as [->|Hnt];
      rewrite ?app_nil_r, ?count_occ_snoc.
    + rewrite !decide_True by reflexivity. lia.
    + rewrite decide_False by auto. lia.
    + rewrite decide_False by auto. lia.
    + exact R3.
  - rewrite Hl. intros p np' k Hp Hk.
    destruct (linkRaw_Some _ _ _ _ _ Hp)
      as (np & Hp0 & _ & _ & _ & _ & _ & _ & _ & _ & Tp & Sp).
    rewrite Tp, Sp, !in_app_iff in Hk.
    destruct Hk as [[Hk|Hk]|[Hk|Hk]].
    + eapply R4; eauto.
    + destruct (decide (p = nd)); simpl in Hk; [|tauto].
      destruct Hk as [<-|[]]. exact Ht.
    + eapply R4; eauto.
    + destruct (decide (p = t)); simpl in Hk; [|tauto].
      destruct Hk as [<-|[]]. exact Hnd.
Qed.

(** ** Raw node graph: marking a cell *)

Lemma count_occ_not_In_0 (l : list nat) x :
  ~ In x l -> count_occ Nat.eq_dec l x = 0%nat.
Proof. apply count_occ_not_In. Qed.

Lemma nodeOf_updateArrow_ne m r f r' :
  r <> r' -> nodeOf (updateArrow m r f) r' = nodeOf m r'.
Proof. intros H. unfold nodeOf. rewrite arrowAt_updateArrow_ne; auto. Qed.

Lemma markCell_spec g r arrow :
  raw_wf g -> arrowAt (chunks g) r = Some arrow ->
  originalNode arrow = None -> (0 < arrowType arrow)%nat ->
  let g2 := markCell g r (medalType arrow) in
  raw_wf g2 /\ grid_ext (chunks g) (chunks g2) /\ raw_frame g g2
  /\ targets_upto g2 r 0
  /\ nodeOf (chunks g2) r = Some (length (heap g))
  /\ (forall r', r' <> r -> nodeOf (chunks g2) r' = nodeOf (chunks g) r')
  /\ length (heap g2) = S (length (heap g)).
Proof.
  intros (R1 & R2 & R3 & R4) Ha Ho Hpos g2.
  assert (Hch : chunks g2
                = updateArrow (chunks g) r (attachNode (length (heap g))))
    by reflexivity.
  assert (Hh : heap g2
               = heap g ++ [LogicNode.new [r] (medalType arrow) 1])
    by reflexivity.
  assert (Har : arrowAt (chunks g2) r
                = Some (attachNode (length (heap g)) arrow)).
  { rewrite Hch, arrowAt_updateArrow_eq, Ha. reflexivity. }
  assert (Hnew : heap g2 !! length (heap g)
                 = Some (LogicNode.new [r] (medalType arrow) 1)).
  { rewrite Hh. apply list_lookup_middle. reflexivity. }
  assert (Hold : forall i n, heap g !! i = Some n -> heap g2 !! i = Some n).
  { intros i n H. rewrite Hh. rewrite lookup_app_l; [exact H|].
    apply lookup_lt_Some in H. exact H. }
  assert (Hno : nodeOf (chunks g) r = None).
  { unfold nodeOf. rewrite Ha. exact Ho. }
  assert (Hother : forall r', r' <> r ->
            nodeOf (chunks g2) r' = nodeOf (chunks g) r').
  { intros r' Hne. rewrite Hch. apply nodeOf_updateArrow_ne. auto. }
  assert (Hlen : length (heap g2) = S (length (heap g))).
  { rewrite Hh, length_app. simpl. lia. }
  split; [|split; [|split; [|split; [|split; [|split]]]]]; auto.
  - split; [|split; [|split]].
    + intros r' a' k Ha' Ho'. destruct (decide (r' = r)) as [->|Hne].
      * rewrite Har in Ha'. injection Ha' as <-. simpl in Ho'.
        injection Ho' as <-. simpl.
        split; [exact Hpos|]. split; [reflexivity|].
        split; [reflexivity|]. eexists. split; [exact Hnew|].
        split; reflexivity.
      * rewrite Hch, arrowAt_updateArrow_ne in Ha' by auto.
        destruct (R1 r' a' k Ha' Ho') as (P & N & O & n & Hn & A & T).
        split; [exact P|]. split; [exact N|]. split; [exact O|].
        exists n. split; [apply Hold; exact Hn|]. split; assumption.
    + intros k n Hn. rewrite Hh in Hn.
      apply lookup_app_Some in Hn as [Hn|[Hge Hn]].
      * destruct (R2 k n Hn) as (Z & Rd & Sg & Sc & r0 & A & N).
        split; [exact Z|]. split; [exact Rd|]. split; [exact Sg|].
        split; [exact Sc|]. exists r0. split; [exact A|].
        rewrite Hother; [exact N|]. intros ->. congruence.
      * apply list_lookup_singleton_Some in Hn as [Hk <-].
        assert (k = length (heap g)) as -> by lia.
        split; [reflexivity|]. split; [reflexivity|].
        split; [reflexivity|]. split; [reflexivity|].
        exists r. split; [reflexivity|].
        unfold nodeOf. rewrite Har. reflexivity.
    + intros p n np nn Hp Hn. rewrite Hh in Hp, Hn.
      apply lookup_app_Some in Hp as [Hp|[Hpge Hp]];
        apply lookup_app_Some in Hn as [Hn|[Hnge Hn]].
      * eapply R3; eauto.
      * apply list_lookup_singleton_Some in Hn as [Hk <-]. simpl.
        apply count_occ_not_In_0. intros Hin.
        assert (n < length (heap g))%nat by (eapply R4; eauto). lia.
      * apply list_lookup_singleton_Some in Hp as [Hk <-]. simpl.
        symmetry. apply count_occ_not_In_0. intros Hin.
        assert (p < length (heap g))%nat by (eapply R4; eauto). lia.
      * apply list_lookup_singleton_Some in Hp as [_ <-].
        apply list_lookup_singleton_Some in Hn as [_ <-]. reflexivity.
    + intros p np k Hp Hk. rewrite Hlen. rewrite Hh in Hp.
      apply lookup_app_Some in Hp as [Hp|[Hpge Hp]].
      * assert (k < length (heap g))%nat by (eapply R4; eauto). lia.
      * apply list_lookup_singleton_Some in Hp as [_ <-]. simpl in Hk.
        tauto.
  - rewrite Hch. apply grid_ext_updateArrow. intros a Ha'.
    rewrite Ha in Ha'. injection Ha' as <-.
    split; [unfold same_shape; simpl; tauto|].
    intros nd Hnd. congruence.
  - split; [lia|]. split; [|auto].
    intros i n Hn. exists n. split; [apply Hold; exact Hn|].
    apply node_ext_refl.
  - exists (attachNode (length (heap g)) arrow), (length (heap g)),
      (LogicNode.new [r] (medalType arrow) 1).
    split; [exact Har|]. split; [reflexivity|]. split; [exact Hnew|].
    reflexivity.
  - unfold nodeOf. rewrite Har. reflexivity.
Qed.

(** ** Raw node graph: what later calls keep *)

Lemma map_nodeOf_stable m m' (l : list ArrowRef) (ts : list NodeId) :
  grid_ext m m' ->
  List.map Some ts = List.map (nodeOf m) l ->
  List.map Some ts = List.map (nodeOf m') l.
Proof.
  intros Hext. revert ts. induction l as [|r l IH]; intros ts H.
  - exact H.
  - destruct ts as [|t ts]; [discriminate|]. simpl in H.
    injection H as Ht Hts. simpl. f_equal.
    + symmetry. eapply nodeOf_ext; eauto.
    + apply IH. exact Hts.
Qed.

Lemma targets_upto_stable g g' r k :
  grid_ext (chunks g) (chunks g') ->
  (forall nd n, nodeOf (chunks g) r = Some nd -> heap g !! nd = Some n ->
     exists n', heap g' !! nd = Some n'
                /\ LogicNode.targets n' = LogicNode.targets n) ->
  targets_upto g r k -> targets_upto g' r k.
Proof.
  intros Hext Hheap (a & nd & n & Ha & Ho & Hn & Ht).
  pose proof Hext as [_ E]. destruct (E r a Ha) as [a' [Ha' [Hs Hn']]].
  destruct (Hn' nd Ho) as (Ho' & _).
  destruct (Hheap nd n) as [n' [Hn'' Htg]]; [|exact Hn|].
  { unfold nodeOf. rewrite Ha. exact Ho. }
  exists a', nd, n'. split; [exact Ha'|]. split; [exact Ho'|].
  split; [exact Hn''|]. rewrite Htg.
  destruct Hs as (Hty & Hrot & Hfl & _). rewrite Hty.
  rewrite (list_omap_ext _ (resolve (chunks g) (fst r) a (fst (snd r))
                                    (snd (snd r))) _
             (take k (shape_offsets (arrowType a)))).
  - eapply map_nodeOf_stable; eauto.
  - apply Forall2_same_length_lookup. split; [reflexivity|].
    intros i d d' Hd Hd'. rewrite Hd in Hd'. injection Hd' as <-.
    apply resolve_ext; auto.
Qed.

Lemma complete_stable g g' r :
  grid_ext (chunks g) (chunks g') ->
  (forall nd n, nodeOf (chunks g) r = Some nd -> heap g !! nd = Some n ->
     exists n', heap g' !! nd = Some n'
                /\ LogicNode.targets n' = LogicNode.targets n) ->
  complete g r -> complete g' r.
Proof.
  intros Hext Hheap [a [Ha Ht]].
  pose proof Hext as [_ E]. destruct (E r a Ha) as [a' [Ha' [Hs _]]].
  exists a'. split; [exact Ha'|]. destruct Hs as (-> & _).
  eapply targets_upto_stable; eauto.
Qed.

Lemma raw_frame_targets g g' nd n :
  raw_frame g g' -> heap g !! nd = Some n ->
  exists n', heap g' !! nd = Some n'
             /\ LogicNode.targets n' = LogicNode.targets n.
Proof.
  intros (_ & F & _) Hn. destruct (F nd n Hn) as [n' [Hn' E]].
  exists n'. split; [exact Hn'|]. apply E.
Qed.

Lemma created_refl g : raw_wf g -> created g g.
Proof.
  intros H. split; [apply grid_ext_refl|]. split; [apply raw_frame_refl|].
  split; [exact H|]. intros r H1 H2. contradiction.
Qed.

Lemma created_trans g1 g2 g3 :
  created g1 g2 -> created g2 g3 -> created g1 g3.
Proof.
  intros (E1 & F1 & W1 & C1) (E2 & F2 & W2 & C2).
  split; [eapply grid_ext_trans; eauto|].
  split; [eapply raw_frame_trans; eauto|]. split; [exact W2|].
  intros r Hn1 Hn3.
  destruct (nodeOf (chunks g2) r) as [nd|] eqn:Hn2.
  - eapply complete_stable; [exact E2| |apply C1; congruence].
    intros nd' n _ Hn. eapply raw_frame_targets; eauto.
  - apply C2; auto.
Qed.

(** ** Raw node graph: the loop over one cell's table *)

Lemma nodeOf_inj g r r' nd :
  raw_wf g -> nodeOf (chunks g) r = Some nd ->
  nodeOf (chunks g) r' = Some nd -> r = r'.
Proof.
  intros (R1 & _) H H'. unfold nodeOf in *.
  destruct (arrowAt (chunks g) r) as [a|] eqn:Ha; [|discriminate].
  destruct (arrowAt (chunks g) r') as [a'|] eqn:Ha'; [|discriminate].
  destruct (R1 r a nd Ha H) as (_ & _ & _ & n & Hn & A & _).
  destruct (R1 r' a' nd Ha' H') as (_ & _ & _ & n' & Hn' & A' & _).
  congruence.
Qed.

Lemma nodeOf_lt g r nd :
  raw_wf g -> nodeOf (chunks g) r = Some nd -> (nd < length (heap g))%nat.
Proof.
  intros (R1 & _) H. unfold nodeOf in H.
  destruct (arrowAt (chunks g) r) as [a|] eqn:Ha; [|discriminate].
  destruct (R1 r a nd Ha H) as (_ & _ & _ & n & Hn & _).
  apply lookup_lt_Some in Hn. exact Hn.
Qed.

Lemma targets_upto_skip g r k d a :
  arrowAt (chunks g) r = Some a ->
  shape_offsets (arrowType a) !! k = Some d ->
  resolve (chunks g) (fst r) a (fst (snd r)) (snd (snd r)) d = None ->
  targets_upto g r k -> targets_upto g r (S k).
Proof.
  intros Ha Hd Hres (a0 & nd & n & Ha0 & Ho & Hn & Ht).
  rewrite Ha in Ha0. injection Ha0 as <-.
  exists a, nd, n. split; [exact Ha|]. split; [exact Ho|].
  split; [exact Hn|]. rewrite (take_S_r _ _ _ Hd), omap_app. simpl.
  rewrite Hres, app_nil_r. exact Ht.
Qed.

Lemma targets_upto_push g r k d a nd t tr :
  raw_wf g ->
  arrowAt (chunks g) r = Some a -> originalNode a = Some nd ->
  shape_offsets (arrowType a) !! k = Some d ->
  resolve (chunks g) (fst r) a (fst (snd r)) (snd (snd r)) d = Some tr ->
  nodeOf (chunks g) tr = Some t ->
  targets_upto g r k -> targets_upto (linkRaw g nd t) r (S k).
Proof.
  intros Hwf Ha Ho Hd Hres Htr (a0 & nd0 & n & Ha0 & Ho0 & Hn & Ht).
  rewrite Ha in Ha0. injection Ha0 as <-.
  rewrite Ho in Ho0. injection Ho0 as <-.
  destruct (linkRaw_fields g nd t) as (Hc & _).
  destruct (linkRaw_Some_inv g nd t nd n Hn) as [n' Hn'].
  destruct (linkRaw_Some _ _ _ _ _ Hn')
    as (n0 & Hn0 & _ & _ & _ & _ & _ & _ & _ & _ & Tn & _).
  rewrite Hn in Hn0. injection Hn0 as <-.
  rewrite decide_True in Tn by reflexivity.
  exists a, nd, n'. rewrite Hc. split; [exact Ha|]. split; [exact Ho|].
  split; [exact Hn'|]. rewrite (take_S_r _ _ _ Hd), omap_app. simpl.
  rewrite Hres, Tn, !map_app, Ht. simpl. rewrite Htr. reflexivity.
Qed.

Lemma complete_linkRaw g r' nd t :
  (forall k, nodeOf (chunks g) r' = Some k -> k <> nd) ->
  complete g r' -> complete (linkRaw g nd t) r'.
Proof.
  intros Hne. apply complete_stable.
  - rewrite (proj1 (linkRaw_fields g nd t)). apply grid_ext_refl.
  - intros k n Hk Hn.
    destruct (linkRaw_Some_inv g nd t k n Hn) as [n' Hn'].
    exists n'. split; [exact Hn'|].
    destruct (linkRaw_Some _ _ _ _ _ Hn')
      as (n0 & Hn0 & _ & _ & _ & _ & _ & _ & _ & _ & Tn & _).
    rewrite Hn in Hn0. injection Hn0 as <-.
    rewrite decide_False in Tn by (apply Hne; exact Hk).
    rewrite app_nil_r in Tn. exact Tn.
Qed.

Lemma raw_frame_linkRaw g0 g nd t :
  raw_frame g0 g -> (length (heap g0) <= nd)%nat ->
  raw_frame g0 (linkRaw g nd t).
Proof.
  intros (L & F & A & B & C) Hnd.
  destruct (linkRaw_fields g nd t) as (_ & Hn & Ha & Hs & Hl).
  split; [lia|]. split; [|repeat split; congruence].
  intros i n Hi. destruct (F i n Hi) as [n1 [Hn1 E1]].
  destruct (linkRaw_Some_inv g nd t i n1 Hn1) as [n' Hn'].
  exists n'. split; [exact Hn'|].
  destruct (linkRaw_Some _ _ _ _ _ Hn')
    as (n0 & Hn0 & P1 & P2 & P3 & P4 & P5 & P6 & P7 & P8 & Tn & Sn).
  rewrite Hn1 in Hn0. injection Hn0 as <-.
  apply lookup_lt_Some in Hi.
  rewrite decide_False in Tn by lia. rewrite app_nil_r in Tn.
  eapply node_ext_trans; [exact E1|].
  unfold node_ext. repeat split; try assumption. eauto.
Qed.

Lemma resolve_unfold m chunk a x y d x1 y1 sel x2 y2 :
  getArrowRelative_transform a x y (fst d) (snd d) = (x1, y1) ->
  rebase x1 y1 = (sel, (x2, y2)) ->
  resolve m chunk a x y d
  = match targetChunk m chunk sel with
    | None => None
    | Some tc =>
      match arrowAt m (tc, (x2, y2)) with
      | None => None
      | Some ta =>
        if (0 <? arrowType ta)%nat then Some (tc, (x2, y2)) else None
      end
    end.
Proof.
  intros Ht Hr. unfold resolve, getArrowRelative, arrowAt.
  rewrite Ht, Hr. cbn [fst snd].
  destruct (targetChunk m chunk sel) as [tc|]; [|reflexivity].
  destruct (m !! tc) as [c|]; [|reflexivity].
  destruct (0 <? arrowType (getArrow c x2 y2))%nat; reflexivity.
Qed.

Lemma transform_congr a a' x y dx dy :
  rotation a' = rotation a -> flipped a' = flipped a ->
  getArrowRelative_transform a' x y dx dy
  = getArrowRelative_transform a x y dx dy.
Proof.
  intros Hr Hf. unfold getArrowRelative_transform. rewrite Hr, Hf.
  reflexivity.
Qed.

Lemma addTargetNode_step f :
  (forall g cp x y g' res,
      createNode f g cp x y = Some (g', res) -> raw_wf g ->
      created g g' /\ created_res g' (cp, (x, y)) res) ->
  forall g0 chunk x y arrow k d g g',
    arrowAt (chunks g0) (chunk, (x, y)) = Some arrow ->
    shape_offsets (arrowType arrow) !! k = Some d ->
    linking g0 (chunk, (x, y)) k g ->
    addTargetNode (createNode f) g (length (heap g0)) chunk arrow x y
                  (fst d) (snd d) = Some g' ->
    linking g0 (chunk, (x, y)) (S k) g'.
Proof.
  intros IH g0 chunk x y arrow k d g g' Harrow Hd
         (E & F & W & T & N & C) H.
  set (r := (chunk, (x, y))) in *.
  set (nd := length (heap g0)) in *.
  destruct (proj2 E r arrow Harrow) as (a & Ha & (Hty & Hrot & Hfl & _) & _).
  assert (Ho : originalNode a = Some nd).
  { unfold nodeOf in N. rewrite Ha in N. exact N. }
  assert (Hda : shape_offsets (arrowType a) !! k = Some d)
    by (rewrite Hty; exact Hd).
  unfold addTargetNode in H. rewrite transform_same in H.
  destruct (getArrowRelative_transform arrow x y (fst d) (snd d))
    as [x1 y1] eqn:Htr.
  destruct (rebase x1 y1) as [sel [x2 y2]] eqn:Hrb.
  assert (Htra : getArrowRelative_transform a x y (fst d) (snd d)
                 = (x1, y1)).
  { rewrite <- Htr. apply transform_congr; assumption. }
  pose proof (resolve_unfold (chunks g) chunk a x y d _ _ _ _ _ Htra Hrb)
    as Hres.
  destruct (targetChunk (chunks g) chunk sel) as [tc|] eqn:Htc.
  2:{ injection H as <-. split; [exact E|]. split; [exact F|].
      split; [exact W|]. split; [|split; assumption].
      apply (targets_upto_skip g r k d a Ha Hda); [|exact T].
      unfold r. cbn [fst snd]. exact Hres. }
  destruct (createNode f g tc x2 y2) as [[g1 res]|] eqn:Hcall;
    [|discriminate].
  destruct (IH _ _ _ _ _ _ Hcall W) as [(E1 & F1 & W1 & C1) (a1 & Ha1 & Hr1)].
  assert (HE : grid_ext (chunks g0) (chunks g1))
    by (eapply grid_ext_trans; eauto).
  assert (HF : raw_frame g0 g1) by (eapply raw_frame_trans; eauto).
  assert (HN1 : nodeOf (chunks g1) r = Some nd)
    by (apply (nodeOf_ext (chunks g) (chunks g1) r nd E1 N)).
  assert (HT1 : targets_upto g1 r k).
  { eapply targets_upto_stable; [exact E1| |exact T].
    intros k0 n0 _ Hn0. exact (raw_frame_targets g g1 _ _ F1 Hn0). }
  assert (HC1 : forall r', r' <> r -> nodeOf (chunks g0) r' = None ->
                  nodeOf (chunks g1) r' <> None -> complete g1 r').
  { intros r' Hne Hn0 Hn1.
    destruct (nodeOf (chunks g) r') as [k0|] eqn:Hk0.
    - eapply complete_stable; [exact E1| |apply C; auto; congruence].
      intros k1 n1 _ Hn'. exact (raw_frame_targets g g1 _ _ F1 Hn').
    - apply C1; auto. }
  destruct (proj2 E1 r a Ha) as (a' & Ha' & (Hty' & Hrot' & Hfl' & _) & Ho').
  destruct (Ho' nd Ho) as (Hon & _).
  assert (Hda' : shape_offsets (arrowType a') !! k = Some d)
    by (rewrite Hty'; exact Hda).
  assert (Hres1 : resolve (chunks g1) chunk a' x y d
                  = resolve (chunks g) chunk a x y d)
    by (apply resolve_ext; assumption).
  assert (Hat : exists a0, arrowAt (chunks g) (tc, (x2, y2)) = Some a0
                           /\ arrowType a1 = arrowType a0).
  { destruct (arrowAt (chunks g) (tc, (x2, y2))) as [a0|] eqn:Ha0.
    - exists a0. split; [reflexivity|].
      destruct (proj2 E1 _ _ Ha0) as (b & Hb & (Hs & _) & _).
      rewrite Ha1 in Hb. injection Hb as <-. exact Hs.
    - exfalso.
      assert (Hs1 : is_Some (arrowAt (chunks g1) (tc, (x2, y2)))) by eauto.
      apply arrowAt_is_Some in Hs1. apply (proj1 E1) in Hs1.
      apply (arrowAt_is_Some (chunks g) (tc, (x2, y2))) in Hs1.
      destruct Hs1 as [? Hs1]. congruence. }
  destruct Hat as (a0 & Ha0 & Hty0). rewrite Ha0 in Hres.
  destruct Hr1 as [[Hz ->]|[Hpos [t [-> Hot]]]].
  - injection H as <-.
    rewrite <- Hty0, Hz in Hres. simpl in Hres.
    split; [exact HE|]. split; [exact HF|]. split; [exact W1|].
    split; [|split; assumption].
    apply (targets_upto_skip g1 r k d a' Ha' Hda'); [|exact HT1].
    unfold r. cbn [fst snd]. rewrite Hres1. exact Hres.
  - injection H as <-.
    apply Nat.ltb_lt in Hpos. rewrite <- Hty0, Hpos in Hres.
    destruct (linkRaw_fields g1 nd t) as (Hc & _).
    assert (Hnd1 : (nd < length (heap g1))%nat)
      by (eapply nodeOf_lt; eauto).
    assert (Htn : nodeOf (chunks g1) (tc, (x2, y2)) = Some t).
    { unfold nodeOf. rewrite Ha1. exact Hot. }
    assert (Ht1 : (t < length (heap g1))%nat)
      by (eapply nodeOf_lt; eauto).
    split; [rewrite Hc; exact HE|].
    split; [apply raw_frame_linkRaw; [exact HF|unfold nd; lia]|].
    split; [apply raw_wf_linkRaw; assumption|].
    split; [|split].
    + apply (targets_upto_push g1 r k d a' nd t (tc, (x2, y2)) W1 Ha' Hon
               Hda'); [|exact Htn|exact HT1].
      unfold r. cbn [fst snd]. rewrite Hres1. exact Hres.
    + rewrite Hc. exact HN1.
    + rewrite Hc. intros r' Hne Hn0 Hn1.
      apply complete_linkRaw; [|apply HC1; assumption].
      intros k0 Hk0 ->. apply Hne. eapply nodeOf_inj; eauto.
Qed.

Lemma addTargetNodes_cons cn nd chunk arrow x y d ds g :
  addTargetNodes cn nd chunk arrow x y (d :: ds) g
  = match addTargetNode cn g nd chunk arrow x y (fst d) (snd d) with
    | None => None
    | Some g1 => addTargetNodes cn nd chunk arrow x y ds g1
    end.
Proof.
  unfold addTargetNodes. cbn [fold_left].
  destruct (addTargetNode cn g nd chunk arrow x y (fst d) (snd d));
    [reflexivity|].
  induction ds as [|d' ds IH]; [reflexivity|exact IH].
Qed.

Lemma targets_upto_ge g r k a :
  arrowAt (chunks g) r = Some a ->
  (length (shape_offsets (arrowType a)) <= k)%nat ->
  targets_upto g r k ->
  targets_upto g r (length (shape_offsets (arrowType a))).
Proof.
  intros Ha Hk (a0 & nd & n & Ha0 & Ho & Hn & Ht).
  rewrite Ha in Ha0. injection Ha0 as <-.
  exists a, nd, n. split; [exact Ha|]. split; [exact Ho|].
  split; [exact Hn|]. rewrite firstn_all. rewrite take_ge in Ht by exact Hk.
  exact Ht.
Qed.

Lemma addTargetNodes_loop f :
  (forall g cp x y g' res,
      createNode f g cp x y = Some (g', res) -> raw_wf g ->
      created g g' /\ created_res g' (cp, (x, y)) res) ->
  forall todo g0 chunk x y arrow k g g',
    arrowAt (chunks g0) (chunk, (x, y)) = Some arrow ->
    drop k (shape_offsets (arrowType arrow)) = todo ->
    linking g0 (chunk, (x, y)) k g ->
    addTargetNodes (createNode f) (length (heap g0)) chunk arrow x y todo g
    = Some g' ->
    linking g0 (chunk, (x, y))
            (length (shape_offsets (arrowType arrow))) g'.
Proof.
  intros IH todo.
  induction todo as [|d todo IHtodo];
    intros g0 chunk x y arrow k g g' Harrow Hdrop Hlink H.
  - injection H as <-.
    destruct Hlink as (E & F & W & T & N & C).
    split; [exact E|]. split; [exact F|]. split; [exact W|].
    split; [|split; assumption].
    destruct (proj2 E _ _ Harrow) as (a & Ha & (Hty & _) & _).
    rewrite <- Hty. apply (targets_upto_ge g _ k a Ha); [|exact T].
    rewrite Hty. apply drop_nil_inv. exact Hdrop.
  - rewrite addTargetNodes_cons in H.
    destruct (addTargetNode (createNode f) g (length (heap g0)) chunk arrow
                x y (fst d) (snd d)) as [g1|] eqn:Hstep; [|discriminate].
    assert (Hd : shape_offsets (arrowType arrow) !! k = Some d).
    { pose proof (lookup_drop (shape_offsets (arrowType arrow)) k 0) as Hl.
      rewrite Hdrop, Nat.add_0_r in Hl. symmetry. exact Hl. }
    pose proof (addTargetNode_step f IH _ _ _ _ _ _ _ _ _ Harrow Hd Hlink
                  Hstep) as Hlink1.
    apply (IHtodo g0 chunk x y arrow (S k) g1 g' Harrow); auto.
    replace (S k) with (k + 1)%nat by lia.
    rewrite <- drop_drop, Hdrop. reflexivity.
Qed.

(** Every successful call of [createNode] keeps the raw graph well formed,
    leaves complete every node it creates, and returns the node of the
    cell. *)
Lemma createNode_created fuel : forall g cp x y g' res,
  createNode fuel g cp x y = Some (g', res) -> raw_wf g ->
  created g g' /\ created_res g' (cp, (x, y)) res.
Proof.
  induction fuel as [|fuel IH]; intros g cp x y g' res H W; [discriminate|].
  cbn [createNode] in H.
  destruct (chunks g !! cp) as [c|] eqn:Hc; [|discriminate].
  assert (Ha : arrowAt (chunks g) (cp, (x, y)) = Some (getArrow c x y)).
  { unfold arrowAt. simpl. rewrite Hc. reflexivity. }
  set (arrow := getArrow c x y) in *.
  destruct (arrowType arrow =? 0)%nat eqn:Hz.
  { injection H as <- <-. split; [apply created_refl; exact W|].
    exists arrow. split; [exact Ha|]. left.
    apply Nat.eqb_eq in Hz. auto. }
  apply Nat.eqb_neq in Hz.
  destruct (originalNode arrow) as [n|] eqn:Ho.
  { injection H as <- <-. split; [apply created_refl; exact W|].
    exists arrow. split; [exact Ha|]. right. split; [lia|]. eauto. }
  destruct (addTargetNodes (createNode fuel) (length (heap g)) cp arrow x y
              (shape_offsets (arrowType arrow))
              (markCell g (cp, (x, y)) (medalType arrow)))
    as [g3|] eqn:Hloop; [|discriminate].
  injection H as <- <-.
  destruct (markCell_spec g (cp, (x, y)) arrow W Ha Ho ltac:(lia))
    as (W2 & E2 & F2 & T2 & N2 & O2 & L2).
  assert (Hlink : linking g (cp, (x, y)) 0
                    (markCell g (cp, (x, y)) (medalType arrow))).
  { split; [exact E2|]. split; [exact F2|]. split; [exact W2|].
    split; [exact T2|]. split; [exact N2|].
    intros r' Hne Hn0 Hn2. rewrite O2 in Hn2 by exact Hne. contradiction. }
  pose proof (addTargetNodes_loop fuel IH _ _ _ _ _ _ 0%nat _ _ Ha eq_refl
                Hlink Hloop) as (E & F & W3 & T & N & C).
  split.
  - split; [exact E|]. split; [exact F|]. split; [exact W3|].
    intros r Hn0 Hn3. destruct (decide (r = (cp, (x, y)))) as [->|Hne].
    + destruct (proj2 E _ _ Ha) as (a' & Ha' & (Hty & _) & _).
      exists a'. split; [exact Ha'|]. rewrite Hty. exact T.
    + apply C; assumption.
  - unfold nodeOf in N.
    destruct (arrowAt (chunks g3) (cp, (x, y))) as [a'|] eqn:Ha';
      [|discriminate].
    exists a'. split; [exact Ha'|]. right.
    destruct (proj2 E _ _ Ha) as (a'' & Ha'' & (Hty & _) & _).
    rewrite Ha' in Ha''. injection Ha'' as <-.
    split; [lia|]. eauto.
Qed.

(** ** Raw node graph: [createNode] returns *)

Lemma unmarked_le refs m m' :
  (forall r, is_unmarked m' r = true -> is_unmarked m r = true) ->
  (unmarked refs m' <= unmarked refs m)%nat.
Proof.
  intros H. unfold unmarked. induction refs as [|r refs IH]; simpl; [lia|].
  destruct (is_unmarked m' r) eqn:E.
  - rewrite (H r E). simpl. lia.
  - destruct (is_unmarked m r); simpl; lia.
Qed.

Lemma unmarked_mark_le refs m m' r :
  In r refs -> is_unmarked m r = true -> is_unmarked m' r = false ->
  (forall r', is_unmarked m' r' = true -> is_unmarked m r' = true) ->
  (S (unmarked refs m') <= unmarked refs m)%nat.
Proof.
  intros Hin Hm Hm' H. unfold unmarked.
  induction refs as [|r0 refs IH]; simpl; [destruct Hin|].
  destruct Hin as [->|Hin].
  - rewrite Hm, Hm'. simpl.
    pose proof (unmarked_le refs m m' H). unfold unmarked in *. lia.
  - specialize (IH Hin). destruct (is_unmarked m' r0) eqn:E.
    + rewrite (H r0 E). simpl. lia.
    + destruct (is_unmarked m r0); simpl; lia.
Qed.

Lemma grid_ext_unmarked m m' r :
  grid_ext m m' -> is_unmarked m' r = true -> is_unmarked m r = true.
Proof.
  intros [D E] H. unfold is_unmarked in *.
  destruct (arrowAt m' r) as [a'|] eqn:Ha'; [|discriminate].
  assert (Hs : is_Some (arrowAt m r)).
  { apply arrowAt_is_Some, D, (arrowAt_is_Some m' r). eauto. }
  destruct Hs as [a Ha]. rewrite Ha.
  destruct (E r a Ha) as (b & Hb & (Hty & _) & Ho).
  rewrite Ha' in Hb. injection Hb as <-. rewrite <- Hty.
  destruct (originalNode a) as [nd|] eqn:Hoa.
  - destruct (Ho nd eq_refl) as (Ho' & _). rewrite Ho' in H.
    rewrite andb_false_r in H. discriminate.
  - apply andb_true_iff in H as [H _]. rewrite H. reflexivity.
Qed.

Lemma covers_ext refs m m' : grid_ext m m' -> covers refs m -> covers refs m'.
Proof.
  intros [D _] H r Hs Hx Hy. apply H; auto.
Qed.

Lemma targetChunk_is_Some m chunk sel tc :
  is_Some (m !! chunk) -> targetChunk m chunk sel = Some tc ->
  is_Some (m !! tc).
Proof.
  intros Hc H. destruct sel as [i|]; simpl in H.
  - unfold adjacentChunks in H.
    destruct (m !! (_, _)) eqn:E in H; [|discriminate].
    injection H as <-. eauto.
  - injection H as <-. exact Hc.
Qed.

Lemma nodeOf_marked m r nd : nodeOf m r = Some nd -> is_unmarked m r = false.
Proof.
  unfold nodeOf, is_unmarked. destruct (arrowAt m r) as [a|]; [|discriminate].
  intros ->. apply andb_false_r.
Qed.

Lemma addTargetNodes_total refs f :
  (forall g cp x y,
      raw_wf g -> covers refs (chunks g) -> is_Some (chunks g !! cp) ->
      0 <= x < CHUNK_SIZE -> 0 <= y < CHUNK_SIZE ->
      (unmarked refs (chunks g) <= f)%nat ->
      exists g' res, createNode (S f) g cp x y = Some (g', res)) ->
  forall todo g0 chunk x y arrow k g,
    covers refs (chunks g0) -> In (chunk, (x, y)) refs ->
    is_unmarked (chunks g0) (chunk, (x, y)) = true ->
    (unmarked refs (chunks g0) <= S f)%nat ->
    0 <= x < CHUNK_SIZE -> 0 <= y < CHUNK_SIZE ->
    arrowAt (chunks g0) (chunk, (x, y)) = Some arrow ->
    drop k (shape_offsets (arrowType arrow)) = todo ->
    linking g0 (chunk, (x, y)) k g ->
    exists g',
      addTargetNodes (createNode (S f)) (length (heap g0)) chunk arrow x y
                     todo g = Some g'.
Proof.
  intros IH todo.
  induction todo as [|d todo IHtodo];
    intros g0 chunk x y arrow k g Hcov Hin Hun Hf Hx Hy Harrow Hdrop Hlink.
  - exists g. reflexivity.
  - rewrite addTargetNodes_cons.
    assert (Hd : shape_offsets (arrowType arrow) !! k = Some d).
    { pose proof (lookup_drop (shape_offsets (arrowType arrow)) k 0) as Hl.
      rewrite Hdrop, Nat.add_0_r in Hl. symmetry. exact Hl. }
    assert (Hstep : exists g1,
              addTargetNode (createNode (S f)) g (length (heap g0)) chunk
                            arrow x y (fst d) (snd d) = Some g1).
    { unfold addTargetNode. rewrite transform_same.
      destruct (getArrowRelative_transform arrow x y (fst d) (snd d))
        as [x1 y1] eqn:Htr.
      destruct (rebase x1 y1) as [sel [x2 y2]] eqn:Hrb.
      destruct (targetChunk (chunks g) chunk sel) as [tc|] eqn:Htc;
        [|eauto].
      destruct Hlink as (E & F & W & T & N & C).
      pose proof (transform_bounds _ _ _ _ _ _ _ Htr) as Hb.
      assert (Hsmall : Z.abs (fst d) + Z.abs (snd d) <= 2).
      { apply (shape_offsets_small (arrowType arrow)).
        apply list_elem_of_In. eapply list_elem_of_lookup_2. exact Hd. }
      assert (Hx1 : - CHUNK_SIZE <= x1 < 2 * CHUNK_SIZE)
        by (unfold CHUNK_SIZE in *; lia).
      assert (Hy1 : - CHUNK_SIZE <= y1 < 2 * CHUNK_SIZE)
        by (unfold CHUNK_SIZE in *; lia).
      destruct (rebase_spec _ _ _ _ _ Hx1 Hy1 Hrb) as ([Hx2 Hy2] & _).
      assert (Hchunk : is_Some (chunks g !! chunk)).
      { apply (grid_ext_lookup _ _ chunk E).
        apply (arrowAt_is_Some (chunks g0) (chunk, (x, y))). eauto. }
      destruct (IH g tc x2 y2 W) as (g1 & res & Hcall); auto.
      - eapply covers_ext; eauto.
      - eapply targetChunk_is_Some; eauto.
      - assert (S (unmarked refs (chunks g))
                <= unmarked refs (chunks g0))%nat; [|lia].
        apply (unmarked_mark_le refs _ _ (chunk, (x, y))); auto.
        + eapply nodeOf_marked. exact N.
        + intros r'. apply grid_ext_unmarked. exact E.
      - rewrite Hcall. destruct res; eauto. }
    destruct Hstep as [g1 Hstep]. rewrite Hstep.
    apply (IHtodo g0 chunk x y arrow (S k) g1); auto.
    + replace (S k) with (k + 1)%nat by lia.
      rewrite <- drop_drop, Hdrop. reflexivity.
    + eapply addTargetNode_step; eauto.
      intros. apply (createNode_created (S f)); assumption.
Qed.

Lemma createNode_unfold fuel g chunk x y :
  createNode (S fuel) g chunk x y
  = match chunks g !! chunk with
    | None => None
    | Some c =>
      let arrow := getArrow c x y in
      if (arrowType arrow =? 0)%nat then Some (g, None)
      else
        match originalNode arrow with
        | Some n => Some (g, Some n)
        | None =>
          match addTargetNodes (createNode fuel) (length (heap g)) chunk
                               arrow x y (shape_offsets (arrowType arrow))
                               (markCell g (chunk, (x, y)) (medalType arrow))
          with
          | None => None
          | Some g3 => Some (g3, Some (length (heap g)))
          end
        end
    end.
Proof. reflexivity. Qed.

Lemma createNode_total refs f : forall g cp x y,
  raw_wf g -> covers refs (chunks g) -> is_Some (chunks g !! cp) ->
  0 <= x < CHUNK_SIZE -> 0 <= y < CHUNK_SIZE ->
  (unmarked refs (chunks g) <= f)%nat ->
  exists g' res, createNode (S f) g cp x y = Some (g', res).
Proof.
  induction f as [|f IH]; intros g cp x y W Hcov [c Hc] Hx Hy Hf;
    rewrite createNode_unfold, Hc; cbn zeta.
  - destruct (arrowType (getArrow c x y) =? 0)%nat eqn:Hz; [eauto|].
    destruct (originalNode (getArrow c x y)) eqn:Ho; [eauto|].
    exfalso.
    assert (Hin : In (cp, (x, y)) refs) by (apply Hcov; simpl; eauto).
    assert (Hun : is_unmarked (chunks g) (cp, (x, y)) = true).
    { unfold is_unmarked, arrowAt. simpl. rewrite Hc, Ho.
      apply Nat.eqb_neq in Hz.
      rewrite andb_true_r. apply Nat.ltb_lt. lia. }
    unfold unmarked in Hf.
    assert (In (cp, (x, y)) (List.filter (is_unmarked (chunks g)) refs))
      by (apply filter_In; auto).
    destruct (List.filter (is_unmarked (chunks g)) refs);
      [contradiction|simpl in Hf; lia].
  - destruct (arrowType (getArrow c x y) =? 0)%nat eqn:Hz; [eauto|].
    destruct (originalNode (getArrow c x y)) eqn:Ho; [eauto|].
    assert (Ha : arrowAt (chunks g) (cp, (x, y)) = Some (getArrow c x y)).
    { unfold arrowAt. simpl. rewrite Hc. reflexivity. }
    apply Nat.eqb_neq in Hz.
    assert (Hin : In (cp, (x, y)) refs) by (apply Hcov; simpl; eauto).
    assert (Hun : is_unmarked (chunks g) (cp, (x, y)) = true).
    { unfold is_unmarked. rewrite Ha, Ho.
      rewrite andb_true_r. apply Nat.ltb_lt. lia. }
    destruct (markCell_spec g (cp, (x, y)) _ W Ha Ho ltac:(lia))
      as (W2 & E2 & F2 & T2 & N2 & O2 & L2).
    destruct (addTargetNodes_total refs f IH
                (shape_offsets (arrowType (getArrow c x y)))
                g cp x y (getArrow c x y) 0%nat
                (markCell g (cp, (x, y)) (medalType (getArrow c x y))))
      as [g3 Hg3]; auto.
    + split; [exact E2|]. split; [exact F2|]. split; [exact W2|].
      split; [exact T2|]. split; [exact N2|].
      intros r' Hne Hn0 Hn2. rewrite O2 in Hn2 by exact Hne. contradiction.
    + rewrite Hg3. eauto.
Qed.

(** ** Raw node graph: [createNodes] *)

Lemma unmarked_le_length refs m : (unmarked refs m <= length refs)%nat.
Proof.
  unfold unmarked. induction refs as [|r refs IH]; simpl; [lia|].
  destruct (is_unmarked m r); simpl; lia.
Qed.

Lemma all_complete_created g g' :
  created g g' -> all_complete g -> all_complete g'.
Proof.
  intros (E & F & W & C) H r Hr.
  destruct (nodeOf (chunks g) r) as [nd|] eqn:Hn.
  - eapply complete_stable; [exact E| |apply H; congruence].
    intros k n _ Hk. exact (raw_frame_targets g g' _ _ F Hk).
  - apply C; auto.
Qed.

Lemma createNodes_loop refs fuel l : forall g,
  (forall r, In r l ->
     is_Some (chunks g !! fst r)
     /\ 0 <= fst (snd r) < CHUNK_SIZE /\ 0 <= snd (snd r) < CHUNK_SIZE) ->
  raw_wf g -> all_complete g -> covers refs (chunks g) ->
  (length refs < fuel)%nat ->
  exists g',
    fold_left
      (fun (og : option Game) (r : ArrowRef) =>
         match og with
         | None => None
         | Some g' =>
           match createNode fuel g' (fst r) (fst (snd r)) (snd (snd r)) with
           | None => None
           | Some (g'', _) => Some g''
           end
         end) l (Some g) = Some g'
    /\ created g g' /\ all_complete g'
    /\ (forall r a, In r l -> arrowAt (chunks g') r = Some a ->
          (0 < arrowType a)%nat -> nodeOf (chunks g') r <> None).
Proof.
  induction l as [|r l IH]; intros g Hl W Hc Hcov Hfuel.
  - exists g. split; [reflexivity|]. split; [apply created_refl; exact W|].
    split; [exact Hc|]. intros r a [].
  - destruct fuel as [|f]; [lia|].
    destruct (Hl r (or_introl eq_refl)) as (Hs & Hx & Hy).
    destruct (createNode_total refs f g (fst r) (fst (snd r)) (snd (snd r))
                W Hcov Hs Hx Hy) as (g1 & res & Hcall).
    { pose proof (unmarked_le_length refs (chunks g)). lia. }
    destruct (createNode_created _ _ _ _ _ _ _ Hcall W) as [Hcr Hres].
    pose proof Hcr as (E1 & F1 & W1 & C1).
    destruct (IH g1) as (g' & Hfold & Hcr' & Hc' & Hmarked); auto.
    + intros r' Hr'. destruct (Hl r' (or_intror Hr')) as (Hs' & Hxy).
      split; [|exact Hxy]. apply (grid_ext_lookup _ _ _ E1). exact Hs'.
    + eapply all_complete_created; eauto.
    + eapply covers_ext; eauto.
    + exists g'. cbn [fold_left]. rewrite Hcall.
      split; [exact Hfold|]. split; [eapply created_trans; eauto|].
      split; [exact Hc'|].
      intros r' a [<-|Hr'] Ha Hpos; [|eapply Hmarked; eauto].
      destruct Hres as (a1 & Ha1 & Hr1). replace (fst r, (fst (snd r),
        snd (snd r))) with r in Ha1 by (destruct r as [? [? ?]]; reflexivity).
      destruct Hcr' as (E' & _).
      destruct (proj2 E' _ _ Ha1) as (a2 & Ha2 & (Hty & _) & Ho).
      rewrite Ha in Ha2. injection Ha2 as <-.
      destruct Hr1 as [[Hz _]|[_ [nd [_ Hnd]]]]; [lia|].
      destruct (Ho nd Hnd) as (Ho' & _).
      unfold nodeOf. rewrite Ha, Ho'. discriminate.
Qed.

Lemma raw_wf_gameOf m : fresh m -> raw_wf (gameOf m).
Proof.
  intros Hf. split; [|split; [|split]].
  - intros r a nd Ha Ho. destruct (Hf r a Ha) as [Hn _]. congruence.
  - intros nd n H. discriminate.
  - intros p n np nn H. discriminate.
  - intros p np k H. discriminate.
Qed.

(** On a freshly loaded grid [createNodes] returns, in whatever order it
    takes the chunks, whenever the fuel exceeds the number of cells, and the
    raw graph it builds has, for every non-empty cell, a node whose targets
    are the nodes of the cells of [getTargetArrows]. *)
Lemma createNodes_spec m ks fuel :
  fresh m -> ks ≡ₚ chunk_keys m -> (length (all_cells m) < fuel)%nat ->
  exists g,
    createNodes ks fuel (gameOf m) = Some g
    /\ raw_wf g /\ grid_ext m (chunks g) /\ raw_frame (gameOf m) g
    /\ all_complete g
    /\ (forall r a, cell_of m r a -> nodeOf (chunks g) r <> None).
Proof.
  intros Hf Hks Hfuel. unfold createNodes.
  destruct (createNodes_loop (all_cells m) fuel (cells_in ks) (gameOf m))
    as (g & Hfold & (E & F & W & _) & Hc & Hm); auto.
  - intros r Hr. apply (cells_in_keys m ks r Hks), In_all_cells in Hr.
    exact Hr.
  - apply raw_wf_gameOf. exact Hf.
  - intros r Hr. exfalso. apply Hr. unfold nodeOf. simpl.
    destruct (arrowAt m r) as [a|] eqn:Ha; [|reflexivity].
    apply (Hf r a Ha).
  - intros r Hs Hx Hy. apply In_all_cells. auto.
  - exists g. split; [exact Hfold|]. split; [exact W|]. split; [exact E|].
    split; [exact F|]. split; [exact Hc|].
    intros r a (Ha & Hpos & Hx & Hy).
    destruct (proj2 E r a Ha) as (a' & Ha' & (Hty & _) & _).
    apply (Hm r a'); auto.
    + apply (cells_in_keys m ks r Hks), In_all_cells. split; [|auto].
      apply (arrowAt_is_Some m r). eauto.
    + rewrite Hty. exact Hpos.
Qed.

(** ** Cells that route into themselves *)

Lemma rebase_inside x y :
  0 <= x < CHUNK_SIZE -> 0 <= y < CHUNK_SIZE -> rebase x y = (None, (x, y)).
Proof.
  unfold rebase, CHUNK_SIZE. intros Hx Hy.
  destruct (x >=? 16) eqn:E1; [lia|]. destruct (x <? 0) eqn:E2; [lia|].
  destruct (y <? 0) eqn:E3; [lia|]. destruct (y >=? 16) eqn:E4; [lia|].
  reflexivity.
Qed.

Lemma getArrowRelative_self m r a arrow :
  arrowAt m r = Some a -> (0 < arrowType a)%nat ->
  0 <= fst (snd r) < CHUNK_SIZE -> 0 <= snd (snd r) < CHUNK_SIZE ->
  getArrowRelative m (fst r) arrow (fst (snd r)) (snd (snd r)) 0 0
  = Some (fst r, a, snd r).
Proof.
  destruct r as [c [x y]]. cbn [fst snd]. intros Ha Hpos Hx Hy.
  unfold getArrowRelative.
  assert (Ht : getArrowRelative_transform arrow x y 0 0 = (x, y)).
  { unfold getArrowRelative_transform.
    destruct (flipped arrow), (rotation arrow) as [|[|[|[|k]]]];
      simpl; f_equal; lia. }
  rewrite Ht, (rebase_inside x y Hx Hy). simpl.
  unfold arrowAt in Ha. simpl in Ha.
  destruct (m !! c) as [ch|]; [|discriminate]. injection Ha as <-.
  apply Nat.ltb_lt in Hpos. rewrite Hpos. reflexivity.
Qed.

Lemma sends_reach_self r arrow ds : forall m1 c1,
  In (0, 0) ds ->
  arrowAt m1 r = Some c1 -> (0 < arrowType c1)%nat ->
  0 <= fst (snd r) < CHUNK_SIZE -> 0 <= snd (snd r) < CHUNK_SIZE ->
  exists c2,
    arrowAt (fold_left
               (fun m' (d : Z * Z) =>
                  sendSignal m' (fst r) arrow (fst (snd r)) (snd (snd r))
                             (fst d) (snd d)) ds m1) r = Some c2
    /\ (S (signalCount c1) <= signalCount c2)%nat.
Proof.
  induction ds as [|d ds IH]; intros m1 c1 Hin Hc1 Hpos Hx Hy; [destruct Hin|].
  cbn [fold_left]. destruct Hin as [->|Hin].
  - cbn [fst snd]. unfold sendSignal at 2.
    rewrite (getArrowRelative_self m1 r c1 arrow Hc1 Hpos Hx Hy).
    assert (Hr : (fst r, snd r) = r) by (destruct r; reflexivity).
    rewrite Hr.
    destruct (grid_le_at _ _ r (incrSignalCount c1)
                (grid_le_fold
                   (fun m' (d : Z * Z) =>
                      sendSignal m' (fst r) arrow (fst (snd r))
                                 (snd (snd r)) (fst d) (snd d)) ds
                   (fun m' d => grid_le_sendSignal m' _ _ _ _ _ _)
                   (updateArrow m1 r incrSignalCount)))
      as (c2 & Hc2 & Hco).
    { rewrite arrowAt_updateArrow_eq, Hc1. reflexivity. }
    exists c2. split; [exact Hc2|].
    destruct Hco as (_ & _ & _ & _ & _ & _ & _ & _ & _ & Hle).
    simpl in Hle. exact Hle.
  - destruct (grid_le_at _ _ r c1
                (grid_le_sendSignal m1 (fst r) arrow (fst (snd r))
                   (snd (snd r)) (fst d) (snd d)) Hc1)
      as (c1' & Hc1' & Hco).
    destruct (IH _ c1' Hin Hc1') as (c2 & Hc2 & Hle); auto.
    + destruct Hco as (-> & _). exact Hpos.
    + exists c2. split; [exact Hc2|].
      destruct Hco as (_ & _ & _ & _ & _ & _ & _ & _ & _ & Hle').
      lia.
Qed.

Lemma self_offset k : k = 12%nat \/ k = 13%nat -> In (0, 0) (shape_offsets k).
Proof. intros [-> | ->]; simpl; auto. Qed.

(** C10: a cell of shape 12 or 13 is among its own forward targets; when
    active, the send pass of a CA tick increments its own [signalCount];
    and the raw node [createNodes] builds for it, in whatever order [ks]
    the chunks are visited, has itself among its targets. *)
Theorem self_target (m : GameMap) (r : ArrowRef) (a : Arrow) :
  cell_of m r a -> arrowType a = 12%nat \/ arrowType a = 13%nat ->
  In (0, 0) (shape_offsets (arrowType a))
  /\ (forall arrow, getArrowRelative_transform arrow 0 0 0 0 = (0, 0))
  /\ In r (getTargetArrows m (fst r) a (fst (snd r)) (snd (snd r)))
  /\ (active a = true ->
      exists a1, arrowAt (updateCA_pass1 m) r = Some a1
                 /\ (S (signalCount a) <= signalCount a1)%nat)
  /\ (fresh m ->
      forall ks fuel, ks ≡ₚ chunk_keys m ->
      (length (all_cells m) < fuel)%nat ->
      exists g nd n,
        createNodes ks fuel (gameOf m) = Some g
        /\ nodeOf (chunks g) r = Some nd /\ heap g !! nd = Some n
        /\ In nd (LogicNode.targets n)).
Proof.
  intros Hcell Hshape. pose proof Hcell as (Ha & Hpos & Hx & Hy).
  pose proof (self_offset _ Hshape) as Hself.
  assert (Htarget : In r (getTargetArrows m (fst r) a (fst (snd r))
                                          (snd (snd r)))).
  { apply In_getTargetArrows. exists (0, 0), a. split; [exact Hself|].
    apply getArrowRelative_self; assumption. }
  split; [exact Hself|]. split; [|split; [exact Htarget|split]].
  - intros arrow. unfold getArrowRelative_transform.
    destruct (flipped arrow), (rotation arrow) as [|[|[|[|k]]]];
      reflexivity.
  - intros Hact. unfold updateCA_pass1.
    assert (Hin : In r (all_cells m)).
    { apply In_all_cells. split; [|auto].
      apply (arrowAt_is_Some m r). eauto. }
    apply in_split in Hin as (l1 & l2 & Hl). rewrite Hl.
    rewrite fold_left_app. cbn [fold_left].
    destruct (grid_le_at _ _ r a
                (grid_le_fold updateCA_send l1 grid_le_updateCA_send m) Ha)
      as (c1 & Hc1 & Hco1).
    set (m1 := fold_left updateCA_send l1 m) in *.
    assert (Hstep : exists c2, arrowAt (updateCA_send m1 r) r = Some c2
                      /\ (S (signalCount c1) <= signalCount c2)%nat).
    { unfold updateCA_send. rewrite Hc1.
      destruct Hco1 as (Hty & _ & _ & _ & Hac & _).
      rewrite Hty, Hac, Hact. apply Nat.ltb_lt in Hpos. rewrite Hpos.
      simpl. apply sends_reach_self; auto.
      rewrite Hty. apply Nat.ltb_lt. exact Hpos. }
    destruct Hstep as (c2 & Hc2 & Hle2).
    destruct (grid_le_at _ _ r c2
                (grid_le_fold updateCA_send l2 grid_le_updateCA_send _) Hc2)
      as (c3 & Hc3 & Hco3).
    exists c3. split; [exact Hc3|].
    destruct Hco1 as (_ & _ & _ & _ & _ & _ & _ & _ & _ & Hle1).
    destruct Hco3 as (_ & _ & _ & _ & _ & _ & _ & _ & _ & Hle3). lia.
  - intros Hfresh ks fuel Hks Hfuel.
    destruct (createNodes_spec m ks fuel Hfresh Hks Hfuel)
      as (g & Hrun & W & E & _ & Hc & Hm).
    specialize (Hm r a Hcell).
    destruct (nodeOf (chunks g) r) as [nd|] eqn:Hnd; [|contradiction].
    destruct (Hc r) as (a' & Ha' & (a'' & nd' & n & Ha'' & Ho & Hn & Ht));
      [congruence|].
    rewrite Ha' in Ha''. injection Ha'' as <-.
    assert (nd' = nd) as ->.
    { unfold nodeOf in Hnd. rewrite Ha' in Hnd. congruence. }
    exists g, nd, n. split; [exact Hrun|]. split; [exact Hnd|].
    split; [exact Hn|].
    rewrite firstn_all, <- getTargetArrows_resolve in Ht.
    assert (Hin' : In r (getTargetArrows (chunks g) (fst r) a' (fst (snd r))
                                         (snd (snd r)))).
    { apply In_getTargetArrows. exists (0, 0), a'.
      destruct (proj2 E r a Ha) as (b & Hb & (Hty & _) & _).
      rewrite Ha' in Hb. injection Hb as <-.
      split; [rewrite Hty; exact Hself|].
      apply getArrowRelative_self; auto. rewrite Hty. exact Hpos. }
    assert (Hmap : In (Some nd) (List.map Some (LogicNode.targets n))).
    { rewrite Ht. apply in_map_iff. exists r. split; [exact Hnd|exact Hin']. }
    apply in_map_iff in Hmap as (k & [= ->] & Hk). exact Hk.
Qed.

Lemma self_target_witness :
  In ((0, 0), (15, 3))
     (getTargetArrows selfGrid (0, 0)
        (mkArrow 12 3 false 0 true 0 (mkArrowState false 0) None None 0)
        15 3).
Proof.
  assert (H : cell_of selfGrid ((0, 0), (15, 3))
                (mkArrow 12 3 false 0 true 0 (mkArrowState false 0)
                         None None 0)).
  { unfold cell_of, CHUNK_SIZE. cbn [fst snd].
    split; [vm_compute; reflexivity|]. simpl. lia. }
  destruct (self_target selfGrid ((0, 0), (15, 3)) _ H (or_introl eq_refl))
    as (_ & _ & H3 & _).
  exact H3.
Defined.

(** ** CA simulator: the counts of the send pass *)

Lemma grid_static_adjacent m m' chunk i :
  grid_static m m' -> adjacentChunks m' chunk i = adjacentChunks m chunk i.
Proof.
  intros [D _]. unfold adjacentChunks.
  pose proof (D (fst chunk + fst (adjacent_dir i),
                 snd chunk + snd (adjacent_dir i))) as H.
  destruct (m !! (_, _)) as [c|], (m' !! (_, _)) as [c'|]; try reflexivity.
  - destruct H as [_ H]. destruct H as [? H]; [eauto|discriminate].
  - destruct H as [H _]. destruct H as [? H]; [eauto|discriminate].
Qed.

Lemma resolve_static m m' chunk a a' x y d :
  grid_static m m' -> rotation a' = rotation a -> flipped a' = flipped a ->
  resolve m' chunk a' x y d = resolve m chunk a x y d.
Proof.
  intros Hst Hr Hf.
  destruct (getArrowRelative_transform a x y (fst d) (snd d))
    as [x1 y1] eqn:Ht.
  destruct (rebase x1 y1) as [sel [x2 y2]] eqn:Hrb.
  rewrite (resolve_unfold m chunk a x y d _ _ _ _ _ Ht Hrb).
  rewrite (resolve_unfold m' chunk a' x y d x1 y1 sel x2 y2);
    [|rewrite <- Ht; apply transform_congr; assumption|exact Hrb].
  assert (Htc : targetChunk m' chunk sel = targetChunk m chunk sel).
  { destruct sel; simpl; [apply grid_static_adjacent; exact Hst|reflexivity]. }
  rewrite Htc. destruct (targetChunk m chunk sel) as [tc|]; [|reflexivity].
  destruct Hst as [D E].
  destruct (arrowAt m (tc, (x2, y2))) as [ta|] eqn:Hta,
           (arrowAt m' (tc, (x2, y2))) as [ta'|] eqn:Hta'.
  - rewrite (E _ _ _ Hta Hta'). reflexivity.
  - exfalso. assert (H : is_Some (arrowAt m' (tc, (x2, y2)))).
    { apply arrowAt_is_Some, D, (arrowAt_is_Some m (tc, (x2, y2))). eauto. }
    destruct H as [? H]. congruence.
  - exfalso. assert (H : is_Some (arrowAt m (tc, (x2, y2)))).
    { apply arrowAt_is_Some, D, (arrowAt_is_Some m' (tc, (x2, y2))). eauto. }
    destruct H as [? H]. congruence.
  - reflexivity.
Qed.

Lemma grid_le_static m m' : grid_le m m' -> grid_static m m'.
Proof.
  intros H. split.
  - intros c. split; [apply H|apply grid_le_is_Some; exact H].
  - intros r a a' Ha Ha'. destruct (grid_le_at _ _ r a H Ha) as (b & Hb & Hco).
    rewrite Ha' in Hb. injection Hb as <-. apply Hco.
Qed.

Lemma count_ref_cons c t l :
  count_ref c (t :: l)
  = ((if ArrowRef_eqb c t then 1 else 0) + count_ref c l)%nat.
Proof.
  unfold count_ref. simpl. destruct (ArrowRef_eqb c t); reflexivity.
Qed.

Lemma ArrowRef_eqb_refl c : ArrowRef_eqb c c = true.
Proof. apply ArrowRef_eqb_eq. reflexivity. Qed.

Lemma ArrowRef_eqb_neq c t : c <> t -> ArrowRef_eqb c t = false.
Proof.
  intros H. destruct (ArrowRef_eqb c t) eqn:E; [|reflexivity].
  apply ArrowRef_eqb_eq in E. contradiction.
Qed.

Lemma omap_cons {A B : Type} (f : A -> option B) d ds :
  omap f (d :: ds)
  = match f d with Some y => y :: omap f ds | None => omap f ds end.
Proof. reflexivity. Qed.

Lemma sends_count m p a arrow :
  rotation arrow = rotation a -> flipped arrow = flipped a ->
  forall ds m1 c ac,
    grid_le m m1 -> arrowAt m1 c = Some ac ->
    exists ac',
      arrowAt (fold_left
                 (fun m' (d : Z * Z) =>
                    sendSignal m' (fst p) arrow (fst (snd p)) (snd (snd p))
                               (fst d) (snd d)) ds m1) c = Some ac'
      /\ count_only ac ac'
      /\ signalCount ac'
         = (signalCount ac
            + count_ref c (omap (resolve m (fst p) a (fst (snd p))
                                         (snd (snd p))) ds))%nat.
Proof.
  intros Hrot Hfl. induction ds as [|d ds IH]; intros m1 c ac Hle Hc.
  - exists ac. split; [exact Hc|]. split; [apply count_only_refl|].
    simpl. unfold count_ref. simpl. lia.
  - cbn [fold_left].
    pose proof (resolve_static m m1 (fst p) a arrow (fst (snd p))
                  (snd (snd p)) d (grid_le_static _ _ Hle) Hrot Hfl) as Hres.
    unfold resolve at 1 in Hres. unfold sendSignal at 2.
    destruct (getArrowRelative m1 (fst p) arrow (fst (snd p)) (snd (snd p))
                (fst d) (snd d)) as [[[tc ta] tp]|] eqn:Hg.
    + assert (Hle1 : grid_le m (updateArrow m1 (tc, tp) incrSignalCount))
        by (eapply grid_le_trans; [exact Hle|apply grid_le_incr]).
      destruct (decide ((tc, tp) = c)) as [<-|Hne].
      * destruct (IH _ (tc, tp) (incrSignalCount ac) Hle1)
          as (ac' & Hac' & Hco & Hcount).
        { rewrite arrowAt_updateArrow_eq, Hc. reflexivity. }
        exists ac'. split; [exact Hac'|]. split.
        -- eapply count_only_trans; [|exact Hco].
           unfold count_only. simpl. repeat split; lia.
        -- rewrite Hcount, omap_cons, <- Hres, count_ref_cons.
           rewrite ArrowRef_eqb_refl. simpl. lia.
      * destruct (IH _ c ac Hle1) as (ac' & Hac' & Hco & Hcount).
        { rewrite arrowAt_updateArrow_ne by exact Hne. exact Hc. }
        exists ac'. split; [exact Hac'|]. split; [exact Hco|].
        rewrite Hcount, omap_cons, <- Hres, count_ref_cons.
        rewrite ArrowRef_eqb_neq by auto. lia.
    + destruct (IH _ c ac Hle Hc) as (ac' & Hac' & Hco & Hcount).
      exists ac'. split; [exact Hac'|]. split; [exact Hco|].
      rewrite Hcount, omap_cons, <- Hres. reflexivity.
Qed.

Lemma updateCA_send_count m p m1 c ac :
  grid_le m m1 -> arrowAt m1 c = Some ac ->
  exists ac',
    arrowAt (updateCA_send m1 p) c = Some ac'
    /\ count_only ac ac'
    /\ signalCount ac' = (signalCount ac + ca_contrib m c p)%nat.
Proof.
  intros Hle Hc. unfold updateCA_send, ca_contrib, edges.
  destruct (arrowAt m p) as [a|] eqn:Ha.
  - destruct (grid_le_at _ _ p a Hle Ha) as (a1 & Ha1 & Hco).
    rewrite Ha1.
    destruct Hco as (Hty & Hrot & Hfl & _ & Hact & _).
    rewrite Hty, Hact.
    destruct ((0 <? arrowType a)%nat && active a).
    + rewrite getTargetArrows_resolve.
      apply (sends_count m p a a1 Hrot Hfl); assumption.
    + exists ac. split; [exact Hc|]. split; [apply count_only_refl|lia].
  - destruct (arrowAt m1 p) as [a1|] eqn:Ha1.
    + exfalso. assert (H : is_Some (arrowAt m p)).
      { apply arrowAt_is_Some, (proj1 Hle), (arrowAt_is_Some m1 p). eauto. }
      destruct H as [? H]. congruence.
    + exists ac. split; [exact Hc|]. split; [apply count_only_refl|lia].
Qed.

Lemma pass1_fold_count m c : forall l m1 ac,
  grid_le m m1 -> arrowAt m1 c = Some ac ->
  exists ac',
    arrowAt (fold_left updateCA_send l m1) c = Some ac'
    /\ count_only ac ac'
    /\ signalCount ac'
       = (signalCount ac + sum_list_with (ca_contrib m c) l)%nat.
Proof.
  induction l as [|p l IH]; intros m1 ac Hle Hc.
  - exists ac. split; [exact Hc|]. split; [apply count_only_refl|].
    simpl. lia.
  - cbn [fold_left].
    destruct (updateCA_send_count m p m1 c ac Hle Hc)
      as (ac1 & Hac1 & Hco1 & Hn1).
    destruct (IH (updateCA_send m1 p) ac1) as (ac' & Hac' & Hco & Hn); auto.
    { eapply grid_le_trans; [exact Hle|apply grid_le_updateCA_send]. }
    exists ac'. split; [exact Hac'|].
    split; [eapply count_only_trans; eauto|].
    rewrite Hn, Hn1. simpl. lia.
Qed.

(** After the send pass a cell has received, on top of its old count, what
    every cell of the grid sends to it. *)
Lemma pass1_count m c a :
  arrowAt m c = Some a ->
  exists a',
    arrowAt (updateCA_pass1 m) c = Some a'
    /\ count_only a a'
    /\ signalCount a'
       = (signalCount a
          + sum_list_with (ca_contrib m c) (all_cells m))%nat.
Proof.
  intros Ha. apply pass1_fold_count; [apply grid_le_refl|exact Ha].
Qed.

(** ** Node simulator: the counts of the first pass *)

Lemma node_dyn_refl n : node_dyn n n.
Proof. unfold node_dyn. tauto. Qed.

Lemma node_dyn_trans a b c : node_dyn a b -> node_dyn b c -> node_dyn a c.
Proof. unfold node_dyn. intuition congruence. Qed.

Lemma heap_dyn_refl h : heap_dyn h h.
Proof. intros i n H. exists n. split; [exact H|apply node_dyn_refl]. Qed.

Lemma heap_dyn_trans h1 h2 h3 :
  heap_dyn h1 h2 -> heap_dyn h2 h3 -> heap_dyn h1 h3.
Proof.
  intros H12 H23 i n H. destruct (H12 i n H) as (b & Hb & Hab).
  destruct (H23 i b Hb) as (c & Hc & Hbc).
  exists c. split; [exact Hc|eapply node_dyn_trans; eauto].
Qed.

Lemma heap_dyn_alter h i f :
  (forall n, node_dyn n (f n)) -> heap_dyn h (alter f i h).
Proof.
  intros Hf j n Hn. destruct (decide (i = j)) as [->|Hne].
  - rewrite list_lookup_alter_eq, Hn. simpl. eauto.
  - rewrite list_lookup_alter_ne by exact Hne.
    exists n. split; [exact Hn|apply node_dyn_refl].
Qed.

Lemma incr_fold_count ts : forall (h : list LogicNode.t) t nt,
  h !! t = Some nt ->
  exists nt',
    fold_left (fun h' target => alter LogicNode.incr_signalCount target h')
              ts h !! t = Some nt'
    /\ node_dyn nt nt'
    /\ LogicNode.lastSignal nt' = LogicNode.lastSignal nt
    /\ LogicNode.lastSignalCount nt' = LogicNode.lastSignalCount nt
    /\ LogicNode.signalCount nt'
       = (LogicNode.signalCount nt + count_occ Nat.eq_dec ts t)%nat.
Proof.
  induction ts as [|k ts IH]; intros h t nt Ht.
  - exists nt. split; [exact Ht|]. split; [apply node_dyn_refl|].
    simpl. repeat split. lia.
  - cbn [fold_left]. destruct (decide (k = t)) as [->|Hne].
    + destruct (IH (alter LogicNode.incr_signalCount t h) t
                  (LogicNode.incr_signalCount nt))
        as (nt' & Hnt' & Hd & Hl & Hlc & Hc).
      { rewrite list_lookup_alter_eq, Ht. reflexivity. }
      exists nt'. split; [exact Hnt'|]. split.
      * eapply node_dyn_trans; [|exact Hd]. unfold node_dyn. simpl. tauto.
      * rewrite Hl, Hlc, Hc. simpl.
        destruct (Nat.eq_dec t t); [|contradiction].
        repeat split. lia.
    + destruct (IH (alter LogicNode.incr_signalCount k h) t nt)
        as (nt' & Hnt' & Hd & Hl & Hlc & Hc).
      { rewrite list_lookup_alter_ne by exact Hne. exact Ht. }
      exists nt'. split; [exact Hnt'|]. split; [exact Hd|].
      rewrite Hl, Hlc, Hc. simpl.
      destruct (Nat.eq_dec k t); [contradiction|]. auto.
Qed.

Lemma updateNodes_send_count h h1 s t nt :
  heap_dyn h h1 -> length h1 = length h -> h1 !! t = Some nt ->
  exists nt',
    updateNodes_send h1 s !! t = Some nt'
    /\ node_dyn nt nt'
    /\ LogicNode.lastSignalCount nt' = LogicNode.lastSignalCount nt
    /\ LogicNode.lastSignal nt'
       = (if decide (s = t) then LogicNode.signals_first nt
          else LogicNode.lastSignal nt)
    /\ LogicNode.signalCount nt'
       = (LogicNode.signalCount nt + node_contrib h t s)%nat.
Proof.
  intros Hdyn Hlen Ht. unfold updateNodes_send, node_contrib.
  destruct (h !! s) as [n|] eqn:Hs.
  - destruct (Hdyn s n Hs) as (n1 & Hn1 & D1). rewrite Hn1.
    rewrite list_lookup_alter_eq, Hn1. cbn [fmap option_fmap option_map].
    set (h2 := alter (fun n0 => LogicNode.set_lastSignal n0
                                  (LogicNode.signals_first n0)) s h1).
    assert (Ht2 : exists nt2, h2 !! t = Some nt2 /\ node_dyn nt nt2
              /\ LogicNode.lastSignalCount nt2 = LogicNode.lastSignalCount nt
              /\ LogicNode.signalCount nt2 = LogicNode.signalCount nt
              /\ LogicNode.lastSignal nt2
                 = (if decide (s = t) then LogicNode.signals_first nt
                    else LogicNode.lastSignal nt)).
    { unfold h2. destruct (decide (s = t)) as [->|Hne].
      - rewrite list_lookup_alter_eq, Ht. simpl. eexists.
        split; [reflexivity|]. unfold node_dyn. simpl. tauto.
      - rewrite list_lookup_alter_ne by exact Hne. exists nt.
        split; [exact Ht|]. split; [apply node_dyn_refl|]. auto. }
    destruct Ht2 as (nt2 & Hnt2 & D2 & Hlc2 & Hc2 & Hl2).
    assert (Hlast : LogicNode.signals_last
                      (LogicNode.set_lastSignal n1
                         (LogicNode.signals_first n1))
                    = LogicNode.signals_last n).
    { unfold LogicNode.signals_last. simpl.
      destruct D1 as (_ & _ & _ & _ & _ & _ & ->). reflexivity. }
    rewrite Hlast. destruct (LogicNode.signals_last n).
    + destruct (incr_fold_count
                  (LogicNode.targets
                     (LogicNode.set_lastSignal n1
                        (LogicNode.signals_first n1))) h2 t nt2 Hnt2)
        as (nt' & Hnt' & D & Hl & Hlc & Hc).
      exists nt'. split; [exact Hnt'|].
      split; [eapply node_dyn_trans; eauto|].
      split; [congruence|]. split; [congruence|].
      rewrite Hc, Hc2. simpl.
      destruct D1 as (_ & _ & _ & _ & -> & _). reflexivity.
    + exists nt2. split; [exact Hnt2|]. split; [exact D2|].
      split; [exact Hlc2|]. split; [exact Hl2|]. lia.
  - assert (Hs1 : h1 !! s = None).
    { apply lookup_ge_None. apply lookup_ge_None in Hs. lia. }
    rewrite Hs1. exists nt. split; [exact Ht|].
    split; [apply node_dyn_refl|]. split; [reflexivity|].
    split; [|lia]. destruct (decide (s = t)) as [->|]; [congruence|].
    reflexivity.
Qed.

Lemma heap_dyn_send h1 s : heap_dyn h1 (updateNodes_send h1 s).
Proof.
  intros t nt Ht.
  destruct (updateNodes_send_count h1 h1 s t nt (heap_dyn_refl h1) eq_refl Ht)
    as (nt' & Hnt' & D & _).
  eauto.
Qed.

Lemma length_fold_incr ts : forall (h : list LogicNode.t),
  length (fold_left (fun h' target =>
                       alter LogicNode.incr_signalCount target h') ts h)
  = length h.
Proof.
  induction ts as [|k ts IH]; intros h; simpl; [reflexivity|].
  rewrite IH, length_alter. reflexivity.
Qed.

Lemma length_send h s : length (updateNodes_send h s) = length h.
Proof.
  unfold updateNodes_send. destruct (h !! s); [|reflexivity].
  destruct (_ !! s); [|apply length_alter].
  destruct (LogicNode.signals_last _);
    rewrite ?length_fold_incr; apply length_alter.
Qed.

Lemma pass1_nodes_fold h t : forall l h1 nt,
  heap_dyn h h1 -> length h1 = length h -> h1 !! t = Some nt ->
  exists nt',
    fold_left updateNodes_send l h1 !! t = Some nt'
    /\ node_dyn nt nt'
    /\ LogicNode.lastSignalCount nt' = LogicNode.lastSignalCount nt
    /\ (In t l -> LogicNode.lastSignal nt' = LogicNode.signals_first nt)
    /\ (~ In t l -> LogicNode.lastSignal nt' = LogicNode.lastSignal nt)
    /\ LogicNode.signalCount nt'
       = (LogicNode.signalCount nt + sum_list_with (node_contrib h t) l)%nat.
Proof.
  induction l as [|s l IH]; intros h1 nt Hdyn Hlen Ht.
  - exists nt. split; [exact Ht|]. split; [apply node_dyn_refl|].
    split; [reflexivity|]. split; [intros []|]. split; [reflexivity|].
    simpl. lia.
  - cbn [fold_left].
    destruct (updateNodes_send_count h h1 s t nt Hdyn Hlen Ht)
      as (nt1 & Hnt1 & D1 & Hlc1 & Hl1 & Hc1).
    destruct (IH (updateNodes_send h1 s) nt1)
      as (nt' & Hnt' & D & Hlc & Hin & Hnin & Hc); auto.
    { eapply heap_dyn_trans; [exact Hdyn|apply heap_dyn_send]. }
    { rewrite length_send. exact Hlen. }
    exists nt'. split; [exact Hnt'|].
    split; [eapply node_dyn_trans; eauto|]. split; [congruence|].
    assert (Hf : LogicNode.signals_first nt1 = LogicNode.signals_first nt).
    { unfold LogicNode.signals_first.
      destruct D1 as (_ & _ & _ & _ & _ & _ & ->). reflexivity. }
    split; [|split].
    + intros Hin'. destruct (in_dec Nat.eq_dec t l) as [Hl|Hl].
      * rewrite (Hin Hl). exact Hf.
      * rewrite (Hnin Hl), Hl1. destruct Hin' as [->|Hin']; [|contradiction].
        rewrite decide_True by reflexivity. reflexivity.
    + intros Hn. rewrite Hnin by (intros Hl; apply Hn; right; exact Hl).
      rewrite Hl1. rewrite decide_False; [reflexivity|].
      intros ->. apply Hn. left. reflexivity.
    + rewrite Hc, Hc1. simpl. lia.
Qed.

(** ** The two simulators side by side: sums *)

Lemma sum_list_with_zero {A : Type} (F : A -> nat) (l : list A) :
  (forall x, In x l -> F x = 0%nat) -> sum_list_with F l = 0%nat.
Proof.
  induction l as [|x l IH]; intros H; simpl; [reflexivity|].
  rewrite (H x (or_introl eq_refl)), IH; [reflexivity|].
  intros y Hy. apply H. right. exact Hy.
Qed.

Lemma sum_list_with_support {A : Type} `{EqDecision A} (F : A -> nat)
    (l2 : list A) : forall l : list A,
  NoDup l -> NoDup l2 -> (forall x, In x l2 -> In x l) ->
  (forall p, In p l -> ~ In p l2 -> F p = 0%nat) ->
  sum_list_with F l = sum_list_with F l2.
Proof.
  induction l2 as [|x l2 IH]; intros l Hl Hl2 Hsub Hz.
  - simpl. apply sum_list_with_zero. intros p Hp. apply Hz; auto.
  - apply NoDup_cons in Hl2 as [Hx Hl2].
    assert (Hxl : x ∈ l) by (apply list_elem_of_In, Hsub; left; reflexivity).
    apply elem_of_Permutation in Hxl as [k Hk].
    rewrite Hk. simpl. f_equal.
    assert (Hndk : NoDup (x :: k)) by (rewrite <- Hk; exact Hl).
    apply NoDup_cons in Hndk as [Hxk Hndk].
    apply IH; auto.
    + intros y Hy.
      assert (Hyl : y ∈ l) by (apply list_elem_of_In, Hsub; right; exact Hy).
      rewrite Hk in Hyl. apply elem_of_cons in Hyl as [->|Hyl].
      * exfalso. apply Hx, list_elem_of_In, Hy.
      * apply list_elem_of_In, Hyl.
    + intros p Hp Hnp. apply Hz.
      * apply list_elem_of_In. rewrite Hk. apply elem_of_cons. right.
        apply list_elem_of_In, Hp.
      * intros [->|Hin]; [|contradiction].
        apply Hxk, list_elem_of_In, Hp.
Qed.

Lemma sum_list_with_single {A : Type} `{EqDecision A} (F : A -> nat)
    (l : list A) (x : A) :
  NoDup l -> In x l -> (forall p, In p l -> p <> x -> F p = 0%nat) ->
  sum_list_with F l = F x.
Proof.
  intros Hl Hx Hz.
  rewrite (sum_list_with_support F [x] l Hl).
  - simpl. lia.
  - apply NoDup_singleton.
  - intros y [->|[]]. exact Hx.
  - intros p Hp Hn. apply Hz; [exact Hp|]. intros ->. apply Hn. left.
    reflexivity.
Qed.

Lemma sum_list_with_map {A B : Type} (F : B -> nat) (f : A -> B)
    (l : list A) :
  sum_list_with F (List.map f l) = sum_list_with (fun x => F (f x)) l.
Proof. induction l as [|x l IH]; simpl; [reflexivity|]. rewrite IH. reflexivity. Qed.

Lemma sum_list_with_ext {A : Type} (F G : A -> nat) (l : list A) :
  (forall x, In x l -> F x = G x) -> sum_list_with F l = sum_list_with G l.
Proof.
  induction l as [|x l IH]; intros H; simpl; [reflexivity|].
  rewrite (H x (or_introl eq_refl)), IH; [reflexivity|].
  intros y Hy. apply H. right. exact Hy.
Qed.

(** ** The two simulators side by side: what a tick keeps *)

Lemma grid_dyn_refl m : grid_dyn m m.
Proof. split; [tauto|]. intros r a H. exists a. auto. Qed.

Lemma grid_dyn_trans m1 m2 m3 :
  grid_dyn m1 m2 -> grid_dyn m2 m3 -> grid_dyn m1 m3.
Proof.
  intros [D1 E1] [D2 E2]. split.
  - intros c. rewrite D2, D1. tauto.
  - intros r a H. destruct (E1 r a H) as (b & Hb & B1 & B2 & B3 & B4).
    destruct (E2 r b Hb) as (c & Hc & C1 & C2 & C3 & C4).
    exists c. split; [exact Hc|]. repeat split; congruence.
Qed.

Lemma grid_dyn_sym m m' : grid_dyn m m' -> grid_dyn m' m.
Proof.
  intros [D E]. split.
  - intros c. rewrite D. tauto.
  - intros r a' H.
    assert (Hs : is_Some (arrowAt m r)).
    { apply arrowAt_is_Some, D, (arrowAt_is_Some m' r). eauto. }
    destruct Hs as [a Ha]. destruct (E r a Ha) as (b & Hb & B).
    rewrite H in Hb. injection Hb as <-.
    exists a. split; [exact Ha|]. intuition congruence.
Qed.

Lemma grid_le_dyn m m' : grid_le m m' -> grid_dyn m m'.
Proof.
  intros H. split.
  - intros c. split; [apply H|apply grid_le_is_Some; exact H].
  - intros r a Ha. destruct (grid_le_at _ _ r a H Ha) as (a' & Ha' & Hco).
    exists a'. split; [exact Ha'|]. unfold count_only in Hco. tauto.
Qed.

Lemma grid_dyn_pass2 m : grid_dyn m (updateCA_pass2 m).
Proof.
  unfold updateCA_pass2. split.
  - intros c. generalize (all_cells m). intros l. revert m.
    induction l as [|r l IH]; intros m; simpl; [tauto|].
    rewrite IH. apply lookup_updateArrow_is_Some.
  - intros r a Ha. rewrite fold_updateArrow by apply NoDup_all_cells.
    rewrite Ha. destruct (bool_decide _); simpl.
    + eexists. split; [reflexivity|]. unfold updateCA_cell.
      destruct (0 <? arrowType a)%nat; simpl; auto.
    + exists a. auto.
Qed.

Lemma grid_dyn_updateCA m : grid_dyn m (updateCA m).
Proof.
  unfold updateCA. eapply grid_dyn_trans;
    [apply grid_le_dyn, grid_le_pass1|apply grid_dyn_pass2].
Qed.

Lemma grid_dyn_static m m' : grid_dyn m m' -> grid_static m m'.
Proof.
  intros [D E]. split; [exact D|].
  intros r a a' Ha Ha'. destruct (E r a Ha) as (b & Hb & B & _).
  congruence.
Qed.

Lemma edges_dyn m m' c : grid_dyn m m' -> edges m' c = edges m c.
Proof.
  intros Hd. unfold edges.
  destruct (arrowAt m c) as [a|] eqn:Ha.
  - destruct (proj2 Hd c a Ha) as (a' & Ha' & Hty & Hrot & Hfl & _).
    rewrite Ha', !getTargetArrows_resolve, Hty.
    apply list_omap_ext.
    apply Forall2_same_length_lookup. split; [reflexivity|].
    intros i d d' Hi Hi'. rewrite Hi in Hi'. injection Hi' as <-.
    apply resolve_static; [apply grid_dyn_static; exact Hd| |]; assumption.
  - destruct (arrowAt m' c) as [a'|] eqn:Ha'; [|reflexivity].
    exfalso. assert (Hs : is_Some (arrowAt m c)).
    { apply arrowAt_is_Some, (proj1 Hd), (arrowAt_is_Some m' c). eauto. }
    destruct Hs as [? Hs]. congruence.
Qed.

Lemma cell_of_dyn m m' c a :
  grid_dyn m m' -> cell_of m c a ->
  exists a', cell_of m' c a' /\ medalType a' = medalType a.
Proof.
  intros Hd (Ha & Hpos & Hx & Hy).
  destruct (proj2 Hd c a Ha) as (a' & Ha' & Hty & _ & _ & Hm).
  exists a'. split; [|exact Hm]. split; [exact Ha'|].
  rewrite Hty. auto.
Qed.

(** ** The two simulators side by side: one tick of each *)

Lemma cell_of_In_all_cells m c a : cell_of m c a -> In c (all_cells m).
Proof.
  intros (Ha & _ & Hx & Hy). apply In_all_cells. split; [|auto].
  apply (arrowAt_is_Some m c). eauto.
Qed.

(** The CA tick at one cell. *)
Lemma updateCA_cell_step m c a :
  cell_of m c a ->
  exists a2,
    cell_of (updateCA m) c a2
    /\ signalCount a2 = 0%nat
    /\ active a2
       = updateCA_active (medalType a)
           (signalCount a + sum_list_with (ca_contrib m c) (all_cells m))
           (active a).
Proof.
  intros (Ha & Hpos & Hx & Hy).
  destruct (pass1_count m c a Ha) as (a1 & Ha1 & Hco & Hn).
  exists (updateCA_cell a1).
  destruct Hco as (Hty & _ & _ & Hm & Hact & _).
  assert (Hcell : updateCA_cell a1
                  = mkArrow (arrowType a1) (rotation a1) (flipped a1)
                      (medalType a1)
                      (updateCA_active (medalType a1) (signalCount a1)
                                       (active a1))
                      0
                      (mkArrowState
                         (updateCA_active (medalType a1) (signalCount a1)
                                          (active a1))
                         (signalCount a1))
                      (node a1) (originalNode a1) (offset a1)).
  { unfold updateCA_cell. rewrite Hty.
    apply Nat.ltb_lt in Hpos. rewrite Hpos. reflexivity. }
  split; [|split].
  - split; [apply arrowAt_pass2; assumption|].
    rewrite Hcell. simpl. rewrite Hty. auto.
  - rewrite Hcell. reflexivity.
  - rewrite Hcell. simpl. rewrite Hm, Hact, Hn. reflexivity.
Qed.

(** The node tick at one node of the flat list. *)
Lemma updateNodes_node_step g s n :
  NoDup (nodeArray g) -> In s (nodeArray g) -> heap g !! s = Some n ->
  exists n2,
    heap (updateNodes g) !! s = Some n2
    /\ LogicNode.arrows n2 = LogicNode.arrows n
    /\ LogicNode.type n2 = LogicNode.type n
    /\ LogicNode.targets n2 = LogicNode.targets n
    /\ LogicNode.signalCount n2 = 0%nat
    /\ LogicNode.signals n2
       = LogicNode.signals_insert
           (updateNodes_active (LogicNode.type n)
              (LogicNode.signalCount n
               + sum_list_with (node_contrib (heap g) s) (nodeArray g))
              (LogicNode.signals_first n))
           (LogicNode.signals n).
Proof.
  intros Hnd Hin Hn.
  destruct (pass1_nodes_fold (heap g) s (nodeArray g) (heap g) n
              (heap_dyn_refl _) eq_refl Hn)
    as (n1 & Hn1 & D & _ & Hl & _ & Hc).
  exists (updateNodes_node n1). split.
  - unfold updateNodes, updateNodes_pass2, updateNodes_pass1. simpl.
    rewrite fold_alter_lookup by exact Hnd.
    rewrite bool_decide_eq_true_2 by (apply list_elem_of_In; exact Hin).
    rewrite Hn1. reflexivity.
  - destruct D as (A & T & _ & _ & G & _ & S).
    unfold updateNodes_node. simpl.
    rewrite A, T, G, S, Hc, (Hl Hin). auto.
Qed.

Lemma length_updateNodes g : length (heap (updateNodes g)) = length (heap g).
Proof.
  unfold updateNodes, updateNodes_pass2, updateNodes_pass1. simpl.
  assert (H2 : forall l (h : list LogicNode.t),
            length (fold_left (fun h0 nd => alter updateNodes_node nd h0)
                              l h) = length h).
  { induction l as [|k l IH]; intros h; simpl; [reflexivity|].
    rewrite IH. apply length_alter. }
  assert (H1 : forall l (h : list LogicNode.t),
            length (fold_left updateNodes_send l h) = length h).
  { induction l as [|k l IH]; intros h; simpl; [reflexivity|].
    rewrite IH. apply length_send. }
  rewrite H2, H1. reflexivity.
Qed.

(** Outside the flat list, and for every field but the history, a tick
    leaves a node as it is. *)
Lemma updateNodes_static g i n :
  NoDup (nodeArray g) -> heap g !! i = Some n ->
  exists n2,
    heap (updateNodes g) !! i = Some n2
    /\ LogicNode.arrows n2 = LogicNode.arrows n
    /\ LogicNode.type n2 = LogicNode.type n
    /\ LogicNode.targets n2 = LogicNode.targets n
    /\ length (LogicNode.signals n2) = length (LogicNode.signals n).
Proof.
  intros Hnd Hn.
  destruct (pass1_nodes_fold (heap g) i (nodeArray g) (heap g) n
              (heap_dyn_refl _) eq_refl Hn)
    as (n1 & Hn1 & D & _).
  destruct D as (A & T & _ & _ & G & _ & S).
  unfold updateNodes, updateNodes_pass2, updateNodes_pass1. simpl.
  rewrite fold_alter_lookup by exact Hnd. rewrite Hn1.
  destruct (bool_decide (i ∈ nodeArray g)); simpl.
  - eexists. split; [reflexivity|]. simpl.
    unfold LogicNode.signals_insert. rewrite length_take. simpl.
    rewrite A, T, G, S. repeat split. lia.
  - exists n1. rewrite A, T, G, S. auto.
Qed.

Lemma last_default {A : Type} (l : list A) (x d : A) :
  last l = Some x -> List.last l d = x.
Proof.
  induction l as [|y l IH]; [discriminate|].
  destruct l as [|z l]; simpl in *; [congruence|]. exact IH.
Qed.

Lemma count_ref_single c c' :
  count_ref c [c'] = if decide (c = c') then 1%nat else 0%nat.
Proof.
  unfold count_ref. simpl. destruct (decide (c = c')) as [->|Hne].
  - rewrite ArrowRef_eqb_refl. reflexivity.
  - rewrite ArrowRef_eqb_neq by exact Hne. reflexivity.
Qed.

Section Tick.

Variables (m0 : GameMap) (g0 : Game) (m : GameMap) (g : Game).
Hypothesis Hok : compiled_ok m0 g0.
Hypothesis Hag : agree m0 g0 m g.

Lemma tick_position c : position g c = position g0 c.
Proof.
  unfold position. destruct Hag as (_ & _ & -> & _). reflexivity.
Qed.

Lemma tick_live s :
  In s (nodeArray g0) ->
  exists n0 n, heap g0 !! s = Some n0 /\ node_ok m0 g0 s n0
               /\ heap g !! s = Some n /\ node_static n0 n.
Proof.
  intros Hs. destruct Hok as (_ & K2 & _).
  destruct (K2 s Hs) as (n0 & Hn0 & Hnok).
  destruct Hag as (_ & _ & _ & _ & _ & St & _).
  destruct (St s n0 Hn0) as (n & Hn & Hst).
  exists n0, n. auto.
Qed.

Lemma tick_cell0 c a :
  cell_of m c a -> exists a0, cell_of m0 c a0 /\ medalType a0 = medalType a.
Proof.
  intros Hc. destruct Hag as (Hd & _).
  apply (cell_of_dyn m m0 c a (grid_dyn_sym _ _ Hd) Hc).
Qed.

Lemma tick_cell c a0 :
  cell_of m0 c a0 -> exists a, cell_of m c a /\ medalType a = medalType a0.
Proof.
  intros Hc. destruct Hag as (Hd & _). apply (cell_of_dyn m0 m c a0 Hd Hc).
Qed.

Lemma tick_edges c : edges m c = edges m0 c.
Proof. destruct Hag as (Hd & _). apply edges_dyn. exact Hd. Qed.

Lemma tick_view c a s j n :
  cell_of m c a -> position g0 c = Some (s, j) -> heap g !! s = Some n ->
  LogicNode.signals n !! j = Some (active a).
Proof.
  intros Hc Hp Hn. destruct Hag as (_ & _ & _ & _ & _ & _ & _ & V).
  specialize (V c a Hc). unfold cell_view in V.
  rewrite tick_position, Hp, Hn in V. exact V.
Qed.

(** A cell inside a node receives exactly what its predecessor sends. *)
Lemma tick_inner_count s n0 j c c' ac :
  In s (nodeArray g0) -> heap g0 !! s = Some n0 ->
  LogicNode.arrows n0 !! j = Some c ->
  LogicNode.arrows n0 !! S j = Some c' ->
  cell_of m c ac ->
  sum_list_with (ca_contrib m c') (all_cells m)
  = if active ac then 1%nat else 0%nat.
Proof.
  intros Hs Hn0 Hc Hc' Hcell.
  destruct Hok as (_ & K2 & _).
  destruct (K2 s Hs) as (n0' & Hn0' & Hnok).
  rewrite Hn0 in Hn0'. injection Hn0' as <-.
  destruct Hnok as (_ & _ & _ & _ & _ & _ & Hlink & _).
  destruct (Hlink j c c' Hc Hc') as (_ & _ & Hcount).
  rewrite (sum_list_with_single (ca_contrib m c') (all_cells m) c).
  - unfold ca_contrib. pose proof Hcell as (Ha & Hpos & _).
    rewrite Ha. apply Nat.ltb_lt in Hpos. rewrite Hpos. simpl.
    destruct (active ac); [|reflexivity].
    destruct (tick_cell0 c ac Hcell) as (a0 & Hc0 & _).
    rewrite tick_edges, (Hcount c a0 Hc0).
    rewrite decide_True by reflexivity. reflexivity.
  - apply NoDup_all_cells.
  - eapply cell_of_In_all_cells. exact Hcell.
  - intros p Hp Hne. unfold ca_contrib.
    destruct (arrowAt m p) as [ap|] eqn:Hap; [|reflexivity].
    destruct ((0 <? arrowType ap)%nat && active ap) eqn:E; [|reflexivity].
    apply andb_true_iff in E as [E _]. apply Nat.ltb_lt in E.
    apply In_all_cells in Hp as (_ & Hx & Hy).
    assert (Hcp : cell_of m p ap) by (split; auto).
    destruct (tick_cell0 p ap Hcp) as (a0 & Hc0 & _).
    rewrite tick_edges, (Hcount p a0 Hc0).
    rewrite decide_False by exact Hne. reflexivity.
Qed.

Lemma tick_tail s n0 :
  In s (nodeArray g0) -> heap g0 !! s = Some n0 ->
  LogicNode.arrows n0 !! (length (LogicNode.arrows n0) - 1)%nat
  = Some (tailOf g0 s)
  /\ last (LogicNode.arrows n0) = Some (tailOf g0 s)
  /\ position g0 (tailOf g0 s)
     = Some (s, (length (LogicNode.arrows n0) - 1)%nat)
  /\ exists a0, cell_of m0 (tailOf g0 s) a0.
Proof.
  intros Hs Hn0. destruct Hok as (_ & K2 & _).
  destruct (K2 s Hs) as (n0' & Hn0' & Hnok).
  rewrite Hn0 in Hn0'. injection Hn0' as <-.
  destruct Hnok as (_ & Hne & _ & _ & Hpos & _).
  assert (Hl : last (LogicNode.arrows n0) = Some (tailOf g0 s)).
  { unfold tailOf. rewrite Hn0.
    destruct (last (LogicNode.arrows n0)) as [x|] eqn:E.
    - rewrite (last_default _ x _ E). reflexivity.
    - apply last_None in E. contradiction. }
  assert (Hk : LogicNode.arrows n0 !! (length (LogicNode.arrows n0) - 1)%nat
               = Some (tailOf g0 s)).
  { rewrite <- Hl, last_lookup. f_equal. lia. }
  split; [exact Hk|]. split; [exact Hl|].
  destruct (Hpos _ _ Hk) as [Hc Hp]. auto.
Qed.

(** The head of a node receives in the grid what the node receives in the
    graph. *)
Lemma tick_head_count s n0 h :
  In s (nodeArray g0) -> heap g0 !! s = Some n0 ->
  LogicNode.arrows n0 !! 0%nat = Some h ->
  sum_list_with (ca_contrib m h) (all_cells m)
  = sum_list_with (node_contrib (heap g) s) (nodeArray g).
Proof.
  intros Hs Hn0 Hh.
  pose proof Hok as (K1 & K2 & K3).
  pose proof Hag as (Hd & _ & _ & Hna & _).
  destruct (K2 s Hs) as (n0' & Hn0' & Hnok).
  rewrite Hn0 in Hn0'. injection Hn0' as <-.
  pose proof Hnok as (_ & _ & _ & _ & Hposs & _).
  destruct (Hposs _ _ Hh) as [_ Hph].
  rewrite (sum_list_with_support (ca_contrib m h)
             (List.map (tailOf g0) (nodeArray g0)) (all_cells m)).
  - rewrite sum_list_with_map, Hna. apply sum_list_with_ext.
    intros s' Hs'.
    destruct (tick_live s' Hs') as (n0' & n' & Hn0' & Hnok' & Hn' & Hst').
    destruct (tick_tail s' n0' Hs' Hn0') as (Hk & Hl & Hp & a0 & Hc0).
    destruct (tick_cell _ _ Hc0) as (atl & Hctl & _).
    unfold ca_contrib, node_contrib. rewrite Hn'.
    pose proof Hctl as (Hatl & Hpos & _). rewrite Hatl.
    apply Nat.ltb_lt in Hpos. rewrite Hpos. simpl.
    pose proof (tick_view _ _ _ _ _ Hctl Hp Hn') as Hv.
    destruct Hst' as (Har & _ & Htg & Hlen).
    destruct Hnok' as (Hsl & _ & _ & _ & _ & _ & _ & Htargets).
    assert (Hlast : LogicNode.signals_last n' = active atl).
    { unfold LogicNode.signals_last. apply last_default.
      rewrite last_lookup, <- Hv. f_equal. lia. }
    rewrite Hlast. destruct (active atl); [|reflexivity].
    rewrite Htg, tick_edges. symmetry.
    apply (Htargets s n0 h (tailOf g0 s') Hs Hn0 Hh Hl).
  - apply NoDup_all_cells.
  - apply NoDup_fmap_2_strong; [|exact K1].
    intros s1 s2 H1 H2 Heq.
    apply list_elem_of_In in H1, H2.
    destruct (K2 s1 H1) as (n1 & Hn1 & _).
    destruct (K2 s2 H2) as (n2 & Hn2 & _).
    destruct (tick_tail s1 n1 H1 Hn1) as (_ & _ & Hp1 & _).
    destruct (tick_tail s2 n2 H2 Hn2) as (_ & _ & Hp2 & _).
    rewrite Heq, Hp2 in Hp1. congruence.
  - intros tl Htl. apply in_map_iff in Htl as (s' & <- & Hs').
    destruct (K2 s' Hs') as (n' & Hn' & _).
    destruct (tick_tail s' n' Hs' Hn') as (_ & _ & _ & a0 & Hc0).
    destruct (tick_cell _ _ Hc0) as (atl & Hctl & _).
    eapply cell_of_In_all_cells. exact Hctl.
  - intros p Hp Hnt. unfold ca_contrib.
    destruct (arrowAt m p) as [ap|] eqn:Hap; [|reflexivity].
    destruct ((0 <? arrowType ap)%nat && active ap) eqn:E; [|reflexivity].
    apply andb_true_iff in E as [E _]. apply Nat.ltb_lt in E.
    apply In_all_cells in Hp as (_ & Hx & Hy).
    assert (Hcp : cell_of m p ap) by (split; auto).
    destruct (tick_cell0 p ap Hcp) as (a0 & Hc0 & _).
    destruct (K3 p a0 Hc0) as (s' & j & n' & Hpp & Hs' & Hn' & Hj).
    destruct (K2 s' Hs') as (n'' & Hn'' & Hnok').
    rewrite Hn' in Hn''. injection Hn'' as <-.
    destruct (tick_tail s' n' Hs' Hn') as (Hk & _).
    destruct (decide (S j = length (LogicNode.arrows n'))) as [Hlast|Hmid].
    + exfalso. apply Hnt. apply in_map_iff. exists s'. split; [|exact Hs'].
      replace (length (LogicNode.arrows n') - 1)%nat with j in Hk by lia.
      congruence.
    + assert (Hlt : (S j < length (LogicNode.arrows n'))%nat).
      { apply lookup_lt_Some in Hj. lia. }
      destruct (lookup_lt_is_Some_2 _ _ Hlt) as [c' Hc'].
      destruct Hnok' as (_ & _ & _ & _ & Hposs' & _ & Hlink & _).
      destruct (Hlink j p c' Hj Hc') as (He & _).
      rewrite tick_edges, He, count_ref_single.
      rewrite decide_False; [reflexivity|].
      intros ->. destruct (Hposs' _ _ Hc') as [_ Hpc'].
      rewrite Hph in Hpc'. discriminate.
Qed.

(** One tick of each simulator keeps the two models in agreement. *)
Lemma agree_step : agree m0 g0 (updateCA m) (updateNodes g).
Proof.
  pose proof Hok as (K1 & K2 & K3).
  pose proof Hag as (Hd & Hz & Hch & Hna & Hlen & Hst & Hnz & Hv).
  assert (Hnd : NoDup (nodeArray g)) by (rewrite Hna; exact K1).
  split; [eapply grid_dyn_trans; [exact Hd|apply grid_dyn_updateCA]|].
  split.
  { intros c a2 Hc2.
    destruct (cell_of_dyn _ _ c a2 (grid_dyn_sym _ _ (grid_dyn_updateCA m))
                Hc2) as (a & Hc & _).
    destruct (updateCA_cell_step m c a Hc) as (a2' & (Ha2' & _) & Hz2 & _).
    destruct Hc2 as (Ha2 & _). congruence. }
  split; [exact Hch|]. split; [exact Hna|].
  split; [rewrite length_updateNodes; exact Hlen|].
  split.
  { intros i n0 Hn0. destruct (Hst i n0 Hn0) as (n & Hn & A & T & G & L).
    destruct (updateNodes_static g i n Hnd Hn) as (n2 & Hn2 & A2 & T2 & G2 & L2).
    exists n2. split; [exact Hn2|]. unfold node_static.
    repeat split; congruence. }
  split.
  { intros s n2 Hs Hn2.
    assert (Hs0 : In s (nodeArray g0)) by (rewrite <- Hna; exact Hs).
    destruct (tick_live s Hs0) as (n0 & n & _ & _ & Hn & _).
    assert (Hsg : In s (nodeArray g)) by (rewrite Hna; exact Hs0).
    destruct (updateNodes_node_step g s n Hnd Hsg Hn)
      as (n2' & Hn2' & _ & _ & _ & Z & _).
    congruence. }
  intros c a2 Hc2.
  destruct (cell_of_dyn _ _ c a2 (grid_dyn_sym _ _ (grid_dyn_updateCA m)) Hc2)
    as (a & Hc & _).
  destruct (updateCA_cell_step m c a Hc) as (a2' & (Ha2' & _) & _ & Hact).
  assert (a2' = a2) as -> by (destruct Hc2 as (Ha2 & _); congruence).
  rewrite (Hz c a Hc) in Hact. simpl in Hact.
  destruct (tick_cell0 c a Hc) as (a0 & Hc0 & Hm0).
  destruct (K3 c a0 Hc0) as (s & j & n0 & Hp & Hs & Hn0 & Hj).
  destruct (tick_live s Hs) as (n0' & n & Hn0' & Hnok & Hn & Hstat).
  rewrite Hn0 in Hn0'. injection Hn0' as <-.
  assert (Hsg : In s (nodeArray g)) by (rewrite Hna; exact Hs).
  destruct (updateNodes_node_step g s n Hnd Hsg Hn)
    as (n2 & Hn2 & _ & _ & _ & _ & Hsig).
  unfold cell_view, position. cbn [chunks updateNodes updateNodes_pass2
    updateNodes_pass1 set_heap].
  change (match arrowAt (chunks g) c with
          | Some a1 => match node a1 with
                       | Some nd => Some (nd, offset a1)
                       | None => None
                       end
          | None => None
          end) with (position g c).
  rewrite tick_position, Hp.
  change (fold_left (fun h nd => alter updateNodes_node nd h) (nodeArray g)
            (fold_left updateNodes_send (nodeArray g) (heap g)))
    with (heap (updateNodes g)).
  rewrite Hn2, Hsig. unfold LogicNode.signals_insert.
  destruct Hstat as (Har & Hty & Htg & Hlen').
  pose proof Hnok as (Hsl & _ & _ & _ & Hposs & Hhead & Hlink & _).
  assert (Hjlt : (j < length (LogicNode.signals n))%nat).
  { rewrite Hlen', Hsl. apply lookup_lt_Some in Hj. exact Hj. }
  rewrite lookup_take_lt by exact Hjlt.
  rewrite (Hnz s n) by (rewrite ?Hna; assumption). simpl.
  destruct j as [|j'].
  - simpl. f_equal. rewrite updateNodes_active_eq, Hact.
    pose proof Hc0 as (Ha0 & _).
    rewrite Hty, (Hhead c a0 Hj Ha0), Hm0.
    rewrite <- (tick_head_count s n0 c Hs Hn0 Hj).
    pose proof (tick_view c a s 0%nat n Hc Hp Hn) as Hv0.
    unfold LogicNode.signals_first.
    destruct (LogicNode.signals n) as [|b bs]; [discriminate|].
    simpl in Hv0. injection Hv0 as ->. reflexivity.
  - simpl.
    assert (Hj' : (j' < length (LogicNode.arrows n0))%nat).
    { apply lookup_lt_Some in Hj. lia. }
    destruct (lookup_lt_is_Some_2 _ _ Hj') as [cp Hcp].
    destruct (Hposs _ _ Hcp) as [[ap0 Hcp0] Hpp].
    destruct (tick_cell _ _ Hcp0) as (ap & Hcpm & _).
    rewrite (tick_view cp ap s j' n Hcpm Hpp Hn). f_equal.
    destruct (Hlink j' cp c Hcp Hj) as (_ & Hmz & _).
    pose proof Hc0 as (Ha0 & _).
    rewrite Hact, <- Hm0, (Hmz a0 Ha0).
    rewrite (tick_inner_count s n0 j' cp c ap Hs Hn0 Hcp Hj Hcpm).
    simpl. destruct (active ap); reflexivity.
Qed.

End Tick.

Lemma agree_init m0 g0 : compiled_ok m0 g0 -> quiet m0 -> agree m0 g0 m0 g0.
Proof.
  intros (K1 & K2 & K3) Hq.
  split; [apply grid_dyn_refl|]. split.
  { intros c a (Ha & _). apply (Hq c a Ha). }
  split; [reflexivity|]. split; [reflexivity|]. split; [reflexivity|].
  split.
  { intros i n0 Hn0. exists n0. split; [exact Hn0|].
    unfold node_static. tauto. }
  split.
  { intros s n Hs Hn. destruct (K2 s Hs) as (n' & Hn' & Hnok).
    rewrite Hn in Hn'. injection Hn' as <-. apply Hnok. }
  intros c a Hc. destruct (K3 c a Hc) as (s & j & n & Hp & Hs & Hn & Hj).
  destruct (K2 s Hs) as (n' & Hn' & Hnok).
  rewrite Hn in Hn'. injection Hn' as <-.
  destruct Hnok as (Hlen & _ & Hfalse & _).
  unfold cell_view. rewrite Hp, Hn.
  assert (Hlt : (j < length (LogicNode.signals n))%nat).
  { rewrite Hlen. apply lookup_lt_Some in Hj. exact Hj. }
  destruct (lookup_lt_is_Some_2 _ _ Hlt) as [b Hb]. rewrite Hb.
  rewrite Forall_lookup in Hfalse. rewrite (Hfalse j b Hb).
  destruct Hc as (Ha & _). rewrite (proj1 (Hq c a Ha)). reflexivity.
Qed.

Lemma agree_iter m0 g0 k :
  compiled_ok m0 g0 -> quiet m0 ->
  agree m0 g0 (Nat.iter k updateCA m0) (Nat.iter k updateNodes g0).
Proof.
  intros Hok Hq. induction k as [|k IH]; simpl.
  - apply agree_init; assumption.
  - apply agree_step; assumption.
Qed.

(** ** Raw node graph: only cells of the grid are marked *)

Lemma addTargetNodes_in_range f :
  (forall g cp x y g' res,
      createNode f g cp x y = Some (g', res) ->
      0 <= x < CHUNK_SIZE -> 0 <= y < CHUNK_SIZE ->
      marked_in_range g -> marked_in_range g') ->
  forall ds nd chunk arrow x y g g',
    Forall (fun d => Z.abs (fst d) + Z.abs (snd d) <= 2) ds ->
    0 <= x < CHUNK_SIZE -> 0 <= y < CHUNK_SIZE ->
    marked_in_range g ->
    addTargetNodes (createNode f) nd chunk arrow x y ds g = Some g' ->
    marked_in_range g'.
Proof.
  intros IH ds. induction ds as [|d ds IHds];
    intros nd chunk arrow x y g g' Hsmall Hx Hy Hm H.
  - unfold addTargetNodes in H. cbn [fold_left] in H.
    injection H as <-. exact Hm.
  - rewrite addTargetNodes_cons in H.
    apply Forall_cons in Hsmall as [Hd Hsmall].
    destruct (addTargetNode (createNode f) g nd chunk arrow x y (fst d)
                (snd d)) as [g1|] eqn:Hstep; [|discriminate].
    apply (IHds nd chunk arrow x y g1 g' Hsmall Hx Hy); [|exact H].
    unfold addTargetNode in Hstep. rewrite transform_same in Hstep.
    destruct (getArrowRelative_transform arrow x y (fst d) (snd d))
      as [x1 y1] eqn:Htr.
    destruct (rebase x1 y1) as [sel [x2 y2]] eqn:Hrb.
    destruct (targetChunk (chunks g) chunk sel) as [tc|];
      [|injection Hstep as <-; exact Hm].
    destruct (createNode f g tc x2 y2) as [[g2 res]|] eqn:Hcall;
      [|discriminate].
    pose proof (transform_bounds _ _ _ _ _ _ _ Htr) as Hb.
    assert (Hx1 : - CHUNK_SIZE <= x1 < 2 * CHUNK_SIZE)
      by (unfold CHUNK_SIZE in *; lia).
    assert (Hy1 : - CHUNK_SIZE <= y1 < 2 * CHUNK_SIZE)
      by (unfold CHUNK_SIZE in *; lia).
    destruct (rebase_spec _ _ _ _ _ Hx1 Hy1 Hrb) as ([Hx2 Hy2] & _).
    pose proof (IH _ _ _ _ _ _ Hcall Hx2 Hy2 Hm) as Hm2.
    destruct res as [t|]; injection Hstep as <-; [|exact Hm2].
    unfold marked_in_range. rewrite (proj1 (linkRaw_fields g2 nd t)).
    exact Hm2.
Qed.

Lemma createNode_in_range fuel : forall g cp x y g' res,
  createNode fuel g cp x y = Some (g', res) ->
  0 <= x < CHUNK_SIZE -> 0 <= y < CHUNK_SIZE ->
  marked_in_range g -> marked_in_range g'.
Proof.
  induction fuel as [|fuel IH]; intros g cp x y g' res H Hx Hy Hm;
    [discriminate|].
  rewrite createNode_unfold in H.
  destruct (chunks g !! cp) as [c|] eqn:Hc; [|discriminate].
  cbn zeta in H.
  destruct (arrowType (getArrow c x y) =? 0)%nat;
    [injection H as <- <-; exact Hm|].
  destruct (originalNode (getArrow c x y));
    [injection H as <- <-; exact Hm|].
  destruct (addTargetNodes _ _ _ _ _ _ _ _) as [g3|] eqn:Hloop;
    [|discriminate].
  injection H as <- <-.
  apply (addTargetNodes_in_range fuel IH _ _ _ _ _ _ _ _
           ltac:(apply Forall_forall; intros d Hd;
                 apply list_elem_of_In in Hd;
                 eapply shape_offsets_small; exact Hd)
           Hx Hy) in Hloop; [exact Hloop|].
  split.
  - intros r k Hr. destruct (decide (r = (cp, (x, y)))) as [->|Hne].
    + simpl. auto.
    + unfold markCell in Hr. simpl in Hr.
      rewrite nodeOf_updateArrow_ne in Hr by auto.
      eapply (proj1 Hm). exact Hr.
  - intros r a. unfold markCell. simpl. rewrite arrowAt_updateArrow.
    destruct (decide ((cp, (x, y)) = r)) as [<-|Hne].
    + destruct (arrowAt (chunks g) (cp, (x, y))); simpl; [|discriminate].
      intros [= <-]. reflexivity.
    + apply (proj2 Hm).
Qed.

Lemma createNodes_in_range_loop fuel l : forall g0 g,
  (forall r, In r l ->
     0 <= fst (snd r) < CHUNK_SIZE /\ 0 <= snd (snd r) < CHUNK_SIZE) ->
  marked_in_range g0 ->
  fold_left
    (fun (og : option Game) (r : ArrowRef) =>
       match og with
       | None => None
       | Some g' =>
         match createNode fuel g' (fst r) (fst (snd r)) (snd (snd r)) with
         | None => None
         | Some (g'', _) => Some g''
         end
       end) l (Some g0) = Some g ->
  marked_in_range g.
Proof.
  induction l as [|r l IH]; intros g0 g Hl Hm0 H.
  - injection H as <-. exact Hm0.
  - cbn [fold_left] in H.
    destruct (createNode fuel g0 (fst r) (fst (snd r)) (snd (snd r)))
      as [[g1 res]|] eqn:Hcall.
    + apply (IH g1); auto.
      * intros r' Hr'. apply Hl. right. exact Hr'.
      * destruct (Hl r (or_introl eq_refl)) as [Hx Hy].
        eapply createNode_in_range; eauto.
    + exfalso. clear -H. induction l as [|r' l IHl]; [discriminate|].
      apply IHl. exact H.
Qed.

Lemma createNodes_marked m ks fuel g :
  fresh m -> createNodes ks fuel (gameOf m) = Some g -> marked_in_range g.
Proof.
  intros Hf H. unfold createNodes in H.
  eapply createNodes_in_range_loop; [| |exact H].
  - intros r Hr. apply In_cells_in in Hr. tauto.
  - split.
    + intros r nd Hr. unfold nodeOf in Hr. simpl in Hr.
      destruct (arrowAt m r) as [a|] eqn:Ha; [|discriminate].
      destruct (Hf r a Ha). congruence.
    + intros r a Ha. simpl in Ha. destruct (Hf r a Ha). congruence.
Qed.

(** ** Counting through a partial map *)

Lemma count_filter_map {A B : Type} (f : A -> option B) (p : A -> bool)
    (q : B -> bool) : forall (l : list A) (lb : list B),
  List.map Some lb = List.map f l ->
  (forall a b, In a l -> f a = Some b -> q b = p a) ->
  length (List.filter q lb) = length (List.filter p l).
Proof.
  induction l as [|a l IH]; intros lb H Hq.
  - destruct lb; [reflexivity|discriminate].
  - destruct lb as [|b lb]; [discriminate|].
    cbn [List.map] in H. injection H as Hb H.
    cbn [List.filter]. rewrite (Hq a b (or_introl eq_refl) (eq_sym Hb)).
    specialize (IH lb H (fun a' b' Ha' => Hq a' b' (or_intror Ha'))).
    destruct (p a); cbn [length]; rewrite IH; reflexivity.
Qed.

Lemma count_occ_filter (l : list nat) x :
  count_occ Nat.eq_dec l x = length (List.filter (Nat.eqb x) l).
Proof.
  induction l as [|y l IH]; [reflexivity|]. cbn [count_occ List.filter].
  destruct (Nat.eq_dec y x) as [->|Hne].
  - rewrite Nat.eqb_refl. cbn [length]. rewrite IH. reflexivity.
  - destruct (Nat.eqb_spec x y) as [->|_]; [contradiction|exact IH].
Qed.

(** ** The raw graph of a grid *)

Section Simplification.

Variable m : GameMap.
Variable gr : Game.
Hypothesis Hext : grid_ext m (chunks gr).
Hypothesis Hwf : raw_wf gr.
Hypothesis Hcomp : all_complete gr.
Hypothesis Hrange : marked_in_range gr.
Hypothesis Hall : forall r a, cell_of m r a -> nodeOf (chunks gr) r <> None.

Lemma raw_cell c y :
  nodeOf (chunks gr) c = Some y ->
  exists a ry, arrowAt (chunks gr) c = Some a /\ originalNode a = Some y
    /\ node a = Some y /\ offset a = 0%nat
    /\ heap gr !! y = Some ry /\ LogicNode.arrows ry = [c]
    /\ LogicNode.type ry = medalType a /\ LogicNode.size ry = 1%nat.
Proof.
  intros H. unfold nodeOf in H.
  destruct (arrowAt (chunks gr) c) as [a|] eqn:Ha; [|discriminate].
  destruct Hwf as (R1 & R2 & _).
  destruct (R1 c a y Ha H) as (_ & Hn & Ho & ry & Hry & Har & Hty).
  destruct (R2 y ry Hry) as (Hsz & _).
  exists a, ry. auto 10.
Qed.

Lemma raw_node y ry :
  heap gr !! y = Some ry ->
  exists c, LogicNode.arrows ry = [c] /\ nodeOf (chunks gr) c = Some y
    /\ LogicNode.size ry = 1%nat.
Proof.
  intros H. destruct Hwf as (_ & R2 & _).
  destruct (R2 y ry H) as (Hsz & _ & _ & _ & c & Hc & Hn). eauto.
Qed.

Lemma raw_cell_of c y :
  nodeOf (chunks gr) c = Some y ->
  exists a0 a, cell_of m c a0 /\ arrowAt (chunks gr) c = Some a
    /\ same_shape a0 a.
Proof.
  intros H. pose proof (proj1 Hrange c y H) as [Hx Hy]. unfold nodeOf in H.
  destruct (arrowAt (chunks gr) c) as [a|] eqn:Ha; [|discriminate].
  destruct Hwf as (R1 & _).
  destruct (R1 c a y Ha H) as (Hpos & _).
  assert (Hs : is_Some (arrowAt m c)).
  { apply arrowAt_is_Some. apply (proj1 Hext).
    apply arrowAt_is_Some. rewrite Ha. eauto. }
  destruct Hs as [a0 Ha0].
  destruct (proj2 Hext c a0 Ha0) as (a' & Ha' & Hsh & _).
  assert (a' = a) by congruence. subst a'.
  exists a0, a. split; [|auto].
  split; [exact Ha0|]. split; [|auto].
  destruct Hsh as (<- & _). exact Hpos.
Qed.

Lemma raw_edges c y ry :
  nodeOf (chunks gr) c = Some y -> heap gr !! y = Some ry ->
  List.map Some (LogicNode.targets ry)
  = List.map (nodeOf (chunks gr)) (edges m c).
Proof.
  intros H Hry. destruct (raw_cell_of c y H) as (a0 & a & Hc & Ha & Hsh).
  destruct (Hcomp c) as (a1 & Ha1 & a2 & nd & n & Ha2 & Ho & Hn & Ht).
  { rewrite H. discriminate. }
  assert (a1 = a) by congruence. subst a1.
  assert (a2 = a) by congruence. subst a2.
  assert (nd = y).
  { unfold nodeOf in H. rewrite Ha in H. congruence. }
  subst nd. assert (n = ry) by congruence. subst n.
  rewrite firstn_all in Ht. rewrite Ht. f_equal.
  unfold edges. destruct Hc as (Ha0 & _). rewrite Ha0.
  rewrite getTargetArrows_resolve.
  destruct Hsh as (Hty & Hrot & Hfl & _). rewrite Hty.
  apply list_omap_ext, Forall2_same_length_lookup.
  split; [reflexivity|]. intros i d d' Hd Hd'.
  assert (d' = d) by congruence. subst d'.
  apply resolve_ext; auto.
Qed.

Lemma raw_medal c y ry a0 :
  nodeOf (chunks gr) c = Some y -> heap gr !! y = Some ry ->
  arrowAt m c = Some a0 -> LogicNode.type ry = medalType a0.
Proof.
  intros H Hry Ha0.
  destruct (raw_cell c y H) as (a & ry' & Ha & _ & _ & _ & Hry' & _ & Hty & _).
  assert (ry' = ry) by congruence. subst ry'.
  destruct (proj2 Hext c a0 Ha0) as (a' & Ha' & Hsh & _).
  assert (a' = a) by congruence. subst a'.
  destruct Hsh as (_ & _ & _ & Hm & _). congruence.
Qed.

Lemma raw_count c' t p xp rp :
  nodeOf (chunks gr) c' = Some t ->
  nodeOf (chunks gr) p = Some xp -> heap gr !! xp = Some rp ->
  count_occ Nat.eq_dec (LogicNode.targets rp) t = count_ref c' (edges m p).
Proof.
  intros Hc' Hp Hrp. rewrite count_occ_filter. unfold count_ref.
  apply (count_filter_map (nodeOf (chunks gr))).
  - apply raw_edges with xp; assumption.
  - intros a b _ Hab. destruct (Nat.eqb_spec t b) as [->|Hne].
    + rewrite (nodeOf_inj gr c' a b Hwf Hc' Hab).
      symmetry. apply ArrowRef_eqb_refl.
    + symmetry. apply ArrowRef_eqb_neq. intros ->. congruence.
Qed.

Lemma raw_link c x rx t rt c' :
  nodeOf (chunks gr) c = Some x -> heap gr !! x = Some rx ->
  LogicNode.targets rx = [t] -> heap gr !! t = Some rt ->
  LogicNode.type rt = 0%nat -> length (LogicNode.sources rt) = 1%nat ->
  nodeOf (chunks gr) c' = Some t ->
  link m c c'.
Proof.
  intros Hc Hrx Htx Hrt Hty Hsrc Hc'.
  destruct (LogicNode.sources rt) as [|q [|q' qs]] eqn:Hq;
    try discriminate.
  pose proof Hwf as (_ & _ & R3 & _).
  assert (Hqx : q = x).
  { pose proof (R3 x t rx rt Hrx Hrt) as E. rewrite Htx, Hq in E.
    cbn [count_occ] in E.
    destruct (Nat.eq_dec t t) as [_|]; [|contradiction].
    destruct (Nat.eq_dec q x) as [->|]; [reflexivity|discriminate]. }
  subst q. split; [|split].
  - pose proof (raw_edges c x rx Hc Hrx) as E. rewrite Htx in E.
    destruct (edges m c) as [|e [|e' es]]; try discriminate.
    cbn [List.map] in E. injection E as E.
    rewrite (nodeOf_inj gr c' e t Hwf Hc' (eq_sym E)). reflexivity.
  - intros a' Ha'. rewrite <- (raw_medal c' t rt a' Hc' Hrt Ha'). exact Hty.
  - intros p ap Hp.
    destruct (nodeOf (chunks gr) p) as [xp|] eqn:Hxp;
      [|exfalso; exact (Hall p ap Hp Hxp)].
    destruct (raw_cell p xp Hxp) as (_ & rp & _ & _ & _ & _ & Hrp & _).
    rewrite <- (raw_count c' t p xp rp Hc' Hxp Hrp).
    rewrite (R3 xp t rp rt Hrp Hrt), Hq. cbn [count_occ].
    destruct (Nat.eq_dec x xp) as [<-|Hne].
    + rewrite decide_True; [reflexivity|].
      apply (nodeOf_inj gr p c x Hwf Hxp Hc).
    + rewrite decide_False; [reflexivity|]. intros ->. congruence.
Qed.

(** ** Simplification: entering a node *)

Lemma map_memo_le g g' (l : list NodeId) ts :
  memo_le g g' ->
  List.map Some l = List.map (fun y => simplifiedNodes g !! y) ts ->
  List.map Some l = List.map (fun y => simplifiedNodes g' !! y) ts.
Proof.
  intros Hle. revert l. induction ts as [|t ts IH]; intros l H.
  - exact H.
  - destruct l as [|s l]; [discriminate|]. cbn [List.map] in *.
    injection H as Hs H. rewrite (Hle t s (eq_sym Hs)).
    f_equal. apply IH, H.
Qed.

Lemma chain_mono g g' x n :
  chain m gr g x n -> memo_le g g' ->
  (forall j c, LogicNode.arrows n !! j = Some c ->
     offsetOf (chunks g') c = offsetOf (chunks g) c) ->
  chain m gr g' x n.
Proof.
  intros (H0 & Hsz & Hsig & Hcnt & Hcell & Hlink & Hnr & Hr) Hle Hoff.
  split; [exact H0|]. split; [exact Hsz|]. split; [exact Hsig|].
  split; [exact Hcnt|].
  split; [|split; [exact Hlink|split; [exact Hnr|]]].
  - intros j c Hc. destruct (Hcell j c Hc) as ((y & Hy & [s Hs]) & Ho).
    split; [exists y; split; [exact Hy|]; exists s; apply Hle, Hs|].
    rewrite (Hoff j c Hc). exact Ho.
  - intros Hready tl xt rt Htl Hxt Hrt.
    apply (map_memo_le g g'); [exact Hle|]. eapply Hr; eauto.
Qed.

Lemma set_add_fresh n l : ~ In n l -> set_add n l = l ++ [n].
Proof.
  intros H. unfold set_add.
  destruct (existsb (Nat.eqb n) l) eqn:E; [|reflexivity].
  apply existsb_exists in E as (k & Hk & E). apply Nat.eqb_eq in E.
  subst. contradiction.
Qed.

Lemma live_lt g s :
  simp_inv m gr g -> In s (nodes g) ->
  (length (heap gr) <= s < length (heap g))%nat.
Proof.
  intros SI Hs. destruct (si_live _ _ _ SI s Hs) as (x & n & Hx & HM & Hn & _).
  eapply si_memo_range; eauto.
Qed.

Lemma simp_inv_enter g x rx :
  simp_inv m gr g -> simplifiedNodes g !! x = None ->
  heap gr !! x = Some rx ->
  simp_inv m gr (simplifyNode_enter g x rx)
  /\ memo_le g (simplifyNode_enter g x rx).
Proof.
  intros SI HMx Hrx.
  pose proof (lookup_lt_Some _ _ _ Hrx) as Hx.
  pose proof (si_len _ _ _ SI) as HN.
  assert (Hfresh : ~ In (length (heap g)) (nodes g)).
  { intros H. apply (live_lt g _ SI) in H. lia. }
  assert (Hle : memo_le g (simplifyNode_enter g x rx)).
  { intros y s Hy. unfold simplifyNode_enter. simpl.
    rewrite !lookup_insert_ne; [exact Hy| |].
    - intros <-. congruence.
    - intros <-. assert (Hs : is_Some (simplifiedNodes g !! length (heap g)))
        by eauto.
      apply (si_memo_dom _ _ _ SI) in Hs. lia. }
  split; [|exact Hle].
  destruct (raw_node x rx Hrx) as (cx & Harx & Hcx & Hszx).
  assert (Hheap : heap (simplifyNode_enter g x rx)
                 = heap g ++ [LogicNode.copy rx]) by reflexivity.
  assert (Hchunks : chunks (simplifyNode_enter g x rx) = chunks g)
    by reflexivity.
  assert (Hnodes : nodes (simplifyNode_enter g x rx)
                  = nodes g ++ [length (heap g)]).
  { unfold simplifyNode_enter. simpl. apply set_add_fresh. exact Hfresh. }
  assert (HM : forall y, (y < length (heap gr))%nat ->
             simplifiedNodes (simplifyNode_enter g x rx) !! y
             = if decide (y = x) then Some (length (heap g))
               else simplifiedNodes g !! y).
  { intros y Hy. unfold simplifyNode_enter. simpl.
    rewrite lookup_insert_ne by lia.
    destruct (decide (y = x)) as [->|Hne].
    - apply lookup_insert_eq.
    - apply lookup_insert_ne. auto. }
  assert (Hnew : chain m gr (simplifyNode_enter g x rx) x (LogicNode.copy rx)).
  { unfold LogicNode.copy, LogicNode.new, chain. simpl. rewrite Harx, Hszx.
    split; [|split; [reflexivity|split; [reflexivity|split; [reflexivity|]]]].
    - exists cx. split; [exact Hcx|]. split; [reflexivity|].
      intros a Ha. eapply raw_medal; eauto.
    - split; [|split; [|split; [reflexivity|discriminate]]].
      + intros j c Hc. apply list_lookup_singleton_Some in Hc as [-> <-].
        split.
        * exists x. split; [exact Hcx|]. rewrite HM by exact Hx.
          rewrite decide_True by reflexivity. eauto.
        * eapply (si_unvisited _ _ _ SI); eauto.
      + intros j c c' _ Hc'. destruct j; discriminate. }
  constructor.
  - intros y Hy. rewrite Hheap.
    rewrite lookup_app_l by lia. apply (si_raw _ _ _ SI). exact Hy.
  - rewrite Hheap, length_app. simpl. lia.
  - rewrite Hchunks. apply (si_grid _ _ _ SI).
  - intros y s Hy. rewrite HM by exact Hy. rewrite Hheap, length_app. simpl.
    destruct (decide (y = x)) as [->|Hne].
    + intros [= <-]. lia.
    + intros H. apply (si_memo_range _ _ _ SI) in H; [lia|exact Hy].
  - intros y y' s Hy Hy'. rewrite !HM by assumption.
    destruct (decide (y = x)) as [->|Hne], (decide (y' = x)) as [->|Hne'];
      try congruence.
    + intros [= <-] H. apply (si_memo_range _ _ _ SI) in H; [lia|exact Hy'].
    + intros H [= <-]. apply (si_memo_range _ _ _ SI) in H; [lia|exact Hy].
    + apply (si_memo_inj _ _ _ SI); assumption.
  - intros y. unfold simplifyNode_enter. simpl.
    rewrite length_app. simpl.
    rewrite !lookup_insert_is_Some. intros [<-|[_ [<-|[_ H]]]]; try lia.
    apply (si_memo_dom _ _ _ SI) in H. lia.
  - rewrite Hnodes. apply NoDup_app. split; [apply (si_nodup _ _ _ SI)|].
    split; [|apply NoDup_singleton].
    intros s Hs Hs'. apply list_elem_of_singleton in Hs'. subst s.
    apply Hfresh, list_elem_of_In, Hs.
  - intros s. rewrite Hnodes, in_app_iff. intros [Hs|[<-|[]]].
    + destruct (si_live _ _ _ SI s Hs) as (y & n & Hy & HMy & Hn & Hch).
      exists y, n. split; [exact Hy|]. split; [apply Hle, HMy|].
      split; [rewrite Hheap; apply lookup_app_l_Some; exact Hn|].
      eapply chain_mono; eauto.
    + exists x, (LogicNode.copy rx). split; [exact Hx|].
      split; [rewrite HM by exact Hx; apply decide_True; reflexivity|].
      split; [rewrite Hheap; apply list_lookup_middle; reflexivity|].
      exact Hnew.
  - intros y c Hy. pose proof (nodeOf_lt gr c y Hwf Hy) as Hlt.
    rewrite HM by exact Hlt. rewrite Hnodes, Hheap.
    destruct (decide (y = x)) as [->|Hne].
    + intros _. exists (length (heap g)), (LogicNode.copy rx), 0%nat.
      split; [apply in_app_iff; right; left; reflexivity|].
      split; [apply list_lookup_middle; reflexivity|].
      simpl. rewrite Harx. simpl. f_equal.
      apply (nodeOf_inj gr cx c x Hwf Hcx Hy).
    + intros H. destruct (si_part _ _ _ SI y c Hy H) as (s & n & j & Hs & Hn & Hj).
      exists s, n, j. split; [apply in_app_iff; left; exact Hs|].
      split; [apply lookup_app_l_Some; exact Hn|exact Hj].
  - assert (Hold : forall s n j, In s (nodes g) -> heap g !! s = Some n ->
                     LogicNode.arrows n !! j = Some cx -> False).
    { intros s n j Hs Hn Hj.
      destruct (si_live _ _ _ SI s Hs) as (y & n' & _ & _ & Hn' & Hch).
      assert (n' = n) by congruence. subst n'.
      destruct Hch as (_ & _ & _ & _ & Hcell & _).
      destruct (Hcell j cx Hj) as ((y' & Hy' & Hv) & _).
      assert (y' = x) by congruence. subst y'.
      rewrite HMx in Hv. destruct Hv; discriminate. }
    assert (Hlook : forall s n, heap (simplifyNode_enter g x rx) !! s = Some n ->
              In s (nodes g) -> heap g !! s = Some n).
    { intros s n Hn Hs. rewrite Hheap in Hn.
      rewrite lookup_app_l in Hn; [exact Hn|].
      apply (live_lt g s SI) in Hs. lia. }
    assert (Hsid : forall n j c,
              heap (simplifyNode_enter g x rx) !! length (heap g) = Some n ->
              LogicNode.arrows n !! j = Some c -> j = 0%nat /\ c = cx).
    { intros n j c Hn Hj. rewrite Hheap in Hn.
      rewrite list_lookup_middle in Hn by reflexivity.
      injection Hn as <-. simpl in Hj. rewrite Harx in Hj.
      apply list_lookup_singleton_Some in Hj as [-> <-]. auto. }
    intros s s' n n' j j' c. rewrite Hnodes, !in_app_iff.
    intros [Hs|[<-|[]]] [Hs'|[<-|[]]] Hn Hn' Hj Hj'.
    + eapply (si_uniq _ _ _ SI); eauto.
    + destruct (Hsid _ _ _ Hn' Hj') as [-> ->].
      exfalso. eapply Hold; eauto.
    + destruct (Hsid _ _ _ Hn Hj) as [-> ->].
      exfalso. eapply Hold; eauto.
    + destruct (Hsid _ _ _ Hn Hj) as [-> ->].
      destruct (Hsid _ _ _ Hn' Hj') as [-> _]. auto.
  - intros y s c Hy. pose proof (nodeOf_lt gr c y Hwf Hy) as Hlt.
    rewrite HM by exact Hlt. rewrite Hnodes, Hchunks, in_app_iff.
    destruct (decide (y = x)) as [->|Hne].
    + intros [= <-] H. exfalso. apply H. right. left. reflexivity.
    + intros H Hs. eapply (si_dead _ _ _ SI); eauto.
  - intros y c Hy. pose proof (nodeOf_lt gr c y Hwf Hy) as Hlt.
    rewrite HM by exact Hlt. rewrite Hchunks.
    destruct (decide (y = x)) as [->|Hne]; [discriminate|].
    apply (si_unvisited _ _ _ SI). exact Hy.
Qed.

(** ** Simplification: updating the node under construction *)

Lemma chain_same g g' x n :
  chain m gr g x n -> simplifiedNodes g' = simplifiedNodes g ->
  chunks g' = chunks g -> chain m gr g' x n.
Proof.
  intros H HM Hc. eapply chain_mono; [exact H| |].
  - intros y s. rewrite HM. auto.
  - intros j c _. rewrite Hc. reflexivity.
Qed.

Lemma simp_inv_alter g sid f x n :
  simp_inv m gr g -> In sid (nodes g) ->
  simplifiedNodes g !! x = Some sid -> (x < length (heap gr))%nat ->
  heap g !! sid = Some n ->
  (forall n0, LogicNode.arrows (f n0) = LogicNode.arrows n0) ->
  chain m gr g x (f n) ->
  simp_inv m gr (alterNode g sid f).
Proof.
  intros SI Hlive HMx Hx Hn Harr Hch.
  pose proof (live_lt g sid SI Hlive) as Hsid.
  assert (Hlook : forall s n1, heap (alterNode g sid f) !! s = Some n1 ->
            exists n0, heap g !! s = Some n0
              /\ LogicNode.arrows n1 = LogicNode.arrows n0).
  { intros s n1. unfold alterNode. simpl.
    destruct (decide (sid = s)) as [<-|Hne].
    - rewrite list_lookup_alter_eq, Hn. simpl. intros [= <-].
      exists n. split; [reflexivity|apply Harr].
    - rewrite list_lookup_alter_ne by exact Hne. intros H.
      exists n1. auto. }
  constructor.
  - intros y Hy. unfold alterNode. simpl.
    rewrite list_lookup_alter_ne by lia. apply (si_raw _ _ _ SI). exact Hy.
  - unfold alterNode. simpl. rewrite length_alter. apply (si_len _ _ _ SI).
  - apply (si_grid _ _ _ SI).
  - unfold alterNode. simpl. rewrite length_alter.
    apply (si_memo_range _ _ _ SI).
  - apply (si_memo_inj _ _ _ SI).
  - unfold alterNode. simpl. rewrite length_alter.
    apply (si_memo_dom _ _ _ SI).
  - apply (si_nodup _ _ _ SI).
  - intros s Hs. destruct (decide (s = sid)) as [->|Hne].
    + exists x, (f n). split; [exact Hx|]. split; [exact HMx|].
      split; [|eapply chain_same; eauto].
      unfold alterNode. simpl. rewrite list_lookup_alter_eq, Hn. reflexivity.
    + destruct (si_live _ _ _ SI s Hs) as (y & n1 & Hy & HMy & Hn1 & Hc1).
      exists y, n1. split; [exact Hy|]. split; [exact HMy|].
      split; [|eapply chain_same; eauto].
      unfold alterNode. simpl. rewrite list_lookup_alter_ne by auto.
      exact Hn1.
  - intros y c Hy Hv.
    destruct (si_part _ _ _ SI y c Hy Hv) as (s & n1 & j & Hs & Hn1 & Hj).
    destruct (decide (s = sid)) as [->|Hne].
    + exists sid, (f n), j. split; [exact Hs|]. split.
      * unfold alterNode. simpl. rewrite list_lookup_alter_eq, Hn.
        reflexivity.
      * rewrite Harr. congruence.
    + exists s, n1, j. split; [exact Hs|]. split; [|exact Hj].
      unfold alterNode. simpl. rewrite list_lookup_alter_ne by auto.
      exact Hn1.
  - intros s s' n1 n1' j j' c Hs Hs' Hn1 Hn1' Hj Hj'.
    destruct (Hlook _ _ Hn1) as (n0 & Hn0 & E).
    destruct (Hlook _ _ Hn1') as (n0' & Hn0' & E').
    rewrite E in Hj. rewrite E' in Hj'.
    eapply (si_uniq _ _ _ SI); eauto.
  - apply (si_dead _ _ _ SI).
  - apply (si_unvisited _ _ _ SI).
Qed.

(** ** Simplification: the offsets moved by a fusion *)

Lemma offset_only_refl a : offset_only a a.
Proof. split; [apply same_shape_refl|auto]. Qed.

Lemma offset_only_trans a b c :
  offset_only a b -> offset_only b c -> offset_only a c.
Proof.
  intros (S1 & N1 & O1) (S2 & N2 & O2).
  split; [eapply same_shape_trans; eauto|]. split; congruence.
Qed.

Lemma grid_off_refl mm : grid_off mm mm.
Proof.
  split; [tauto|]. intros r a Ha. exists a. split; [exact Ha|].
  apply offset_only_refl.
Qed.

Lemma grid_off_trans m1 m2 m3 :
  grid_off m1 m2 -> grid_off m2 m3 -> grid_off m1 m3.
Proof.
  intros [D1 E1] [D2 E2]. split.
  - intros c. rewrite D2. apply D1.
  - intros r a Ha. destruct (E1 r a Ha) as (b & Hb & Hab).
    destruct (E2 r b Hb) as (c & Hc & Hbc). exists c.
    split; [exact Hc|]. eapply offset_only_trans; eauto.
Qed.

Lemma grid_off_addOffset mm r k : grid_off mm (updateArrow mm r (addOffset k)).
Proof.
  split; [intros c; apply lookup_updateArrow_is_Some|].
  intros r' a Ha. rewrite arrowAt_updateArrow.
  destruct (decide (r = r')) as [->|Hne].
  - rewrite Ha. simpl. eexists. split; [reflexivity|].
    unfold offset_only, same_shape, addOffset. simpl. auto 10.
  - exists a. split; [exact Ha|apply offset_only_refl].
Qed.

Lemma grid_off_fold k l : forall mm,
  grid_off mm (fold_left (fun m' r' => updateArrow m' r' (addOffset k)) l mm).
Proof.
  induction l as [|r l IH]; intros mm; cbn [fold_left].
  - apply grid_off_refl.
  - eapply grid_off_trans; [apply grid_off_addOffset|apply IH].
Qed.

Lemma offsetOf_fold_out k l c : forall mm,
  ~ In c l ->
  offsetOf (fold_left (fun m' r' => updateArrow m' r' (addOffset k)) l mm) c
  = offsetOf mm c.
Proof.
  induction l as [|r l IH]; intros mm Hc; cbn [fold_left]; [reflexivity|].
  rewrite IH by (intros H; apply Hc; right; exact H).
  unfold offsetOf. rewrite arrowAt_updateArrow_ne; [reflexivity|].
  intros ->. apply Hc. left. reflexivity.
Qed.

Lemma offsetOf_fold_in k l c mm :
  NoDup l -> In c l -> is_Some (arrowAt mm c) ->
  offsetOf (fold_left (fun m' r' => updateArrow m' r' (addOffset k)) l mm) c
  = (offsetOf mm c + k)%nat.
Proof.
  intros Hnd Hc [a Ha]. unfold offsetOf.
  rewrite fold_updateArrow by exact Hnd.
  rewrite bool_decide_eq_true_2 by (apply list_elem_of_In; exact Hc).
  rewrite Ha. reflexivity.
Qed.

Lemma offsetOf_fold_le k l c mm :
  NoDup l ->
  (offsetOf mm c
   <= offsetOf (fold_left (fun m' r' => updateArrow m' r' (addOffset k)) l mm)
               c)%nat.
Proof.
  intros Hnd. unfold offsetOf. rewrite fold_updateArrow by exact Hnd.
  destruct (bool_decide (c ∈ l)); [|lia].
  destruct (arrowAt mm c) as [a|]; simpl; lia.
Qed.

Lemma fuse_exact g nd sid st n stn s g' :
  heap g !! nd = Some n -> heap g !! st = Some stn ->
  heap g !! sid = Some s ->
  fuse g nd sid st = Some g' ->
  heap g' !! sid
  = Some (LogicNode.push_targets
            (LogicNode.push_arrows
               (LogicNode.resize s (LogicNode.size n + LogicNode.size stn))
               (LogicNode.arrows stn))
            (LogicNode.targets stn))
  /\ length (heap g') = length (heap g)
  /\ (forall i, i <> sid -> heap g' !! i = heap g !! i)
  /\ nodes g' = set_delete st (nodes g)
  /\ simplifiedNodes g' = simplifiedNodes g
  /\ chunks g'
     = fold_left (fun mm r => updateArrow mm r (addOffset (LogicNode.size n)))
                 (LogicNode.arrows stn) (chunks g).
Proof.
  intros Hn Hst Hs. unfold fuse. rewrite Hn, Hst. intros [= <-].
  destruct (fold_alterArrow_fields (addOffset (LogicNode.size n))
              (LogicNode.arrows stn)
              (alterNode
                 (alterNode
                    (alterNode (set_nodes g (set_delete st (nodes g))) sid
                       (fun s0 => LogicNode.resize s0
                          (LogicNode.size n + LogicNode.size stn)))
                    sid (fun s0 => LogicNode.push_arrows s0
                                     (LogicNode.arrows stn)))
                 sid (fun s0 => LogicNode.push_targets s0
                                  (LogicNode.targets stn))))
    as (-> & -> & -> & ->).
  unfold alterNode. simpl. rewrite !length_alter.
  split; [|split; [reflexivity|split; [|auto]]].
  - rewrite !list_lookup_alter_eq, Hs. reflexivity.
  - intros i Hne. rewrite !list_lookup_alter_ne by auto. reflexivity.
Qed.

(** ** Simplification: a fusable target is still live *)

Lemma fuse_target_live g x rx t rt sid st :
  simp_inv m gr g ->
  heap gr !! x = Some rx -> LogicNode.targets rx = [t] ->
  heap gr !! t = Some rt ->
  LogicNode.type rt = 0%nat -> length (LogicNode.sources rt) = 1%nat ->
  simplifiedNodes g !! x = Some sid -> In sid (nodes g) ->
  heap g !! sid = Some (LogicNode.copy rx) ->
  simplifiedNodes g !! t = Some st ->
  In st (nodes g).
Proof.
  intros SI Hrx Htx Hrt Hty Hsrc HMx Hsid Hns HMt.
  destruct (in_dec Nat.eq_dec st (nodes g)) as [Hin|Hout]; [exact Hin|].
  exfalso.
  destruct (raw_node x rx Hrx) as (cx & Harx & Hcx & _).
  destruct (raw_node t rt Hrt) as (ct & Hart & Hct & _).
  pose proof (si_dead _ _ _ SI t st ct Hct HMt Hout) as Hoff.
  destruct (si_part _ _ _ SI t ct Hct ltac:(eauto))
    as (s' & n' & j & Hs' & Hn' & Hj).
  destruct (si_live _ _ _ SI s' Hs') as (y & n'' & _ & _ & Hn'' & Hch).
  assert (n'' = n') by congruence. subst n''.
  destruct Hch as (_ & _ & _ & _ & Hcell & Hlink & _).
  destruct (Hcell j ct Hj) as (_ & Hoj).
  destruct j as [|j0]; [lia|].
  destruct (lookup_lt_is_Some_2 (LogicNode.arrows n') j0) as [p Hp].
  { apply lookup_lt_Some in Hj. lia. }
  destruct (Hlink j0 p ct Hp Hj) as (_ & _ & Hcount).
  destruct (raw_cell_of cx x Hcx) as (a0 & _ & Hcell0 & _).
  specialize (Hcount cx a0 Hcell0).
  rewrite <- (raw_count ct t cx x rx Hct Hcx Hrx), Htx in Hcount.
  cbn [count_occ] in Hcount.
  destruct (Nat.eq_dec t t) as [_|]; [|contradiction].
  destruct (decide (cx = p)) as [<-|]; [|discriminate].
  destruct (si_uniq _ _ _ SI s' sid n' (LogicNode.copy rx) j0 0%nat cx
              Hs' Hsid Hn' Hns Hp) as [-> ->].
  { simpl. rewrite Harx. reflexivity. }
  assert (n' = LogicNode.copy rx) by congruence. subst n'.
  simpl in Hj. rewrite Harx in Hj. discriminate.
Qed.

(** ** Simplification: a fusion keeps the invariant *)

Lemma In_set_delete n k l : In k (set_delete n l) <-> In k l /\ k <> n.
Proof.
  unfold set_delete. rewrite filter_In. split; intros [H1 H2]; split; auto.
  - intros ->. rewrite Nat.eqb_refl in H2. discriminate.
  - destruct (Nat.eqb_spec n k) as [->|_]; [contradiction|reflexivity].
Qed.

Lemma NoDup_set_delete n l : NoDup l -> NoDup (set_delete n l).
Proof.
  unfold set_delete. induction l as [|k l IH]; intros H; [exact H|].
  apply NoDup_cons in H as [Hk H]. cbn [List.filter].
  destruct (negb (n =? k)%nat); [|auto].
  apply NoDup_cons. split; [|auto].
  intros Hin. apply Hk. apply list_elem_of_In in Hin.
  apply filter_In in Hin as [Hin _]. apply list_elem_of_In. exact Hin.
Qed.

Lemma marked_arrowAt g c y :
  simp_inv m gr g -> nodeOf (chunks gr) c = Some y ->
  is_Some (arrowAt (chunks g) c).
Proof.
  intros SI H. unfold nodeOf in H.
  destruct (arrowAt (chunks gr) c) as [a|] eqn:Ha; [|discriminate].
  destruct (proj2 (si_grid _ _ _ SI) c a Ha) as (a' & Ha' & _). eauto.
Qed.

Lemma simp_inv_fuse g x rx t rt sid st stn g5 :
  simp_inv m gr g ->
  heap gr !! x = Some rx -> LogicNode.targets rx = [t] ->
  heap gr !! t = Some rt ->
  LogicNode.type rt = 0%nat -> length (LogicNode.sources rt) = 1%nat ->
  simplifiedNodes g !! x = Some sid -> In sid (nodes g) ->
  heap g !! sid = Some (LogicNode.copy rx) ->
  simplifiedNodes g !! t = Some st ->
  heap g !! st = Some stn -> LogicNode.ready stn = true ->
  fuse g x sid st = Some g5 ->
  simp_inv m gr (alterNode g5 sid (fun s => LogicNode.set_ready s true)).
Proof.
  intros SI Hrx Htx Hrt Hty Hsrc HMx Hsid Hns HMt Hstn Hready Hfuse.
  pose proof (fuse_target_live g x rx t rt sid st SI Hrx Htx Hrt Hty Hsrc
                HMx Hsid Hns HMt) as Hst.
  destruct (raw_node x rx Hrx) as (cx & Harx & Hcx & Hszx).
  destruct (raw_node t rt Hrt) as (ct & Hart & Hct & _).
  pose proof (lookup_lt_Some _ _ _ Hrx) as Hx.
  pose proof (lookup_lt_Some _ _ _ Hrt) as Ht.
  pose proof (live_lt g sid SI Hsid) as Hsidlt.
  assert (Hne : st <> sid).
  { intros ->. rewrite Hns in Hstn. injection Hstn as <-. discriminate. }
  destruct (si_live _ _ _ SI st Hst) as (y & n1 & Hy & HMy & Hn1 & Hcst).
  assert (n1 = stn) by congruence. subst n1.
  assert (y = t) by (eapply (si_memo_inj _ _ _ SI); eauto). subst y.
  destruct (si_live _ _ _ SI sid Hsid) as (y & n1 & Hy' & HMy' & Hn1' & Hcsid).
  assert (n1 = LogicNode.copy rx) by congruence. subst n1.
  assert (y = x) by (eapply (si_memo_inj _ _ _ SI); eauto). subst y.
  pose proof Hcst as (Hhead & Hsz & Hsig & Hcnt & Hcell & Hlink & _ & Htg).
  destruct Hhead as (c0 & Hc0 & HA0 & _).
  assert (c0 = ct) by (eapply nodeOf_inj; eauto). subst c0.
  assert (HndA : NoDup (LogicNode.arrows stn)).
  { apply NoDup_alt. intros i j c Hi Hj.
    destruct (si_uniq _ _ _ SI st st stn stn i j c); auto. }
  assert (HcxA : ~ In cx (LogicNode.arrows stn)).
  { intros H. apply list_elem_of_In, list_elem_of_lookup in H as [j Hj].
    destruct (si_uniq _ _ _ SI sid st (LogicNode.copy rx) stn 0%nat j cx)
      as [E _]; auto.
    simpl. rewrite Harx. reflexivity. }
  assert (Hgx : heap g !! x = Some rx).
  { rewrite (si_raw _ _ _ SI) by exact Hx. exact Hrx. }
  destruct (fuse_exact g x sid st rx stn (LogicNode.copy rx) g5 Hgx Hstn Hns
              Hfuse) as (Hs5 & Hlen5 & Hoth5 & Hnodes5 & HM5 & Hch5).
  set (g6 := alterNode g5 sid (fun s => LogicNode.set_ready s true)).
  set (s6 := LogicNode.set_ready
               (LogicNode.push_targets
                  (LogicNode.push_arrows
                     (LogicNode.resize (LogicNode.copy rx)
                        (LogicNode.size rx + LogicNode.size stn))
                     (LogicNode.arrows stn))
                  (LogicNode.targets stn)) true).
  assert (Hs6 : heap g6 !! sid = Some s6).
  { unfold g6, alterNode. simpl. rewrite list_lookup_alter_eq, Hs5.
    reflexivity. }
  assert (Hoth6 : forall i, i <> sid -> heap g6 !! i = heap g !! i).
  { intros i Hi. unfold g6, alterNode. simpl.
    rewrite list_lookup_alter_ne by auto. apply Hoth5. exact Hi. }
  assert (Hlen6 : length (heap g6) = length (heap g)).
  { unfold g6, alterNode. simpl. rewrite length_alter. exact Hlen5. }
  assert (HM6 : simplifiedNodes g6 = simplifiedNodes g) by exact HM5.
  assert (Harr6 : LogicNode.arrows s6 = cx :: LogicNode.arrows stn).
  { unfold s6. simpl. rewrite Harx. reflexivity. }
  assert (Hch6 : chunks g6
            = fold_left (fun mm r => updateArrow mm r (addOffset 1))
                        (LogicNode.arrows stn) (chunks g)).
  { unfold g6, alterNode. simpl. rewrite Hch5, Hszx. reflexivity. }
  assert (Hoff_out : forall c, ~ In c (LogicNode.arrows stn) ->
            offsetOf (chunks g6) c = offsetOf (chunks g) c).
  { intros c Hc. rewrite Hch6. apply offsetOf_fold_out. exact Hc. }
  assert (Hoff_in : forall j c, LogicNode.arrows stn !! j = Some c ->
            offsetOf (chunks g6) c = S j).
  { intros j c Hj. destruct (Hcell j c Hj) as ((y & Hy1 & _) & Ho).
    rewrite Hch6, offsetOf_fold_in; [lia|exact HndA| |].
    - apply list_elem_of_In, list_elem_of_lookup. eauto.
    - eapply marked_arrowAt; eauto. }
  assert (Hlive6 : forall s, In s (nodes g6) <-> In s (nodes g) /\ s <> st).
  { intros s. unfold g6, alterNode. simpl. rewrite Hnodes5.
    apply In_set_delete. }
  assert (Hchain6 : chain m gr g6 x s6).
  { split; [|split; [|split; [|split; [|split; [|split; [|split]]]]]].
    - exists cx. split; [exact Hcx|]. split; [rewrite Harr6; reflexivity|].
      intros a Ha. unfold s6. simpl.
      exact (raw_medal cx x rx a Hcx Hrx Ha).
    - rewrite Harr6. unfold s6. simpl. rewrite Hszx, Hsz. reflexivity.
    - unfold s6. simpl. rewrite Hszx.
      change (replicate 1 false ++ replicate (1 + LogicNode.size stn) false)
        with (replicate (S (1 + LogicNode.size stn)) false).
      rewrite take_replicate. f_equal. lia.
    - reflexivity.
    - intros j c Hj. rewrite Harr6 in Hj. destruct j as [|j]; simpl in Hj.
      + injection Hj as <-. split.
        * exists x. split; [exact Hcx|]. rewrite HM6, HMx. eauto.
        * rewrite Hoff_out by exact HcxA.
          destruct Hcsid as (_ & _ & _ & _ & Hc & _).
          apply (Hc 0%nat cx). simpl. rewrite Harx. reflexivity.
      + split; [|apply Hoff_in; exact Hj].
        destruct (Hcell j c Hj) as (Hv & _). rewrite HM6. exact Hv.
    - intros j c c' Hj Hj'. rewrite Harr6 in Hj, Hj'.
      destruct j as [|j]; simpl in Hj, Hj'.
      + injection Hj as <-. assert (c' = ct) by congruence. subst c'.
        exact (raw_link cx x rx t rt ct Hcx Hrx Htx Hrt Hty Hsrc Hct).
      + eapply Hlink; eauto.
    - discriminate.
    - intros _ tl xt rt' Htl Hxt Hrt'. rewrite HM6.
      rewrite Harr6, last_cons in Htl.
      change (LogicNode.targets s6) with (LogicNode.targets stn).
      apply (Htg Hready tl xt rt'); [|exact Hxt|exact Hrt'].
      destruct (last (LogicNode.arrows stn)) as [z|] eqn:Hl; [exact Htl|].
      apply last_None in Hl. rewrite Hl in HA0. discriminate. }
  assert (Hlook : forall s n, In s (nodes g6) -> heap g6 !! s = Some n ->
            (s = sid /\ n = s6) \/ (s <> sid /\ s <> st /\ In s (nodes g)
                                    /\ heap g !! s = Some n)).
  { intros s n Hs Hn. apply Hlive6 in Hs as [Hs Hsst].
    destruct (decide (s = sid)) as [->|Hns6].
    - left. split; [reflexivity|congruence].
    - right. rewrite Hoth6 in Hn by exact Hns6. auto. }
  assert (Hother : forall s n j c, s <> st -> In s (nodes g) ->
            heap g !! s = Some n -> LogicNode.arrows n !! j = Some c ->
            ~ In c (LogicNode.arrows stn)).
  { intros s n j c Hsst Hs Hn Hj H.
    apply list_elem_of_In, list_elem_of_lookup in H as [j' Hj'].
    destruct (si_uniq _ _ _ SI s st n stn j j' c); auto. }
  constructor.
  - intros y Hyc. rewrite Hoth6 by lia. apply (si_raw _ _ _ SI). exact Hyc.
  - rewrite Hlen6. apply (si_len _ _ _ SI).
  - eapply grid_off_trans; [apply (si_grid _ _ _ SI)|].
    rewrite Hch6. apply grid_off_fold.
  - rewrite HM6, Hlen6. apply (si_memo_range _ _ _ SI).
  - rewrite HM6. apply (si_memo_inj _ _ _ SI).
  - rewrite HM6, Hlen6. apply (si_memo_dom _ _ _ SI).
  - unfold g6, alterNode. simpl. rewrite Hnodes5.
    apply NoDup_set_delete. apply (si_nodup _ _ _ SI).
  - intros s Hsc. pose proof Hsc as Hsc'. apply Hlive6 in Hsc' as [Hsc' Hsst].
    destruct (decide (s = sid)) as [->|Hns6].
    + exists x, s6. rewrite HM6. auto.
    + destruct (si_live _ _ _ SI s Hsc') as (y & n & Hyc & HMy2 & Hnc & Hc).
      exists y, n. rewrite HM6, Hoth6 by exact Hns6.
      split; [exact Hyc|]. split; [exact HMy2|]. split; [exact Hnc|].
      eapply chain_mono; [exact Hc| |].
      * intros z k. rewrite HM6. auto.
      * intros j c Hj. apply Hoff_out. eapply Hother; eauto.
  - intros y c Hyc. rewrite HM6. intros Hv.
    destruct (si_part _ _ _ SI y c Hyc Hv) as (s & n & j & Hsc & Hnc & Hj).
    destruct (decide (s = st)) as [->|Hsst].
    + assert (n = stn) by congruence. subst n.
      exists sid, s6, (S j). split; [apply Hlive6; auto|].
      split; [exact Hs6|]. rewrite Harr6. exact Hj.
    + destruct (decide (s = sid)) as [->|Hns6].
      * assert (n = LogicNode.copy rx) by congruence. subst n.
        simpl in Hj. rewrite Harx in Hj.
        apply list_lookup_singleton_Some in Hj as [-> <-].
        exists sid, s6, 0%nat. split; [apply Hlive6; auto|].
        split; [exact Hs6|]. rewrite Harr6. reflexivity.
      * exists s, n, j. split; [apply Hlive6; auto|].
        rewrite Hoth6 by exact Hns6. auto.
  - intros s s' n n' j j' c Hsc Hsc' Hnc Hnc' Hj Hj'.
    destruct (Hlook s n Hsc Hnc) as [[-> ->]|(H1 & H2 & H3 & H4)],
             (Hlook s' n' Hsc' Hnc') as [[-> ->]|(H1' & H2' & H3' & H4')].
    + split; [reflexivity|]. rewrite Harr6 in Hj, Hj'.
      destruct j as [|j], j' as [|j']; simpl in Hj, Hj'.
      * reflexivity.
      * exfalso. apply HcxA. injection Hj as <-.
        apply list_elem_of_In, list_elem_of_lookup. eauto.
      * exfalso. apply HcxA. injection Hj' as <-.
        apply list_elem_of_In, list_elem_of_lookup. eauto.
      * f_equal. apply (proj1 (NoDup_alt _) HndA j j' c Hj Hj').
    + exfalso. rewrite Harr6 in Hj. destruct j as [|j]; simpl in Hj.
      * injection Hj as <-.
        destruct (si_uniq _ _ _ SI sid s' (LogicNode.copy rx) n' 0%nat j' cx);
          auto.
        simpl. rewrite Harx. reflexivity.
      * eapply (Hother s' n' j' c); eauto.
        apply list_elem_of_In, list_elem_of_lookup. eauto.
    + exfalso. rewrite Harr6 in Hj'. destruct j' as [|j']; simpl in Hj'.
      * injection Hj' as <-.
        destruct (si_uniq _ _ _ SI sid s (LogicNode.copy rx) n 0%nat j cx);
          auto.
        simpl. rewrite Harx. reflexivity.
      * eapply (Hother s n j c); eauto.
        apply list_elem_of_In, list_elem_of_lookup. eauto.
    + eapply (si_uniq _ _ _ SI); eauto.
  - intros y s c Hyc. rewrite HM6. intros HMs Hdead.
    pose proof (nodeOf_lt gr c y Hwf Hyc) as Hylt.
    destruct (in_dec Nat.eq_dec s (nodes g)) as [Hin|Hout].
    + assert (s = st).
      { destruct (decide (s = st)) as [E|E]; [exact E|].
        exfalso. apply Hdead, Hlive6. auto. }
      subst s. assert (y = t) by (eapply (si_memo_inj _ _ _ SI); eauto).
      subst y. assert (c = ct) by (eapply nodeOf_inj; eauto). subst c.
      rewrite (Hoff_in 0%nat ct HA0). lia.
    + pose proof (si_dead _ _ _ SI y s c Hyc HMs Hout) as Hold.
      rewrite Hch6.
      pose proof (offsetOf_fold_le 1 (LogicNode.arrows stn) c (chunks g)
                    HndA). lia.
  - intros y c Hyc. rewrite HM6. intros Hnv.
    rewrite Hoff_out; [eapply (si_unvisited _ _ _ SI); eauto|].
    intros H. apply list_elem_of_In, list_elem_of_lookup in H as [j Hj].
    destruct (Hcell j c Hj) as ((y' & Hy1 & Hv) & _).
    assert (y' = y) by congruence. subst y'.
    rewrite Hnv in Hv. destruct Hv; discriminate.
Qed.

(** ** Simplification: what a call leaves alone *)

Lemma memo_le_refl g : memo_le g g.
Proof. intros y s H. exact H. Qed.

Lemma memo_le_trans g1 g2 g3 : memo_le g1 g2 -> memo_le g2 g3 -> memo_le g1 g3.
Proof. intros H1 H2 y s H. apply H2, H1, H. Qed.

Lemma simp_call_refl g : simp_call g g.
Proof.
  split; [apply memo_le_refl|]. split; [lia|]. split; [auto|].
  split; [auto|]. intros i Hi. lia.
Qed.

Lemma simp_call_step sid g g' : simp_call g g' -> simp_step sid g g'.
Proof.
  intros (H1 & H2 & H3 & H4 & H5). split; [exact H1|]. split; [exact H2|].
  split; [intros i Hi _; apply H3; exact Hi|].
  split; [intros s0 n0 _; apply H4|]. intros i Hi _. apply H5. exact Hi.
Qed.

Lemma simp_step_trans sid g1 g2 g3 :
  simp_step sid g1 g2 -> simp_step sid g2 g3 -> simp_step sid g1 g3.
Proof.
  intros (M1 & L1 & F1 & S1 & R1) (M2 & L2 & F2 & S2 & R2).
  split; [eapply memo_le_trans; eauto|]. split; [lia|].
  split; [|split].
  - intros i Hi Hne. rewrite F2 by (auto; lia). apply F1; auto.
  - intros s0 n0 Hne Hs0 Hn0 Hr. apply (S2 s0 n0 Hne).
    + eapply S1; eauto.
    + rewrite F1; [exact Hn0| |exact Hne].
      apply lookup_lt_Some in Hn0. exact Hn0.
    + exact Hr.
  - intros i Hi Hne.
    destruct (Nat.lt_ge_cases i (length (heap g2))) as [Hlt|Hge].
    + destruct (R1 i ltac:(lia) Hne) as (n & Hn & Hr).
      exists n. split; [|exact Hr]. rewrite F2; auto.
    + apply R2; [lia|exact Hne].
Qed.

Lemma simp_step_alter sid g f : simp_step sid g (alterNode g sid f).
Proof.
  unfold alterNode. split; [intros y s H; exact H|]. simpl.
  rewrite length_alter. split; [lia|]. split; [|split].
  - intros i _ Hne. apply list_lookup_alter_ne. auto.
  - auto.
  - intros i Hi. lia.
Qed.

Lemma simp_step_call g g' :
  simp_step (length (heap g)) g g' ->
  (forall n, heap g' !! length (heap g) = Some n -> LogicNode.ready n = true) ->
  simp_call g g'.
Proof.
  intros (H1 & H2 & H3 & H4 & H5) Hsid.
  split; [exact H1|]. split; [exact H2|]. split; [|split].
  - intros i Hi. apply H3; lia.
  - intros s0 n0 Hs0 Hn0. apply H4; [|exact Hs0|exact Hn0].
    apply lookup_lt_Some in Hn0. lia.
  - intros i Hi. destruct (decide (i = length (heap g))) as [->|Hne].
    + destruct (lookup_lt_is_Some_2 (heap g') (length (heap g))) as [n Hn];
        [lia|].
      exists n. split; [exact Hn|]. apply Hsid. exact Hn.
    + apply H5; auto.
Qed.

Lemma simp_step_enter g x rx :
  simp_inv m gr g ->
  memo_le g (simplifyNode_enter g x rx) ->
  simp_step (length (heap g)) g (simplifyNode_enter g x rx).
Proof.
  intros SI Hle. split; [exact Hle|].
  unfold simplifyNode_enter. simpl. rewrite length_app. simpl.
  split; [lia|]. split; [|split].
  - intros i Hi _. apply lookup_app_l. exact Hi.
  - intros s0 n0 _ Hs0 _ _. unfold set_add.
    destruct (existsb _ _); [exact Hs0|]. apply in_app_iff. auto.
  - intros i Hi Hne. lia.
Qed.

Lemma chain_push g x n l :
  chain m gr g x n -> LogicNode.ready n = false ->
  chain m gr g x (LogicNode.push_targets n l).
Proof.
  intros (H0 & Hsz & Hsig & Hcnt & Hcell & Hlink & Hnr & Hr) Hready.
  unfold chain. simpl. rewrite Hready.
  split; [exact H0|]. split; [exact Hsz|]. split; [exact Hsig|].
  split; [exact Hcnt|]. split; [exact Hcell|]. split; [exact Hlink|].
  split; [intros _; apply Hnr; exact Hready|discriminate].
Qed.

Lemma chain_set_ready g x rx n cx :
  chain m gr g x n -> heap gr !! x = Some rx ->
  LogicNode.arrows n = [cx] ->
  List.map Some (LogicNode.targets n)
  = List.map (fun y => simplifiedNodes g !! y) (LogicNode.targets rx) ->
  chain m gr g x (LogicNode.set_ready n true).
Proof.
  intros (H0 & Hsz & Hsig & Hcnt & Hcell & Hlink & Hnr & Hr) Hrx Harr Htg.
  unfold chain. simpl.
  split; [exact H0|]. split; [exact Hsz|]. split; [exact Hsig|].
  split; [exact Hcnt|]. split; [exact Hcell|]. split; [exact Hlink|].
  split; [discriminate|]. intros _ tl xt rt Htl Hxt Hrt.
  rewrite Harr in Htl. injection Htl as <-.
  destruct H0 as (c0 & Hc0 & Hc0' & _). rewrite Harr in Hc0'.
  injection Hc0' as <-.
  assert (xt = x) by congruence. subst xt.
  assert (rt = rx) by congruence. subst rt. exact Htg.
Qed.

(** ** Simplification: a call keeps the invariant *)

Lemma linkTargets_inv fuel sid x rx :
  (forall g y g' s, simplifyNode fuel g y = Some (g', s) ->
     (y < length (heap gr))%nat -> simp_inv m gr g ->
     simp_inv m gr g' /\ simp_call g g'
     /\ simplifiedNodes g' !! y = Some s) ->
  (x < length (heap gr))%nat ->
  forall ts g done g',
    linkTargets fuel sid ts (Some g) = Some g' ->
    (forall t, In t ts -> (t < length (heap gr))%nat) ->
    simp_inv m gr g -> In sid (nodes g) ->
    simplifiedNodes g !! x = Some sid ->
    (exists ns, heap g !! sid = Some ns
       /\ LogicNode.arrows ns = LogicNode.arrows rx
       /\ LogicNode.ready ns = false
       /\ List.map Some (LogicNode.targets ns)
          = List.map (fun y => simplifiedNodes g !! y) done) ->
    simp_inv m gr g' /\ simp_step sid g g' /\ In sid (nodes g')
    /\ exists ns', heap g' !! sid = Some ns'
       /\ LogicNode.arrows ns' = LogicNode.arrows rx
       /\ LogicNode.ready ns' = false
       /\ List.map Some (LogicNode.targets ns')
          = List.map (fun y => simplifiedNodes g' !! y) (done ++ ts).
Proof.
  intros IH Hx. induction ts as [|t ts IHts];
    intros g done g' H Hts SI Hsid HMx (ns & Hns & Harr & Hready & Htg).
  - injection H as <-. rewrite app_nil_r.
    split; [exact SI|]. split; [apply simp_call_step, simp_call_refl|].
    split; [exact Hsid|]. exists ns. auto.
  - unfold linkTargets in H. cbn [fold_left] in H.
    destruct (simplifyNode fuel g t) as [[g1 st]|] eqn:E.
    2:{ fold (linkTargets fuel sid ts None) in H.
        rewrite linkTargets_None in H. discriminate. }
    fold (linkTargets fuel sid ts (Some (linkTarget sid g1 st))) in H.
    destruct (IH g t g1 st E (Hts t (or_introl eq_refl)) SI)
      as (SI1 & Hcall & HMt).
    pose proof Hcall as (M1 & L1 & F1 & S1 & R1).
    pose proof (lookup_lt_Some _ _ _ Hns) as Hlt.
    assert (Hns1 : heap g1 !! sid = Some ns) by (rewrite F1; auto).
    assert (Hsid1 : In sid (nodes g1)) by (eapply S1; eauto).
    assert (HMx1 : simplifiedNodes g1 !! x = Some sid) by (apply M1, HMx).
    destruct (si_live _ _ _ SI1 sid Hsid1) as (y & n' & Hy & HMy & Hn' & Hch).
    assert (n' = ns) by congruence. subst n'.
    assert (y = x) by (eapply (si_memo_inj _ _ _ SI1); eauto). subst y.
    assert (SI2 : simp_inv m gr (linkTarget sid g1 st)).
    { unfold linkTarget.
      apply (simp_inv_alter g1 sid _ x ns SI1 Hsid1 HMx1 Hx Hns1);
        [reflexivity|].
      apply chain_push; assumption. }
    destruct (IHts (linkTarget sid g1 st) (done ++ [t]) g' H) as
      (SI' & Hstep & Hsid' & ns' & Hns' & Harr' & Hready' & Htg'); auto.
    { intros t' Ht'. apply Hts. right. exact Ht'. }
    { exists (LogicNode.push_targets ns [st]).
      split; [|split; [exact Harr|split; [exact Hready|]]].
      - unfold linkTarget, alterNode. simpl.
        rewrite list_lookup_alter_eq, Hns1. reflexivity.
      - simpl. rewrite !map_app. cbn [List.map]. rewrite HMt. f_equal.
        apply (map_memo_le g g1); assumption. }
    split; [exact SI'|]. split; [|split; [exact Hsid'|]].
    + eapply simp_step_trans; [apply simp_call_step; exact Hcall|].
      eapply simp_step_trans; [|exact Hstep].
      apply simp_step_alter.
    + exists ns'. rewrite <- app_assoc in Htg'. auto.
Qed.

Lemma simp_step_fuse g nd sid st n stn s g5 f :
  heap g !! nd = Some n -> heap g !! st = Some stn ->
  heap g !! sid = Some s -> LogicNode.ready stn = true ->
  fuse g nd sid st = Some g5 ->
  simp_step sid g (alterNode g5 sid f).
Proof.
  intros Hn Hstn Hs Hready Hfuse.
  destruct (fuse_exact g nd sid st n stn s g5 Hn Hstn Hs Hfuse)
    as (Hs5 & Hlen5 & Hoth5 & Hnodes5 & HM5 & Hch5).
  split; [|split; [|split; [|split]]].
  - intros y k. unfold alterNode. simpl. rewrite HM5. auto.
  - unfold alterNode. simpl. rewrite length_alter. lia.
  - intros i _ Hne. unfold alterNode. simpl.
    rewrite list_lookup_alter_ne by auto. apply Hoth5. exact Hne.
  - intros s0 n0 Hne Hs0 Hn0 Hr. unfold alterNode. simpl. rewrite Hnodes5.
    apply In_set_delete. split; [exact Hs0|]. intros ->. congruence.
  - intros i Hi. unfold alterNode in Hi. simpl in Hi.
    rewrite length_alter in Hi. lia.
Qed.

Lemma simplifyNode_inv fuel : forall g x g' s,
  simplifyNode fuel g x = Some (g', s) ->
  (x < length (heap gr))%nat -> simp_inv m gr g ->
  simp_inv m gr g' /\ simp_call g g' /\ simplifiedNodes g' !! x = Some s.
Proof.
  induction fuel as [|fuel IH]; intros g x g' s H Hx SI; [discriminate|].
  cbn [simplifyNode] in H.
  destruct (simplifiedNodes g !! x) as [e|] eqn:HMx.
  { injection H as <- <-. split; [exact SI|].
    split; [apply simp_call_refl|exact HMx]. }
  rewrite (si_raw _ _ _ SI x Hx) in H.
  destruct (heap gr !! x) as [rx|] eqn:Hrx; [|discriminate].
  destruct (simp_inv_enter g x rx SI HMx Hrx) as [SI3 Hle3].
  pose proof (simp_step_enter g x rx SI Hle3) as Hstep3.
  pose proof (si_len _ _ _ SI) as HN.
  assert (Hsid3 : In (length (heap g)) (nodes (simplifyNode_enter g x rx))).
  { unfold simplifyNode_enter. simpl. unfold set_add.
    destruct (existsb _ _) eqn:Hex.
    - apply existsb_exists in Hex as (k & Hk & Hek).
      apply Nat.eqb_eq in Hek. subst k. exact Hk.
    - apply in_app_iff. right. left. reflexivity. }
  assert (Hns3 : heap (simplifyNode_enter g x rx) !! length (heap g)
                 = Some (LogicNode.copy rx)).
  { unfold simplifyNode_enter. simpl. apply list_lookup_middle. reflexivity. }
  assert (HMx3 : simplifiedNodes (simplifyNode_enter g x rx) !! x
                 = Some (length (heap g))).
  { unfold simplifyNode_enter. simpl. rewrite lookup_insert_ne by lia.
    apply lookup_insert_eq. }
  set (g3 := simplifyNode_enter g x rx) in *.
  set (sid := length (heap g)) in *.
  destruct (raw_node x rx Hrx) as (cx & Harx & Hcx & Hszx).
  assert (Hts : forall t, In t (LogicNode.targets rx) ->
            (t < length (heap gr))%nat).
  { intros t Ht. destruct Hwf as (_ & _ & _ & R4). eapply R4; eauto. }
  match type of H with
  | match ?linked with _ => _ end = _ =>
    destruct linked as [g5|] eqn:Hlinked; [|discriminate]
  end.
  injection H as <- <-.
  assert (Hdone : forall g6,
            simp_inv m gr g6 -> simp_step sid g3 g6 ->
            (forall n, heap g6 !! sid = Some n -> LogicNode.ready n = true) ->
            simp_inv m gr g6 /\ simp_call g g6
            /\ simplifiedNodes g6 !! x = Some sid).
  { intros g6 SI6 Hstep6 Hr6. split; [exact SI6|]. split.
    - apply simp_step_call; [|exact Hr6].
      eapply simp_step_trans; eauto.
    - apply (proj1 Hstep6). exact HMx3. }
  assert (Hset : forall (g0 : Game) n,
            heap (alterNode g0 sid (fun s => LogicNode.set_ready s true))
              !! sid = Some n -> LogicNode.ready n = true).
  { intros g0 n. unfold alterNode. simpl. rewrite list_lookup_alter_eq.
    destruct (heap g0 !! sid); simpl; [|discriminate].
    intros [= <-]. reflexivity. }
  assert (Hgen : linkTargets fuel sid (LogicNode.targets rx) (Some g3)
                 = Some g5 ->
            simp_inv m gr
              (alterNode g5 sid (fun s => LogicNode.set_ready s true))
            /\ simp_call g
                 (alterNode g5 sid (fun s => LogicNode.set_ready s true))
            /\ simplifiedNodes
                 (alterNode g5 sid (fun s => LogicNode.set_ready s true))
               !! x = Some sid).
  { intros Hlt.
    destruct (linkTargets_inv fuel sid x rx IH Hx (LogicNode.targets rx)
                g3 [] g5 Hlt Hts SI3 Hsid3 HMx3)
      as (SI5 & Hstep5 & Hsid5 & ns & Hns & Harr & Hready & Htg).
    { exists (LogicNode.copy rx). auto. }
    assert (HMx5 : simplifiedNodes g5 !! x = Some sid)
      by (apply (proj1 Hstep5); exact HMx3).
    destruct (si_live _ _ _ SI5 sid Hsid5) as (y & n' & Hy & HMy & Hn' & Hch).
    assert (n' = ns) by congruence. subst n'.
    assert (y = x) by (eapply (si_memo_inj _ _ _ SI5); eauto). subst y.
    apply Hdone; [| |apply Hset].
    - apply (simp_inv_alter g5 sid _ x ns SI5 Hsid5 HMx5 Hx Hns);
        [reflexivity|].
      apply (chain_set_ready g5 x rx ns cx Hch Hrx); [congruence|exact Htg].
    - eapply simp_step_trans; [exact Hstep5|apply simp_step_alter]. }
  destruct (LogicNode.targets rx) as [|t [|t2 ts]] eqn:Htx.
  - apply Hgen. exact Hlinked.
  - destruct (simplifyNode fuel g3 t) as [[g4 st]|] eqn:E; [|discriminate].
    pose proof (Hts t (or_introl eq_refl)) as Ht.
    destruct (IH g3 t g4 st E Ht SI3) as (SI4 & Hcall & HMt).
    unfold fuseOrLink in Hlinked.
    rewrite (si_raw _ _ _ SI4 t Ht) in Hlinked.
    destruct (heap gr !! t) as [rt|] eqn:Hrt; [|discriminate].
    destruct (heap g4 !! st) as [stn|] eqn:Hstn; [|discriminate].
    destruct (fusable rt stn) eqn:Hfus.
    + apply fusable_iff in Hfus as (Hty & Hsrc & Hready).
      pose proof Hcall as (M4 & L4 & F4 & S4 & R4).
      assert (Hlt3 : (sid < length (heap g3))%nat)
        by (apply lookup_lt_Some in Hns3; exact Hns3).
      assert (Hns4 : heap g4 !! sid = Some (LogicNode.copy rx))
        by (rewrite F4; auto).
      assert (Hsid4 : In sid (nodes g4)) by (eapply S4; eauto).
      assert (HMx4 : simplifiedNodes g4 !! x = Some sid) by (apply M4, HMx3).
      assert (Hgx4 : heap g4 !! x = Some rx).
      { rewrite (si_raw _ _ _ SI4) by exact Hx. exact Hrx. }
      apply Hdone; [| |apply Hset].
      * apply (simp_inv_fuse g4 x rx t rt sid st stn g5); auto.
      * eapply simp_step_trans; [apply simp_call_step; exact Hcall|].
        exact (simp_step_fuse g4 x sid st rx stn (LogicNode.copy rx) g5 _
                 Hgx4 Hstn Hns4 Hready Hlinked).
    + apply Hgen. injection Hlinked as <-.
      unfold linkTargets. cbn [fold_left]. rewrite E. reflexivity.
  - apply Hgen. exact Hlinked.
Qed.

(** ** Simplification: [simplifyNode] returns *)

Lemma filter_length_mono {A : Type} (p q : A -> bool) (l : list A) :
  (forall x, p x = true -> q x = true) ->
  (length (List.filter p l) <= length (List.filter q l))%nat.
Proof.
  intros H. induction l as [|y l IH]; simpl; [lia|].
  destruct (p y) eqn:E.
  - rewrite (H y E). simpl. lia.
  - destruct (q y); simpl; lia.
Qed.

Lemma filter_length_mono_lt {A : Type} (p q : A -> bool) (l : list A) x :
  (forall x, p x = true -> q x = true) ->
  In x l -> q x = true -> p x = false ->
  (S (length (List.filter p l)) <= length (List.filter q l))%nat.
Proof.
  intros H Hin Hq Hp. induction l as [|y l IH]; simpl; [destruct Hin|].
  destruct Hin as [->|Hin].
  - rewrite Hq, Hp. simpl. pose proof (filter_length_mono p q l H). lia.
  - specialize (IH Hin). destruct (p y) eqn:E.
    + rewrite (H y E). simpl. lia.
    + destruct (q y); simpl; lia.
Qed.

Lemma is_unvisited_le g g' y :
  memo_le g g' -> is_unvisited g' y = true -> is_unvisited g y = true.
Proof.
  intros H. unfold is_unvisited.
  destruct (simplifiedNodes g !! y) as [s|] eqn:E; [|reflexivity].
  rewrite (H y s E). discriminate.
Qed.

Lemma unvisited_le k g g' :
  memo_le g g' -> (unvisited k g' <= unvisited k g)%nat.
Proof.
  intros H. apply filter_length_mono. intros y. apply is_unvisited_le, H.
Qed.

Lemma unvisited_visit k g g' x :
  memo_le g g' -> (x < k)%nat -> simplifiedNodes g !! x = None ->
  is_Some (simplifiedNodes g' !! x) ->
  (S (unvisited k g') <= unvisited k g)%nat.
Proof.
  intros H Hx Hn [s Hs]. apply (filter_length_mono_lt _ _ _ x).
  - intros y. apply is_unvisited_le, H.
  - apply in_seq. lia.
  - unfold is_unvisited. rewrite Hn. reflexivity.
  - unfold is_unvisited. rewrite Hs. reflexivity.
Qed.

Lemma linkTargets_total f sid x rx :
  (forall g y, simp_inv m gr g -> (y < length (heap gr))%nat ->
     (unvisited (length (heap gr)) g <= f)%nat ->
     exists g' s, simplifyNode (S f) g y = Some (g', s)) ->
  (x < length (heap gr))%nat ->
  forall ts g done,
    (forall t, In t ts -> (t < length (heap gr))%nat) ->
    simp_inv m gr g -> (unvisited (length (heap gr)) g <= f)%nat ->
    In sid (nodes g) -> simplifiedNodes g !! x = Some sid ->
    (exists ns, heap g !! sid = Some ns
       /\ LogicNode.arrows ns = LogicNode.arrows rx
       /\ LogicNode.ready ns = false
       /\ List.map Some (LogicNode.targets ns)
          = List.map (fun y => simplifiedNodes g !! y) done) ->
    exists g', linkTargets (S f) sid ts (Some g) = Some g'.
Proof.
  intros IH Hx. induction ts as [|t ts IHts];
    intros g done Hts SI Hcount Hsid HMx Hns.
  - exists g. reflexivity.
  - destruct (IH g t SI (Hts t (or_introl eq_refl)) Hcount)
      as (g1 & st & E).
    assert (Hone : linkTargets (S f) sid [t] (Some g)
                   = Some (linkTarget sid g1 st)).
    { unfold linkTargets. cbn [fold_left]. rewrite E. reflexivity. }
    destruct (linkTargets_inv (S f) sid x rx (simplifyNode_inv (S f)) Hx
                [t] g done _ Hone) as (SI2 & Hstep & Hsid2 & Hns2); auto.
    { intros t' [<-|[]]. apply Hts. left. reflexivity. }
    destruct (IHts (linkTarget sid g1 st) (done ++ [t])) as [g' Hg']; auto.
    + intros t' Ht'. apply Hts. right. exact Ht'.
    + pose proof (unvisited_le (length (heap gr)) g _ (proj1 Hstep)). lia.
    + apply (proj1 Hstep). exact HMx.
    + exists g'. unfold linkTargets. cbn [fold_left]. rewrite E. exact Hg'.
Qed.

Lemma simplifyNode_unfold fuel g nd :
  simplifyNode (S fuel) g nd
  = match simplifiedNodes g !! nd with
    | Some existing => Some (g, existing)
    | None =>
      match heap g !! nd with
      | None => None
      | Some n =>
        let simplified := length (heap g) in
        let g3 := simplifyNode_enter g nd n in
        let linked :=
          match LogicNode.targets n with
          | [target] =>
            match simplifyNode fuel g3 target with
            | None => None
            | Some (g4, simplifiedTarget) =>
              fuseOrLink g4 nd simplified target simplifiedTarget
            end
          | ts => linkTargets fuel simplified ts (Some g3)
          end in
        match linked with
        | None => None
        | Some g5 =>
          Some (alterNode g5 simplified (fun s => LogicNode.set_ready s true),
                simplified)
        end
      end
    end.
Proof. reflexivity. Qed.

Lemma simplifyNode_total f : forall g x,
  simp_inv m gr g -> (x < length (heap gr))%nat ->
  (unvisited (length (heap gr)) g <= f)%nat ->
  exists g' s, simplifyNode (S f) g x = Some (g', s).
Proof.
  induction f as [|f IH]; intros g x SI Hx Hcount.
  - cbn [simplifyNode].
    destruct (simplifiedNodes g !! x) as [e|] eqn:HMx; [eauto|].
    exfalso.
    destruct (lookup_lt_is_Some_2 (heap gr) x Hx) as [rx Hrx].
    destruct (simp_inv_enter g x rx SI HMx Hrx) as [SI3 Hle3].
    pose proof (unvisited_visit (length (heap gr)) g _ x Hle3 Hx HMx) as Hv.
    assert (Hs : is_Some (simplifiedNodes (simplifyNode_enter g x rx) !! x)).
    { unfold simplifyNode_enter. simpl.
      pose proof (si_len _ _ _ SI).
      rewrite lookup_insert_ne by lia. rewrite lookup_insert_eq. eauto. }
    specialize (Hv Hs). lia.
  - rewrite simplifyNode_unfold.
    destruct (simplifiedNodes g !! x) as [e|] eqn:HMx; [eauto|].
    rewrite (si_raw _ _ _ SI x Hx).
    destruct (lookup_lt_is_Some_2 (heap gr) x Hx) as [rx Hrx]. rewrite Hrx.
    cbn zeta.
    destruct (simp_inv_enter g x rx SI HMx Hrx) as [SI3 Hle3].
    pose proof (si_len _ _ _ SI) as HN.
    assert (Hsid3 : In (length (heap g)) (nodes (simplifyNode_enter g x rx))).
    { unfold simplifyNode_enter. simpl. unfold set_add.
      destruct (existsb _ _) eqn:Hex.
      - apply existsb_exists in Hex as (k & Hk & Hek).
        apply Nat.eqb_eq in Hek. subst k. exact Hk.
      - apply in_app_iff. right. left. reflexivity. }
    assert (Hns3 : heap (simplifyNode_enter g x rx) !! length (heap g)
                   = Some (LogicNode.copy rx)).
    { unfold simplifyNode_enter. simpl. apply list_lookup_middle.
      reflexivity. }
    assert (HMx3 : simplifiedNodes (simplifyNode_enter g x rx) !! x
                   = Some (length (heap g))).
    { unfold simplifyNode_enter. simpl. rewrite lookup_insert_ne by lia.
      apply lookup_insert_eq. }
    assert (Hc3 : (unvisited (length (heap gr)) (simplifyNode_enter g x rx)
                   <= f)%nat).
    { pose proof (unvisited_visit (length (heap gr)) g _ x Hle3 Hx HMx
                    ltac:(rewrite HMx3; eauto)). lia. }
    set (g3 := simplifyNode_enter g x rx) in *.
    set (sid := length (heap g)) in *.
    assert (Hts : forall t, In t (LogicNode.targets rx) ->
              (t < length (heap gr))%nat).
    { intros t Ht. destruct Hwf as (_ & _ & _ & R4). eapply R4; eauto. }
    assert (Hgen : exists g5,
              linkTargets (S f) sid (LogicNode.targets rx) (Some g3)
              = Some g5).
    { apply (linkTargets_total f sid x rx IH Hx _ g3 []); auto.
      exists (LogicNode.copy rx). auto. }
    destruct (LogicNode.targets rx) as [|t [|t2 ts]] eqn:Htx.
    + destruct Hgen as [g5 Hg5]. rewrite Hg5. eauto.
    + pose proof (Hts t (or_introl eq_refl)) as Ht.
      destruct (IH g3 t SI3 Ht Hc3) as (g4 & st & E). rewrite E.
      destruct (simplifyNode_inv (S f) g3 t g4 st E Ht SI3)
        as (SI4 & Hcall & HMt).
      unfold fuseOrLink. rewrite (si_raw _ _ _ SI4 t Ht).
      destruct (lookup_lt_is_Some_2 (heap gr) t Ht) as [rt Hrt]. rewrite Hrt.
      destruct (lookup_lt_is_Some_2 (heap g4) st) as [stn Hstn].
      { apply (si_memo_range _ _ _ SI4 t st Ht HMt). }
      rewrite Hstn. destruct (fusable rt stn).
      * unfold fuse. rewrite (si_raw _ _ _ SI4 x Hx), Hrx, Hstn. eauto.
      * eauto.
    + destruct Hgen as [g5 Hg5]. rewrite Hg5. eauto.
Qed.

(** ** Simplification: the loop over the cells *)

Lemma simp_inv_init :
  nodes gr = [] -> simp_inv m gr (set_simplifiedNodes gr ∅).
Proof.
  intros Hnodes. constructor; simpl.
  - reflexivity.
  - lia.
  - apply grid_off_refl.
  - intros x s _ H. rewrite lookup_empty in H. discriminate.
  - intros x x' s _ _ H. rewrite lookup_empty in H. discriminate.
  - intros y [s H]. rewrite lookup_empty in H. discriminate.
  - rewrite Hnodes. constructor.
  - rewrite Hnodes. intros s [].
  - intros y c _ [s H]. rewrite lookup_empty in H. discriminate.
  - rewrite Hnodes. intros s s' n n' j j' c [].
  - intros y s c _ H. rewrite lookup_empty in H. discriminate.
  - intros y c Hy _.
    destruct (raw_cell c y Hy) as (a & ry & Ha & _ & _ & Ho & _).
    unfold offsetOf. rewrite Ha. exact Ho.
Qed.

Lemma unvisited_bound k g : (unvisited k g <= k)%nat.
Proof.
  unfold unvisited.
  pose proof (List.filter_length_le (is_unvisited g) (seq 0 k)) as H.
  rewrite length_seq in H. exact H.
Qed.

Lemma simplifyCells_None fuel l : simplifyCells fuel l None = None.
Proof. induction l as [|r l IH]; [reflexivity|exact IH]. Qed.

Lemma simplifyCells_inv fuel l : forall g,
  (length (heap gr) < fuel)%nat ->
  (forall r, In r l -> is_Some (chunks gr !! fst r)) ->
  simp_inv m gr g -> all_ready gr g ->
  exists g', simplifyCells fuel l (Some g) = Some g'
    /\ simp_inv m gr g' /\ all_ready gr g' /\ memo_le g g'
    /\ (forall r y, In r l -> nodeOf (chunks gr) r = Some y ->
          is_Some (simplifiedNodes g' !! y)).
Proof.
  induction l as [|r l IH]; intros g Hfuel Hl SI Hready.
  - exists g. split; [reflexivity|]. split; [exact SI|].
    split; [exact Hready|]. split; [apply memo_le_refl|]. intros r y [].
  - unfold simplifyCells. cbn [fold_left].
    destruct (Hl r (or_introl eq_refl)) as [ch Hch].
    assert (Hs : is_Some (arrowAt (chunks gr) r)).
    { apply arrowAt_is_Some. eauto. }
    destruct Hs as [a Ha].
    destruct (proj2 (si_grid _ _ _ SI) r a Ha) as (a' & Ha' & _ & Hnode & _).
    rewrite Ha', Hnode, (proj2 Hrange r a Ha).
    assert (Hl' : forall r', In r' l -> is_Some (chunks gr !! fst r')).
    { intros r' Hr'. apply Hl. right. exact Hr'. }
    destruct (originalNode a) as [nd|] eqn:Ho.
    + assert (Hnd : nodeOf (chunks gr) r = Some nd).
      { unfold nodeOf. rewrite Ha. exact Ho. }
      pose proof (nodeOf_lt gr r nd Hwf Hnd) as Hlt.
      destruct fuel as [|f]; [lia|].
      destruct (simplifyNode_total f g nd SI Hlt) as (g1 & s & E).
      { pose proof (unvisited_bound (length (heap gr)) g). lia. }
      rewrite E.
      destruct (simplifyNode_inv (S f) g nd g1 s E Hlt SI)
        as (SI1 & (M1 & L1 & F1 & S1 & R1) & HMs).
      destruct (IH g1 Hfuel Hl' SI1) as (g' & Hg' & SI' & Hr' & Hle' & Hv').
      { intros i n Hi Hn.
        destruct (Nat.lt_ge_cases i (length (heap g))) as [Hlt'|Hge].
        - rewrite F1 in Hn by exact Hlt'. eapply Hready; eauto.
        - destruct (R1 i) as (n' & Hn' & Hrn').
          { apply lookup_lt_Some in Hn. lia. }
          congruence. }
      exists g'. split; [exact Hg'|]. split; [exact SI'|].
      split; [exact Hr'|]. split; [eapply memo_le_trans; eauto|].
      intros r' y [<-|Hin] Hy; [|eapply Hv'; eauto].
      assert (y = nd) by congruence. subst y.
      exists s. apply Hle'. exact HMs.
    + destruct (IH g Hfuel Hl' SI Hready)
        as (g' & Hg' & SI' & Hr' & Hle' & Hv').
      exists g'. split; [exact Hg'|]. split; [exact SI'|].
      split; [exact Hr'|]. split; [exact Hle'|].
      intros r' y [<-|Hin] Hy; [|eapply Hv'; eauto].
      unfold nodeOf in Hy. rewrite Ha in Hy. congruence.
Qed.

(** ** Simplification: the live nodes at the end *)

Lemma simp_inv_live_ok g :
  simp_inv m gr g -> all_ready gr g ->
  (forall c y, nodeOf (chunks gr) c = Some y ->
     is_Some (simplifiedNodes g !! y)) ->
  live_ok m g.
Proof.
  intros SI Hready Hvis. split; [apply (si_nodup _ _ _ SI)|].
  split; [|split].
  - intros s Hs.
    destruct (si_live _ _ _ SI s Hs) as (x & n & Hx & HMx & Hn & Hch).
    exists n. split; [exact Hn|].
    pose proof Hch as (Hhead & Hsz & Hsig & Hcnt & Hcell & Hlink & _ & Htg).
    destruct Hhead as (c0 & Hc0 & Hc0' & Hty).
    split; [rewrite Hsig, length_replicate; exact Hsz|].
    split; [intros E; rewrite E in Hc0'; discriminate|].
    split; [rewrite Hsig; apply Forall_replicate; reflexivity|].
    split; [exact Hcnt|]. split; [|split; [|split; [exact Hlink|]]].
    + intros j c Hj. destruct (Hcell j c Hj) as ((y & Hy & _) & Ho).
      destruct (raw_cell_of c y Hy) as (a0 & _ & Hc & _).
      split; [eauto|]. split; [exact Ho|]. eapply marked_arrowAt; eauto.
    + intros c a Hc Ha. assert (c = c0) by congruence. subst c.
      apply Hty. exact Ha.
    + intros t nt h tl Ht Hnt Hh Htl.
      destruct (si_live _ _ _ SI t Ht) as (xt & nt' & Hxt & HMt & Hnt' & Hcht).
      assert (nt' = nt) by congruence. subst nt'.
      destruct Hcht as ((h0 & Hh0 & Hh0' & _) & _).
      assert (h0 = h) by congruence. subst h0.
      assert (Hr : LogicNode.ready n = true).
      { apply (Hready s n); [|exact Hn].
        apply (si_memo_range _ _ _ SI x s Hx HMx). }
      rewrite last_lookup in Htl.
      destruct (Hcell _ tl Htl) as ((y & Hy & _) & _).
      destruct (raw_cell tl y Hy) as (_ & ry & _ & _ & _ & _ & Hry & _).
      rewrite <- last_lookup in Htl.
      specialize (Htg Hr tl y ry Htl Hy Hry).
      rewrite <- (raw_count h xt tl y ry Hh0 Hy Hry).
      rewrite !count_occ_filter.
      apply (count_filter_map (fun z => simplifiedNodes g !! z)); [exact Htg|].
      intros a b Ha Hab.
      assert (Halt : (a < length (heap gr))%nat).
      { destruct Hwf as (_ & _ & _ & R4). eapply R4; eauto. }
      destruct (Nat.eqb_spec t b) as [<-|Hne].
      * rewrite (si_memo_inj _ _ _ SI a xt t Halt Hxt Hab HMt).
        symmetry. apply Nat.eqb_refl.
      * symmetry. apply Nat.eqb_neq. intros ->. congruence.
  - intros s s' n n' j j' c Hs Hs' Hn Hn' Hj Hj'.
    destruct (si_uniq _ _ _ SI s s' n n' j j' c); auto.
  - intros c a Hc.
    destruct (nodeOf (chunks gr) c) as [y|] eqn:Hy;
      [|exfalso; exact (Hall c a Hc Hy)].
    destruct (si_part _ _ _ SI y c Hy (Hvis c y Hy))
      as (s & n & j & Hs & Hn & Hj).
    exists s, j, n. auto.
Qed.

(** ** Simplification: pointing the cells at their nodes *)

Lemma src_only_refl n : src_only n n.
Proof. unfold src_only. auto. Qed.

Lemma src_only_trans a b c : src_only a b -> src_only b c -> src_only a c.
Proof.
  intros (A1 & B1 & C1 & D1 & E1) (A2 & B2 & C2 & D2 & E2).
  unfold src_only. repeat split; congruence.
Qed.

Lemma relinked_refl g : relinked g g.
Proof.
  split; [reflexivity|]. split; [|split; [reflexivity|tauto]].
  intros i n Hn. exists n. split; [exact Hn|apply src_only_refl].
Qed.

Lemma relinked_trans g1 g2 g3 :
  relinked g1 g2 -> relinked g2 g3 -> relinked g1 g3.
Proof.
  intros (N1 & H1 & O1 & D1) (N2 & H2 & O2 & D2).
  split; [congruence|]. split; [|split].
  - intros i n Hn. destruct (H1 i n Hn) as (n' & Hn' & S1).
    destruct (H2 i n' Hn') as (n'' & Hn'' & S2).
    exists n''. split; [exact Hn''|eapply src_only_trans; eauto].
  - intros c. rewrite O2. apply O1.
  - intros c. rewrite D2. apply D1.
Qed.

Lemma fold_setNode s l : forall mm c,
  arrowAt (fold_left (fun m' r' => updateArrow m' r' (setNode s)) l mm) c
  = if bool_decide (c ∈ l) then setNode s <$> arrowAt mm c
    else arrowAt mm c.
Proof.
  induction l as [|r l IH]; intros mm c; cbn [fold_left].
  - rewrite bool_decide_eq_false_2 by apply not_elem_of_nil. reflexivity.
  - rewrite IH, arrowAt_updateArrow.
    destruct (decide (r = c)) as [->|Hne].
    + rewrite (bool_decide_eq_true_2 (c ∈ c :: l))
        by (apply elem_of_cons; auto).
      destruct (bool_decide (c ∈ l)); [|reflexivity].
      destruct (arrowAt mm c); reflexivity.
    + destruct (bool_decide (c ∈ l)) eqn:E.
      * apply bool_decide_eq_true_1 in E.
        rewrite bool_decide_eq_true_2 by (apply elem_of_cons; auto).
        reflexivity.
      * apply bool_decide_eq_false_1 in E.
        rewrite bool_decide_eq_false_2; [reflexivity|].
        intros [->|H]%elem_of_cons; auto.
Qed.

Lemma fold_push_sources s l : forall g,
  relinked g
    (fold_left (fun g' target =>
                  alterNode g' target
                    (fun n => LogicNode.push_sources n [s])) l g)
  /\ chunks (fold_left (fun g' target =>
                          alterNode g' target
                            (fun n => LogicNode.push_sources n [s])) l g)
     = chunks g.
Proof.
  induction l as [|t l IH]; intros g; cbn [fold_left].
  - split; [apply relinked_refl|reflexivity].
  - destruct (IH (alterNode g t (fun n => LogicNode.push_sources n [s])))
      as [R C].
    split; [|rewrite C; reflexivity].
    eapply relinked_trans; [|exact R].
    split; [reflexivity|]. split; [|split; [reflexivity|tauto]].
    intros i n Hn. unfold alterNode. simpl.
    destruct (decide (t = i)) as [->|Hne].
    + rewrite list_lookup_alter_eq, Hn. simpl. eexists.
      split; [reflexivity|]. unfold src_only. simpl. auto.
    + rewrite list_lookup_alter_ne by exact Hne.
      exists n. split; [exact Hn|apply src_only_refl].
Qed.

Lemma relink_spec g s n :
  heap g !! s = Some n ->
  relinked g (relink g s)
  /\ (forall c, In c (LogicNode.arrows n) ->
        is_Some (arrowAt (chunks g) c) ->
        nodeAt (chunks (relink g s)) c = Some s)
  /\ (forall c, ~ In c (LogicNode.arrows n) ->
        nodeAt (chunks (relink g s)) c = nodeAt (chunks g) c).
Proof.
  intros Hn. unfold relink. rewrite Hn.
  set (g1 := fold_left (fun g' r => alterArrow g' r (setNode s))
                       (LogicNode.arrows n) g).
  destruct (fold_push_sources s (LogicNode.targets n) g1) as [R C].
  destruct (fold_alterArrow_fields (setNode s) (LogicNode.arrows n) g)
    as (Hh & Hnd & _ & Hc).
  fold g1 in Hh, Hnd, Hc.
  assert (Harrow : forall c,
            arrowAt (chunks g1) c
            = if bool_decide (c ∈ LogicNode.arrows n)
              then setNode s <$> arrowAt (chunks g) c
              else arrowAt (chunks g) c).
  { intros c. rewrite Hc. apply fold_setNode. }
  split; [|split].
  - eapply relinked_trans; [|exact R].
    split; [exact Hnd|]. split; [|split].
    + intros i k Hk. rewrite Hh. exists k.
      split; [exact Hk|apply src_only_refl].
    + intros c. unfold offsetOf. rewrite Harrow.
      destruct (bool_decide _); [|reflexivity].
      destruct (arrowAt (chunks g) c); reflexivity.
    + intros c. rewrite Harrow. destruct (bool_decide _); [|tauto].
      rewrite fmap_is_Some. tauto.
  - intros c Hin [a Ha]. rewrite C. unfold nodeAt. rewrite Harrow.
    rewrite bool_decide_eq_true_2 by (apply list_elem_of_In; exact Hin).
    rewrite Ha. reflexivity.
  - intros c Hout. rewrite C. unfold nodeAt. rewrite Harrow.
    rewrite bool_decide_eq_false_2; [reflexivity|].
    intros H. apply Hout, list_elem_of_In, H.
Qed.

Lemma relink_fold g0 l : forall g,
  relinked g0 g -> NoDup l ->
  (forall s, In s l -> is_Some (heap g0 !! s)) ->
  (forall s s' n n' c, In s l -> In s' l ->
     heap g0 !! s = Some n -> heap g0 !! s' = Some n' ->
     In c (LogicNode.arrows n) -> In c (LogicNode.arrows n') -> s = s') ->
  relinked g0 (fold_left relink l g)
  /\ (forall c s n, In s l -> heap g0 !! s = Some n ->
        In c (LogicNode.arrows n) -> is_Some (arrowAt (chunks g0) c) ->
        nodeAt (chunks (fold_left relink l g)) c = Some s)
  /\ (forall c, (forall s n, In s l -> heap g0 !! s = Some n ->
                   ~ In c (LogicNode.arrows n)) ->
        nodeAt (chunks (fold_left relink l g)) c = nodeAt (chunks g) c).
Proof.
  induction l as [|s l IH]; intros g R Hnd Hheap Huniq; cbn [fold_left].
  - split; [exact R|]. split; [intros c s n []|reflexivity].
  - apply NoDup_cons in Hnd as [Hs Hnd].
    destruct (Hheap s (or_introl eq_refl)) as [n0 Hn0].
    destruct (proj1 (proj2 R) s n0 Hn0) as (n & Hn & Hsrc).
    destruct (relink_spec g s n Hn) as (R1 & Hin & Hout).
    destruct (IH (relink g s)) as (R' & Hin' & Hout').
    { eapply relinked_trans; eauto. }
    { exact Hnd. }
    { intros s' Hs'. apply Hheap. right. exact Hs'. }
    { intros s1 s2 n1 n2 c H1 H2. apply Huniq; right; assumption. }
    split; [exact R'|]. split.
    + intros c s' n' [<-|Hs'] Hn' Hc Hsome.
      * assert (n' = n0) by congruence. subst n'.
        rewrite Hout'.
        -- apply Hin; [rewrite (proj1 Hsrc); exact Hc|].
           apply (proj2 (proj2 (proj2 R))). exact Hsome.
        -- intros s2 n2 Hs2 Hn2 Hc2.
           assert (s = s2)
             by exact (Huniq s s2 n0 n2 c (or_introl eq_refl)
                         (or_intror Hs2) Hn' Hn2 Hc Hc2).
           subst s2. apply Hs, list_elem_of_In, Hs2.
      * eapply Hin'; eauto.
    + intros c Hc. rewrite Hout'.
      * apply Hout. rewrite (proj1 Hsrc).
        apply (Hc s n0); [left; reflexivity|exact Hn0].
      * intros s2 n2 Hs2. apply Hc. right. exact Hs2.
Qed.

(** ** Simplification: the compiled graph *)

Lemma raw_heap_bound : (length (heap gr) <= length (all_cells m))%nat.
Proof.
  set (cellOf := fun n : LogicNode.t =>
                   hd ((0, 0), (0, 0)) (LogicNode.arrows n)).
  rewrite <- (length_fmap cellOf (heap gr)).
  apply submseteq_length, NoDup_submseteq.
  - apply NoDup_alt. intros i j c Hi Hj.
    rewrite list_lookup_fmap in Hi, Hj.
    destruct (heap gr !! i) as [ni|] eqn:Hni; [|discriminate].
    destruct (heap gr !! j) as [nj|] eqn:Hnj; [|discriminate].
    destruct (raw_node i ni Hni) as (ci & Hai & Hci & _).
    destruct (raw_node j nj Hnj) as (cj & Haj & Hcj & _).
    simpl in Hi, Hj. unfold cellOf in Hi, Hj. rewrite Hai in Hi.
    rewrite Haj in Hj. simpl in Hi, Hj. congruence.
  - intros c Hc. apply list_elem_of_fmap in Hc as (n & -> & Hn).
    apply list_elem_of_lookup in Hn as [i Hi].
    destruct (raw_node i n Hi) as (ci & Hai & Hci & _).
    unfold cellOf. rewrite Hai. simpl.
    destruct (raw_cell_of ci i Hci) as (a0 & _ & (Ha0 & _ & Hxy) & _).
    apply list_elem_of_In, In_all_cells. split; [|exact Hxy].
    apply arrowAt_is_Some. rewrite Ha0. eauto.
Qed.

Lemma position_of g c s j :
  nodeAt (chunks g) c = Some s -> offsetOf (chunks g) c = j ->
  position g c = Some (s, j).
Proof.
  unfold nodeAt, offsetOf, position.
  destruct (arrowAt (chunks g) c) as [a|]; [|discriminate].
  intros -> <-. reflexivity.
Qed.

Lemma relink_compiled g1 :
  live_ok m g1 ->
  compiled_ok m
    (set_nodeArray
       (fold_left relink (nodes (set_simplifiedNodes g1 ∅))
                  (set_simplifiedNodes g1 ∅))
       (nodes (fold_left relink (nodes (set_simplifiedNodes g1 ∅))
                         (set_simplifiedNodes g1 ∅)))).
Proof.
  intros (Hnd & Hlive & Huniq & Hcells).
  set (g2 := set_simplifiedNodes g1 ∅).
  destruct (relink_fold g2 (nodes g2) g2 (relinked_refl g2) Hnd)
    as ((Hnodes & Hheap & Hoff & Hdom) & Hin & _).
  { intros s Hs. destruct (Hlive s Hs) as (n & Hn & _). eauto. }
  { intros s s' n n' c Hs Hs' Hn Hn' Hc Hc'.
    apply list_elem_of_In, list_elem_of_lookup in Hc as [j Hj].
    apply list_elem_of_In, list_elem_of_lookup in Hc' as [j' Hj'].
    eapply (Huniq s s' n n' j j' c); eauto. }
  set (g3 := fold_left relink (nodes g2) g2) in *.
  assert (Hpos : forall s n j c, In s (nodes g1) -> heap g1 !! s = Some n ->
            live_node m g1 n -> LogicNode.arrows n !! j = Some c ->
            position (set_nodeArray g3 (nodes g3)) c = Some (s, j)).
  { intros s n j c Hs Hn Hln Hj.
    destruct Hln as (_ & _ & _ & _ & Hcell & _).
    destruct (Hcell j c Hj) as (_ & Ho & Hsome).
    apply position_of; simpl.
    - apply (Hin c s n Hs Hn); [|exact Hsome].
      apply list_elem_of_In, list_elem_of_lookup. eauto.
    - rewrite Hoff. exact Ho. }
  split; [|split].
  - simpl. rewrite Hnodes. exact Hnd.
  - simpl. rewrite Hnodes. intros s Hs.
    destruct (Hlive s Hs) as (n & Hn & Hln).
    destruct (Hheap s n Hn) as (n' & Hn' & Ha & Hty & Htg & Hsig & Hcnt).
    exists n'. split; [exact Hn'|].
    pose proof Hln as (L1 & L2 & L3 & L4 & L5 & L6 & L7 & L8).
    unfold node_ok. rewrite Ha, Hty, Htg, Hsig, Hcnt.
    split; [exact L1|]. split; [exact L2|]. split; [exact L3|].
    split; [exact L4|]. split; [|split; [exact L6|split; [exact L7|]]].
    + intros j c Hj. split; [apply (L5 j c Hj)|].
      eapply Hpos; eauto.
    + simpl. intros t nt h tl Ht Hnt Hh Htl.
      destruct (Hlive t Ht) as (nt0 & Hnt0 & _).
      destruct (Hheap t nt0 Hnt0) as (nt' & Hnt' & Hat & _).
      assert (nt' = nt) by congruence. subst nt'.
      rewrite Hat in Hh. eapply L8; eauto.
  - intros c a Hc. destruct (Hcells c a Hc) as (s & j & n & Hs & Hn & Hj).
    destruct (Hlive s Hs) as (n0 & Hn0 & Hln).
    assert (n0 = n) by congruence. subst n0.
    destruct (Hheap s n Hn) as (n' & Hn' & Ha & _).
    exists s, j, n'. split; [eapply Hpos; eauto|].
    split; [simpl; rewrite Hnodes; exact Hs|].
    split; [exact Hn'|]. rewrite Ha. exact Hj.
Qed.

Lemma simplifyNodes_compiled ks fuel :
  (forall r, In r (cells_in ks) <-> In r (all_cells (chunks gr))) ->
  nodes gr = [] -> (length (heap gr) < fuel)%nat ->
  exists g, simplifyNodes ks fuel gr = Some g /\ compiled_ok m g.
Proof.
  intros Hks Hnodes Hfuel.
  destruct (simplifyCells_inv fuel (cells_in ks)
              (set_simplifiedNodes gr ∅) Hfuel)
    as (g1 & Hg1 & SI1 & Hr1 & _ & Hvis).
  { intros r Hr. apply Hks, In_all_cells in Hr. tauto. }
  { apply simp_inv_init. exact Hnodes. }
  { intros i n Hi Hn. simpl in Hn. apply lookup_lt_Some in Hn. lia. }
  assert (Hall_vis : forall c y, nodeOf (chunks gr) c = Some y ->
            is_Some (simplifiedNodes g1 !! y)).
  { intros c y Hy. apply (Hvis c y); [|exact Hy].
    apply Hks, In_all_cells. split; [|apply (proj1 Hrange c y Hy)].
    apply arrowAt_is_Some. unfold nodeOf in Hy.
    destruct (arrowAt (chunks gr) c); [eauto|discriminate]. }
  pose proof (simp_inv_live_ok g1 SI1 Hr1 Hall_vis) as Hlive.
  eexists. split; [|apply (relink_compiled g1 Hlive)].
  unfold simplifyNodes. cbn zeta.
  unfold simplifyCells in Hg1. rewrite Hg1. reflexivity.
Qed.

(** ** Simplification: the edges of the live nodes *)

Lemma raw_single_source x rx t rt z rz :
  heap gr !! x = Some rx -> In t (LogicNode.targets rx) ->
  heap gr !! t = Some rt -> length (LogicNode.sources rt) = 1%nat ->
  heap gr !! z = Some rz -> In t (LogicNode.targets rz) ->
  z = x.
Proof.
  intros Hrx Htx Hrt Hsrc Hrz Htz.
  destruct (LogicNode.sources rt) as [|q [|q' qs]] eqn:Hq; try discriminate.
  pose proof Hwf as (_ & _ & R3 & _).
  assert (Hone : forall p rp, heap gr !! p = Some rp ->
            In t (LogicNode.targets rp) -> q = p).
  { intros p rp Hrp Hin.
    pose proof (R3 p t rp rt Hrp Hrt) as E. rewrite Hq in E.
    apply (count_occ_In Nat.eq_dec) in Hin. cbn [count_occ] in E.
    destruct (Nat.eq_dec q p) as [->|]; [reflexivity|lia]. }
  rewrite <- (Hone x rx Hrx Htx). symmetry. apply (Hone z rz Hrz Htz).
Qed.

Lemma link_target_live g x rx t sid ns st :
  simp_inv m gr g ->
  heap gr !! x = Some rx -> In t (LogicNode.targets rx) ->
  simplifiedNodes g !! x = Some sid -> In sid (nodes g) ->
  heap g !! sid = Some ns -> LogicNode.arrows ns = LogicNode.arrows rx ->
  simplifiedNodes g !! t = Some st ->
  In st (nodes g).
Proof.
  intros SI Hrx Htx HMx Hsid Hns Harr HMt.
  destruct (in_dec Nat.eq_dec st (nodes g)) as [Hin|Hout]; [exact Hin|].
  exfalso.
  assert (Ht : (t < length (heap gr))%nat).
  { destruct Hwf as (_ & _ & _ & R4). eapply R4; eauto. }
  destruct (lookup_lt_is_Some_2 _ _ Ht) as [rt Hrt].
  destruct (raw_node x rx Hrx) as (cx & Harx & Hcx & _).
  destruct (raw_node t rt Hrt) as (ct & Hart & Hct & _).
  pose proof (si_dead _ _ _ SI t st ct Hct HMt Hout) as Hoff.
  destruct (si_part _ _ _ SI t ct Hct ltac:(eauto))
    as (s' & n' & j & Hs' & Hn' & Hj).
  destruct (si_live _ _ _ SI s' Hs') as (y & n'' & _ & _ & Hn'' & Hch).
  assert (n'' = n') by congruence. subst n''.
  destruct Hch as (_ & _ & _ & _ & Hcell & Hlink & _).
  destruct (Hcell j ct Hj) as (_ & Hoj).
  destruct j as [|j0]; [lia|].
  destruct (lookup_lt_is_Some_2 (LogicNode.arrows n') j0) as [p Hp].
  { apply lookup_lt_Some in Hj. lia. }
  destruct (Hlink j0 p ct Hp Hj) as (_ & _ & Hcount).
  destruct (raw_cell_of cx x Hcx) as (a0 & _ & Hcell0 & _).
  specialize (Hcount cx a0 Hcell0).
  rewrite <- (raw_count ct t cx x rx Hct Hcx Hrx) in Hcount.
  apply (count_occ_In Nat.eq_dec) in Htx.
  destruct (decide (cx = p)) as [<-|]; [|lia].
  destruct (si_uniq _ _ _ SI s' sid n' ns j0 0%nat cx Hs' Hsid Hn' Hns Hp)
    as [-> ->].
  { rewrite Harr, Harx. reflexivity. }
  assert (n' = ns) by congruence. subst n'.
  rewrite Harr, Harx in Hj. discriminate.
Qed.

Lemma In_set_add n k l : In k (set_add n l) <-> In k l \/ k = n.
Proof.
  unfold set_add. destruct (existsb (Nat.eqb n) l) eqn:E.
  - split; [auto|]. intros [H| ->]; [exact H|].
    apply existsb_exists in E as (k & Hk & E). apply Nat.eqb_eq in E.
    subst k. exact Hk.
  - rewrite in_app_iff. simpl. split.
    + intros [H|[<-|[]]]; auto.
    + intros [H| ->]; auto.
Qed.

Lemma simp_inv2_enter g x rx :
  simp_inv m gr g -> simp_inv2 gr g ->
  simplifiedNodes g !! x = None -> heap gr !! x = Some rx ->
  simp_inv2 gr (simplifyNode_enter g x rx).
Proof.
  intros SI [E T] HMx Hrx.
  destruct (simp_inv_enter g x rx SI HMx Hrx) as [_ Hle].
  constructor.
  - intros i n Hi. unfold simplifyNode_enter. simpl.
    intros Hn. apply lookup_app_Some in Hn as [Hn|[_ Hn]].
    + eapply E; eauto.
    + apply list_lookup_singleton_Some in Hn as [_ <-]. reflexivity.
  - intros s n t Hs Hn Ht.
    assert (Hs' : In s (nodes g) \/ s = length (heap g)).
    { unfold simplifyNode_enter in Hs. simpl in Hs.
      apply In_set_add in Hs. exact Hs. }
    assert (Hsub : forall k, In k (nodes g) ->
              In k (nodes (simplifyNode_enter g x rx))).
    { intros k Hk. unfold simplifyNode_enter. simpl.
      apply In_set_add. auto. }
    unfold simplifyNode_enter in Hn. simpl in Hn.
    destruct Hs' as [Hs'| ->].
    + pose proof (live_lt g s SI Hs') as Hlt.
      rewrite lookup_app_l in Hn by lia.
      destruct (T s n t Hs' Hn Ht) as (Hlive & tl & z & rz & y & W).
      split; [apply Hsub; exact Hlive|].
      exists tl, z, rz, y. destruct W as (W1 & W2 & W3 & W4 & W5).
      repeat split; auto.
    + rewrite list_lookup_middle in Hn by reflexivity.
      injection Hn as <-. destruct Ht.
Qed.

Lemma simp_inv2_alter g sid f :
  simp_inv2 gr g ->
  (forall n, LogicNode.sources (f n) = LogicNode.sources n) ->
  (forall n, LogicNode.arrows (f n) = LogicNode.arrows n) ->
  (forall n t, heap g !! sid = Some n -> In sid (nodes g) ->
     In t (LogicNode.targets (f n)) ->
     In t (nodes g)
     /\ exists tl z rz y,
          last (LogicNode.arrows n) = Some tl
          /\ nodeOf (chunks gr) tl = Some z /\ heap gr !! z = Some rz
          /\ In y (LogicNode.targets rz)
          /\ simplifiedNodes g !! y = Some t) ->
  simp_inv2 gr (alterNode g sid f).
Proof.
  intros [E T] Hsrc Harr Htg. constructor.
  - intros i n Hi. unfold alterNode. simpl.
    destruct (decide (sid = i)) as [<-|Hne].
    + rewrite list_lookup_alter_eq.
      destruct (heap g !! sid) as [n0|] eqn:Hn0; [|discriminate].
      simpl. intros [= <-]. rewrite Hsrc. eapply E; eauto.
    + rewrite list_lookup_alter_ne by exact Hne. apply E. exact Hi.
  - intros s n t Hs. unfold alterNode. simpl.
    simpl in Hs. destruct (decide (sid = s)) as [<-|Hne].
    + rewrite list_lookup_alter_eq.
      destruct (heap g !! sid) as [n0|] eqn:Hn0; [|discriminate].
      simpl. intros [= <-] Ht. rewrite Harr.
      apply (Htg n0 t eq_refl Hs Ht).
    + rewrite list_lookup_alter_ne by exact Hne. apply T. exact Hs.
Qed.

Lemma simp_inv2_fuse g x rx t rt sid st stn g5 :
  simp_inv m gr g -> simp_inv2 gr g ->
  heap gr !! x = Some rx -> LogicNode.targets rx = [t] ->
  heap gr !! t = Some rt ->
  LogicNode.type rt = 0%nat -> length (LogicNode.sources rt) = 1%nat ->
  simplifiedNodes g !! x = Some sid -> In sid (nodes g) ->
  heap g !! sid = Some (LogicNode.copy rx) ->
  simplifiedNodes g !! t = Some st ->
  heap g !! st = Some stn -> LogicNode.ready stn = true ->
  fuse g x sid st = Some g5 ->
  simp_inv2 gr (alterNode g5 sid (fun s => LogicNode.set_ready s true)).
Proof.
  intros SI [E T] Hrx Htx Hrt Hty Hsrc HMx Hsid Hns HMt Hstn Hready Hfuse.
  pose proof (fuse_target_live g x rx t rt sid st SI Hrx Htx Hrt Hty Hsrc
                HMx Hsid Hns HMt) as Hst.
  destruct (raw_node x rx Hrx) as (cx & Harx & Hcx & Hszx).
  pose proof (lookup_lt_Some _ _ _ Hrx) as Hx.
  pose proof (lookup_lt_Some _ _ _ Hrt) as Ht.
  assert (Hne : st <> sid).
  { intros ->. rewrite Hns in Hstn. injection Hstn as <-. discriminate. }
  assert (HcxA : ~ In cx (LogicNode.arrows stn)).
  { intros H. apply list_elem_of_In, list_elem_of_lookup in H as [j Hj].
    destruct (si_uniq _ _ _ SI sid st (LogicNode.copy rx) stn 0%nat j cx)
      as [E0 _]; auto.
    simpl. rewrite Harx. reflexivity. }
  assert (HA : LogicNode.arrows stn <> []).
  { destruct (si_live _ _ _ SI st Hst) as (y & n1 & _ & _ & Hn1 & Hc).
    assert (n1 = stn) by congruence. subst n1.
    destruct Hc as ((c0 & _ & Hc0 & _) & _). intros E0.
    rewrite E0 in Hc0. discriminate. }
  assert (Hgx : heap g !! x = Some rx).
  { rewrite (si_raw _ _ _ SI) by exact Hx. exact Hrx. }
  destruct (fuse_exact g x sid st rx stn (LogicNode.copy rx) g5 Hgx Hstn Hns
              Hfuse) as (Hs5 & Hlen5 & Hoth5 & Hnodes5 & HM5 & Hch5).
  assert (Hkey : forall s0 n0, In s0 (nodes g) -> heap g !! s0 = Some n0 ->
            In st (LogicNode.targets n0) ->
            last (LogicNode.arrows n0) = Some cx).
  { intros s0 n0 Hs0 Hn0 Hin.
    destruct (T s0 n0 st Hs0 Hn0 Hin)
      as (_ & tl & z & rz & y & W1 & W2 & W3 & W4 & W5).
    assert (Hy : (y < length (heap gr))%nat).
    { destruct Hwf as (_ & _ & _ & R4). eapply R4; eauto. }
    assert (y = t) by (eapply (si_memo_inj _ _ _ SI); eauto). subst y.
    assert (z = x).
    { apply (raw_single_source x rx t rt z rz); auto.
      rewrite Htx. left. reflexivity. }
    subst z. rewrite W1. f_equal. eapply nodeOf_inj; eauto. }
  constructor.
  - intros i n Hi. unfold alterNode. simpl.
    destruct (decide (sid = i)) as [<-|Hnei].
    + rewrite list_lookup_alter_eq, Hs5. simpl. intros [= <-]. reflexivity.
    + rewrite list_lookup_alter_ne by exact Hnei.
      rewrite Hoth5 by auto. apply E. exact Hi.
  - intros s n t' Hs. unfold alterNode in Hs. simpl in Hs.
    rewrite Hnodes5 in Hs. apply In_set_delete in Hs as [Hs Hsst].
    unfold alterNode. simpl. rewrite Hnodes5, HM5.
    destruct (decide (sid = s)) as [<-|Hnes].
    + rewrite list_lookup_alter_eq, Hs5. simpl. intros [= <-]. simpl.
      rewrite Harx. simpl. intros Ht'.
      destruct (T st stn t' Hst Hstn Ht') as (Hlive & tl & z & rz & y & W).
      split.
      * apply In_set_delete. split; [exact Hlive|]. intros ->.
        apply HcxA. pose proof (Hkey st stn Hst Hstn Ht') as Hl.
        rewrite last_lookup in Hl.
        apply list_elem_of_In, list_elem_of_lookup. eauto.
      * exists tl, z, rz, y. destruct W as (W1 & W2).
        split; [|exact W2]. rewrite last_cons, W1. reflexivity.
    + rewrite list_lookup_alter_ne by exact Hnes.
      rewrite Hoth5 by auto. intros Hn Ht'.
      destruct (T s n t' Hs Hn Ht') as (Hlive & W).
      split; [|exact W].
      apply In_set_delete. split; [exact Hlive|]. intros ->.
      pose proof (Hkey s n Hs Hn Ht') as Hl. rewrite last_lookup in Hl.
      destruct (si_uniq _ _ _ SI s sid n (LogicNode.copy rx) _ 0%nat cx
                  Hs Hsid Hn Hns Hl) as [Es _].
      { simpl. rewrite Harx. reflexivity. }
      auto.
Qed.

Lemma linkTargets_inv2 fuel sid x rx :
  (forall g y g' s, simplifyNode fuel g y = Some (g', s) ->
     (y < length (heap gr))%nat -> simp_inv m gr g -> simp_inv2 gr g ->
     simp_inv2 gr g') ->
  heap gr !! x = Some rx ->
  forall ts g done g',
    linkTargets fuel sid ts (Some g) = Some g' ->
    (forall t, In t ts -> In t (LogicNode.targets rx)) ->
    simp_inv m gr g -> simp_inv2 gr g -> In sid (nodes g) ->
    simplifiedNodes g !! x = Some sid ->
    (exists ns, heap g !! sid = Some ns
       /\ LogicNode.arrows ns = LogicNode.arrows rx
       /\ LogicNode.ready ns = false
       /\ List.map Some (LogicNode.targets ns)
          = List.map (fun y => simplifiedNodes g !! y) done) ->
    simp_inv2 gr g'.
Proof.
  intros IH Hrx. pose proof (lookup_lt_Some _ _ _ Hrx) as Hx.
  assert (Hlt : forall t, In t (LogicNode.targets rx) ->
            (t < length (heap gr))%nat).
  { intros t Ht. destruct Hwf as (_ & _ & _ & R4). eapply R4; eauto. }
  destruct (raw_node x rx Hrx) as (cx & Harx & Hcx & _).
  induction ts as [|t ts IHts];
    intros g done g' H Hts SI SI2 Hsid HMx Hpend.
  - injection H as <-. exact SI2.
  - unfold linkTargets in H. cbn [fold_left] in H.
    destruct (simplifyNode fuel g t) as [[g1 st]|] eqn:E.
    2:{ fold (linkTargets fuel sid ts None) in H.
        rewrite linkTargets_None in H. discriminate. }
    fold (linkTargets fuel sid ts (Some (linkTarget sid g1 st))) in H.
    pose proof (Hts t (or_introl eq_refl)) as Htin.
    destruct (simplifyNode_inv fuel g t g1 st E (Hlt t Htin) SI)
      as (SI1 & Hcall & HMt).
    pose proof (IH g t g1 st E (Hlt t Htin) SI SI2) as SI21.
    assert (Hone : linkTargets fuel sid [t] (Some g)
                   = Some (linkTarget sid g1 st)).
    { unfold linkTargets. cbn [fold_left]. rewrite E. reflexivity. }
    destruct (linkTargets_inv fuel sid x rx (simplifyNode_inv fuel) Hx
                [t] g done _ Hone) as (SIn & Hstep & Hsidn & Hnsn); auto.
    { intros t' [<-|[]]. apply Hlt. exact Htin. }
    destruct Hpend as (ns & Hns & Harr & Hrdy & Htg).
    pose proof Hcall as (M1 & L1 & F1 & S1 & R1).
    assert (Hns1 : heap g1 !! sid = Some ns).
    { rewrite F1; [exact Hns|]. apply lookup_lt_Some in Hns. exact Hns. }
    assert (Hsid1 : In sid (nodes g1)) by (eapply S1; eauto).
    assert (HMx1 : simplifiedNodes g1 !! x = Some sid) by (apply M1, HMx).
    apply (IHts (linkTarget sid g1 st) (done ++ [t]) g' H);
      [intros t' Ht'; apply Hts; right; exact Ht'
      |exact SIn| |exact Hsidn|apply (proj1 Hstep); exact HMx|exact Hnsn].
    unfold linkTarget. apply simp_inv2_alter; auto.
    intros n t' Hn Hs Ht'. assert (n = ns) by congruence. subst n.
    simpl in Ht'. apply in_app_iff in Ht' as [Ht'|[<-|[]]].
    + apply (si_targets _ _ SI21 sid ns t' Hsid1 Hns1 Ht').
    + split.
      * apply (link_target_live g1 x rx t sid ns st); auto.
      * exists cx, x, rx, t. rewrite Harr, Harx. auto.
Qed.

Lemma simplifyNode_inv2 fuel : forall g x g' s,
  simplifyNode fuel g x = Some (g', s) ->
  (x < length (heap gr))%nat -> simp_inv m gr g -> simp_inv2 gr g ->
  simp_inv2 gr g'.
Proof.
  induction fuel as [|fuel IH]; intros g x g' s H Hx SI SI2; [discriminate|].
  rewrite simplifyNode_unfold in H.
  destruct (simplifiedNodes g !! x) as [e|] eqn:HMx.
  { injection H as <- <-. exact SI2. }
  rewrite (si_raw _ _ _ SI x Hx) in H.
  destruct (heap gr !! x) as [rx|] eqn:Hrx; [|discriminate].
  cbn zeta in H.
  destruct (simp_inv_enter g x rx SI HMx Hrx) as [SI3 Hle3].
  pose proof (simp_inv2_enter g x rx SI SI2 HMx Hrx) as SI23.
  pose proof (si_len _ _ _ SI) as HN.
  assert (Hsid3 : In (length (heap g)) (nodes (simplifyNode_enter g x rx))).
  { unfold simplifyNode_enter. simpl. apply In_set_add. auto. }
  assert (Hns3 : heap (simplifyNode_enter g x rx) !! length (heap g)
                 = Some (LogicNode.copy rx)).
  { unfold simplifyNode_enter. simpl. apply list_lookup_middle. reflexivity. }
  assert (HMx3 : simplifiedNodes (simplifyNode_enter g x rx) !! x
                 = Some (length (heap g))).
  { unfold simplifyNode_enter. simpl. rewrite lookup_insert_ne by lia.
    apply lookup_insert_eq. }
  set (g3 := simplifyNode_enter g x rx) in *.
  set (sid := length (heap g)) in *.
  assert (Hts : forall t, In t (LogicNode.targets rx) ->
            (t < length (heap gr))%nat).
  { intros t Ht. destruct Hwf as (_ & _ & _ & R4). eapply R4; eauto. }
  match type of H with
  | match ?linked with _ => _ end = _ =>
    destruct linked as [g5|] eqn:Hlinked; [|discriminate]
  end.
  injection H as <- <-.
  assert (Hgen : linkTargets fuel sid (LogicNode.targets rx) (Some g3)
                 = Some g5 ->
            simp_inv2 gr
              (alterNode g5 sid (fun s => LogicNode.set_ready s true))).
  { intros Hlt.
    assert (SI25 : simp_inv2 gr g5).
    { apply (linkTargets_inv2 fuel sid x rx IH Hrx (LogicNode.targets rx)
               g3 [] g5 Hlt); auto.
      exists (LogicNode.copy rx). auto. }
    apply simp_inv2_alter; auto.
    intros n t Hn Hs Ht. apply (si_targets _ _ SI25 sid n t Hs Hn Ht). }
  destruct (LogicNode.targets rx) as [|t [|t2 ts]] eqn:Htx.
  - apply Hgen. exact Hlinked.
  - destruct (simplifyNode fuel g3 t) as [[g4 st]|] eqn:E; [|discriminate].
    pose proof (Hts t (or_introl eq_refl)) as Ht.
    destruct (simplifyNode_inv fuel g3 t g4 st E Ht SI3)
      as (SI4 & Hcall & HMt).
    pose proof (IH g3 t g4 st E Ht SI3 SI23) as SI24.
    unfold fuseOrLink in Hlinked.
    rewrite (si_raw _ _ _ SI4 t Ht) in Hlinked.
    destruct (heap gr !! t) as [rt|] eqn:Hrt; [|discriminate].
    destruct (heap g4 !! st) as [stn|] eqn:Hstn; [|discriminate].
    destruct (fusable rt stn) eqn:Hfus.
    + apply fusable_iff in Hfus as (Hty & Hsrc & Hready).
      pose proof Hcall as (M4 & L4 & F4 & S4 & R4).
      assert (Hlt3 : (sid < length (heap g3))%nat)
        by (apply lookup_lt_Some in Hns3; exact Hns3).
      assert (Hns4 : heap g4 !! sid = Some (LogicNode.copy rx))
        by (rewrite F4; auto).
      assert (Hsid4 : In sid (nodes g4)) by (eapply S4; eauto).
      assert (HMx4 : simplifiedNodes g4 !! x = Some sid) by (apply M4, HMx3).
      apply (simp_inv2_fuse g4 x rx t rt sid st stn g5); auto.
    + apply Hgen. injection Hlinked as <-.
      unfold linkTargets. cbn [fold_left]. rewrite E. reflexivity.
  - apply Hgen. exact Hlinked.
Qed.

Lemma simp_inv2_init :
  nodes gr = [] -> simp_inv2 gr (set_simplifiedNodes gr ∅).
Proof.
  intros Hnodes. constructor; simpl.
  - intros i n Hi Hn. apply lookup_lt_Some in Hn. lia.
  - rewrite Hnodes. intros s n t [].
Qed.

Lemma simplifyCells_inv2 fuel l : forall g g',
  simplifyCells fuel l (Some g) = Some g' ->
  (forall r, In r l -> is_Some (chunks gr !! fst r)) ->
  simp_inv m gr g -> simp_inv2 gr g -> simp_inv2 gr g'.
Proof.
  induction l as [|r l IH]; intros g g' H Hl SI SI2.
  - injection H as <-. exact SI2.
  - unfold simplifyCells in H. cbn [fold_left] in H.
    destruct (Hl r (or_introl eq_refl)) as [ch Hch].
    assert (Hs : is_Some (arrowAt (chunks gr) r)).
    { apply arrowAt_is_Some. eauto. }
    destruct Hs as [a Ha].
    destruct (proj2 (si_grid _ _ _ SI) r a Ha) as (a' & Ha' & _ & Hnode & _).
    rewrite Ha', Hnode, (proj2 Hrange r a Ha) in H.
    assert (Hl' : forall r', In r' l -> is_Some (chunks gr !! fst r')).
    { intros r' Hr'. apply Hl. right. exact Hr'. }
    destruct (originalNode a) as [nd|] eqn:Ho.
    + assert (Hnd : nodeOf (chunks gr) r = Some nd).
      { unfold nodeOf. rewrite Ha. exact Ho. }
      pose proof (nodeOf_lt gr r nd Hwf Hnd) as Hlt.
      destruct (simplifyNode fuel g nd) as [[g1 s]|] eqn:E.
      * destruct (simplifyNode_inv fuel g nd g1 s E Hlt SI) as (SI1 & _).
        apply (IH g1 g' H Hl' SI1).
        apply (simplifyNode_inv2 fuel g nd g1 s E Hlt SI SI2).
      * fold (simplifyCells fuel l None) in H.
        rewrite simplifyCells_None in H. discriminate.
    + apply (IH g g' H Hl' SI SI2).
Qed.

(** ** Simplification: the sources pushed by the last loop *)

Lemma push_sources_nil n : LogicNode.push_sources n [] = n.
Proof.
  destruct n. unfold LogicNode.push_sources. simpl.
  rewrite app_nil_r. reflexivity.
Qed.

Lemma push_sources_app n l l' :
  LogicNode.push_sources (LogicNode.push_sources n l) l'
  = LogicNode.push_sources n (l ++ l').
Proof.
  unfold LogicNode.push_sources. simpl. rewrite app_assoc. reflexivity.
Qed.

Lemma fold_push_sources_exact s ts : forall g i n,
  heap g !! i = Some n ->
  heap (fold_left (fun g' target =>
                     alterNode g' target
                       (fun k => LogicNode.push_sources k [s])) ts g) !! i
  = Some (LogicNode.push_sources n
            (replicate (count_occ Nat.eq_dec ts i) s)).
Proof.
  induction ts as [|t ts IH]; intros g i n Hn; cbn [fold_left count_occ].
  - simpl. rewrite push_sources_nil. exact Hn.
  - destruct (Nat.eq_dec t i) as [->|Hne].
    + rewrite (IH _ i (LogicNode.push_sources n [s])).
      * rewrite push_sources_app. reflexivity.
      * unfold alterNode. simpl. rewrite list_lookup_alter_eq, Hn.
        reflexivity.
    + apply IH. unfold alterNode. simpl.
      rewrite list_lookup_alter_ne by exact Hne. exact Hn.
Qed.

Lemma relink_heap_exact g s i n :
  heap g !! i = Some n ->
  heap (relink g s) !! i
  = Some (LogicNode.push_sources n
            (replicate (count_occ Nat.eq_dec (targets_of g s) i) s)).
Proof.
  intros Hn. unfold relink, targets_of.
  destruct (heap g !! s) as [ns|] eqn:Hns.
  - apply fold_push_sources_exact.
    rewrite (proj1 (fold_alterArrow_fields (setNode s)
                      (LogicNode.arrows ns) g)).
    exact Hn.
  - simpl. rewrite push_sources_nil. exact Hn.
Qed.

Lemma relink_heap_None g s i :
  heap g !! i = None -> heap (relink g s) !! i = None.
Proof.
  intros Hn. unfold relink. destruct (heap g !! s) as [ns|]; [|exact Hn].
  assert (H : forall ts g0, heap g0 !! i = None ->
            heap (fold_left (fun g' target =>
                               alterNode g' target
                                 (fun k => LogicNode.push_sources k [s]))
                            ts g0) !! i = None).
  { induction ts as [|t ts IH]; intros g0 H0; [exact H0|].
    cbn [fold_left]. apply IH. unfold alterNode. simpl.
    destruct (decide (t = i)) as [->|Hne].
    - rewrite list_lookup_alter_eq, H0. reflexivity.
    - rewrite list_lookup_alter_ne by exact Hne. exact H0. }
  apply H.
  rewrite (proj1 (fold_alterArrow_fields (setNode s)
                    (LogicNode.arrows ns) g)).
  exact Hn.
Qed.

Lemma targets_of_relink g s s' :
  targets_of (relink g s) s' = targets_of g s'.
Proof.
  unfold targets_of.
  destruct (heap g !! s') as [n|] eqn:Hn.
  - rewrite (relink_heap_exact g s s' n Hn). reflexivity.
  - rewrite (relink_heap_None g s s' Hn). reflexivity.
Qed.

Lemma relink_fold_heap l : forall g i n,
  heap g !! i = Some n ->
  heap (fold_left relink l g) !! i
  = Some (LogicNode.push_sources n
            (flat_map (fun s => replicate
                                  (count_occ Nat.eq_dec (targets_of g s) i) s)
                      l)).
Proof.
  induction l as [|s l IH]; intros g i n Hn; cbn [fold_left flat_map].
  - rewrite push_sources_nil. exact Hn.
  - rewrite (IH (relink g s) i _ (relink_heap_exact g s i n Hn)).
    rewrite push_sources_app. do 3 f_equal.
    apply flat_map_ext. intros s'. rewrite targets_of_relink. reflexivity.
Qed.

Lemma count_flat_replicate (c : NodeId -> nat) l s0 :
  NoDup l ->
  count_occ Nat.eq_dec (flat_map (fun s => replicate (c s) s) l) s0
  = if bool_decide (s0 ∈ l) then c s0 else 0%nat.
Proof.
  intros Hnd. induction Hnd as [|s l Hs Hnd IH]; cbn [flat_map].
  - rewrite bool_decide_eq_false_2 by apply not_elem_of_nil. reflexivity.
  - rewrite count_occ_app, IH.
    assert (Hrep : forall k, count_occ Nat.eq_dec (replicate k s) s0
                             = if decide (s = s0) then k else 0%nat).
    { induction k as [|k IHk]; simpl.
      - destruct (decide (s = s0)); reflexivity.
      - destruct (Nat.eq_dec s s0) as [->|Hne].
        + rewrite IHk, !decide_True by reflexivity. reflexivity.
        + rewrite IHk, !decide_False by exact Hne. reflexivity. }
    rewrite Hrep. destruct (decide (s = s0)) as [->|Hne].
    + rewrite (bool_decide_eq_false_2 (s0 ∈ l)) by exact Hs.
      rewrite bool_decide_eq_true_2 by (apply elem_of_cons; auto). lia.
    + destruct (bool_decide (s0 ∈ l)) eqn:E.
      * apply bool_decide_eq_true_1 in E.
        rewrite bool_decide_eq_true_2 by (apply elem_of_cons; auto).
        reflexivity.
      * apply bool_decide_eq_false_1 in E.
        rewrite bool_decide_eq_false_2; [reflexivity|].
        intros [->|H]%elem_of_cons; auto.
Qed.

Lemma relink_fold_nodes l : forall g, nodes (fold_left relink l g) = nodes g.
Proof.
  induction l as [|s l IH]; intros g; cbn [fold_left]; [reflexivity|].
  rewrite IH. unfold relink. destruct (heap g !! s) as [n|] eqn:Hn;
    [|reflexivity].
  destruct (relink_spec g s n Hn) as ((Hnodes & _) & _).
  unfold relink in Hnodes. rewrite Hn in Hnodes. exact Hnodes.
Qed.

Lemma simplifyNodes_graph ks fuel :
  (forall r, In r (cells_in ks) <-> In r (all_cells (chunks gr))) ->
  nodes gr = [] -> (length (heap gr) < fuel)%nat ->
  exists g,
    simplifyNodes ks fuel gr = Some g /\ compiled_ok m g /\ graph_ok g.
Proof.
  intros Hks Hnodes Hfuel.
  assert (Hl : forall r, In r (cells_in ks) ->
            is_Some (chunks gr !! fst r)).
  { intros r Hr. apply Hks, In_all_cells in Hr. tauto. }
  destruct (simplifyCells_inv fuel (cells_in ks)
              (set_simplifiedNodes gr ∅) Hfuel Hl (simp_inv_init Hnodes))
    as (g1 & Hg1 & SI1 & Hr1 & _ & Hvis).
  { intros i n Hi Hn. simpl in Hn. apply lookup_lt_Some in Hn. lia. }
  pose proof (simplifyCells_inv2 fuel _ _ g1 Hg1 Hl (simp_inv_init Hnodes)
                (simp_inv2_init Hnodes)) as SI21.
  assert (Hall_vis : forall c y, nodeOf (chunks gr) c = Some y ->
            is_Some (simplifiedNodes g1 !! y)).
  { intros c y Hy. apply (Hvis c y); [|exact Hy].
    apply Hks, In_all_cells. split; [|apply (proj1 Hrange c y Hy)].
    apply arrowAt_is_Some. unfold nodeOf in Hy.
    destruct (arrowAt (chunks gr) c); [eauto|discriminate]. }
  pose proof (simp_inv_live_ok g1 SI1 Hr1 Hall_vis) as Hlive.
  eexists. split; [|split; [apply (relink_compiled g1 Hlive)|]].
  { unfold simplifyNodes. cbn zeta.
    unfold simplifyCells in Hg1. rewrite Hg1. reflexivity. }
  set (g2 := set_simplifiedNodes g1 ∅).
  assert (Hnd3 : nodes (fold_left relink (nodes g2) g2) = nodes g1)
    by (rewrite relink_fold_nodes; reflexivity).
  assert (Hheap : forall i n, heap g1 !! i = Some n ->
            heap (fold_left relink (nodes g2) g2) !! i
            = Some (LogicNode.push_sources n
                      (flat_map
                         (fun s => replicate
                                     (count_occ Nat.eq_dec (targets_of g1 s) i)
                                     s)
                         (nodes g1)))).
  { intros i n Hn. apply (relink_fold_heap (nodes g2) g2 i n Hn). }
  assert (Hback : forall s n, In s (nodes g1) ->
            heap (fold_left relink (nodes g2) g2) !! s = Some n ->
            exists n1 l, heap g1 !! s = Some n1
              /\ n = LogicNode.push_sources n1 l
              /\ l = flat_map
                       (fun s' => replicate
                                    (count_occ Nat.eq_dec (targets_of g1 s') s)
                                    s')
                       (nodes g1)).
  { intros s n Hs Hn.
    destruct (si_live _ _ _ SI1 s Hs) as (x & n1 & _ & _ & Hn1 & _).
    rewrite (Hheap s n1 Hn1) in Hn. injection Hn as <-. eauto. }
  unfold graph_ok. cbn [nodes nodeArray heap set_nodeArray].
  rewrite Hnd3.
  split; [reflexivity|]. split; [|split; [|split]].
  - intros s n Hs Hn. destruct (Hback s n Hs Hn) as (n1 & l & Hn1 & -> & _).
    destruct (si_live _ _ _ SI1 s Hs) as (x & n1' & Hx & HMx & Hn1' & Hch).
    assert (n1' = n1) by congruence. subst n1'.
    destruct Hch as (_ & Hsz & _). simpl. split; [exact Hsz|].
    apply (Hr1 s n1); [|exact Hn1].
    apply (si_memo_range _ _ _ SI1 x s Hx HMx).
  - intros s n t Hs Hn Ht.
    destruct (Hback s n Hs Hn) as (n1 & l & Hn1 & -> & _).
    apply (si_targets _ _ SI21 s n1 t Hs Hn1 Ht).
  - intros s t ns nt Hs Ht Hns Hnt.
    destruct (Hback s ns Hs Hns) as (ns1 & ls & Hns1 & -> & _).
    destruct (Hback t nt Ht Hnt) as (nt1 & lt & Hnt1 & -> & ->).
    simpl. rewrite (si_sources _ _ SI21 t nt1);
      [|apply (live_lt g1 t SI1 Ht)|exact Hnt1].
    simpl.
    rewrite (count_flat_replicate
               (fun s' => count_occ Nat.eq_dec (targets_of g1 s') t))
      by apply (si_nodup _ _ _ SI1).
    rewrite bool_decide_eq_true_2 by (apply list_elem_of_In; exact Hs).
    unfold targets_of. rewrite Hns1. reflexivity.
  - intros s t nt Ht Hnt Hin.
    destruct (Hback t nt Ht Hnt) as (nt1 & lt & Hnt1 & -> & ->).
    simpl in Hin. rewrite (si_sources _ _ SI21 t nt1) in Hin;
      [|apply (live_lt g1 t SI1 Ht)|exact Hnt1].
    simpl in Hin. apply in_flat_map in Hin as (s' & Hs' & Hrep).
    apply list_elem_of_In, elem_of_replicate in Hrep as [-> _]. exact Hs'.
Qed.

(** The compiled target a visit fuses lists no cell twice. *)
Lemma fused_target_NoDup f g x rx t g4 st rt stn :
  simp_inv m gr g -> simplifiedNodes g !! x = None ->
  heap gr !! x = Some rx -> LogicNode.targets rx = [t] ->
  simplifyNode f (simplifyNode_enter g x rx) t = Some (g4, st) ->
  heap g4 !! t = Some rt -> heap g4 !! st = Some stn ->
  fusable rt stn = true ->
  NoDup (LogicNode.arrows stn).
Proof.
  intros SI HMx Hrx Htx E Hrt Hstn Hfus.
  pose proof (lookup_lt_Some _ _ _ Hrx) as Hx.
  pose proof (si_len _ _ _ SI) as HN.
  destruct (simp_inv_enter g x rx SI HMx Hrx) as [SI3 _].
  assert (Ht : (t < length (heap gr))%nat).
  { destruct Hwf as (_ & _ & _ & R4). apply (R4 x rx t Hrx).
    left. rewrite Htx. left. reflexivity. }
  destruct (simplifyNode_inv f _ t g4 st E Ht SI3)
    as (SI4 & (Hmemo & _ & Hkeep & Hlive & _) & HMt).
  rewrite (si_raw _ _ _ SI4 t Ht) in Hrt.
  apply fusable_iff in Hfus as (Hty & Hsrc & _).
  assert (Hns3 : heap (simplifyNode_enter g x rx) !! length (heap g)
                 = Some (LogicNode.copy rx)).
  { unfold simplifyNode_enter. simpl. apply list_lookup_middle.
    reflexivity. }
  assert (Hin : In st (nodes g4)).
  { apply (fuse_target_live g4 x rx t rt (length (heap g)) st SI4 Hrx Htx
             Hrt Hty Hsrc).
    - apply Hmemo. unfold simplifyNode_enter. simpl.
      rewrite lookup_insert_ne by lia. apply lookup_insert_eq.
    - apply (Hlive _ (LogicNode.copy rx)); [|exact Hns3|reflexivity].
      unfold simplifyNode_enter. simpl. apply In_set_add. auto.
    - rewrite Hkeep; [exact Hns3|].
      apply lookup_lt_Some in Hns3. exact Hns3.
    - exact HMt. }
  destruct (si_live _ _ _ SI4 st Hin) as (y & n' & _ & _ & Hn' & Hch).
  assert (n' = stn) by congruence. subst n'.
  destruct Hch as (_ & _ & _ & _ & Hcell & _).
  apply NoDup_alt. intros i j c Hi Hj.
  destruct (Hcell i c Hi) as (_ & <-). destruct (Hcell j c Hj) as (_ & <-).
  reflexivity.
Qed.

End Simplification.

(** ** The compiled graph of a grid *)

(** The chunks of the raw graph are those of the grid, so an order of the
    one is an order of the other. *)
Lemma cells_in_raw m gr ks r :
  grid_ext m (chunks gr) -> ks ≡ₚ chunk_keys m ->
  In r (cells_in ks) <-> In r (all_cells (chunks gr)).
Proof.
  intros Hext Hks. rewrite (cells_in_keys m ks r Hks), !In_all_cells.
  split; intros (Hs & Hxy); (split; [|exact Hxy]).
  - destruct Hs as [ch Hch].
    destruct (proj2 Hext (fst r, (0, 0)) (getArrow ch 0 0))
      as (a' & Ha' & _).
    { unfold arrowAt. simpl. rewrite Hch. reflexivity. }
    apply (arrowAt_is_Some (chunks gr) (fst r, (0, 0))). eauto.
  - apply (proj1 Hext), Hs.
Qed.

Lemma compile_ok m ks fuel :
  fresh m -> ks ≡ₚ chunk_keys m -> (length (all_cells m) < fuel)%nat ->
  exists g, compile ks fuel m = Some g /\ compiled_ok m g.
Proof.
  intros Hf Hks Hfuel.
  destruct (createNodes_spec m ks fuel Hf Hks Hfuel)
    as (gr & Hgr & Hwf & Hext & Hframe & Hcomp & Hall).
  pose proof (createNodes_marked m ks fuel gr Hf Hgr) as Hrange.
  assert (Hnodes : nodes gr = []).
  { destruct Hframe as (_ & _ & Hn & _). exact Hn. }
  pose proof (raw_heap_bound m gr Hext Hwf Hrange) as Hbound.
  destruct (simplifyNodes_compiled m gr Hext Hwf Hcomp Hrange Hall ks fuel
              (fun r => cells_in_raw m gr ks r Hext Hks) Hnodes)
    as (g & Hg & Hok); [lia|].
  exists g. split; [|exact Hok]. unfold compile. rewrite Hgr. exact Hg.
Qed.

(** ** The two simulators on a compiled grid *)

Lemma agree_start m0 g0 :
  compiled_ok m0 g0 ->
  (forall c a, cell_of m0 c a ->
     signalCount a = 0%nat /\ cell_view g0 c = Some (active a)) ->
  agree m0 g0 m0 g0.
Proof.
  intros (K1 & K2 & K3) Hsame.
  split; [apply grid_dyn_refl|]. split.
  { intros c a Hc. apply (Hsame c a Hc). }
  split; [reflexivity|]. split; [reflexivity|]. split; [reflexivity|].
  split.
  { intros i n0 Hn0. exists n0. split; [exact Hn0|].
    unfold node_static. tauto. }
  split.
  { intros s n Hs Hn. destruct (K2 s Hs) as (n' & Hn' & Hnok).
    rewrite Hn in Hn'. injection Hn' as <-. apply Hnok. }
  intros c a Hc. apply (Hsame c a Hc).
Qed.

Lemma agree_from m0 g0 k :
  compiled_ok m0 g0 -> agree m0 g0 m0 g0 ->
  agree m0 g0 (Nat.iter k updateCA m0) (Nat.iter k updateNodes g0).
Proof.
  intros Hok H0. induction k as [|k IH]; simpl.
  - exact H0.
  - apply agree_step; assumption.
Qed.

Lemma agree_history m0 g0 m g s n j c a :
  compiled_ok m0 g0 -> agree m0 g0 m g ->
  In s (nodeArray g0) -> heap g !! s = Some n ->
  LogicNode.arrows n !! j = Some c -> arrowAt m c = Some a ->
  length (LogicNode.signals n) = length (LogicNode.arrows n)
  /\ LogicNode.signals n !! j = Some (active a).
Proof.
  intros (K1 & K2 & K3) (Hdyn & _ & Hch & _ & _ & Hst & _ & Hview)
         Hs Hn Hj Ha.
  destruct (K2 s Hs) as (n0 & Hn0 & Hnok).
  destruct (Hst s n0 Hn0) as (n' & Hn' & Harr & _ & _ & Hlen).
  assert (n' = n) by congruence. subst n'.
  destruct Hnok as (Hlen0 & _ & _ & _ & Hcell & _).
  split; [rewrite Hlen, Harr; exact Hlen0|].
  rewrite Harr in Hj. destruct (Hcell j c Hj) as ((a0 & Hc0) & Hpos).
  assert (Hc : cell_of m c a).
  { destruct Hc0 as (Ha0 & Hty & Hxy).
    destruct (proj2 Hdyn c a0 Ha0) as (a' & Ha' & Hty' & _).
    assert (a' = a) by congruence. subst a'.
    split; [exact Ha|]. split; [rewrite Hty'; exact Hty|exact Hxy]. }
  specialize (Hview c a Hc). unfold cell_view, position in Hview.
  unfold position in Hpos. rewrite Hch in Hview.
  destruct (arrowAt (chunks g0) c) as [b|]; [|discriminate].
  destruct (node b) as [nd|]; [|discriminate].
  injection Hpos as E1 E2. rewrite E1, E2, Hn in Hview. exact Hview.
Qed.

Lemma quiet_same m g :
  compiled_ok m g -> quiet m ->
  forall c a, cell_of m c a ->
    signalCount a = 0%nat /\ cell_view g c = Some (active a).
Proof.
  intros Hok Hq c a Hc.
  destruct (agree_init m g Hok Hq) as (_ & Hcount & _ & _ & _ & _ & _ & Hview).
  split; [apply (Hcount c a Hc)|apply (Hview c a Hc)].
Qed.

(** The cells of a grid made of one listed chunk. *)
Lemma getArrow_fold l x y : forall c0,
  getArrow (fold_left (fun c e => setArrow c (fst (fst e)) (snd (fst e))
                                           (snd e)) l c0) x y
  = getArrow c0 x y
  \/ In (getArrow (fold_left (fun c e => setArrow c (fst (fst e))
                                                  (snd (fst e)) (snd e))
                             l c0) x y)
        (List.map snd l).
Proof.
  induction l as [|e l IH]; intros c0; cbn [fold_left List.map].
  - left. reflexivity.
  - destruct (IH (setArrow c0 (fst (fst e)) (snd (fst e)) (snd e)))
      as [H|H].
    + rewrite H. unfold setArrow. simpl.
      destruct ((x =? fst (fst e)) && (y =? snd (fst e)));
        [right; left; reflexivity|left; reflexivity].
    + right. right. exact H.
Qed.

Lemma arrowAt_single k l r a :
  arrowAt {[ k := chunkOf l ]} r = Some a ->
  a = emptyArrow \/ In a (List.map snd l).
Proof.
  unfold arrowAt. destruct (decide (k = fst r)) as [<-|Hne].
  - rewrite lookup_singleton_eq. intros [= <-]. unfold chunkOf.
    destruct (getArrow_fold l (fst (snd r)) (snd (snd r)) emptyChunk)
      as [H|H]; [left; exact H|right; exact H].
  - rewrite lookup_singleton_ne by exact Hne. discriminate.
Qed.

Lemma arrowAt_insert (k : ChunkPos) (l : list (Z * Z * Arrow))
  (m : GameMap) (r : ArrowRef) (a : Arrow) :
  arrowAt (<[ k := chunkOf l ]> m) r = Some a ->
  a = emptyArrow \/ In a (List.map snd l) \/ arrowAt m r = Some a.
Proof.
  unfold arrowAt. destruct (decide (k = fst r)) as [<-|Hne].
  - rewrite lookup_insert_eq. intros [= <-]. unfold chunkOf.
    destruct (getArrow_fold l (fst (snd r)) (snd (snd r)) emptyChunk)
      as [H|H]; [left; exact H|right; left; exact H].
  - rewrite lookup_insert_ne by exact Hne. intros H. right. right. exact H.
Qed.

(** The two-chunk sample grid and its visit. *)
Lemma borderGrid_cells r a :
  arrowAt borderGrid r = Some a ->
  a = emptyArrow \/ a = plainArrow 1 3 1 \/ a = plainArrow 1 3 0.
Proof.
  intros H. apply arrowAt_insert in H. simpl in H.
  destruct H as [H|[[H|[H|[]]]|H]]; auto.
  apply arrowAt_single in H. simpl in H.
  destruct H as [H|[H|[H|[]]]]; auto.
Qed.

Lemma borderGrid_fresh : fresh borderGrid.
Proof.
  intros r a Ha. apply borderGrid_cells in Ha.
  destruct Ha as [->|[->| ->]]; split; reflexivity.
Qed.

Lemma borderGrid_quiet : quiet borderGrid.
Proof.
  intros r a Ha. apply borderGrid_cells in Ha.
  destruct Ha as [->|[->| ->]]; split; reflexivity.
Qed.

Lemma borderGrid_order : borderOrder ≡ₚ chunk_keys borderGrid.
Proof.
  apply NoDup_Permutation.
  - unfold borderOrder. apply NoDup_cons. split; [|apply NoDup_singleton].
    rewrite list_elem_of_singleton. discriminate.
  - unfold chunk_keys. apply NoDup_fst_map_to_list.
  - intros c. rewrite !list_elem_of_In, In_chunk_keys.
    unfold borderOrder, borderGrid. simpl.
    rewrite lookup_insert_is_Some, lookup_singleton_is_Some.
    destruct (decide ((1, 0) = c)), (decide ((0, 0) = c));
      intuition congruence.
Qed.

Lemma borderGrid_fuel : (length (all_cells borderGrid) < 513)%nat.
Proof. apply Nat.ltb_lt. vm_compute. reflexivity. Qed.

(** C1: a freshly loaded grid compiles (with enough fuel) to a graph [g] such
    that, when the two models start from the same cell states (every cell
    shows in [g] the value it has in the grid, and no signal is pending), then
    after any number [k] of ticks of [updateCA] on the grid and of
    [updateNodes] on [g], with no edit in between, every cell shows the same
    [active] value in both, the node model reading its cell at the cell's
    offset in the history of its node; and the history of every live node is,
    entry by entry, the row of the values of its cells, so a node of size S is
    the S-deep shift register of its S chained cells. The agreement holds at
    every [k], so in particular once [k] is at least the largest node size.
    This holds for every order [ks] in which the compiler may visit the chunks
    of the grid ([map.chunks] is visited in the order of insertion). *)
Theorem compiled_models_agree (m : GameMap) (ks : list ChunkPos)
  (fuel : nat) :
  fresh m -> ks ≡ₚ chunk_keys m ->
  (length (all_cells m) < fuel)%nat ->
  exists g,
    compile ks fuel m = Some g
    /\ ((forall c a, cell_of m c a ->
           signalCount a = 0%nat /\ cell_view g c = Some (active a)) ->
        forall k,
          (forall c a, cell_of (Nat.iter k updateCA m) c a ->
             cell_view (Nat.iter k updateNodes g) c = Some (active a))
          /\ (forall s n j c a, In s (nodeArray g) ->
                heap (Nat.iter k updateNodes g) !! s = Some n ->
                LogicNode.arrows n !! j = Some c ->
                arrowAt (Nat.iter k updateCA m) c = Some a ->
                length (LogicNode.signals n) = length (LogicNode.arrows n)
                /\ LogicNode.signals n !! j = Some (active a))).
Proof.
  intros Hfresh Hks Hfuel.
  destruct (compile_ok m ks fuel Hfresh Hks Hfuel) as (g & Hg & Hok).
  exists g. split; [exact Hg|]. intros Hsame k.
  pose proof (agree_from m g k Hok (agree_start m g Hok Hsame)) as Hag.
  split.
  - destruct Hag as (_ & _ & _ & _ & _ & _ & _ & Hview). exact Hview.
  - intros s n j c a Hs Hn Hj Ha.
    exact (agree_history m g _ _ s n j c a Hok Hag Hs Hn Hj Ha).
Qed.

Lemma compiled_models_agree_witness :
  exists g,
    compile borderOrder 513 borderGrid = Some g
    /\ forall k c a, cell_of (Nat.iter k updateCA borderGrid) c a ->
         cell_view (Nat.iter k updateNodes g) c = Some (active a).
Proof.
  destruct (compiled_models_agree borderGrid borderOrder 513
              borderGrid_fresh borderGrid_order borderGrid_fuel)
    as (g & Hg & Himp).
  exists g. split; [exact Hg|]. intros k. apply (Himp).
  destruct (compile_ok borderGrid borderOrder 513
              borderGrid_fresh borderGrid_order borderGrid_fuel)
    as (g' & Hg' & Hok).
  assert (g' = g) by congruence. subst g'.
  apply quiet_same; [exact Hok|exact borderGrid_quiet].
Defined.

(** ** What a visit of [simplifyNode] builds *)

Lemma simplifyCells_own fuel l : forall g g',
  simplifyCells fuel l (Some g) = Some g' ->
  all_own_cells (heap g) -> all_own_cells (heap g').
Proof.
  induction l as [|r l IH]; intros g g' H Hown.
  - injection H as <-. exact Hown.
  - unfold simplifyCells in H. cbn [fold_left] in H.
    match type of H with
    | fold_left ?F l ?x = _ =>
      change (fold_left F l x) with (simplifyCells fuel l x) in H
    end.
    destruct (arrowAt (chunks g) r) as [a|];
      [|rewrite simplifyCells_None in H; discriminate].
    destruct (node a) as [nd|]; [|exact (IH _ _ H Hown)].
    destruct (simplifyNode fuel g nd) as [[g1 s]|] eqn:E;
      [|rewrite simplifyCells_None in H; discriminate].
    apply (IH _ _ H).
    destruct (simplifyNode_frame _ _ _ _ _ E) as (_ & _ & N). auto.
Qed.

(** C4: at every point of the loop of [simplifyNodes] over a freshly
    loaded grid, whatever the order [ks] of the chunks and the number [k]
    of cells visited so far, the visit of a raw node [nd] not visited yet
    returns (with fuel above the number of cells) a finished node [s']
    with the function of [nd]. When [nd] has exactly one target, [s'] has
    grown beyond the cells of [nd] exactly when that target has function 0
    and one source and its compiled node [stn] is ready; then the cells of
    [stn] are appended, the size is the sum of the sizes, the targets are
    those of [stn], the offset of each appended cell has grown by the size
    of [nd], and [stn] has left the live set; otherwise [s'] keeps the
    cells of [nd] and has [stn] as its one target. A node with another
    number of targets keeps its own cells and gets one target per raw
    target. In [branchGrid], a grid of one chunk, the four-way cell
    compiles into a live one-cell node with four distinct targets. *)
Theorem simplifyNode_fuses_iff :
  (forall (m : GameMap) (ks : list ChunkPos) (f : nat),
    fresh m -> ks ≡ₚ chunk_keys m -> (length (all_cells m) <= f)%nat ->
    exists gr,
      createNodes ks (S f) (gameOf m) = Some gr
      /\ forall k, exists g,
           simplifyCells (S f) (take k (cells_in ks))
                         (Some (set_simplifiedNodes gr ∅)) = Some g
           /\ forall nd n,
                heap gr !! nd = Some n -> simplifiedNodes g !! nd = None ->
                exists g' sid s',
                  simplifyNode (S f) g nd = Some (g', sid)
                  /\ heap g' !! sid = Some s'
                  /\ LogicNode.ready s' = true
                  /\ LogicNode.type s' = LogicNode.type n
                  /\ (forall target, LogicNode.targets n = [target] ->
                      exists g4 st t stn,
                        simplifyNode f (simplifyNode_enter g nd n) target
                        = Some (g4, st)
                        /\ heap g4 !! target = Some t
                        /\ heap g4 !! st = Some stn
                        /\ (LogicNode.arrows s' <> LogicNode.arrows n <->
                            (LogicNode.type t = 0%nat
                             /\ length (LogicNode.sources t) = 1%nat
                             /\ LogicNode.ready stn = true))
                        /\ (fusable t stn = true ->
                            LogicNode.arrows s'
                            = LogicNode.arrows n ++ LogicNode.arrows stn
                            /\ LogicNode.size s'
                               = (LogicNode.size n + LogicNode.size stn)%nat
                            /\ LogicNode.targets s' = LogicNode.targets stn
                            /\ ~ In st (nodes g')
                            /\ (forall r, In r (LogicNode.arrows stn) ->
                                  offset <$> arrowAt (chunks g') r
                                  = (fun a =>
                                       (offset a + LogicNode.size n)%nat)
                                      <$> arrowAt (chunks g4) r))
                        /\ (fusable t stn = false ->
                            LogicNode.arrows s' = LogicNode.arrows n
                            /\ LogicNode.size s' = LogicNode.size n
                            /\ LogicNode.targets s' = [st]
                            /\ nodes g' = nodes g4
                            /\ chunks g' = chunks g4))
                  /\ (length (LogicNode.targets n) <> 1%nat ->
                      LogicNode.arrows s' = LogicNode.arrows n
                      /\ LogicNode.size s' = LogicNode.size n
                      /\ length (LogicNode.targets s')
                         = length (LogicNode.targets n)))
  /\ (exists g a nd s,
        compile [(0, 0)] 10 branchGrid = Some g
        /\ arrowAt (chunks g) ((0, 0), (5, 5)) = Some a
        /\ node a = Some nd /\ heap g !! nd = Some s
        /\ In nd (nodeArray g)
        /\ LogicNode.arrows s = [((0, 0), (5, 5))]
        /\ length (LogicNode.targets s) = 4%nat
        /\ NoDup (LogicNode.targets s)).
Proof.
  split.
  - intros m ks f Hf Hks Hfuel.
    destruct (createNodes_spec m ks (S f) Hf Hks)
      as (gr & Hgr & Hwf & Hext & Hframe & Hcomp & Hall); [lia|].
    pose proof (createNodes_marked m ks (S f) gr Hf Hgr) as Hrange.
    assert (Hnodes : nodes gr = []).
    { destruct Hframe as (_ & _ & Hn & _). exact Hn. }
    pose proof (raw_heap_bound m gr Hext Hwf Hrange) as Hbound.
    exists gr. split; [exact Hgr|]. intros k.
    destruct (simplifyCells_inv m gr Hext Hwf Hcomp Hrange Hall (S f)
                (take k (cells_in ks)) (set_simplifiedNodes gr ∅))
      as (g & Hg & SI & _).
    { lia. }
    { intros r Hr. apply list_elem_of_In, elem_of_take in Hr
        as (i & Hi & _).
      apply list_elem_of_lookup_2, list_elem_of_In in Hi.
      apply (cells_in_raw m gr ks r Hext Hks), In_all_cells in Hi. tauto. }
    { apply simp_inv_init; assumption. }
    { intros i n Hi Hn. simpl in Hn. apply lookup_lt_Some in Hn. lia. }
    exists g. split; [exact Hg|]. intros nd n Hn Hmemo.
    pose proof (lookup_lt_Some _ _ _ Hn) as Hx.
    destruct (simplifyNode_total m gr Hext Hwf Hcomp Hrange Hall f g nd SI Hx)
      as (g' & sid & E).
    { pose proof (unvisited_bound (length (heap gr)) g). lia. }
    assert (Hng : heap g !! nd = Some n).
    { rewrite (si_raw _ _ _ SI nd Hx). exact Hn. }
    assert (Hown : all_own_cells (heap g)).
    { apply (simplifyCells_own _ _ _ _ Hg). simpl.
      intros i x Hi. destruct Hwf as (_ & W & _).
      destruct (W i x Hi) as (_ & _ & _ & _ & r & -> & _). discriminate. }
    destruct (simplifyNode_first_visit f g nd n g' sid Hmemo Hng Hown E)
      as (s' & Hs' & Hready & Hty & Hone & Hmany).
    exists g', sid, s'. split; [exact E|]. split; [exact Hs'|].
    split; [exact Hready|]. split; [exact Hty|]. split; [|exact Hmany].
    intros target Htarget.
    destruct (Hone target Htarget)
      as (g4 & st & t & stn & E4 & Ht & Hst & Hiff & Hfused & Hlinked).
    exists g4, st, t, stn. split; [exact E4|]. split; [exact Ht|].
    split; [exact Hst|]. split; [exact Hiff|]. split; [|exact Hlinked].
    intros Hfus.
    destruct (Hfused Hfus) as (F1 & F2 & F3 & F4 & F5).
    split; [exact F1|]. split; [exact F2|]. split; [exact F3|].
    split; [exact F4|]. apply F5.
    apply (fused_target_NoDup m gr Hext Hwf Hcomp Hrange Hall f g nd n
             target g4 st t stn SI Hmemo Hn Htarget E4 Ht Hst Hfus).
  - do 4 eexists.
    split; [vm_compute; reflexivity|].
    split; [vm_compute; reflexivity|].
    split; [reflexivity|].
    split; [vm_compute; reflexivity|].
    split; [vm_compute; tauto|].
    split; [reflexivity|]. split; [reflexivity|].
    apply (bool_decide_unpack _). vm_compute. reflexivity.
Qed.

Lemma simplifyNode_fuses_iff_witness :
  exists g' sid s',
    simplifyNode 257 inverterHalf 1 = Some (g', sid)
    /\ heap g' !! sid = Some s'
    /\ LogicNode.arrows s' = [((0, 0), (3, 5)); ((0, 0), (3, 4))]
    /\ LogicNode.size s' = 2%nat
    /\ ~ In 2%nat (nodes g').
Proof.
  assert (Hfresh : fresh inverterGrid).
  { intros r a Ha. apply arrowAt_single in Ha. simpl in Ha.
    destruct Ha as [->|[<-|[<-|[]]]]; split; reflexivity. }
  assert (Hks : [(0, 0)] ≡ₚ chunk_keys inverterGrid).
  { unfold chunk_keys, inverterGrid. rewrite map_to_list_singleton.
    reflexivity. }
  assert (Hfuel : (length (all_cells inverterGrid) <= 256)%nat).
  { apply Nat.leb_le. vm_compute. reflexivity. }
  destruct (proj1 simplifyNode_fuses_iff inverterGrid [(0, 0)] 256%nat
              Hfresh Hks Hfuel) as (gr & Hgr & Hloop).
  assert (Eraw : createNodes [(0, 0)] 257 (gameOf inverterGrid)
                 = Some inverterRaw) by (vm_compute; reflexivity).
  rewrite Eraw in Hgr. injection Hgr as <-.
  destruct (Hloop 68%nat) as (g & Hg & Hvisit).
  assert (Ehalf : simplifyCells 257 (take 68 (cells_in [(0, 0)]))
                    (Some (set_simplifiedNodes inverterRaw ∅))
                  = Some inverterHalf) by (vm_compute; reflexivity).
  rewrite Ehalf in Hg. injection Hg as <-.
  destruct (Hvisit 1%nat (LogicNode.mk [((0, 0), (3, 5))] 2 1 false
                            [0%nat] [] [false] 0 false 0))
    as (g' & sid & s' & E & Hs' & _ & _ & Hone & _).
  { vm_compute. reflexivity. }
  { vm_compute. reflexivity. }
  destruct (Hone 0%nat eq_refl)
    as (g4 & st & t & stn & E4 & Ht & Hst & _ & Hfused & _).
  assert (E4' : simplifyNode 256
                  (simplifyNode_enter inverterHalf 1
                     (LogicNode.mk [((0, 0), (3, 5))] 2 1 false
                        [0%nat] [] [false] 0 false 0)) 0
                = Some (simplifyNode_enter inverterHalf 1
                          (LogicNode.mk [((0, 0), (3, 5))] 2 1 false
                             [0%nat] [] [false] 0 false 0), 2%nat))
    by (vm_compute; reflexivity).
  rewrite E4' in E4. injection E4 as <- <-.
  assert (Ht' : heap (simplifyNode_enter inverterHalf 1
                        (LogicNode.mk [((0, 0), (3, 5))] 2 1 false
                           [0%nat] [] [false] 0 false 0)) !! 0%nat
                = Some (LogicNode.mk [((0, 0), (3, 4))] 0 1 false
                          [] [1%nat] [false] 0 false 0))
    by (vm_compute; reflexivity).
  rewrite Ht' in Ht. injection Ht as <-.
  assert (Hst' : heap (simplifyNode_enter inverterHalf 1
                         (LogicNode.mk [((0, 0), (3, 5))] 2 1 false
                            [0%nat] [] [false] 0 false 0)) !! 2%nat
                 = Some (LogicNode.mk [((0, 0), (3, 4))] 0 1 true
                           [] [] [false] 0 false 0))
    by (vm_compute; reflexivity).
  rewrite Hst' in Hst. injection Hst as <-.
  destruct (Hfused eq_refl) as (Harr & Hsize & _ & Hdead & _).
  exists g', sid, s'. split; [exact E|]. split; [exact Hs'|].
  split; [exact Harr|]. split; [exact Hsize|exact Hdead].
Defined.

(** ** Edits of the logic function *)

Lemma position_alterArrow g r f c :
  (forall a, node (f a) = node a /\ offset (f a) = offset a) ->
  position (alterArrow g r f) c = position g c.
Proof.
  intros Hf. unfold position, alterArrow. simpl.
  rewrite arrowAt_updateArrow. destruct (decide (r = c)) as [->|]; [|auto].
  destruct (arrowAt (chunks g) c) as [a|]; simpl; [|reflexivity].
  destruct (Hf a) as [-> ->]. reflexivity.
Qed.

Lemma fold_replace_source old new ts : forall g,
  chunks (fold_left (fun g' t => alterNode g' t (replace_source old new))
                    ts g) = chunks g
  /\ nodes (fold_left (fun g' t => alterNode g' t (replace_source old new))
                      ts g) = nodes g
  /\ length (heap (fold_left
                     (fun g' t => alterNode g' t (replace_source old new))
                     ts g)) = length (heap g)
  /\ forall i n, heap g !! i = Some n ->
       exists n',
         heap (fold_left
                 (fun g' t => alterNode g' t (replace_source old new))
                 ts g) !! i = Some n'
         /\ LogicNode.arrows n' = LogicNode.arrows n
         /\ LogicNode.type n' = LogicNode.type n
         /\ LogicNode.size n' = LogicNode.size n.
Proof.
  induction ts as [|t ts IH]; intros g; cbn [fold_left].
  - repeat split; auto. intros i n Hn. exists n. auto.
  - destruct (IH (alterNode g t (replace_source old new)))
      as (Hc & Hn & Hl & Hh).
    rewrite Hc, Hn, Hl. unfold alterNode. simpl.
    rewrite length_alter. repeat split; auto.
    intros i n Hi.
    destruct (Hh i (if decide (t = i) then replace_source old new n else n))
      as (n' & Hn' & A & T & S).
    { unfold alterNode. simpl. destruct (decide (t = i)) as [->|Hne].
      - rewrite list_lookup_alter_eq, Hi. reflexivity.
      - rewrite list_lookup_alter_ne by exact Hne. exact Hi. }
    exists n'. split; [exact Hn'|].
    rewrite A, T, S. destruct (decide (t = i)); auto.
Qed.

(** What a cut inside a node leaves behind. *)
Lemma splitNode_cut g nd n off :
  heap g !! nd = Some n ->
  NoDup (LogicNode.arrows n) ->
  (0 < off < LogicNode.size n)%nat ->
  exists g1,
    splitNode g (Some nd) off
    = Some (g1, (Some nd, Some (length (heap g))))
    /\ nodes g1 = set_add (length (heap g)) (nodes g)
    /\ (exists f, heap g1 !! nd = Some f
          /\ LogicNode.arrows f = take off (LogicNode.arrows n)
          /\ LogicNode.type f = LogicNode.type n
          /\ LogicNode.size f = off)
    /\ (exists b, heap g1 !! length (heap g) = Some b
          /\ LogicNode.arrows b = drop off (LogicNode.arrows n)
          /\ LogicNode.type b = 0%nat
          /\ LogicNode.size b = (LogicNode.size n - off)%nat)
    /\ (forall i x, i <> nd -> heap g !! i = Some x ->
          exists x', heap g1 !! i = Some x'
            /\ LogicNode.arrows x' = LogicNode.arrows x
            /\ LogicNode.type x' = LogicNode.type x
            /\ LogicNode.size x' = LogicNode.size x)
    /\ (forall c,
          arrowAt (chunks g1) c
          = if bool_decide (c ∈ drop off (LogicNode.arrows n))
            then moveCell (length (heap g)) off <$> arrowAt (chunks g) c
            else arrowAt (chunks g) c).
Proof.
  intros Hn Hnd Hoff. unfold splitNode. rewrite Hn.
  destruct (off =? 0)%nat eqn:E0; [apply Nat.eqb_eq in E0; lia|].
  destruct (LogicNode.size n <=? off)%nat eqn:E1;
    [apply Nat.leb_le in E1; lia|].
  eexists. split; [reflexivity|].
  pose proof (lookup_lt_Some _ _ _ Hn) as Hlt.
  match goal with
  | |- context [fold_left _ (LogicNode.targets n) ?g0] => set (g1 := g0)
  end.
  destruct (fold_replace_source nd (length (heap g)) (LogicNode.targets n)
              g1) as (Hc & Hns & Hl & Hh).
  match goal with
  | |- context [fold_left ?f (drop off (LogicNode.arrows n)) ?g0] =>
    destruct (fold_alterArrow_fields (moveCell (length (heap g)) off)
                (drop off (LogicNode.arrows n)) g0) as (Fh & Fn & _ & Fc)
  end.
  cbn [nodes heap chunks set_nodes].
  rewrite Fh, Fn, Fc, Hns, Hc. subst g1. cbn [nodes chunks set_heap].
  split; [reflexivity|]. split; [|split; [|split]].
  - edestruct (Hh nd) as (f & Hf & A & T & S).
    { cbn [heap set_heap]. rewrite lookup_app_l
        by (rewrite length_insert; exact Hlt).
      apply list_lookup_insert_eq. exact Hlt. }
    exists f. split; [exact Hf|]. rewrite A, T, S. auto.
  - edestruct (Hh (length (heap g))) as (b & Hb & A & T & S).
    { cbn [heap set_heap]. rewrite lookup_app_r
        by (rewrite length_insert; lia).
      rewrite length_insert, Nat.sub_diag. reflexivity. }
    exists b. split; [exact Hb|]. rewrite A, T, S. auto.
  - intros i x Hi Hx. apply (Hh i x). cbn [heap set_heap].
    rewrite lookup_app_l
      by (rewrite length_insert; apply (lookup_lt_Some _ _ _ Hx)).
    rewrite list_lookup_insert_ne by congruence. exact Hx.
  - intros c. apply fold_updateArrow.
    eapply sublist_NoDup; [exact Hnd|apply sublist_drop].
Qed.

Lemma position_moveCell g g1 back off c :
  (forall c',
     arrowAt (chunks g1) c'
     = moveCell back off <$> arrowAt (chunks g) c') ->
  position g1 c
  = match arrowAt (chunks g) c with
    | Some a => Some (back, (offset a - off)%nat)
    | None => None
    end.
Proof.
  intros H. unfold position. rewrite H.
  destruct (arrowAt (chunks g) c); reflexivity.
Qed.

Lemma same_cells_refl g : same_cells g g.
Proof. intros c. destruct (arrowAt (chunks g) c); auto. Qed.

(** The cut after the first cell: that cell is left alone in the node, and
    no cell of the node is lost. *)
Lemma isolateHead_spec g s n r :
  heap g !! s = Some n ->
  LogicNode.size n = length (LogicNode.arrows n) ->
  NoDup (LogicNode.arrows n) ->
  (forall j c, LogicNode.arrows n !! j = Some c ->
     position g c = Some (s, j)) ->
  LogicNode.arrows n !! 0%nat = Some r ->
  In s (nodes g) ->
  exists gi,
    isolateHead g s = Some gi
    /\ sole_cell gi r s
    /\ (forall c, In c (LogicNode.arrows n) -> owned gi c)
    /\ (forall c, ~ In c (LogicNode.arrows n) ->
          arrowAt (chunks gi) c = arrowAt (chunks g) c)
    /\ (forall i x, i <> s -> heap g !! i = Some x ->
          exists x', heap gi !! i = Some x'
            /\ LogicNode.arrows x' = LogicNode.arrows x
            /\ LogicNode.type x' = LogicNode.type x
            /\ LogicNode.size x' = LogicNode.size x)
    /\ (forall x, In x (nodes g) -> In x (nodes gi))
    /\ (exists ni, heap gi !! s = Some ni
          /\ LogicNode.type ni = LogicNode.type n)
    /\ same_cells g gi.
Proof.
  intros Hn Hsz Hnd Hcells Hr Hlive. unfold isolateHead. rewrite Hn.
  destruct (LogicNode.arrows n) as [|r0 l] eqn:Harr; [discriminate|].
  injection Hr as ->.
  destruct (1 <? LogicNode.size n)%nat eqn:E.
  - apply Nat.ltb_lt in E.
    destruct (splitNode_cut g s n 1 Hn) as
      (g1 & Hsplit & Hnodes & (f & Hf & Af & Tf & Sf)
          & (b & Hb & Ab & Tb & Sb) & Hframe & Hat).
    { rewrite Harr. exact Hnd. }
    { lia. }
    rewrite Harr in Af, Ab, Hat. simpl in Af, Ab, Hat.
    rewrite take_0 in Af. rewrite drop_0 in Ab, Hat.
    apply NoDup_cons in Hnd as [Hrl Hl].
    exists g1. rewrite Hsplit. split; [reflexivity|].
    assert (Hposr : position g1 r = Some (s, 0%nat)).
    { unfold position. rewrite Hat.
      rewrite bool_decide_eq_false_2 by exact Hrl.
      apply (Hcells 0%nat r). reflexivity. }
    assert (Hs1 : In s (nodes g1)).
    { rewrite Hnodes. apply In_set_add. auto. }
    split; [|split; [|split; [|split; [|split; [|split]]]]].
    + split; [exact Hposr|]. split; [exact Hs1|].
      exists f. auto.
    + intros c [<-|Hc].
      * exists s, 0%nat, f. rewrite Af. auto.
      * apply list_elem_of_In, list_elem_of_lookup in Hc as [j Hj].
        exists (length (heap g)), j, b.
        split; [|split; [|split]].
        -- unfold position. rewrite Hat.
           rewrite bool_decide_eq_true_2
             by (apply list_elem_of_lookup; eauto).
           specialize (Hcells (S j) c Hj). unfold position in Hcells.
           destruct (arrowAt (chunks g) c) as [a|]; [|discriminate].
           simpl. destruct (node a); [|discriminate].
           injection Hcells as _ ->. f_equal. f_equal. lia.
        -- rewrite Hnodes. apply In_set_add. auto.
        -- exact Hb.
        -- rewrite Ab. exact Hj.
    + intros c Hc. rewrite Hat. rewrite bool_decide_eq_false_2; [reflexivity|].
      intros H. apply Hc. right. apply list_elem_of_In. exact H.
    + exact Hframe.
    + intros x Hx. rewrite Hnodes. apply In_set_add. auto.
    + exists f. auto.
    + intros c. rewrite Hat.
      destruct (bool_decide (c ∈ l)); destruct (arrowAt (chunks g) c);
        simpl; auto.
  - apply Nat.ltb_ge in E. simpl in Hsz.
    assert (l = []) by (destruct l; [reflexivity|simpl in Hsz; lia]).
    subst l. exists g. split; [reflexivity|].
    split; [|split; [|split; [|split; [|split; [|split]]]]].
    + split; [apply (Hcells 0%nat r); reflexivity|]. split; [exact Hlive|].
      exists n. rewrite Harr. auto.
    + intros c [<-|[]]. exists s, 0%nat, n.
      split; [apply (Hcells 0%nat r); reflexivity|].
      rewrite Harr. auto.
    + auto.
    + intros i x _ Hx. exists x. auto.
    + auto.
    + exists n. auto.
    + apply same_cells_refl.
Qed.

Lemma same_cells_trans g1 g2 g3 :
  same_cells g1 g2 -> same_cells g2 g3 -> same_cells g1 g3.
Proof.
  intros H1 H2 c. specialize (H1 c). specialize (H2 c).
  destruct (arrowAt (chunks g1) c), (arrowAt (chunks g2) c),
    (arrowAt (chunks g3) c); try tauto.
  intuition congruence.
Qed.

(** The split [game.ts] asks for at the offset of a cell, followed by the
    split of [updateNode] on the second node returned: the cell is left
    alone in that node. *)
Lemma split_then_isolate g r a nd n :
  arrowAt (chunks g) r = Some a ->
  heap g !! nd = Some n -> In nd (nodes g) ->
  LogicNode.size n = length (LogicNode.arrows n) ->
  NoDup (LogicNode.arrows n) ->
  (forall j c, LogicNode.arrows n !! j = Some c ->
     position g c = Some (nd, j)) ->
  LogicNode.arrows n !! offset a = Some r ->
  exists g1 front s gi,
    splitNode g (Some nd) (offset a) = Some (g1, (front, Some s))
    /\ isolateHead g1 s = Some gi
    /\ sole_cell gi r s
    /\ (forall c, In c (LogicNode.arrows n) -> owned gi c)
    /\ same_cells g gi
    /\ ((1 < LogicNode.size n)%nat ->
        (length (heap g) < length (heap gi))%nat).
Proof.
  intros Ha Hn Hlive Hsz Hnd Hcells Hr.
  destruct (offset a) as [|k] eqn:Hoff.
  - destruct (isolateHead_spec g nd n r Hn Hsz Hnd Hcells Hr Hlive)
      as (gi & Hgi & Hsole & Hown & _ & _ & _ & _ & Hsame).
    exists g, None, nd, gi.
    split; [unfold splitNode; rewrite Hn; reflexivity|].
    split; [exact Hgi|]. split; [exact Hsole|]. split; [exact Hown|].
    split; [exact Hsame|].
    intros Hbig. unfold isolateHead in Hgi. rewrite Hn in Hgi.
    apply Nat.ltb_lt in Hbig. rewrite Hbig in Hgi.
    destruct (splitNode_cut g nd n 1 Hn Hnd) as (g1 & Hs & _ & _ & Hb & _).
    { apply Nat.ltb_lt in Hbig. lia. }
    rewrite Hs in Hgi. injection Hgi as <-.
    destruct Hb as (b & Hb & _). apply lookup_lt_Some in Hb. exact Hb.
  - pose proof (lookup_lt_Some _ _ _ Hr) as Hlt.
    pose proof (lookup_lt_Some _ _ _ Hn) as Hndlt.
    destruct (splitNode_cut g nd n (S k) Hn Hnd) as
      (g1 & Hsplit & Hnodes & (f & Hf & Af & Tf & Sf)
          & (b & Hb & Ab & Tb & Sb) & Hframe & Hat); [lia|].
    assert (Hsame1 : same_cells g g1).
    { intros c. rewrite Hat.
      destruct (bool_decide _); destruct (arrowAt (chunks g) c);
        simpl; auto. }
    assert (Hbcells : forall j c, LogicNode.arrows b !! j = Some c ->
              position g1 c = Some (length (heap g), j)).
    { intros j c Hj. rewrite Ab, lookup_drop in Hj.
      unfold position. rewrite Hat.
      rewrite bool_decide_eq_true_2.
      2:{ apply list_elem_of_lookup. exists j. rewrite lookup_drop.
          exact Hj. }
      specialize (Hcells _ c Hj). unfold position in Hcells.
      destruct (arrowAt (chunks g) c) as [ac|]; [|discriminate].
      simpl. destruct (node ac); [|discriminate].
      injection Hcells as _ ->. f_equal. f_equal. lia. }
    destruct (isolateHead_spec g1 (length (heap g)) b r Hb)
      as (gi & Hgi & Hsole & Hown & Hfr & Hhf & Hnf & _ & Hsame).
    { rewrite Sb, Ab, length_drop. lia. }
    { rewrite Ab. eapply sublist_NoDup; [exact Hnd|apply sublist_drop]. }
    { exact Hbcells. }
    { rewrite Ab, lookup_drop, Nat.add_0_r. exact Hr. }
    { rewrite Hnodes. apply In_set_add. auto. }
    exists g1, (Some nd), (length (heap g)), gi.
    split; [exact Hsplit|]. split; [exact Hgi|]. split; [exact Hsole|].
    split; [|split; [exact (same_cells_trans _ _ _ Hsame1 Hsame)|]].
    + intros c Hc.
      apply list_elem_of_In, list_elem_of_lookup in Hc as [j Hj].
      destruct (le_lt_dec (S k) j) as [Hge|Hlow].
      * apply Hown. rewrite Ab. apply list_elem_of_In, list_elem_of_lookup.
        exists (j - S k)%nat. rewrite lookup_drop.
        replace (S k + (j - S k))%nat with j by lia. exact Hj.
      * assert (Hnotin : ~ In c (LogicNode.arrows b)).
        { rewrite Ab. intros Hin.
          apply list_elem_of_In, list_elem_of_lookup in Hin as [j' Hj'].
          rewrite lookup_drop in Hj'.
          pose proof (NoDup_lookup _ _ _ _ Hnd Hj Hj'). lia. }
        destruct (Hhf nd f) as (f' & Hf' & Af' & _); [lia|exact Hf|].
        exists nd, j, f'. split; [|split; [|split]].
        -- unfold position. rewrite (Hfr c Hnotin), Hat.
           rewrite bool_decide_eq_false_2.
           2:{ rewrite <- Ab. rewrite list_elem_of_In. exact Hnotin. }
           apply (Hcells j c Hj).
        -- apply Hnf. rewrite Hnodes. apply In_set_add. auto.
        -- exact Hf'.
        -- rewrite Af', Af. rewrite lookup_take_lt by lia. exact Hj.
    + intros _. destruct Hsole as (_ & _ & ni & Hni & _).
      destruct (Hhf nd f) as (f' & Hf' & _); [lia|exact Hf|].
      assert (Hb' : is_Some (heap g1 !! length (heap g))) by eauto.
      apply lookup_lt_is_Some in Hb'.
      clear - Hgi Hb' Hb.
      unfold isolateHead in Hgi. rewrite Hb in Hgi.
      destruct (1 <? LogicNode.size b)%nat.
      * unfold splitNode in Hgi. rewrite Hb in Hgi. simpl in Hgi.
        destruct (LogicNode.size b <=? 1)%nat; [discriminate|].
        simpl in Hgi. injection Hgi as <-. cbn [heap set_nodes].
        rewrite (proj1 (fold_alterArrow_fields _ _ _)).
        destruct (fold_replace_source (length (heap g)) (length (heap g1))
                    (LogicNode.targets b)
                    (set_heap g1
                       (<[length (heap g) :=
                            LogicNode.mk (take 1 (LogicNode.arrows b))
                              (LogicNode.type b) 1 (LogicNode.ready b)
                              [length (heap g1)] (LogicNode.sources b)
                              (take 1 (LogicNode.signals b))
                              (LogicNode.signalCount b)
                              (LogicNode.lastSignal b)
                              (LogicNode.lastSignalCount b)]> (heap g1)
                        ++ [LogicNode.mk (drop 1 (LogicNode.arrows b)) 0
                              (LogicNode.size b - 1) (LogicNode.ready b)
                              (LogicNode.targets b) [length (heap g)]
                              (drop 1 (LogicNode.signals b)) 0 false 0])))
          as (_ & _ & Hl & _).
        rewrite Hl. cbn [heap set_heap].
        rewrite length_app, length_insert. simpl. lia.
      * injection Hgi as <-. lia.
Qed.

Lemma sole_cell_applied gi r s fn :
  sole_cell gi r s ->
  sole_cell (refreshNodeArray (applyFunction gi s fn)) r s
  /\ LogicNode.type
       <$> heap (refreshNodeArray (applyFunction gi s fn)) !! s = Some fn
  /\ In s (nodeArray (refreshNodeArray (applyFunction gi s fn))).
Proof.
  intros (Hp & Hl & n & Hn & Ha & Hs).
  unfold refreshNodeArray, applyFunction, alterNode, sole_cell, position.
  cbn [chunks heap nodes nodeArray set_nodeArray set_heap].
  rewrite list_lookup_alter_eq, Hn. simpl.
  split; [|split; [reflexivity|exact Hl]].
  split; [exact Hp|]. split; [exact Hl|].
  eexists. split; [reflexivity|]. simpl. auto.
Qed.

Lemma owned_applied gi s fn c :
  owned gi c -> owned (refreshNodeArray (applyFunction gi s fn)) c.
Proof.
  intros (s' & k & n & Hp & Hl & Hn & Hk).
  exists s', k, (if decide (s = s') then set_type fn n else n).
  split; [exact Hp|]. split; [exact Hl|].
  unfold refreshNodeArray, applyFunction, alterNode.
  cbn [chunks heap nodes nodeArray set_nodeArray set_heap].
  destruct (decide (s = s')) as [->|Hne].
  - rewrite list_lookup_alter_eq, Hn. auto.
  - rewrite list_lookup_alter_ne by exact Hne. auto.
Qed.

Lemma same_cells_medal g g' c :
  same_cells g g' ->
  medalType <$> arrowAt (chunks g') c = medalType <$> arrowAt (chunks g) c.
Proof.
  intros H. specialize (H c).
  destruct (arrowAt (chunks g) c), (arrowAt (chunks g') c);
    simpl; try tauto.
  destruct H as (_ & _ & _ & -> & _). reflexivity.
Qed.

(** The state in which the two edit paths call for the cuts: the new
    function is stored in the cell, the graph is as it was. *)
Lemma setMedalType_stage g r a nd n fn :
  arrowAt (chunks g) r = Some a ->
  heap g !! nd = Some n ->
  (forall j c, LogicNode.arrows n !! j = Some c ->
     position g c = Some (nd, j)) ->
  arrowAt (chunks (alterArrow g r (setMedalType fn))) r
  = Some (setMedalType fn a)
  /\ heap (alterArrow g r (setMedalType fn)) !! nd = Some n
  /\ (forall j c, LogicNode.arrows n !! j = Some c ->
        position (alterArrow g r (setMedalType fn)) c = Some (nd, j))
  /\ (forall c, c <> r ->
        arrowAt (chunks (alterArrow g r (setMedalType fn))) c
        = arrowAt (chunks g) c).
Proof.
  intros Ha Hn Hcells. split; [|split; [exact Hn|split]].
  - unfold alterArrow. simpl. rewrite arrowAt_updateArrow_eq, Ha.
    reflexivity.
  - intros j c Hj. rewrite position_alterArrow; [apply Hcells, Hj|].
    intros a0. split; reflexivity.
  - intros c Hne. unfold alterArrow. simpl.
    apply arrowAt_updateArrow_ne. congruence.
Qed.

(** C8: both paths of [updatePlayerInput] that change the function of a
    cell leave the cell alone in a node before the function is set on that
    node. The cell [r] belongs to the live node [nd], which lists its
    cells once each, at the offsets they record. Placing a medal (lines
    647-654, a medal other than 0 being selected) stores the medal in the
    cell, cuts the node at the offset of the cell, and hands the second
    node [s] of the cut to [updateNode], whose own cut leaves in [gi] the
    cell as the only cell of [s]; the game [g'] the path returns is [gi]
    with the medal set as the function of [s] and the flat list redrawn.
    [KeyR] over a cell with a function (lines 676-679), in a graph where
    only the first cell of a node has a function, stores 0 and hands the
    node to [updateNode], with the same outcome. Either way the heap has
    grown by a node when the cell was not the only cell of its node, every
    cell of the old node still belongs to a live node at the offset it
    records, and no other cell has changed its function. The cuts are
    those of [splitNode] and [updateNode] as the specification describes
    them. *)
Theorem medal_edit_isolates (g : Game) (r : ArrowRef) (a : Arrow)
    (nd : NodeId) (n : LogicNode.t) :
  arrowAt (chunks g) r = Some a -> (0 < arrowType a)%nat ->
  node a = Some nd -> heap g !! nd = Some n -> In nd (nodes g) ->
  LogicNode.size n = length (LogicNode.arrows n) ->
  NoDup (LogicNode.arrows n) ->
  (forall j c, LogicNode.arrows n !! j = Some c ->
     position g c = Some (nd, j)) ->
  LogicNode.arrows n !! offset a = Some r ->
  (forall medal, medal <> 0%nat ->
     exists g1 front s gi g',
       splitNode (alterArrow g r (setMedalType medal)) (Some nd) (offset a)
       = Some (g1, (front, Some s))
       /\ isolateHead g1 s = Some gi
       /\ sole_cell gi r s
       /\ g' = refreshNodeArray (applyFunction gi s medal)
       /\ placeMedal g r medal = Some g'
       /\ sole_cell g' r s
       /\ In s (nodeArray g')
       /\ LogicNode.type <$> heap g' !! s = Some medal
       /\ medalType <$> arrowAt (chunks g') r = Some medal
       /\ ((1 < LogicNode.size n)%nat ->
           (length (heap g) < length (heap g'))%nat)
       /\ (forall c, In c (LogicNode.arrows n) -> owned g' c)
       /\ (forall c, c <> r ->
             medalType <$> arrowAt (chunks g') c
             = medalType <$> arrowAt (chunks g) c))
  /\ (medalType a <> 0%nat ->
      (forall j c ac, LogicNode.arrows n !! S j = Some c ->
         arrowAt (chunks g) c = Some ac -> medalType ac = 0%nat) ->
      exists gi g',
        isolateHead (alterArrow g r (setMedalType 0)) nd = Some gi
        /\ sole_cell gi r nd
        /\ g' = refreshNodeArray (applyFunction gi nd 0)
        /\ removeMedalOrArrow g r = KeyR_medal (Some g')
        /\ sole_cell g' r nd
        /\ In nd (nodeArray g')
        /\ LogicNode.type <$> heap g' !! nd = Some 0%nat
        /\ medalType <$> arrowAt (chunks g') r = Some 0%nat
        /\ ((1 < LogicNode.size n)%nat ->
            (length (heap g) < length (heap g'))%nat)
        /\ (forall c, In c (LogicNode.arrows n) -> owned g' c)
        /\ (forall c, c <> r ->
              medalType <$> arrowAt (chunks g') c
              = medalType <$> arrowAt (chunks g) c)).
Proof.
  intros Ha Hpos Hnode Hn Hlive Hsz Hnd Hcells Hr.
  assert (Hstage : forall fn,
    exists g1 front s gi,
      splitNode (alterArrow g r (setMedalType fn)) (Some nd) (offset a)
      = Some (g1, (front, Some s))
      /\ isolateHead g1 s = Some gi
      /\ sole_cell gi r s
      /\ sole_cell (refreshNodeArray (applyFunction gi s fn)) r s
      /\ In s (nodeArray (refreshNodeArray (applyFunction gi s fn)))
      /\ LogicNode.type
           <$> heap (refreshNodeArray (applyFunction gi s fn)) !! s
         = Some fn
      /\ medalType
           <$> arrowAt (chunks (refreshNodeArray (applyFunction gi s fn))) r
         = Some fn
      /\ ((1 < LogicNode.size n)%nat ->
          (length (heap g)
           < length (heap (refreshNodeArray (applyFunction gi s fn))))%nat)
      /\ (forall c, In c (LogicNode.arrows n) ->
            owned (refreshNodeArray (applyFunction gi s fn)) c)
      /\ (forall c, c <> r ->
            medalType
              <$> arrowAt
                    (chunks (refreshNodeArray (applyFunction gi s fn))) c
            = medalType <$> arrowAt (chunks g) c)).
  { intros fn.
    destruct (setMedalType_stage g r a nd n fn Ha Hn Hcells)
      as (Ha0 & Hn0 & Hcells0 & Hother).
    destruct (split_then_isolate (alterArrow g r (setMedalType fn)) r
                (setMedalType fn a) nd n Ha0 Hn0 Hlive Hsz Hnd Hcells0 Hr)
      as (g1 & front & s & gi & Hsplit & Hgi & Hsole & Hown & Hsame & Hbig).
    exists g1, front, s, gi.
    destruct (sole_cell_applied gi r s fn Hsole) as (S1 & S2 & S3).
    split; [exact Hsplit|]. split; [exact Hgi|]. split; [exact Hsole|].
    split; [exact S1|]. split; [exact S3|]. split; [exact S2|].
    assert (Hch : chunks (refreshNodeArray (applyFunction gi s fn))
                  = chunks gi) by reflexivity.
    split; [|split; [|split]].
    - rewrite Hch, (same_cells_medal _ _ r Hsame), Ha0. reflexivity.
    - intros H. specialize (Hbig H).
      unfold refreshNodeArray, applyFunction, alterNode.
      cbn [heap set_nodeArray set_heap]. rewrite length_alter.
      exact Hbig.
    - intros c Hc. apply owned_applied, Hown, Hc.
    - intros c Hne.
      rewrite Hch, (same_cells_medal _ _ c Hsame), (Hother c Hne).
      reflexivity. }
  split.
  - intros medal Hmedal.
    destruct (Hstage medal)
      as (g1 & front & s & gi & Hsplit & Hgi & Hsole & F1 & F2 & F3 & F4
             & F5 & F6 & F7).
    exists g1, front, s, gi, (refreshNodeArray (applyFunction gi s medal)).
    split; [exact Hsplit|]. split; [exact Hgi|]. split; [exact Hsole|].
    split; [reflexivity|].
    split; [|tauto].
    unfold placeMedal. apply Nat.eqb_neq in Hmedal. rewrite Hmedal, Ha.
    apply Nat.ltb_lt in Hpos. rewrite Hpos. cbn zeta.
    rewrite Hnode, Hsplit. unfold updateNode. rewrite Hgi. reflexivity.
  - intros Hmedal Hchain.
    assert (Hoff : offset a = 0%nat).
    { destruct (offset a) as [|k] eqn:E; [reflexivity|].
      exfalso. apply Hmedal. apply (Hchain k r a Hr Ha). }
    destruct (Hstage 0%nat)
      as (g1 & front & s & gi & Hsplit & Hgi & Hsole & F1 & F2 & F3 & F4
             & F5 & F6 & F7).
    rewrite Hoff in Hsplit. unfold splitNode in Hsplit.
    change (heap (alterArrow g r (setMedalType 0))) with (heap g) in Hsplit.
    rewrite Hn in Hsplit. simpl in Hsplit.
    injection Hsplit as <- _ <-.
    exists gi, (refreshNodeArray (applyFunction gi nd 0)).
    split; [exact Hgi|]. split; [exact Hsole|]. split; [reflexivity|].
    split; [|tauto].
    unfold removeMedalOrArrow. rewrite Ha.
    apply Nat.ltb_lt in Hpos. rewrite Hpos.
    apply Nat.eqb_neq in Hmedal. rewrite Hmedal. cbn [negb]. cbn zeta.
    rewrite Hnode. unfold updateNode. rewrite Hgi. reflexivity.
Qed.

Lemma medal_edit_isolates_witness :
  (exists g' s,
     placeMedal inverterGraph ((0, 0), (3, 4)) 3 = Some g'
     /\ sole_cell g' ((0, 0), (3, 4)) s
     /\ LogicNode.type <$> heap g' !! s = Some 3%nat
     /\ owned g' ((0, 0), (3, 5)))
  /\ (exists g',
        removeMedalOrArrow inverterGraph ((0, 0), (3, 5))
        = KeyR_medal (Some g')
        /\ sole_cell g' ((0, 0), (3, 5)) 3
        /\ LogicNode.type <$> heap g' !! 3%nat = Some 0%nat
        /\ owned g' ((0, 0), (3, 4))).
Proof.
  assert (Hn : heap inverterGraph !! 3%nat
               = Some (LogicNode.mk [((0, 0), (3, 5)); ((0, 0), (3, 4))]
                         2 2 true [] [] [false; false] 0 false 0))
    by (vm_compute; reflexivity).
  assert (Hlive : In 3%nat (nodes inverterGraph))
    by (vm_compute; auto).
  assert (Hnd : NoDup [((0, 0), (3, 5)); ((0, 0), (3, 4))]).
  { apply NoDup_cons. split; [|apply NoDup_singleton].
    rewrite list_elem_of_singleton. discriminate. }
  assert (Hcells : forall j c,
            [((0, 0), (3, 5)); ((0, 0), (3, 4))] !! j = Some c ->
            position inverterGraph c = Some (3%nat, j)).
  { intros [|[|j]] c; simpl; intros [= <-]; vm_compute; reflexivity. }
  split.
  - assert (Ha : arrowAt (chunks inverterGraph) ((0, 0), (3, 4))
                 = Some (mkArrow 1 0 false 0 false 0 (mkArrowState false 0)
                           (Some 3%nat) (Some 0%nat) 1))
      by (vm_compute; reflexivity).
    assert (Hpos : (0 < 1)%nat) by lia.
    destruct (medal_edit_isolates inverterGraph ((0, 0), (3, 4)) _ 3%nat _
                Ha Hpos eq_refl Hn Hlive eq_refl Hnd Hcells eq_refl)
      as [Hplace _].
    destruct (Hplace 3%nat) as (g1 & front & s & gi & g' & _ & _ & _ & _
                                  & Hg' & Hsole & _ & Hty & _ & _ & Hown & _);
      [discriminate|].
    exists g', s. split; [exact Hg'|]. split; [exact Hsole|].
    split; [exact Hty|]. apply Hown. simpl. auto.
  - assert (Ha : arrowAt (chunks inverterGraph) ((0, 0), (3, 5))
                 = Some (mkArrow 1 0 false 2 false 0 (mkArrowState false 0)
                           (Some 3%nat) (Some 1%nat) 0))
      by (vm_compute; reflexivity).
    assert (Hpos : (0 < 1)%nat) by lia.
    destruct (medal_edit_isolates inverterGraph ((0, 0), (3, 5)) _ 3%nat _
                Ha Hpos eq_refl Hn Hlive eq_refl Hnd Hcells eq_refl)
      as [_ Hreset].
    destruct Hreset as (gi & g' & _ & _ & _ & Hg' & Hsole & _ & Hty & _ & _
                           & Hown & _).
    + discriminate.
    + intros [|j] c ac; simpl; [|discriminate].
      intros [= <-]. vm_compute. intros [= <-]. reflexivity.
    + exists g'. split; [exact Hg'|]. split; [exact Hsole|].
      split; [exact Hty|]. apply Hown. simpl. auto.
Defined.

(** * Further properties of the engine *)

(** The hypotheses on a grid given by a list of cells. *)
Ltac listed_grid :=
  let r := fresh "r" in
  let a := fresh "a" in
  let H := fresh "H" in
  intros r a H; apply arrowAt_single in H; simpl in H;
  repeat (destruct H as [H|H]; [subst a; split; reflexivity|]);
  try (subst a; split; reflexivity); try contradiction.

(** ** The raw graph of [createNodes] *)

(** X1: on a freshly loaded grid [createNodes] returns (with fuel above the
    number of cells) and gives every non-empty cell a one-cell node of its
    own: the node carries the cell's function and its targets are, in
    order, the nodes of the cells [getTargetArrows] resolves for the cell,
    so the tables of [addTargetNode] and of the resolver agree; distinct
    cells get distinct nodes, empty cells get none, and every node is the
    node of a cell. This holds for every order [ks] in which the chunks
    may be visited. *)
Theorem createNodes_builds_resolver_graph (m : GameMap)
    (ks : list ChunkPos) (fuel : nat) :
  fresh m -> ks ≡ₚ chunk_keys m -> (length (all_cells m) < fuel)%nat ->
  exists g,
    createNodes ks fuel (gameOf m) = Some g
    /\ (forall c a, cell_of m c a ->
          exists nd n,
            nodeOf (chunks g) c = Some nd /\ heap g !! nd = Some n
            /\ LogicNode.arrows n = [c] /\ LogicNode.type n = medalType a
            /\ LogicNode.size n = 1%nat
            /\ List.map Some (LogicNode.targets n)
               = List.map (nodeOf (chunks g))
                   (getTargetArrows m (fst c) a (fst (snd c)) (snd (snd c))))
    /\ (forall c nd, nodeOf (chunks g) c = Some nd -> exists a, cell_of m c a)
    /\ (forall c c' nd, nodeOf (chunks g) c = Some nd ->
          nodeOf (chunks g) c' = Some nd -> c = c')
    /\ (forall nd n, heap g !! nd = Some n ->
          exists c, LogicNode.arrows n = [c]
                    /\ nodeOf (chunks g) c = Some nd).
Proof.
  intros Hf Hks Hfuel.
  destruct (createNodes_spec m ks fuel Hf Hks Hfuel)
    as (g & Hg & Hwf & Hext & _ & Hcomp & Hall).
  pose proof (createNodes_marked m ks fuel g Hf Hg) as Hrange.
  exists g. split; [exact Hg|]. split; [|split; [|split]].
  - intros c a Hc.
    destruct (nodeOf (chunks g) c) as [nd|] eqn:Hnd;
      [|exfalso; exact (Hall c a Hc Hnd)].
    destruct (raw_cell g Hwf c nd Hnd)
      as (a' & n & _ & _ & _ & _ & Hn & Harr & _ & Hsz).
    exists nd, n. split; [reflexivity|]. split; [exact Hn|].
    split; [exact Harr|].
    split; [apply (raw_medal m g Hext Hwf c nd n a Hnd Hn (proj1 Hc))|].
    split; [exact Hsz|].
    rewrite (raw_edges m g Hext Hwf Hcomp Hrange c nd n Hnd Hn).
    unfold edges. rewrite (proj1 Hc). reflexivity.
  - intros c nd Hnd.
    destruct (raw_cell_of m g Hext Hwf Hrange c nd Hnd) as (a0 & _ & Hc & _).
    eauto.
  - intros c c' nd. apply nodeOf_inj. exact Hwf.
  - intros nd n Hn. destruct (raw_node g Hwf nd n Hn) as (c & Hc & Hnd & _).
    eauto.
Qed.

Lemma createNodes_builds_resolver_graph_witness :
  exists g, createNodes borderOrder 513 (gameOf borderGrid) = Some g
    /\ forall c c' nd, nodeOf (chunks g) c = Some nd ->
         nodeOf (chunks g) c' = Some nd -> c = c'.
Proof.
  destruct (createNodes_builds_resolver_graph borderGrid borderOrder 513)
    as (g & Hg & _ & _ & Hinj & _).
  - exact borderGrid_fresh.
  - exact borderGrid_order.
  - exact borderGrid_fuel.
  - exists g. split; [exact Hg|exact Hinj].
Defined.

(** X2: in the raw graph every edge is recorded on both of its ends:
    [target.sources] lists a node as many times as the node's [targets]
    lists the target, and every listed node exists, in whatever order
    [ks] the chunks are visited. *)
Theorem createNodes_sources_mirror_targets (m : GameMap)
    (ks : list ChunkPos) (fuel : nat) :
  fresh m -> ks ≡ₚ chunk_keys m -> (length (all_cells m) < fuel)%nat ->
  exists g,
    createNodes ks fuel (gameOf m) = Some g
    /\ (forall p t np nt, heap g !! p = Some np -> heap g !! t = Some nt ->
          count_occ Nat.eq_dec (LogicNode.sources nt) p
          = count_occ Nat.eq_dec (LogicNode.targets np) t)
    /\ (forall p np k, heap g !! p = Some np ->
          In k (LogicNode.targets np) \/ In k (LogicNode.sources np) ->
          is_Some (heap g !! k)).
Proof.
  intros Hf Hks Hfuel.
  destruct (createNodes_spec m ks fuel Hf Hks Hfuel)
    as (g & Hg & (_ & _ & R3 & R4) & _).
  exists g. split; [exact Hg|]. split.
  - intros p t np nt Hp Ht. symmetry. apply R3; assumption.
  - intros p np k Hp Hk. apply lookup_lt_is_Some_2. eapply R4; eauto.
Qed.

Lemma createNodes_sources_mirror_targets_witness :
  exists g, createNodes borderOrder 513 (gameOf borderGrid) = Some g
    /\ forall p np k, heap g !! p = Some np ->
         In k (LogicNode.targets np) \/ In k (LogicNode.sources np) ->
         is_Some (heap g !! k).
Proof.
  destruct (createNodes_sources_mirror_targets borderGrid borderOrder 513)
    as (g & Hg & _ & Hex).
  - exact borderGrid_fresh.
  - exact borderGrid_order.
  - exact borderGrid_fuel.
  - exists g. split; [exact Hg|exact Hex].
Defined.

(** ** The node tick and the shape of the graph *)

Lemma updateNodes_structure g i n :
  NoDup (nodeArray g) -> heap g !! i = Some n ->
  exists n2,
    heap (updateNodes g) !! i = Some n2
    /\ LogicNode.arrows n2 = LogicNode.arrows n
    /\ LogicNode.type n2 = LogicNode.type n
    /\ LogicNode.size n2 = LogicNode.size n
    /\ LogicNode.ready n2 = LogicNode.ready n
    /\ LogicNode.targets n2 = LogicNode.targets n
    /\ LogicNode.sources n2 = LogicNode.sources n
    /\ length (LogicNode.signals n2) = length (LogicNode.signals n)
    /\ (In i (nodeArray g) -> LogicNode.signalCount n2 = 0%nat)
    /\ (~ In i (nodeArray g) ->
        LogicNode.signals n2 = LogicNode.signals n
        /\ (LogicNode.signalCount n <= LogicNode.signalCount n2)%nat).
Proof.
  intros Hnd Hn.
  destruct (pass1_nodes_fold (heap g) i (nodeArray g) (heap g) n
              (heap_dyn_refl _) eq_refl Hn)
    as (n1 & Hn1 & D & _ & _ & _ & Hc).
  destruct D as (A & T & Z & R & G & S & Sg).
  unfold updateNodes, updateNodes_pass2, updateNodes_pass1. simpl.
  rewrite fold_alter_lookup by exact Hnd. rewrite Hn1.
  destruct (bool_decide (i ∈ nodeArray g)) eqn:E; simpl.
  - apply bool_decide_eq_true_1, list_elem_of_In in E.
    eexists. split; [reflexivity|]. simpl.
    unfold LogicNode.signals_insert. rewrite length_take. simpl.
    rewrite A, T, Z, R, G, S, Sg.
    repeat split; try reflexivity; try lia; contradiction.
  - apply bool_decide_eq_false_1 in E.
    exists n1. rewrite A, T, Z, R, G, S, Sg.
    repeat split; try reflexivity.
    + intros H. exfalso. apply E, list_elem_of_In, H.
    + rewrite Hc. lia.
Qed.

Lemma updateNodes_iter_structure (g : Game) (k : nat) :
  NoDup (nodeArray g) ->
  chunks (Nat.iter k updateNodes g) = chunks g
  /\ nodes (Nat.iter k updateNodes g) = nodes g
  /\ nodeArray (Nat.iter k updateNodes g) = nodeArray g
  /\ length (heap (Nat.iter k updateNodes g)) = length (heap g)
  /\ (forall i n, heap g !! i = Some n ->
        exists n', heap (Nat.iter k updateNodes g) !! i = Some n'
          /\ LogicNode.arrows n' = LogicNode.arrows n
          /\ LogicNode.type n' = LogicNode.type n
          /\ LogicNode.size n' = LogicNode.size n
          /\ LogicNode.ready n' = LogicNode.ready n
          /\ LogicNode.targets n' = LogicNode.targets n
          /\ LogicNode.sources n' = LogicNode.sources n
          /\ length (LogicNode.signals n') = length (LogicNode.signals n)
          /\ (~ In i (nodeArray g) ->
              LogicNode.signals n' = LogicNode.signals n
              /\ (LogicNode.signalCount n <= LogicNode.signalCount n')%nat)).
Proof.
  intros Hnd. induction k as [|k IH]; [simpl|rewrite Nat.iter_succ].
  - repeat split; try reflexivity. intros i n Hn. exists n.
    repeat split; try reflexivity; try exact Hn; lia.
  - destruct IH as (Hc & Hn & Ha & Hl & Hh).
    split; [exact Hc|]. split; [exact Hn|]. split; [exact Ha|].
    split; [rewrite length_updateNodes; exact Hl|].
    intros i n Hi.
    destruct (Hh i n Hi) as (n1 & Hn1 & A & T & Z & R & G & S & L & O).
    destruct (updateNodes_structure (Nat.iter k updateNodes g) i n1)
      as (n2 & Hn2 & A2 & T2 & Z2 & R2 & G2 & S2 & L2 & _ & O2);
      [rewrite Ha; exact Hnd|exact Hn1|].
    exists n2. split; [exact Hn2|].
    repeat split; try congruence.
    + destruct (O H) as [E _]. destruct O2 as [E2 _]; [rewrite Ha; exact H|].
      congruence.
    + destruct (O H) as [_ E]. destruct O2 as [_ E2]; [rewrite Ha; exact H|].
      lia.
Qed.


(** X3: ticks of the node simulator never change the shape of the graph:
    the grid, the live set and the flat list stay as they are, no node
    object appears or disappears, every node keeps its cells, function,
    size, [ready] mark, targets, sources and the capacity of its history;
    a node that is not in the flat list keeps its history and is never
    reset, its [signalCount] can only grow. *)
Theorem updateNodes_keeps_graph (g : Game) (k : nat) :
  NoDup (nodeArray g) ->
  chunks (Nat.iter k updateNodes g) = chunks g
  /\ nodes (Nat.iter k updateNodes g) = nodes g
  /\ nodeArray (Nat.iter k updateNodes g) = nodeArray g
  /\ length (heap (Nat.iter k updateNodes g)) = length (heap g)
  /\ (forall i n, heap g !! i = Some n ->
        exists n', heap (Nat.iter k updateNodes g) !! i = Some n'
          /\ LogicNode.arrows n' = LogicNode.arrows n
          /\ LogicNode.type n' = LogicNode.type n
          /\ LogicNode.size n' = LogicNode.size n
          /\ LogicNode.ready n' = LogicNode.ready n
          /\ LogicNode.targets n' = LogicNode.targets n
          /\ LogicNode.sources n' = LogicNode.sources n
          /\ length (LogicNode.signals n') = length (LogicNode.signals n)
          /\ (~ In i (nodeArray g) ->
              LogicNode.signals n' = LogicNode.signals n
              /\ (LogicNode.signalCount n <= LogicNode.signalCount n')%nat)).
Proof. apply updateNodes_iter_structure. Qed.

Lemma updateNodes_keeps_graph_witness :
  nodeArray
    (Nat.iter 3 updateNodes
       (mkGame ∅ [LogicNode.new [((0, 0), (1, 1))] 1 2;
                  LogicNode.new [((0, 0), (2, 1))] 0 1] [0%nat] [0%nat] ∅))
  = [0%nat].
Proof.
  apply (updateNodes_keeps_graph
           (mkGame ∅ [LogicNode.new [((0, 0), (1, 1))] 1 2;
                      LogicNode.new [((0, 0), (2, 1))] 0 1]
                   [0%nat] [0%nat] ∅) 3).
  simpl. apply NoDup_singleton.
Defined.

(** ** The compiled graph: cells and nodes *)

Lemma compile_graph m ks fuel :
  fresh m -> ks ≡ₚ chunk_keys m -> (length (all_cells m) < fuel)%nat ->
  exists g, compile ks fuel m = Some g /\ compiled_ok m g /\ graph_ok g.
Proof.
  intros Hf Hks Hfuel.
  destruct (createNodes_spec m ks fuel Hf Hks Hfuel)
    as (gr & Hgr & Hwf & Hext & Hframe & Hcomp & Hall).
  pose proof (createNodes_marked m ks fuel gr Hf Hgr) as Hrange.
  assert (Hnodes : nodes gr = []).
  { destruct Hframe as (_ & _ & Hn & _). exact Hn. }
  pose proof (raw_heap_bound m gr Hext Hwf Hrange) as Hbound.
  destruct (simplifyNodes_graph m gr Hext Hwf Hcomp Hrange Hall ks fuel
              (fun r => cells_in_raw m gr ks r Hext Hks) Hnodes)
    as (g & Hg & Hok & Hgok); [lia|].
  exists g. split; [|auto]. unfold compile. rewrite Hgr. exact Hg.
Qed.

(** X4: after the compilation every non-empty cell belongs to exactly one node
    of the flat list, at one offset: its [node] and [offset] fields name the
    node and the index at which the node lists the cell, and only non-empty
    cells are listed. This is the assertion of [exportGraph] ([arrow.offset
    === index]); it still holds after any number of ticks of the node
    simulator. This holds for every order [ks] in which the compiler may visit
    the chunks of the grid ([map.chunks] is visited in the order of
    insertion). *)
Theorem compile_cells_owned (m : GameMap) (ks : list ChunkPos)
  (fuel : nat) :
  fresh m -> ks ≡ₚ chunk_keys m ->
  (length (all_cells m) < fuel)%nat ->
  exists g,
    compile ks fuel m = Some g
    /\ NoDup (nodeArray g)
    /\ forall k,
         (forall c a, cell_of m c a ->
            exists s j n,
              position (Nat.iter k updateNodes g) c = Some (s, j)
              /\ In s (nodeArray (Nat.iter k updateNodes g))
              /\ heap (Nat.iter k updateNodes g) !! s = Some n
              /\ LogicNode.arrows n !! j = Some c)
         /\ (forall s n j c,
               In s (nodeArray (Nat.iter k updateNodes g)) ->
               heap (Nat.iter k updateNodes g) !! s = Some n ->
               LogicNode.arrows n !! j = Some c ->
               position (Nat.iter k updateNodes g) c = Some (s, j)
               /\ exists a, cell_of m c a).
Proof.
  intros Hf Hks Hfuel.
  destruct (compile_graph m ks fuel Hf Hks Hfuel) as (g & Hg & (K1 & K2 & K3) & _).
  exists g. split; [exact Hg|]. split; [exact K1|]. intros k.
  destruct (updateNodes_iter_structure g k K1) as (Hc & _ & Ha & _ & Hh).
  assert (Hpos : forall c, position (Nat.iter k updateNodes g) c
                           = position g c).
  { intros c. unfold position. rewrite Hc. reflexivity. }
  split.
  - intros c a Hcell.
    destruct (K3 c a Hcell) as (s & j & n & Hp & Hs & Hn & Hj).
    destruct (Hh s n Hn) as (n' & Hn' & A & _).
    exists s, j, n'. rewrite Hpos, Ha, A. auto.
  - intros s n' j c Hs Hn' Hj. rewrite Ha in Hs.
    destruct (K2 s Hs) as (n & Hn & Hnok).
    destruct (Hh s n Hn) as (n'' & Hn'' & A & _).
    assert (n'' = n') by congruence. subst n''.
    rewrite A in Hj. rewrite Hpos.
    destruct Hnok as (_ & _ & _ & _ & Hcell & _).
    destruct (Hcell j c Hj) as [Hex Hp]. auto.
Qed.

Lemma compile_cells_owned_witness :
  exists g, compile borderOrder 513 borderGrid = Some g /\ NoDup (nodeArray g).
Proof.
  destruct (compile_cells_owned borderGrid borderOrder 513) as (g & Hg & Hnd & _).
  - exact borderGrid_fresh.
  - exact borderGrid_order.
  - exact borderGrid_fuel.
  - exists g. split; [exact Hg|exact Hnd].
Defined.

(** X5: in every node of the compiled flat list the first cell carries the
    node's function, and every later cell has function 0, is the only target
    of the cell before it, and is the target of no other cell. This holds for
    every order [ks] in which the compiler may visit the chunks of the grid
    ([map.chunks] is visited in the order of insertion). *)
Theorem compile_chain_cells (m : GameMap) (ks : list ChunkPos)
  (fuel : nat) :
  fresh m -> ks ≡ₚ chunk_keys m ->
  (length (all_cells m) < fuel)%nat ->
  exists g,
    compile ks fuel m = Some g
    /\ forall s n, In s (nodeArray g) -> heap g !! s = Some n ->
         (exists h ah, LogicNode.arrows n !! 0%nat = Some h
            /\ cell_of m h ah /\ LogicNode.type n = medalType ah)
         /\ (forall j c c' a a',
               LogicNode.arrows n !! j = Some c ->
               LogicNode.arrows n !! S j = Some c' ->
               arrowAt m c = Some a -> arrowAt m c' = Some a' ->
               medalType a' = 0%nat
               /\ getTargetArrows m (fst c) a (fst (snd c)) (snd (snd c))
                  = [c']
               /\ forall p ap, cell_of m p ap ->
                    In c' (getTargetArrows m (fst p) ap (fst (snd p))
                                           (snd (snd p))) ->
                    p = c).
Proof.
  intros Hf Hks Hfuel.
  destruct (compile_graph m ks fuel Hf Hks Hfuel) as (g & Hg & (K1 & K2 & K3) & _).
  exists g. split; [exact Hg|]. intros s n Hs Hn.
  destruct (K2 s Hs) as (n' & Hn' & Hnok).
  assert (n' = n) by congruence. subst n'.
  destruct Hnok as (_ & Hne & _ & _ & Hcell & Hhead & Hlink & _).
  split.
  - destruct (LogicNode.arrows n) as [|h l] eqn:Harr; [contradiction|].
    destruct (Hcell 0%nat h eq_refl) as ((ah & Hch) & _).
    exists h, ah. split; [reflexivity|]. split; [exact Hch|].
    apply (Hhead h ah eq_refl (proj1 Hch)).
  - intros j c c' a a' Hj Hj' Ha Ha'.
    destruct (Hlink j c c' Hj Hj') as (He & Hm & Hcount).
    split; [apply Hm; exact Ha'|]. split.
    + unfold edges in He. rewrite Ha in He. exact He.
    + intros p ap Hp Hin.
      specialize (Hcount p ap Hp). unfold edges in Hcount.
      rewrite (proj1 Hp) in Hcount.
      destruct (decide (p = c)) as [E|E]; [exact E|].
      exfalso. unfold count_ref in Hcount.
      assert (Hin' : In c' (List.filter (ArrowRef_eqb c')
                (getTargetArrows m (fst p) ap (fst (snd p)) (snd (snd p))))).
      { apply filter_In. split; [exact Hin|apply ArrowRef_eqb_refl]. }
      destruct (List.filter _ _); [destruct Hin'|discriminate].
Qed.

Lemma compile_chain_cells_witness :
  exists g, compile borderOrder 513 borderGrid = Some g.
Proof.
  destruct (compile_chain_cells borderGrid borderOrder 513) as (g & Hg & _).
  - exact borderGrid_fresh.
  - exact borderGrid_order.
  - exact borderGrid_fuel.
  - exists g. exact Hg.
Defined.

(** X6: every node of the compiled flat list is finished ([ready]), owns at
    least one cell, and has as its [size] the number of its cells and the
    capacity of its history, also after any number of ticks of the node
    simulator; right after the compilation the history is all false and no
    signal is pending. This holds for every order [ks] in which the compiler
    may visit the chunks of the grid ([map.chunks] is visited in the order of
    insertion). *)
Theorem compile_node_sizes (m : GameMap) (ks : list ChunkPos)
  (fuel : nat) :
  fresh m -> ks ≡ₚ chunk_keys m ->
  (length (all_cells m) < fuel)%nat ->
  exists g,
    compile ks fuel m = Some g
    /\ (forall k s n, In s (nodeArray g) ->
          heap (Nat.iter k updateNodes g) !! s = Some n ->
          LogicNode.ready n = true
          /\ LogicNode.arrows n <> []
          /\ LogicNode.size n = length (LogicNode.arrows n)
          /\ length (LogicNode.signals n) = LogicNode.size n)
    /\ (forall s n, In s (nodeArray g) -> heap g !! s = Some n ->
          LogicNode.signals n = replicate (LogicNode.size n) false
          /\ LogicNode.signalCount n = 0%nat).
Proof.
  intros Hf Hks Hfuel.
  destruct (compile_graph m ks fuel Hf Hks Hfuel)
    as (g & Hg & (K1 & K2 & K3) & (_ & G2 & _)).
  exists g. split; [exact Hg|]. split.
  - intros k s n' Hs Hn'.
    destruct (K2 s Hs) as (n & Hn & Hnok).
    destruct (updateNodes_iter_structure g k K1) as (_ & _ & _ & _ & Hh).
    destruct (Hh s n Hn) as (n'' & Hn'' & A & _ & Z & R & _ & _ & L & _).
    assert (n'' = n') by congruence. subst n''.
    destruct (G2 s n Hs Hn) as [Hsz Hr].
    destruct Hnok as (Hlen & Hne & _).
    rewrite R, A, Z, L. repeat split; auto. congruence.
  - intros s n Hs Hn. destruct (K2 s Hs) as (n' & Hn' & Hnok).
    assert (n' = n) by congruence. subst n'.
    destruct (G2 s n Hs Hn) as [Hsz _].
    destruct Hnok as (Hlen & _ & Hfalse & Hcnt & _).
    split; [|exact Hcnt].
    rewrite Hsz, <- Hlen. clear -Hfalse.
    induction Hfalse as [|b l Hb _ IH]; [reflexivity|].
    simpl. rewrite Hb, <- IH. reflexivity.
Qed.

Lemma compile_node_sizes_witness :
  exists g, compile borderOrder 513 borderGrid = Some g.
Proof.
  destruct (compile_node_sizes borderGrid borderOrder 513) as (g & Hg & _).
  - exact borderGrid_fresh.
  - exact borderGrid_order.
  - exact borderGrid_fuel.
  - exists g. exact Hg.
Defined.

Lemma NoDup_List_filter {A : Type} (f : A -> bool) (l : list A) :
  NoDup l -> NoDup (List.filter f l).
Proof.
  induction l as [|k l IH]; intros H; [exact H|].
  apply NoDup_cons in H as [Hk H]. cbn [List.filter].
  destruct (f k); [|auto].
  apply NoDup_cons. split; [|auto].
  intros Hin. apply Hk. apply list_elem_of_In in Hin.
  apply filter_In in Hin as [Hin _]. apply list_elem_of_In. exact Hin.
Qed.

Lemma length_flat_map_sum {A B : Type} (f : A -> list B) (l : list A) :
  length (flat_map f l) = sum_list_with (fun x => length (f x)) l.
Proof.
  induction l as [|x l IH]; [reflexivity|].
  cbn [flat_map sum_list_with]. rewrite length_app, IH. reflexivity.
Qed.

(** X7: the compilation loses no cell and counts none twice: the sizes of the
    nodes of the flat list add up to the number of non-empty cells of the
    grid. This holds for every order [ks] in which the compiler may visit the
    chunks of the grid ([map.chunks] is visited in the order of insertion). *)
Theorem compile_sizes_add_up (m : GameMap) (ks : list ChunkPos)
  (fuel : nat) :
  fresh m -> ks ≡ₚ chunk_keys m ->
  (length (all_cells m) < fuel)%nat ->
  exists g,
    compile ks fuel m = Some g
    /\ sum_list_with (size_of g) (nodeArray g)
       = length (List.filter (nonempty m) (all_cells m)).
Proof.
  intros Hf Hks Hfuel.
  destruct (compile_graph m ks fuel Hf Hks Hfuel)
    as (g & Hg & (K1 & K2 & K3) & (_ & G2 & _)).
  exists g. split; [exact Hg|].
  assert (Hsize : sum_list_with (size_of g) (nodeArray g)
                  = length (flat_map (arrows_of g) (nodeArray g))).
  { rewrite length_flat_map_sum. apply sum_list_with_ext. intros s Hs.
    destruct (K2 s Hs) as (n & Hn & _). unfold size_of, arrows_of.
    rewrite Hn. apply (G2 s n Hs Hn). }
  rewrite Hsize. apply Permutation_length.
  assert (Hin : forall c, In c (flat_map (arrows_of g) (nodeArray g))
            <-> exists s n j, In s (nodeArray g) /\ heap g !! s = Some n
                  /\ LogicNode.arrows n !! j = Some c).
  { intros c. rewrite in_flat_map. split.
    - intros (s & Hs & Hc). unfold arrows_of in Hc.
      destruct (heap g !! s) as [n|] eqn:Hn; [|destruct Hc].
      apply list_elem_of_In, list_elem_of_lookup in Hc as [j Hj].
      exists s, n, j. auto.
    - intros (s & n & j & Hs & Hn & Hj). exists s. split; [exact Hs|].
      unfold arrows_of. rewrite Hn.
      apply list_elem_of_In, list_elem_of_lookup. eauto. }
  assert (Hpos : forall s n j c, In s (nodeArray g) -> heap g !! s = Some n ->
            LogicNode.arrows n !! j = Some c ->
            position g c = Some (s, j) /\ exists a, cell_of m c a).
  { intros s n j c Hs Hn Hj. destruct (K2 s Hs) as (n' & Hn' & Hnok).
    assert (n' = n) by congruence. subst n'.
    destruct Hnok as (_ & _ & _ & _ & Hcell & _).
    destruct (Hcell j c Hj). auto. }
  apply NoDup_Permutation.
  - assert (Hgen : forall l, NoDup l ->
              (forall s, In s l -> In s (nodeArray g)) ->
              NoDup (flat_map (arrows_of g) l)).
    { intros l Hl. induction Hl as [|s l Hs Hnd IH]; intros Hsub;
        [constructor|].
      cbn [flat_map]. apply NoDup_app. split; [|split].
      - unfold arrows_of.
        destruct (heap g !! s) as [n|] eqn:Hn; [|constructor].
        apply NoDup_alt. intros i j c Hi Hj.
        destruct (Hpos s n i c (Hsub s (or_introl eq_refl)) Hn Hi)
          as [P1 _].
        destruct (Hpos s n j c (Hsub s (or_introl eq_refl)) Hn Hj)
          as [P2 _].
        congruence.
      - intros c Hc Hc'. apply list_elem_of_In in Hc, Hc'.
        unfold arrows_of in Hc.
        destruct (heap g !! s) as [n|] eqn:Hn; [|destruct Hc].
        apply list_elem_of_In, list_elem_of_lookup in Hc as [j Hj].
        destruct (Hpos s n j c (Hsub s (or_introl eq_refl)) Hn Hj)
          as [P1 _].
        apply in_flat_map in Hc' as (s' & Hs' & Hc').
        unfold arrows_of in Hc'.
        destruct (heap g !! s') as [n'|] eqn:Hn'; [|destruct Hc'].
        apply list_elem_of_In, list_elem_of_lookup in Hc' as [j' Hj'].
        destruct (Hpos s' n' j' c (Hsub s' (or_intror Hs')) Hn' Hj')
          as [P2 _].
        assert (s = s') by congruence. subst s'.
        apply Hs, list_elem_of_In, Hs'.
      - apply IH. intros s' Hs'. apply Hsub. right. exact Hs'. }
    apply Hgen; [exact K1|auto].
  - apply NoDup_List_filter, NoDup_all_cells.
  - intros c. rewrite !list_elem_of_In, Hin, filter_In. split.
    + intros (s & n & j & Hs & Hn & Hj).
      destruct (Hpos s n j c Hs Hn Hj) as [_ [a Hc]].
      split; [eapply cell_of_In_all_cells; exact Hc|].
      unfold nonempty. destruct Hc as (Ha & Hty & _). rewrite Ha.
      apply Nat.ltb_lt. exact Hty.
    + intros [Hc Hne]. unfold nonempty in Hne.
      destruct (arrowAt m c) as [a|] eqn:Ha; [|discriminate].
      apply Nat.ltb_lt in Hne. apply In_all_cells in Hc as (_ & Hx & Hy).
      destruct (K3 c a) as (s & j & n & _ & Hs & Hn & Hj);
        [split; auto|].
      exists s, n, j. auto.
Qed.

Lemma compile_sizes_add_up_witness :
  exists g, compile borderOrder 513 borderGrid = Some g
    /\ sum_list_with (size_of g) (nodeArray g) = 4%nat.
Proof.
  destruct (compile_sizes_add_up borderGrid borderOrder 513) as (g & Hg & Hsum).
  - exact borderGrid_fresh.
  - exact borderGrid_order.
  - exact borderGrid_fuel.
  - exists g. split; [exact Hg|]. rewrite Hsum. vm_compute. reflexivity.
Defined.

(** X8: the edges of the compiled graph are the edges of the grid between the
    ends of the nodes: a node of the flat list lists another one among its
    targets as many times as the last cell of the first resolves
    ([getTargetArrows]) to the first cell of the second. This holds for every
    order [ks] in which the compiler may visit the chunks of the grid
    ([map.chunks] is visited in the order of insertion). *)
Theorem compile_edges (m : GameMap) (ks : list ChunkPos)
  (fuel : nat) :
  fresh m -> ks ≡ₚ chunk_keys m ->
  (length (all_cells m) < fuel)%nat ->
  exists g,
    compile ks fuel m = Some g
    /\ forall s t ns nt h tl atl,
         In s (nodeArray g) -> In t (nodeArray g) ->
         heap g !! s = Some ns -> heap g !! t = Some nt ->
         last (LogicNode.arrows ns) = Some tl ->
         LogicNode.arrows nt !! 0%nat = Some h ->
         arrowAt m tl = Some atl ->
         count_occ Nat.eq_dec (LogicNode.targets ns) t
         = count_ref h (getTargetArrows m (fst tl) atl (fst (snd tl))
                                        (snd (snd tl))).
Proof.
  intros Hf Hks Hfuel.
  destruct (compile_graph m ks fuel Hf Hks Hfuel) as (g & Hg & (K1 & K2 & K3) & _).
  exists g. split; [exact Hg|].
  intros s t ns nt h tl atl Hs Ht Hns Hnt Htl Hh Hatl.
  destruct (K2 s Hs) as (n' & Hn' & Hnok).
  assert (n' = ns) by congruence. subst n'.
  destruct Hnok as (_ & _ & _ & _ & _ & _ & _ & Htg).
  rewrite (Htg t nt h tl Ht Hnt Hh Htl). unfold edges. rewrite Hatl.
  reflexivity.
Qed.

Lemma compile_edges_witness :
  exists g, compile borderOrder 513 borderGrid = Some g.
Proof.
  destruct (compile_edges borderGrid borderOrder 513) as (g & Hg & _).
  - exact borderGrid_fresh.
  - exact borderGrid_order.
  - exact borderGrid_fuel.
  - exists g. exact Hg.
Defined.

(** X9: the compiled flat list is closed under edges: every target of a node
    of the list is a node of the list, so [updateNodes] sends no signal to a
    discarded node and [exportGraph] finds every target; this still holds
    after any number of ticks of the node simulator. This holds for every
    order [ks] in which the compiler may visit the chunks of the grid
    ([map.chunks] is visited in the order of insertion). *)
Theorem compile_targets_listed (m : GameMap) (ks : list ChunkPos)
  (fuel : nat) :
  fresh m -> ks ≡ₚ chunk_keys m ->
  (length (all_cells m) < fuel)%nat ->
  exists g,
    compile ks fuel m = Some g
    /\ nodes g = nodeArray g
    /\ forall k s n t,
         In s (nodeArray (Nat.iter k updateNodes g)) ->
         heap (Nat.iter k updateNodes g) !! s = Some n ->
         In t (LogicNode.targets n) ->
         In t (nodeArray (Nat.iter k updateNodes g))
         /\ is_Some (heap (Nat.iter k updateNodes g) !! t).
Proof.
  intros Hf Hks Hfuel.
  destruct (compile_graph m ks fuel Hf Hks Hfuel)
    as (g & Hg & (K1 & K2 & K3) & (G1 & _ & G3 & _)).
  exists g. split; [exact Hg|]. split; [exact G1|].
  intros k s n' t Hs Hn' Ht.
  destruct (updateNodes_iter_structure g k K1) as (_ & _ & Ha & _ & Hh).
  rewrite Ha in Hs |- *.
  destruct (K2 s Hs) as (n & Hn & _).
  destruct (Hh s n Hn) as (n'' & Hn'' & _ & _ & _ & _ & G & _).
  assert (n'' = n') by congruence. subst n''.
  rewrite G in Ht. pose proof (G3 s n t Hs Hn Ht) as Hlive.
  split; [exact Hlive|].
  destruct (K2 t Hlive) as (nt & Hnt & _).
  destruct (Hh t nt Hnt) as (nt' & Hnt' & _). eauto.
Qed.

Lemma compile_targets_listed_witness :
  exists g, compile borderOrder 513 borderGrid = Some g /\ nodes g = nodeArray g.
Proof.
  destruct (compile_targets_listed borderGrid borderOrder 513) as (g & Hg & Hn & _).
  - exact borderGrid_fresh.
  - exact borderGrid_order.
  - exact borderGrid_fuel.
  - exists g. split; [exact Hg|exact Hn].
Defined.

(** X10: the last loop of [simplifyNodes] rebuilds the reverse edges: among
    the nodes of the flat list, a node lists another one among its sources as
    many times as that one lists it among its targets, and every source of a
    listed node is a listed node. This holds for every order [ks] in which the
    compiler may visit the chunks of the grid ([map.chunks] is visited in the
    order of insertion). *)
Theorem compile_sources_mirror_targets (m : GameMap) (ks : list ChunkPos)
  (fuel : nat) :
  fresh m -> ks ≡ₚ chunk_keys m ->
  (length (all_cells m) < fuel)%nat ->
  exists g,
    compile ks fuel m = Some g
    /\ (forall s t ns nt, In s (nodeArray g) -> In t (nodeArray g) ->
          heap g !! s = Some ns -> heap g !! t = Some nt ->
          count_occ Nat.eq_dec (LogicNode.sources nt) s
          = count_occ Nat.eq_dec (LogicNode.targets ns) t)
    /\ (forall s t nt, In t (nodeArray g) -> heap g !! t = Some nt ->
          In s (LogicNode.sources nt) -> In s (nodeArray g)).
Proof.
  intros Hf Hks Hfuel.
  destruct (compile_graph m ks fuel Hf Hks Hfuel)
    as (g & Hg & _ & (_ & _ & _ & G4 & G5)).
  exists g. split; [exact Hg|]. split; [exact G4|exact G5].
Qed.

Lemma compile_sources_mirror_targets_witness :
  exists g, compile borderOrder 513 borderGrid = Some g.
Proof.
  destruct (compile_sources_mirror_targets borderGrid borderOrder 513) as (g & Hg & _).
  - exact borderGrid_fresh.
  - exact borderGrid_order.
  - exact borderGrid_fuel.
  - exists g. exact Hg.
Defined.

(** ** The CA tick: what it leaves alone *)

Lemma count_ref_not_In c l : ~ In c l -> count_ref c l = 0%nat.
Proof.
  induction l as [|t l IH]; intros Hn; [reflexivity|].
  rewrite count_ref_cons, IH by (intros H; apply Hn; right; exact H).
  destruct (ArrowRef_eqb c t) eqn:E; [|reflexivity].
  apply ArrowRef_eqb_eq in E. subst t. exfalso. apply Hn. left. reflexivity.
Qed.

Lemma edges_nonempty m p c :
  In c (edges m p) -> exists a, arrowAt m c = Some a /\ (0 < arrowType a)%nat.
Proof.
  unfold edges. destruct (arrowAt m p) as [ap|]; [|intros []].
  apply getTargetArrows_nonempty.
Qed.

(** Nothing is sent to an empty cell. *)
Lemma ca_contrib_empty m c a p :
  arrowAt m c = Some a -> arrowType a = 0%nat -> ca_contrib m c p = 0%nat.
Proof.
  intros Ha Hty. unfold ca_contrib.
  destruct (arrowAt m p) as [ap|]; [|reflexivity].
  destruct (_ && _); [|reflexivity].
  apply count_ref_not_In. intros Hin.
  apply edges_nonempty in Hin as (a' & Ha' & Hpos).
  rewrite Ha in Ha'. injection Ha' as <-. lia.
Qed.

(** One tick at any place of a materialised chunk: the send pass raises
    the count, the second pass rewrites the cells the loops visit. *)
Lemma updateCA_at m r a :
  arrowAt m r = Some a ->
  exists a1,
    count_only a a1
    /\ signalCount a1
       = (signalCount a + sum_list_with (ca_contrib m r) (all_cells m))%nat
    /\ (In r (all_cells m) ->
        arrowAt (updateCA m) r = Some (updateCA_cell a1))
    /\ (~ In r (all_cells m) -> arrowAt (updateCA m) r = Some a1).
Proof.
  intros Ha. destruct (pass1_count m r a Ha) as (a1 & Ha1 & Hco & Hn).
  exists a1. split; [exact Hco|]. split; [exact Hn|].
  assert (Hin : In r (all_cells (updateCA_pass1 m)) <-> In r (all_cells m)).
  { rewrite !In_all_cells. split; intros (Hs & Hxy); (split; [|exact Hxy]).
    - apply (proj1 (grid_le_pass1 m)), Hs.
    - eapply grid_le_is_Some; [apply grid_le_pass1|exact Hs]. }
  unfold updateCA, updateCA_pass2.
  rewrite fold_updateArrow by apply NoDup_all_cells.
  rewrite Ha1.
  destruct (bool_decide_reflect (r ∈ all_cells (updateCA_pass1 m)))
    as [Hr|Hr]; rewrite list_elem_of_In, Hin in Hr.
  - split; [reflexivity|]. intros Hno. contradiction.
  - split; [|reflexivity]. intros Hyes. contradiction.
Qed.

Lemma same_drawing_refl a : same_drawing a a.
Proof. unfold same_drawing. tauto. Qed.

Lemma same_drawing_trans a b c :
  same_drawing a b -> same_drawing b c -> same_drawing a c.
Proof. unfold same_drawing. intuition congruence. Qed.

Lemma same_drawing_cell a : same_drawing a (updateCA_cell a).
Proof.
  unfold updateCA_cell, same_drawing.
  destruct (0 <? arrowType a)%nat; simpl; tauto.
Qed.

Lemma updateCA_drawing m r a :
  arrowAt m r = Some a ->
  exists a', arrowAt (updateCA m) r = Some a'
    /\ same_drawing a a' /\ (arrowType a = 0%nat -> a' = a).
Proof.
  intros Ha. destruct (updateCA_at m r a Ha) as (a1 & Hco & Hn & Hat).
  assert (Hd : same_drawing a a1).
  { unfold count_only in Hco. unfold same_drawing. tauto. }
  assert (He : arrowType a = 0%nat -> a1 = a).
  { intros Hty. rewrite sum_list_with_zero in Hn
      by (intros p _; eapply ca_contrib_empty; eauto).
    destruct Hco as (H1 & H2 & H3 & H4 & H5 & H6 & H7 & H8 & H9 & _).
    destruct a, a1. simpl in *. subst. f_equal. lia. }
  destruct Hat as [Hin Hout].
  destruct (decide (r ∈ all_cells m)) as [Hr|Hr];
    rewrite list_elem_of_In in Hr.
  - exists (updateCA_cell a1). split; [exact (Hin Hr)|]. split.
    + eapply same_drawing_trans; [exact Hd|apply same_drawing_cell].
    + intros Hty. rewrite (He Hty). unfold updateCA_cell. rewrite Hty.
      reflexivity.
  - exists a1. auto.
Qed.

(** X11: a tick of the CA simulator only ever writes [active],
    [signalCount] and [lastState]: after any number of ticks the same
    chunks exist, every cell has the shape, rotation, mirroring, function,
    node and offset it had, and an empty cell is exactly what it was (no
    signal is ever sent to one). *)
Theorem updateCA_keeps_drawing (m : GameMap) (k : nat) :
  (forall c, is_Some (Nat.iter k updateCA m !! c) <-> is_Some (m !! c))
  /\ forall r a, arrowAt m r = Some a ->
       exists a', arrowAt (Nat.iter k updateCA m) r = Some a'
         /\ same_drawing a a'
         /\ (arrowType a = 0%nat -> a' = a).
Proof.
  induction k as [|k [IHc IHa]].
  - split; [tauto|]. intros r a Ha. exists a.
    split; [exact Ha|]. split; [apply same_drawing_refl|reflexivity].
  - rewrite Nat.iter_succ. split.
    + intros c. rewrite <- IHc. apply (grid_dyn_updateCA _).
    + intros r a Ha. destruct (IHa r a Ha) as (a1 & Ha1 & Hd1 & He1).
      destruct (updateCA_drawing _ r a1 Ha1) as (a2 & Ha2 & Hd2 & He2).
      exists a2. split; [exact Ha2|]. split.
      * eapply same_drawing_trans; eassumption.
      * intros Hty. rewrite <- (He1 Hty). apply He2.
        rewrite (He1 Hty). exact Hty.
Qed.

(** ** The CA tick at rest *)

Lemma quiet_at_rest m : quiet m -> at_rest m.
Proof. intros Hq r a _ Ha. exact (Hq r a Ha). Qed.

Lemma ca_contrib_rest m c p :
  at_rest m -> In p (all_cells m) -> ca_contrib m c p = 0%nat.
Proof.
  intros Hq Hin. unfold ca_contrib.
  destruct (arrowAt m p) as [ap|] eqn:Hp; [|reflexivity].
  destruct (Hq p ap Hin Hp) as [-> _]. rewrite andb_false_r. reflexivity.
Qed.

Lemma updateCA_rest_at m r a :
  at_rest m -> In r (all_cells m) -> arrowAt m r = Some a ->
  arrowAt (updateCA m) r = Some (updateCA_cell a).
Proof.
  intros Hq Hr Ha.
  destruct (updateCA_at m r a Ha) as (a1 & Hco & Hn & Hat & _).
  assert (a1 = a) as ->; [|exact (Hat Hr)].
  rewrite sum_list_with_zero in Hn
    by (intros p Hp; apply ca_contrib_rest; assumption).
  destruct Hco as (H1 & H2 & H3 & H4 & H5 & H6 & H7 & H8 & H9 & _).
  destruct a, a1. simpl in *. subst. f_equal. lia.
Qed.

Lemma In_all_cells_dyn m m' r :
  grid_dyn m m' -> In r (all_cells m') <-> In r (all_cells m).
Proof.
  intros [Hd _]. rewrite !In_all_cells, (Hd (fst r)). reflexivity.
Qed.

Lemma updateCA_rest_step m :
  at_rest m ->
  (forall c a, cell_of m c a ->
     medalType a <> 1%nat /\ medalType a <> 2%nat) ->
  at_rest (updateCA m)
  /\ (forall c a, cell_of (updateCA m) c a ->
        medalType a <> 1%nat /\ medalType a <> 2%nat).
Proof.
  intros Hq Hfn. split.
  - intros r a2 Hr2 Ha2.
    assert (Hr : In r (all_cells m))
      by (apply (In_all_cells_dyn m (updateCA m));
          [apply grid_dyn_updateCA|exact Hr2]).
    assert (Hs : is_Some (arrowAt m r)).
    { apply arrowAt_is_Some. apply In_all_cells in Hr. tauto. }
    destruct Hs as [a Ha]. destruct (Hq r a Hr Ha) as [Hact Hcnt].
    rewrite (updateCA_rest_at m r a Hq Hr Ha) in Ha2. injection Ha2 as <-.
    unfold updateCA_cell.
    destruct (0 <? arrowType a)%nat eqn:Hpos; [|auto].
    simpl. split; [|reflexivity]. rewrite Hact, Hcnt.
    apply In_all_cells in Hr as (_ & Hx & Hy).
    apply Nat.ltb_lt in Hpos.
    destruct (Hfn r a (conj Ha (conj Hpos (conj Hx Hy)))) as [F1 F2].
    destruct (medalType a) as [|[|[|[|[|[|[|f]]]]]]]; simpl;
      try reflexivity; congruence.
  - intros c a2 Hc.
    destruct (cell_of_dyn (updateCA m) m c a2) as (a & Hc' & Hm);
      [apply grid_dyn_sym, grid_dyn_updateCA|exact Hc|].
    rewrite <- Hm. apply (Hfn c a Hc').
Qed.

Lemma updateCA_rest_iter m k :
  at_rest m ->
  (forall c a, cell_of m c a ->
     medalType a <> 1%nat /\ medalType a <> 2%nat) ->
  at_rest (Nat.iter k updateCA m)
  /\ (forall c a, cell_of (Nat.iter k updateCA m) c a ->
        medalType a <> 1%nat /\ medalType a <> 2%nat).
Proof.
  intros Hq Hfn. induction k as [|k [IHq IHf]]; [split; assumption|].
  rewrite Nat.iter_succ. apply updateCA_rest_step; assumption.
Qed.

(** X12: a grid at rest stays at rest unless it holds a constant source or
    an inverter. If no cell is active and no signal is pending, then, as
    long as no non-empty cell has function 1 or 2, the same is true after
    any number of ticks; and a cell with function 1 or 2 is active after
    the first tick. *)
Theorem updateCA_rest (m : GameMap) :
  at_rest m ->
  ((forall c a, cell_of m c a ->
      medalType a <> 1%nat /\ medalType a <> 2%nat) ->
   forall k, at_rest (Nat.iter k updateCA m))
  /\ (forall c a, cell_of m c a ->
        medalType a = 1%nat \/ medalType a = 2%nat ->
        exists a', cell_of (updateCA m) c a' /\ active a' = true).
Proof.
  intros Hq. split.
  - intros Hfn k. apply updateCA_rest_iter; assumption.
  - intros c a Hc Hfn.
    destruct (updateCA_cell_step m c a Hc) as (a2 & Hc2 & _ & Hact).
    exists a2. split; [exact Hc2|]. rewrite Hact.
    rewrite sum_list_with_zero
      by (intros p Hp; apply ca_contrib_rest; assumption).
    destruct (Hq c a (cell_of_In_all_cells m c a Hc) (proj1 Hc)) as [_ ->].
    destruct Hfn as [-> | ->]; reflexivity.
Qed.

Lemma updateCA_rest_witness : at_rest (Nat.iter 3 updateCA branchGrid).
Proof.
  apply (updateCA_rest branchGrid).
  - apply quiet_at_rest. listed_grid.
  - intros c a (Ha & _). apply arrowAt_single in Ha. simpl in Ha.
    repeat (destruct Ha as [Ha|Ha]; [subst a; split; discriminate|]).
    try (subst a; split; discriminate); try contradiction.
Defined.

(** ** The reset key *)

Lemma onKeyDown_KeyN_at m r a :
  arrowAt m r = Some a ->
  (In r (all_cells m) ->
   arrowAt (onKeyDown_KeyN m) r = Some (resetArrow a))
  /\ (~ In r (all_cells m) -> arrowAt (onKeyDown_KeyN m) r = Some a).
Proof.
  intros Ha. unfold onKeyDown_KeyN.
  rewrite fold_updateArrow by apply NoDup_all_cells. rewrite Ha.
  destruct (bool_decide_reflect (r ∈ all_cells m)) as [Hr|Hr];
    rewrite list_elem_of_In in Hr.
  - split; [reflexivity|]. intros Hno. contradiction.
  - split; [|reflexivity]. intros Hyes. contradiction.
Qed.

Lemma onKeyDown_KeyN_dom m c :
  is_Some (onKeyDown_KeyN m !! c) <-> is_Some (m !! c).
Proof.
  unfold onKeyDown_KeyN. generalize (all_cells m). intros l. revert m.
  induction l as [|r l IH]; intros m; simpl; [tauto|].
  rewrite IH. apply lookup_updateArrow_is_Some.
Qed.

Lemma onKeyDown_KeyN_drawing m r a :
  arrowAt m r = Some a ->
  exists a', arrowAt (onKeyDown_KeyN m) r = Some a' /\ same_drawing a a'
    /\ (In r (all_cells m) -> a' = resetArrow a).
Proof.
  intros Ha. destruct (onKeyDown_KeyN_at m r a Ha) as [Hin Hout].
  destruct (decide (r ∈ all_cells m)) as [Hr|Hr];
    rewrite list_elem_of_In in Hr.
  - exists (resetArrow a). split; [exact (Hin Hr)|].
    split; [unfold same_drawing; simpl; tauto|reflexivity].
  - exists a. split; [exact (Hout Hr)|].
    split; [apply same_drawing_refl|]. intros Hyes. contradiction.
Qed.

Lemma onKeyDown_KeyN_grid_dyn m : grid_dyn m (onKeyDown_KeyN m).
Proof.
  split; [apply onKeyDown_KeyN_dom|].
  intros r a Ha.
  destruct (onKeyDown_KeyN_drawing m r a Ha) as (a' & Ha' & Hd & _).
  exists a'. unfold same_drawing in Hd. tauto.
Qed.

Lemma onKeyDown_KeyN_at_rest m : at_rest (onKeyDown_KeyN m).
Proof.
  intros r a' Hr' Ha'.
  assert (Hr : In r (all_cells m))
    by (apply (In_all_cells_dyn m (onKeyDown_KeyN m));
        [apply onKeyDown_KeyN_grid_dyn|exact Hr']).
  assert (Hs : is_Some (arrowAt m r)).
  { apply arrowAt_is_Some. apply In_all_cells in Hr. tauto. }
  destruct Hs as [a Ha].
  destruct (onKeyDown_KeyN_at m r a Ha) as [Hin _].
  rewrite (Hin Hr) in Ha'. injection Ha' as <-. split; reflexivity.
Qed.

(** X13: key N puts the CA to rest without touching the drawing. After the
    handler the same chunks exist, every cell has the shape, rotation,
    mirroring, function, node and offset it had, and every cell of a chunk
    is inactive with no signal pending and a snapshot that says the same,
    so the CA paints it white, while the colour of the node model, which
    the handler does not reset, is what it was; a freshly loaded grid is
    still one; and if the grid holds no constant source and no inverter it
    is at rest after any number of ticks that follow. *)
Theorem onKeyDown_KeyN_resets (m : GameMap) :
  (forall c, is_Some (onKeyDown_KeyN m !! c) <-> is_Some (m !! c))
  /\ (forall r a, arrowAt m r = Some a ->
        exists a', arrowAt (onKeyDown_KeyN m) r = Some a'
          /\ same_drawing a a'
          /\ (forall g, draw_colorNodes g a' = draw_colorNodes g a)
          /\ (In r (all_cells m) ->
              active a' = false /\ signalCount a' = 0%nat
              /\ lastState a' = mkArrowState false 0
              /\ draw_colorCA a' = White))
  /\ at_rest (onKeyDown_KeyN m)
  /\ (fresh m -> fresh (onKeyDown_KeyN m))
  /\ ((forall c a, cell_of m c a ->
         medalType a <> 1%nat /\ medalType a <> 2%nat) ->
      forall k, at_rest (Nat.iter k updateCA (onKeyDown_KeyN m))).
Proof.
  split; [apply onKeyDown_KeyN_dom|]. split.
  { intros r a Ha.
    destruct (onKeyDown_KeyN_drawing m r a Ha) as (a' & Ha' & Hd & Hr).
    exists a'. split; [exact Ha'|]. split; [exact Hd|]. split.
    - intros g. unfold draw_colorNodes.
      destruct Hd as (_ & _ & _ & _ & -> & _ & ->). reflexivity.
    - intros Hin. rewrite (Hr Hin). repeat split. }
  split; [apply onKeyDown_KeyN_at_rest|]. split.
  { intros Hf r a' Ha'.
    assert (Hs : is_Some (arrowAt m r)).
    { apply arrowAt_is_Some, onKeyDown_KeyN_dom,
        (arrowAt_is_Some (onKeyDown_KeyN m) r). eauto. }
    destruct Hs as [a Ha].
    destruct (onKeyDown_KeyN_drawing m r a Ha) as (a2 & Ha2 & Hd & _).
    rewrite Ha' in Ha2. injection Ha2 as <-.
    destruct Hd as (_ & _ & _ & _ & Hn & Ho & _).
    rewrite Hn, Ho. apply (Hf r a Ha). }
  intros Hfn k. apply updateCA_rest_iter; [apply onKeyDown_KeyN_at_rest|].
  intros c a' Hc'.
  destruct (cell_of_dyn (onKeyDown_KeyN m) m c a') as (a & Hc & Hm);
    [apply grid_dyn_sym, onKeyDown_KeyN_grid_dyn|exact Hc'|].
  rewrite <- Hm. apply (Hfn c a Hc).
Qed.

(** ** The resolver lists no cell twice *)

Lemma transform_inj arrow d1 d2 :
  (rotation arrow < 4)%nat ->
  getArrowRelative_transform arrow 0 0 (fst d1) (snd d1)
  = getArrowRelative_transform arrow 0 0 (fst d2) (snd d2) ->
  d1 = d2.
Proof.
  destruct d1 as [a1 b1], d2 as [a2 b2].
  unfold getArrowRelative_transform. cbn [fst snd]. intros Hrot.
  destruct (flipped arrow), (rotation arrow) as [|[|[|[|r]]]];
    try lia; intros [= H1 H2]; f_equal; lia.
Qed.

Lemma NoDup_shape_offsets k : NoDup (shape_offsets k).
Proof.
  do 14 (destruct k as [|k]; [simpl; repeat constructor;
    rewrite ?elem_of_cons, ?elem_of_nil; intuition congruence|]).
  simpl. constructor.
Qed.

Lemma NoDup_source_candidates : NoDup ((0, 0) :: source_candidates).
Proof.
  unfold source_candidates. repeat constructor;
    rewrite ?elem_of_cons, ?elem_of_nil; intuition congruence.
Qed.

Lemma NoDup_omap_inj {A B : Type} (f : A -> option B) (l : list A) :
  NoDup l ->
  (forall x y b, In x l -> In y l -> f x = Some b -> f y = Some b -> x = y) ->
  NoDup (omap f l).
Proof.
  induction l as [|x l IH]; intros Hnd Hinj; [constructor|].
  apply NoDup_cons in Hnd as [Hx Hnd]. simpl.
  assert (IH' : NoDup (omap f l)).
  { apply IH; [exact Hnd|]. intros y z b Hy Hz.
    apply Hinj; right; assumption. }
  destruct (f x) as [b|] eqn:Hfx; [|exact IH'].
  apply NoDup_cons. split; [|exact IH'].
  intros Hb. apply list_elem_of_omap in Hb as (y & Hy & Hfy).
  apply Hx. assert (x = y) as ->; [|exact Hy].
  apply (Hinj x y b); [left; reflexivity| |exact Hfx|exact Hfy].
  right. apply list_elem_of_In, Hy.
Qed.

Lemma resolve_inj m chunk arrow x y d1 d2 tc a1 a2 p :
  0 <= x < CHUNK_SIZE -> 0 <= y < CHUNK_SIZE ->
  (rotation arrow < 4)%nat ->
  Z.abs (fst d1) + Z.abs (snd d1) <= 2 ->
  Z.abs (fst d2) + Z.abs (snd d2) <= 2 ->
  getArrowRelative m chunk arrow x y (fst d1) (snd d1) = Some (tc, a1, p) ->
  getArrowRelative m chunk arrow x y (fst d2) (snd d2) = Some (tc, a2, p) ->
  d1 = d2.
Proof.
  intros Hx Hy Hrot Hs1 Hs2 H1 H2.
  apply getArrowRelative_world in H1 as [H1 _]; try assumption.
  apply getArrowRelative_world in H2 as [H2 _]; try assumption.
  rewrite H1 in H2. apply (transform_inj arrow); [exact Hrot|].
  destruct (getArrowRelative_transform arrow 0 0 (fst d1) (snd d1)),
           (getArrowRelative_transform arrow 0 0 (fst d2) (snd d2)).
  simpl in H2. injection H2 as E1 E2. f_equal; lia.
Qed.

Lemma getTargetArrows_NoDup m chunk arrow x y :
  0 <= x < CHUNK_SIZE -> 0 <= y < CHUNK_SIZE ->
  (rotation arrow < 4)%nat ->
  NoDup (getTargetArrows m chunk arrow x y).
Proof.
  intros Hx Hy Hrot. unfold getTargetArrows.
  apply NoDup_omap_inj; [apply NoDup_shape_offsets|].
  intros d1 d2 [tc p] Hd1 Hd2 H1 H2.
  destruct (getArrowRelative m chunk arrow x y (fst d1) (snd d1))
    as [[[tc1 a1] p1]|] eqn:E1; [|discriminate].
  destruct (getArrowRelative m chunk arrow x y (fst d2) (snd d2))
    as [[[tc2 a2] p2]|] eqn:E2; [|discriminate].
  injection H1 as -> ->. injection H2 as -> ->.
  apply (resolve_inj m chunk arrow x y d1 d2 tc a1 a2 p); try assumption;
    eapply shape_offsets_small; eassumption.
Qed.

Lemma source_candidates_small d :
  In d source_candidates -> Z.abs (fst d) + Z.abs (snd d) <= 2.
Proof.
  unfold source_candidates. simpl.
  intros H. repeat (destruct H as [<-|H]; [simpl; lia|]). destruct H.
Qed.

Lemma omap_id_map {A B : Type} (f : A -> option B) (l : list A) :
  omap (fun o => o) (List.map f l) = omap f l.
Proof.
  induction l as [|x l IH]; [reflexivity|].
  change (List.map f (x :: l)) with (f x :: List.map f l).
  rewrite !omap_cons, IH. reflexivity.
Qed.

Lemma NoDup_map_filter {A B : Type} (f : A -> B) (P : A -> bool)
    (l : list A) :
  NoDup (List.map f l) -> NoDup (List.map f (List.filter P l)).
Proof.
  induction l as [|x l IH]; [trivial|]. simpl. intros Hnd.
  apply NoDup_cons in Hnd as [Hx Hnd].
  destruct (P x); [|apply IH, Hnd].
  simpl. apply NoDup_cons. split; [|apply IH, Hnd].
  intros Hin. apply Hx. apply list_elem_of_In, in_map_iff.
  apply list_elem_of_In, in_map_iff in Hin as (y & Hy & Hin).
  apply filter_In in Hin as [Hin _]. exists y. auto.
Qed.

Lemma getSourceArrows_NoDup m chunk arrow x y :
  0 <= x < CHUNK_SIZE -> 0 <= y < CHUNK_SIZE ->
  (rotation arrow < 4)%nat ->
  NoDup (getSourceArrows m chunk arrow x y).
Proof.
  intros Hx Hy Hrot. unfold getSourceArrows.
  apply NoDup_map_filter. rewrite omap_cons, omap_id_map.
  cbn [List.map fst snd].
  set (proj := fun s : ChunkPos * Arrow * (Z * Z) => (fst (fst s), snd s)).
  assert (E : forall l,
            List.map proj
              (omap (fun d : Z * Z =>
                       getArrowRelative m chunk arrow x y (fst d) (snd d)) l)
            = omap (fun d : Z * Z =>
                      proj <$> getArrowRelative m chunk arrow x y
                                 (fst d) (snd d)) l).
  { induction l as [|d l IH]; [reflexivity|]. rewrite !omap_cons.
    destruct (getArrowRelative m chunk arrow x y (fst d) (snd d));
      simpl; rewrite IH; reflexivity. }
  rewrite E. clear E.
  assert (Hinj : forall d1 d2 b,
            Z.abs (fst d1) + Z.abs (snd d1) <= 2 ->
            Z.abs (fst d2) + Z.abs (snd d2) <= 2 ->
            proj <$> getArrowRelative m chunk arrow x y (fst d1) (snd d1)
            = Some b ->
            proj <$> getArrowRelative m chunk arrow x y (fst d2) (snd d2)
            = Some b -> d1 = d2).
  { intros d1 d2 [tc p] Hs1 Hs2 H1 H2.
    destruct (getArrowRelative m chunk arrow x y (fst d1) (snd d1))
      as [[[tc1 a1] p1]|] eqn:E1; [|discriminate].
    destruct (getArrowRelative m chunk arrow x y (fst d2) (snd d2))
      as [[[tc2 a2] p2]|] eqn:E2; [|discriminate].
    unfold proj in H1, H2. simpl in H1, H2.
    injection H1 as -> ->. injection H2 as -> ->.
    apply (resolve_inj m chunk arrow x y d1 d2 tc a1 a2 p); assumption. }
  apply NoDup_cons. split.
  - intros Hin. apply list_elem_of_omap in Hin as (d & Hd & Hr).
    apply list_elem_of_In in Hd.
    pose proof (source_candidates_small d Hd) as Hsmall.
    destruct (getArrowRelative m chunk arrow x y (fst d) (snd d))
      as [[[tc1 a1] p1]|] eqn:E1; [|discriminate].
    unfold proj in Hr. simpl in Hr. injection Hr as -> ->.
    apply getArrowRelative_world in E1 as [Hw _]; try assumption.
    assert (d = (0, 0)) as ->.
    { apply (transform_inj arrow); [exact Hrot|].
      destruct (getArrowRelative_transform arrow 0 0 (fst d) (snd d))
        as [tx ty] eqn:Ht.
      assert (E0 : getArrowRelative_transform arrow 0 0 0 0 = (0, 0)).
      { unfold getArrowRelative_transform.
        destruct (flipped arrow), (rotation arrow) as [|[|[|[|r]]]];
          reflexivity. }
      cbn [fst snd]. rewrite E0.
      unfold world in Hw. simpl in Hw. injection Hw as E1 E2.
      f_equal; lia. }
    pose proof NoDup_source_candidates as Hnd.
    apply NoDup_cons in Hnd as [Hnd _]. apply Hnd, list_elem_of_In, Hd.
  - apply NoDup_omap_inj.
    + pose proof NoDup_source_candidates as Hnd.
      apply NoDup_cons in Hnd as [_ Hnd]. exact Hnd.
    + intros d1 d2 b Hd1 Hd2. apply Hinj; apply source_candidates_small;
        assumption.
Qed.

(** X14: a cell with a legal rotation never lists a cell twice, neither
    among its targets nor among its sources: the offsets of a shape lead to
    distinct cells, and so do the thirteen places [getSourceArrows]
    looks at. *)
Theorem resolver_lists_no_cell_twice (m : GameMap) (c : ArrowRef)
    (a : Arrow) :
  cell_of m c a -> (rotation a < 4)%nat ->
  NoDup (getTargetArrows m (fst c) a (fst (snd c)) (snd (snd c)))
  /\ NoDup (getSourceArrows m (fst c) a (fst (snd c)) (snd (snd c))).
Proof.
  intros (_ & _ & Hx & Hy) Hrot. split.
  - apply getTargetArrows_NoDup; assumption.
  - apply getSourceArrows_NoDup; assumption.
Qed.

Lemma resolver_lists_no_cell_twice_witness :
  NoDup (getTargetArrows branchGrid (0, 0) (plainArrow 5 0 0) 5 5)
  /\ NoDup (getSourceArrows branchGrid (0, 0) (plainArrow 5 0 0) 5 5).
Proof.
  apply (resolver_lists_no_cell_twice branchGrid ((0, 0), (5, 5))
           (plainArrow 5 0 0)).
  - unfold cell_of, CHUNK_SIZE. cbn [fst snd].
    split; [vm_compute; reflexivity|]. simpl. lia.
  - simpl. lia.
Defined.

(** ** The count of the send pass, through the source resolver *)

Lemma count_ref_NoDup c l : NoDup l -> In c l -> count_ref c l = 1%nat.
Proof.
  induction l as [|t l IH]; intros Hnd Hin; [destruct Hin|].
  apply NoDup_cons in Hnd as [Ht Hnd]. rewrite count_ref_cons.
  destruct Hin as [->|Hin].
  - rewrite ArrowRef_eqb_refl, count_ref_not_In; [reflexivity|].
    intros H. apply Ht, list_elem_of_In, H.
  - rewrite IH by assumption.
    rewrite ArrowRef_eqb_neq; [reflexivity|].
    intros ->. apply Ht, list_elem_of_In, Hin.
Qed.

Lemma getSourceArrows_cell m c ca p :
  cell_of m c ca ->
  In p (getSourceArrows m (fst c) ca (fst (snd c)) (snd (snd c))) ->
  exists ap, cell_of m p ap /\ In c (edges m p).
Proof.
  destruct c as [cc [cx cy]], p as [pc [px py]]. cbn [fst snd].
  intros Hc Hin. pose proof Hc as (Hcat & Hcpos & Hcx & Hcy).
  cbn [fst snd] in Hcx, Hcy.
  apply In_getSourceArrows in Hin as (ap & Hfrom & Hto).
  cbn [fst snd] in Hfrom, Hto.
  assert (Hp : cell_of m (pc, (px, py)) ap).
  { destruct Hfrom as [Heq|(d & Hd & Hr)].
    - injection Heq as -> -> -> ->. exact Hc.
    - apply getArrowRelative_world in Hr as [_ Hr];
        [exact Hr|assumption|assumption|apply source_candidates_small, Hd]. }
  exists ap. split; [exact Hp|].
  unfold edges. rewrite (proj1 Hp). exact Hto.
Qed.

Lemma getSourceArrows_complete m s c sa ca :
  cell_of m s sa -> cell_of m c ca -> (rotation ca < 4)%nat ->
  In c (edges m s) ->
  In s (getSourceArrows m (fst c) ca (fst (snd c)) (snd (snd c))).
Proof.
  intros Hs Hc Hrot Hto. unfold edges in Hto.
  destruct s as [sc [sx sy]], c as [cc [cx cy]].
  pose proof Hs as (Hsat & Hspos & Hsx & Hsy).
  pose proof Hc as (Hcat & Hcpos & Hcx & Hcy).
  rewrite Hsat in Hto. cbn [fst snd] in Hsx, Hsy, Hcx, Hcy, Hto |- *.
  apply In_getSourceArrows. cbn [fst snd]. exists sa. split; [|exact Hto].
  apply In_getTargetArrows in Hto as [o [a' [Ho Hr]]]. cbn [fst snd] in Hr.
  pose proof (shape_offsets_small _ _ Ho) as Hsmall.
  apply getArrowRelative_world in Hr as [Hw _]; try assumption.
  destruct (getArrowRelative_transform sa 0 0 (fst o) (snd o))
    as [tx ty] eqn:Ht.
  pose proof (transform_bounds _ _ _ _ _ _ _ Ht) as Hb.
  cbn [fst snd] in Hw.
  destruct (transform_onto ca (- tx) (- ty) Hrot) as [d [Hd Hn]].
  destruct (decide (d = (0, 0))) as [->|Hnz].
  - left. simpl in Hn.
    assert (tx = 0) by lia. assert (ty = 0) by lia. subst tx ty.
    assert (E : (cc, (cx, cy)) = (sc, (sx, sy))).
    { apply world_inj; simpl; try assumption.
      rewrite Hw. unfold world. simpl. f_equal; lia. }
    injection E as -> -> ->. f_equal. f_equal. congruence.
  - right. exists d. split.
    + apply source_candidates_cover; [lia|exact Hnz].
    + apply (getArrowRelative_complete m cc ca cx cy (fst d) (snd d)
               (sc, (sx, sy)) sa); try assumption; try lia.
      * unfold arrowAt in Hcat. simpl in Hcat.
        destruct (m !! cc); [eauto|discriminate].
      * rewrite Hd. unfold world in *. simpl in *.
        injection Hw as Hw1 Hw2. f_equal; lia.
Qed.

Lemma sum_indicator {A : Type} (P : A -> bool) (l : list A) :
  sum_list_with (fun x => if P x then 1%nat else 0%nat) l
  = length (List.filter P l).
Proof.
  induction l as [|x l IH]; [reflexivity|]. simpl.
  destruct (P x); simpl; rewrite IH; reflexivity.
Qed.

(** X15: the count the activation table of the CA works on is a number of
    cells. On a grid whose non-empty cells have legal rotations, the send
    pass raises a cell's [signalCount] by the number of active cells among
    its [getSourceArrows]; so after a tick that started with no pending
    count the cell's new [active] is the table's value at that number. *)
Theorem updateCA_counts_active_sources (m : GameMap) (c : ArrowRef)
    (a : Arrow) :
  (forall p ap, cell_of m p ap -> (rotation ap < 4)%nat) ->
  cell_of m c a ->
  let n := length (List.filter (is_active m)
                     (getSourceArrows m (fst c) a (fst (snd c))
                                      (snd (snd c)))) in
  (exists a1, arrowAt (updateCA_pass1 m) c = Some a1
     /\ signalCount a1 = (signalCount a + n)%nat)
  /\ (exists a2, cell_of (updateCA m) c a2
        /\ active a2
           = updateCA_active (medalType a) (signalCount a + n) (active a)).
Proof.
  intros Hrot Hc n.
  assert (Hsum : sum_list_with (ca_contrib m c) (all_cells m) = n).
  { unfold n. rewrite <- sum_indicator.
    rewrite (sum_list_with_support (ca_contrib m c)
               (getSourceArrows m (fst c) a (fst (snd c)) (snd (snd c)))).
    - apply sum_list_with_ext. intros p Hp.
      destruct (getSourceArrows_cell m c a p Hc Hp) as (ap & Hpc & Hto).
      unfold ca_contrib, is_active. rewrite (proj1 Hpc).
      destruct Hpc as (Hpa & Hpos & Hx & Hy).
      apply Nat.ltb_lt in Hpos. rewrite Hpos. simpl.
      destruct (active ap); [|reflexivity].
      apply count_ref_NoDup; [|exact Hto].
      unfold edges. rewrite Hpa. apply getTargetArrows_NoDup; auto.
      apply (Hrot p ap). repeat split; try tauto.
      apply Nat.ltb_lt, Hpos.
    - apply NoDup_all_cells.
    - apply getSourceArrows_NoDup; try apply Hc. apply (Hrot c a Hc).
    - intros p Hp.
      destruct (getSourceArrows_cell m c a p Hc Hp) as (ap & Hpc & _).
      eapply cell_of_In_all_cells, Hpc.
    - intros p Hp Hno. unfold ca_contrib.
      destruct (arrowAt m p) as [ap|] eqn:Hpa; [|reflexivity].
      destruct (0 <? arrowType ap)%nat eqn:Hpos; [|reflexivity].
      destruct (active ap); [|reflexivity]. simpl.
      apply count_ref_not_In. intros Hto. apply Hno.
      apply In_all_cells in Hp as (_ & Hx & Hy).
      apply Nat.ltb_lt in Hpos.
      apply (getSourceArrows_complete m p c ap a); auto.
      + repeat split; tauto.
      + apply (Hrot c a Hc). }
  split.
  - destruct (pass1_count m c a (proj1 Hc)) as (a1 & Ha1 & _ & Hn).
    exists a1. split; [exact Ha1|]. rewrite Hn, Hsum. reflexivity.
  - destruct (updateCA_cell_step m c a Hc) as (a2 & Hc2 & _ & Hact).
    exists a2. split; [exact Hc2|]. rewrite Hact, Hsum. reflexivity.
Qed.

Lemma updateCA_counts_active_sources_witness :
  exists a1,
    arrowAt (updateCA_pass1 selfGrid) ((0, 0), (15, 3)) = Some a1
    /\ signalCount a1 = 1%nat.
Proof.
  destruct (updateCA_counts_active_sources selfGrid ((0, 0), (15, 3))
              (mkArrow 12 3 false 0 true 0 (mkArrowState false 0)
                       None None 0))
    as [(a1 & Ha1 & Hn) _].
  - intros p ap (Ha & _). apply arrowAt_single in Ha. simpl in Ha.
    destruct Ha as [->|[<-|[]]]; simpl; lia.
  - unfold cell_of, CHUNK_SIZE. cbn [fst snd].
    split; [vm_compute; reflexivity|]. simpl. lia.
  - exists a1. split; [exact Ha1|]. rewrite Hn. vm_compute. reflexivity.
Defined.

(** ** What is drawn *)

(** The CA tick at one cell, with the snapshot it leaves. *)
Lemma updateCA_cell_last m c a :
  cell_of m c a ->
  exists a2,
    cell_of (updateCA m) c a2
    /\ active a2
       = updateCA_active (medalType a)
           (signalCount a + sum_list_with (ca_contrib m c) (all_cells m))
           (active a)
    /\ lastState a2
       = mkArrowState (active a2)
           (signalCount a + sum_list_with (ca_contrib m c) (all_cells m)).
Proof.
  intros (Ha & Hpos & Hx & Hy).
  destruct (pass1_count m c a Ha) as (a1 & Ha1 & Hco & Hn).
  exists (updateCA_cell a1).
  destruct Hco as (Hty & _ & _ & Hm & Hact & _).
  assert (Hcell : updateCA_cell a1
                  = mkArrow (arrowType a1) (rotation a1) (flipped a1)
                      (medalType a1)
                      (updateCA_active (medalType a1) (signalCount a1)
                                       (active a1))
                      0
                      (mkArrowState
                         (updateCA_active (medalType a1) (signalCount a1)
                                          (active a1))
                         (signalCount a1))
                      (node a1) (originalNode a1) (offset a1)).
  { unfold updateCA_cell. rewrite Hty.
    apply Nat.ltb_lt in Hpos. rewrite Hpos. reflexivity. }
  split; [|split].
  - split; [apply arrowAt_pass2; assumption|].
    rewrite Hcell. simpl. rewrite Hty. auto.
  - rewrite Hcell. simpl. rewrite Hm, Hact, Hn. reflexivity.
  - rewrite Hcell. simpl. rewrite Hn. reflexivity.
Qed.

(** The node tick at one node of the flat list, with the count it
    records. *)
Lemma updateNodes_node_last g s n :
  NoDup (nodeArray g) -> In s (nodeArray g) -> heap g !! s = Some n ->
  exists n2,
    heap (updateNodes g) !! s = Some n2
    /\ LogicNode.lastSignalCount n2
       = (LogicNode.signalCount n
          + sum_list_with (node_contrib (heap g) s) (nodeArray g))%nat.
Proof.
  intros Hnd Hin Hn.
  destruct (pass1_nodes_fold (heap g) s (nodeArray g) (heap g) n
              (heap_dyn_refl _) eq_refl Hn)
    as (n1 & Hn1 & D & _ & Hl & _ & Hc).
  exists (updateNodes_node n1). split.
  - unfold updateNodes, updateNodes_pass2, updateNodes_pass1. simpl.
    rewrite fold_alter_lookup by exact Hnd.
    rewrite bool_decide_eq_true_2 by (apply list_elem_of_In; exact Hin).
    rewrite Hn1. reflexivity.
  - unfold updateNodes_node. simpl. exact Hc.
Qed.

(** At rest the two models start in agreement: the histories of the
    compiled nodes are all false. *)
Lemma rest_same m g :
  compiled_ok m g -> at_rest m ->
  forall c a, cell_of m c a ->
    signalCount a = 0%nat /\ cell_view g c = Some (active a).
Proof.
  intros (K1 & K2 & K3) Hq c a Hc.
  destruct (Hq c a (cell_of_In_all_cells m c a Hc) (proj1 Hc))
    as [Hact Hcnt].
  split; [exact Hcnt|].
  destruct (K3 c a Hc) as (s & j & n & Hp & Hs & Hn & Hj).
  destruct (K2 s Hs) as (n' & Hn' & Hnok).
  rewrite Hn in Hn'. injection Hn' as <-.
  destruct Hnok as (Hlen & _ & Hfalse & _).
  unfold cell_view. rewrite Hp, Hn.
  assert (Hlt : (j < length (LogicNode.signals n))%nat).
  { rewrite Hlen. apply lookup_lt_Some in Hj. exact Hj. }
  destruct (lookup_lt_is_Some_2 _ _ Hlt) as [b Hb]. rewrite Hb.
  rewrite Forall_lookup in Hfalse. rewrite (Hfalse j b Hb), Hact.
  reflexivity.
Qed.

(** One tick of each simulator, started in agreement, ends with every cell
    drawn in the same colour. *)
Lemma tick_colors m0 g0 m g c a2 :
  compiled_ok m0 g0 -> agree m0 g0 m g ->
  cell_of (updateCA m) c a2 ->
  exists a',
    arrowAt (chunks (updateNodes g)) c = Some a'
    /\ draw_colorNodes (updateNodes g) a' = Some (draw_colorCA a2).
Proof.
  intros Hok Hag Hc2.
  pose proof (agree_step m0 g0 m g Hok Hag) as Hag2.
  destruct (cell_of_dyn (updateCA m) m c a2) as (a & Hc & _);
    [apply grid_dyn_sym, grid_dyn_updateCA|exact Hc2|].
  destruct (updateCA_cell_last m c a Hc) as (a2' & Hc2' & Hact & Hlast).
  assert (a2' = a2) as ->.
  { destruct Hc2 as (E2 & _), Hc2' as (E2' & _). congruence. }
  destruct (tick_cell0 m0 g0 m g Hag c a Hc) as (a0 & Hc0 & Hm0).
  pose proof Hok as (K1 & K2 & K3).
  destruct (K3 c a0 Hc0) as (s & j & n0 & Hpos & Hs & Hn0 & Hj).
  destruct (K2 s Hs) as (n0' & Hn0' & Hnok).
  rewrite Hn0 in Hn0'. injection Hn0' as <-.
  pose proof Hag as (_ & Hcnt & Hch & Hna & _ & Hst & Hzero & _).
  destruct (Hst s n0 Hn0) as (n & Hn & Hns).
  assert (Hs' : In s (nodeArray g)) by (rewrite Hna; exact Hs).
  assert (Hnd : NoDup (nodeArray g)) by (rewrite Hna; exact K1).
  destruct (updateNodes_node_last g s n Hnd Hs' Hn) as (n2 & Hn2 & Hl2).
  rewrite (Hzero s n Hs' Hn) in Hl2. simpl in Hl2.
  rewrite (Hcnt c a Hc) in Hact, Hlast. simpl in Hact, Hlast.
  pose proof (tick_view m0 g0 _ _ Hag2 c a2 s j n2 Hc2 Hpos Hn2) as Hview.
  assert (Hchunks : chunks (updateNodes g) = chunks g0).
  { destruct Hag2 as (_ & _ & E & _). exact E. }
  unfold position in Hpos.
  destruct (arrowAt (chunks g0) c) as [a'|] eqn:Ha'; [|discriminate].
  destruct (node a') as [nd|] eqn:Hnd'; [|discriminate].
  injection Hpos as -> Hoff.
  exists a'. rewrite Hchunks. split; [exact Ha'|].
  unfold draw_colorNodes, draw_colorCA, signals_at.
  rewrite Hnd', Hn2, Hoff, Hview. simpl. f_equal.
  destruct (active a2) eqn:Hact2; [reflexivity|].
  rewrite Hlast. simpl. rewrite Hl2.
  destruct j as [|j].
  - simpl.
    rewrite (tick_head_count m0 g0 m g Hok Hag s n0 c Hs Hn0 Hj).
    reflexivity.
  - simpl.
    destruct Hnok as (_ & _ & _ & _ & _ & _ & Hchain & _).
    assert (Hprev : is_Some (LogicNode.arrows n0 !! j)).
    { apply lookup_lt_is_Some. apply lookup_lt_Some in Hj. lia. }
    destruct Hprev as [c0 Hprev].
    destruct (Hchain j c0 c Hprev Hj) as (_ & Hmed & _).
    rewrite <- Hm0, (Hmed a0 (proj1 Hc0)) in Hact. simpl in Hact.
    rewrite <- Hact. reflexivity.
Qed.

(** X16: the two systems paint the same picture. A freshly loaded grid at rest
    is compiled; then after every tick (one of [updateCA] on the grid against
    one of [updateNodes] on the graph) [draw] gives each non-empty cell the
    same colour in the node model as in the CA: red when the cell is active,
    blue when it is not but received a signal in the tick, white otherwise.
    This holds for every order [ks] in which the compiler may visit the chunks
    of the grid ([map.chunks] is visited in the order of insertion). *)
Theorem draw_same_colors (m : GameMap) (ks : list ChunkPos)
  (fuel : nat) :
  fresh m -> ks ≡ₚ chunk_keys m ->
  (length (all_cells m) < fuel)%nat -> at_rest m ->
  exists g,
    compile ks fuel m = Some g
    /\ forall k c a, cell_of (Nat.iter (S k) updateCA m) c a ->
         exists a',
           arrowAt (chunks (Nat.iter (S k) updateNodes g)) c = Some a'
           /\ draw_colorNodes (Nat.iter (S k) updateNodes g) a'
              = Some (draw_colorCA a).
Proof.
  intros Hfresh Hks Hfuel Hq.
  destruct (compile_ok m ks fuel Hfresh Hks Hfuel) as (g & Hg & Hok).
  exists g. split; [exact Hg|]. intros k c a.
  rewrite !Nat.iter_succ. apply (tick_colors m g); [exact Hok|].
  apply agree_from; [exact Hok|].
  apply agree_start; [exact Hok|]. apply rest_same; assumption.
Qed.

Lemma draw_same_colors_witness :
  exists g,
    compile borderOrder 513 borderGrid = Some g
    /\ forall c a, cell_of (Nat.iter 2 updateCA borderGrid) c a ->
         exists a',
           arrowAt (chunks (Nat.iter 2 updateNodes g)) c = Some a'
           /\ draw_colorNodes (Nat.iter 2 updateNodes g) a'
              = Some (draw_colorCA a).
Proof.
  destruct (draw_same_colors borderGrid borderOrder 513) as (g & Hg & Hsame).
  - exact borderGrid_fresh.
  - exact borderGrid_order.
  - exact borderGrid_fuel.
  - apply quiet_at_rest, borderGrid_quiet.
  - exists g. split; [exact Hg|]. exact (Hsame 1%nat).
Defined.

(** ** The history of a node is a delay line *)

Lemma signals_insert_shift v l j :
  (S j < length l)%nat ->
  LogicNode.signals_insert v l !! S j = l !! j.
Proof.
  intros Hj. unfold LogicNode.signals_insert.
  rewrite lookup_take_lt by exact Hj. reflexivity.
Qed.

Lemma updateNodes_shift g s n j :
  NoDup (nodeArray g) -> In s (nodeArray g) -> heap g !! s = Some n ->
  (S j < length (LogicNode.signals n))%nat ->
  exists n2, heap (updateNodes g) !! s = Some n2
    /\ LogicNode.signals n2 !! S j = LogicNode.signals n !! j.
Proof.
  intros Hnd Hs Hn Hj.
  destruct (updateNodes_node_step g s n Hnd Hs Hn)
    as (n2 & Hn2 & _ & _ & _ & _ & Hsig).
  exists n2. split; [exact Hn2|].
  rewrite Hsig. apply signals_insert_shift, Hj.
Qed.

Lemma last_lookup_default (l : list bool) :
  List.last l false = default false (l !! (length l - 1)%nat).
Proof.
  induction l as [|x l IH]; [reflexivity|].
  destruct l as [|y l]; [reflexivity|].
  change (List.last (x :: y :: l) false) with (List.last (y :: l) false).
  rewrite IH. simpl. rewrite Nat.sub_0_r. reflexivity.
Qed.

(** X17: the history of a node is a delay line. In any graph whose flat
    list names no node twice, the value a listed node takes at one tick
    (offset 0 of its history) stands at offset [j] after [j] more ticks,
    for every [j] below the capacity; so what the node sends downstream,
    the oldest entry, is the value it took capacity - 1 ticks before. *)
Theorem updateNodes_delay_line (g : Game) (s : NodeId) (n : LogicNode.t) :
  NoDup (nodeArray g) -> In s (nodeArray g) -> heap g !! s = Some n ->
  forall k,
    exists nk,
      heap (Nat.iter k updateNodes g) !! s = Some nk
      /\ (forall j, (j < length (LogicNode.signals n))%nat ->
            exists nj,
              heap (Nat.iter (k + j) updateNodes g) !! s = Some nj
              /\ LogicNode.signals nj !! j = LogicNode.signals nk !! 0%nat)
      /\ (exists nl,
            heap (Nat.iter (k + (length (LogicNode.signals n) - 1))
                           updateNodes g) !! s = Some nl
            /\ LogicNode.signals_last nl = LogicNode.signals_first nk).
Proof.
  intros Hnd Hs Hn k.
  pose proof (updateNodes_iter_structure g k Hnd)
    as (_ & _ & _ & _ & Hk).
  destruct (Hk s n Hn) as (nk & Hnk & _ & _ & _ & _ & _ & _ & Hlen & _).
  exists nk. split; [exact Hnk|].
  assert (Hline : forall j, (j < length (LogicNode.signals n))%nat ->
            exists nj,
              heap (Nat.iter (k + j) updateNodes g) !! s = Some nj
              /\ length (LogicNode.signals nj)
                 = length (LogicNode.signals n)
              /\ LogicNode.signals nj !! j = LogicNode.signals nk !! 0%nat).
  { induction j as [|j IH]; intros Hj.
    - exists nk. rewrite Nat.add_0_r. auto.
    - destruct IH as (nj & Hnj & Hlj & Hsig); [lia|].
      pose proof (updateNodes_iter_structure g (k + j) Hnd)
        as (_ & _ & Hna & _ & _).
      destruct (updateNodes_shift (Nat.iter (k + j) updateNodes g) s nj j)
        as (n2 & Hn2 & Hsh).
      + rewrite Hna. exact Hnd.
      + rewrite Hna. exact Hs.
      + exact Hnj.
      + rewrite Hlj. exact Hj.
      + exists n2. rewrite Nat.add_succ_r, Nat.iter_succ.
        split; [exact Hn2|]. split; [|rewrite Hsh; exact Hsig].
        pose proof (updateNodes_iter_structure g (S (k + j)) Hnd)
          as (_ & _ & _ & _ & Hk').
        destruct (Hk' s n Hn)
          as (n' & Hn' & _ & _ & _ & _ & _ & _ & Hlen' & _).
        rewrite Nat.iter_succ in Hn'. rewrite Hn2 in Hn'.
        injection Hn' as <-. exact Hlen'. }
  split.
  - intros j Hj. destruct (Hline j Hj) as (nj & Hnj & _ & Hsig).
    exists nj. auto.
  - destruct (length (LogicNode.signals n)) as [|len] eqn:Hl.
    + exists nk. rewrite Nat.add_0_r. split; [exact Hnk|].
      unfold LogicNode.signals_last, LogicNode.signals_first.
      destruct (LogicNode.signals nk); [reflexivity|discriminate].
    + destruct (Hline len) as (nl & Hnl & Hll & Hsig); [lia|].
      exists nl. simpl. rewrite Nat.sub_0_r. split; [exact Hnl|].
      unfold LogicNode.signals_last, LogicNode.signals_first.
      rewrite last_lookup_default, Hll. simpl. rewrite Nat.sub_0_r, Hsig.
      destruct (LogicNode.signals nk); reflexivity.
Qed.

Lemma updateNodes_delay_line_witness :
  exists nk,
    heap (Nat.iter 1 updateNodes
            (mkGame ∅ [LogicNode.new [((0, 0), (1, 1)); ((0, 0), (1, 0))] 1 2;
                       LogicNode.new [((0, 0), (2, 1))] 0 1]
                    [0%nat; 1%nat] [0%nat; 1%nat] ∅)) !! 0%nat = Some nk
    /\ LogicNode.signals nk = [true; false].
Proof.
  destruct (updateNodes_delay_line
              (mkGame ∅ [LogicNode.new [((0, 0), (1, 1)); ((0, 0), (1, 0))]
                                       1 2;
                         LogicNode.new [((0, 0), (2, 1))] 0 1]
                      [0%nat; 1%nat] [0%nat; 1%nat] ∅)
              0%nat
              (LogicNode.new [((0, 0), (1, 1)); ((0, 0), (1, 0))] 1 2))
    with (k := 1%nat) as (nk & Hnk & _).
  - repeat constructor; rewrite ?elem_of_cons, ?elem_of_nil;
      intuition congruence.
  - left. reflexivity.
  - reflexivity.
  - exists nk. split; [exact Hnk|].
    vm_compute in Hnk. injection Hnk as <-. reflexivity.
Defined.

(** ** Placing a cell: chunk and local coordinate *)

Lemma toInt32_small z : - 2 ^ 31 <= z < 2 ^ 31 -> toInt32 z = z.
Proof. intros Hz. unfold toInt32. rewrite Z.mod_small by lia. lia. Qed.

Lemma place_chunk_floor x :
  - 2 ^ 35 <= x < 2 ^ 35 -> place_chunk x = x / 16.
Proof.
  intros Hx. unfold place_chunk. destruct (x <? 0) eqn:Hneg.
  - apply Z.ltb_lt in Hneg.
    replace (x + 1) with (- (- x - 1)) by lia.
    rewrite Z.quot_opp_l by lia.
    rewrite Z.quot_div_nonneg by lia.
    pose proof (Z.div_mod (- x - 1) 16 ltac:(lia)) as E.
    pose proof (Z.mod_pos_bound (- x - 1) 16 ltac:(lia)) as B.
    rewrite toInt32_small by lia.
    apply (Z.div_unique x 16 _ (15 - (- x - 1) mod 16)); lia.
  - apply Z.ltb_ge in Hneg. rewrite Z.add_0_r, Z.sub_0_r.
    rewrite Z.quot_div_nonneg by lia.
    pose proof (Z.div_mod x 16 ltac:(lia)) as E.
    pose proof (Z.mod_pos_bound x 16 ltac:(lia)) as B.
    apply toInt32_small. lia.
Qed.

Lemma place_local_mod x :
  - 2 ^ 35 <= x < 2 ^ 35 -> place_local x = x mod 16.
Proof.
  intros Hx. unfold place_local, CHUNK_SIZE.
  rewrite place_chunk_floor by exact Hx.
  pose proof (Z.div_mod x 16 ltac:(lia)). lia.
Qed.

(** X18: the placement path splits a world coordinate the way the grid is
    laid out. For integer coordinates of magnitude below 2^35 the chunk
    index it computes is the floor of the coordinate over 16 (also for
    negative ones), the local coordinate lies in the chunk, the pair names
    the cell whose world coordinate was given, and every cell of a chunk
    with 32-bit indices is found again from its world coordinate. At 2^35
    the chunk index wraps around to -2^31. *)
Theorem place_ref_world (x y : Z) :
  - 2 ^ 35 <= x < 2 ^ 35 -> - 2 ^ 35 <= y < 2 ^ 35 ->
  place_chunk x = x / CHUNK_SIZE
  /\ place_chunk y = y / CHUNK_SIZE
  /\ 0 <= place_local x < CHUNK_SIZE
  /\ 0 <= place_local y < CHUNK_SIZE
  /\ world (place_ref x y) = (x, y)
  /\ (forall r, 0 <= fst (snd r) < CHUNK_SIZE ->
        0 <= snd (snd r) < CHUNK_SIZE -> world r = (x, y) ->
        place_ref x y = r)
  /\ place_chunk (2 ^ 35) = - 2 ^ 31.
Proof.
  intros Hx Hy.
  pose proof (place_chunk_floor x Hx) as Cx.
  pose proof (place_chunk_floor y Hy) as Cy.
  pose proof (place_local_mod x Hx) as Lx.
  pose proof (place_local_mod y Hy) as Ly.
  pose proof (Z.mod_pos_bound x 16 ltac:(lia)) as Bx.
  pose proof (Z.mod_pos_bound y 16 ltac:(lia)) as By.
  pose proof (Z.div_mod x 16 ltac:(lia)) as Ex.
  pose proof (Z.div_mod y 16 ltac:(lia)) as Ey.
  assert (Hw : world (place_ref x y) = (x, y)).
  { unfold world, place_ref, CHUNK_SIZE. cbn [fst snd].
    rewrite Cx, Cy, Lx, Ly. f_equal; lia. }
  unfold CHUNK_SIZE in *.
  split; [exact Cx|]. split; [exact Cy|].
  split; [rewrite Lx; exact Bx|]. split; [rewrite Ly; exact By|].
  split; [exact Hw|]. split; [|vm_compute; reflexivity].
  intros r Hrx Hry Hr. apply world_inj; unfold CHUNK_SIZE; cbn [fst snd];
    try assumption.
  - unfold place_ref. cbn [fst snd]. rewrite Lx. exact Bx.
  - unfold place_ref. cbn [fst snd]. rewrite Ly. exact By.
  - rewrite Hw, Hr. reflexivity.
Qed.

Lemma place_ref_world_witness :
  place_ref (-1) 16 = ((-1, 1), (15, 0)).
Proof.
  destruct (place_ref_world (-1) 16) as (_ & _ & _ & _ & _ & H & _);
    [lia|lia|].
  apply H; unfold CHUNK_SIZE; simpl; try lia. reflexivity.
Defined.

(** ** The compiler leaves the cells as they are *)

Lemma grid_kept_refl m : grid_kept m m.
Proof.
  split; [tauto|]. intros r a Ha. exists a.
  split; [exact Ha|apply same_shape_refl].
Qed.

Lemma grid_kept_trans m1 m2 m3 :
  grid_kept m1 m2 -> grid_kept m2 m3 -> grid_kept m1 m3.
Proof.
  intros [D1 A1] [D2 A2]. split.
  - intros c. rewrite D2. apply D1.
  - intros r a Ha. destruct (A1 r a Ha) as (a2 & Ha2 & S2).
    destruct (A2 r a2 Ha2) as (a3 & Ha3 & S3).
    exists a3. split; [exact Ha3|].
    eapply same_shape_trans; eassumption.
Qed.

Lemma grid_ext_kept m m' : grid_ext m m' -> grid_kept m m'.
Proof.
  intros [D A]. split.
  - intros c. split; [apply D|]. intros [ch Hch].
    destruct (A (c, (0, 0)) (getArrow ch 0 0)) as (a' & Ha' & _).
    { unfold arrowAt. simpl. rewrite Hch. reflexivity. }
    apply (arrowAt_is_Some m' (c, (0, 0))). eauto.
  - intros r a Ha. destruct (A r a Ha) as (a' & Ha' & S & _). eauto.
Qed.

Lemma grid_off_kept m m' : grid_off m m' -> grid_kept m m'.
Proof.
  intros [D A]. split; [exact D|].
  intros r a Ha. destruct (A r a Ha) as (a' & Ha' & S & _). eauto.
Qed.

Lemma fold_updateArrow_dom f l : forall m c,
  is_Some (fold_left (fun m' r => updateArrow m' r f) l m !! c)
  <-> is_Some (m !! c).
Proof.
  induction l as [|r l IH]; intros m c; simpl; [tauto|].
  rewrite IH. apply lookup_updateArrow_is_Some.
Qed.

Lemma relink_kept g s : grid_kept (chunks g) (chunks (relink g s)).
Proof.
  unfold relink. destruct (heap g !! s) as [n|]; [|apply grid_kept_refl].
  rewrite (proj2 (fold_push_sources s (LogicNode.targets n) _)).
  destruct (fold_alterArrow_fields (setNode s) (LogicNode.arrows n) g)
    as (_ & _ & _ & ->).
  split; [intros c; apply fold_updateArrow_dom|].
  intros r a Ha. rewrite fold_setNode, Ha.
  destruct (bool_decide _); simpl; eexists; (split; [reflexivity|]);
    unfold same_shape; simpl; tauto.
Qed.

Lemma relink_fold_kept l : forall g,
  grid_kept (chunks g) (chunks (fold_left relink l g)).
Proof.
  induction l as [|s l IH]; intros g; simpl; [apply grid_kept_refl|].
  eapply grid_kept_trans; [apply relink_kept|apply IH].
Qed.

Lemma compile_kept m ks fuel :
  fresh m -> ks ≡ₚ chunk_keys m -> (length (all_cells m) < fuel)%nat ->
  exists g, compile ks fuel m = Some g /\ compiled_ok m g
    /\ grid_kept m (chunks g).
Proof.
  intros Hf Hks Hfuel.
  destruct (createNodes_spec m ks fuel Hf Hks Hfuel)
    as (gr & Hgr & Hwf & Hext & Hframe & Hcomp & Hall).
  pose proof (createNodes_marked m ks fuel gr Hf Hgr) as Hrange.
  assert (Hnodes : nodes gr = []).
  { destruct Hframe as (_ & _ & Hn & _). exact Hn. }
  pose proof (raw_heap_bound m gr Hext Hwf Hrange) as Hbound.
  pose proof (fun r => cells_in_raw m gr ks r Hext Hks) as Hcells.
  destruct (simplifyNodes_compiled m gr Hext Hwf Hcomp Hrange Hall ks fuel
              Hcells Hnodes) as (g & Hg & Hok); [lia|].
  exists g. split; [unfold compile; rewrite Hgr; exact Hg|].
  split; [exact Hok|].
  destruct (simplifyCells_inv m gr Hext Hwf Hcomp Hrange Hall fuel
              (cells_in ks) (set_simplifiedNodes gr ∅))
    as (g1 & Hg1 & SI1 & _).
  { lia. }
  { intros r Hr. apply Hcells, In_all_cells in Hr. tauto. }
  { apply simp_inv_init; assumption. }
  { intros i n Hi Hn. simpl in Hn. apply lookup_lt_Some in Hn. lia. }
  unfold simplifyNodes in Hg. cbn zeta in Hg.
  unfold simplifyCells in Hg1. rewrite Hg1 in Hg. injection Hg as <-.
  cbn [chunks set_nodeArray].
  eapply grid_kept_trans; [apply grid_ext_kept, Hext|].
  eapply grid_kept_trans; [apply grid_off_kept, (si_grid _ _ _ SI1)|].
  apply (relink_fold_kept _ (set_simplifiedNodes g1 ∅)).
Qed.

(** ** The CA does not read what the compiler wrote *)

Lemma grid_kept_dyn m m' : grid_kept m m' -> grid_dyn m m'.
Proof.
  intros [D A]. split; [exact D|].
  intros r a Ha. destruct (A r a Ha) as (a' & Ha' & S).
  exists a'. unfold same_shape in S. tauto.
Qed.

Lemma ca_contrib_kept m m' c p :
  grid_kept m m' -> ca_contrib m' c p = ca_contrib m c p.
Proof.
  intros Hk. pose proof (grid_kept_dyn m m' Hk) as Hd.
  unfold ca_contrib. rewrite (edges_dyn m m' p Hd).
  destruct (arrowAt m p) as [a|] eqn:Ha.
  - destruct (proj2 Hk p a Ha) as (a' & Ha' & S). rewrite Ha'.
    destruct S as (-> & _ & _ & _ & -> & _). reflexivity.
  - destruct (arrowAt m' p) as [a'|] eqn:Ha'; [|reflexivity].
    exfalso. assert (Hs : is_Some (arrowAt m p)).
    { apply arrowAt_is_Some, (proj1 Hk), (arrowAt_is_Some m' p). eauto. }
    destruct Hs as [? Hs]. congruence.
Qed.

Lemma same_shape_cell a a' :
  same_shape a a' -> same_shape (updateCA_cell a) (updateCA_cell a').
Proof.
  intros (H1 & H2 & H3 & H4 & H5 & H6 & H7).
  unfold updateCA_cell. rewrite H1.
  destruct (0 <? arrowType a)%nat; unfold same_shape; simpl;
    rewrite ?H4, ?H5, ?H6; tauto.
Qed.

Lemma updateCA_kept m m' :
  grid_kept m m' -> grid_kept (updateCA m) (updateCA m').
Proof.
  intros Hk. pose proof (grid_kept_dyn m m' Hk) as Hd. split.
  - intros c. rewrite (proj1 (grid_dyn_updateCA m') c),
      (proj1 (grid_dyn_updateCA m) c). apply (proj1 Hk).
  - intros r a2 Ha2.
    assert (Hs : is_Some (arrowAt m r)).
    { apply arrowAt_is_Some, (proj1 (grid_dyn_updateCA m)),
        (arrowAt_is_Some (updateCA m) r). eauto. }
    destruct Hs as [a Ha].
    destruct (proj2 Hk r a Ha) as (a' & Ha' & S).
    destruct (updateCA_at m r a Ha) as (a1 & Hco & Hn & Hin & Hout).
    destruct (updateCA_at m' r a' Ha') as (a1' & Hco' & Hn' & Hin' & Hout').
    assert (Hsum : sum_list_with (ca_contrib m' r) (all_cells m')
                   = sum_list_with (ca_contrib m r) (all_cells m)).
    { rewrite (sum_list_with_support (ca_contrib m' r) (all_cells m)).
      - apply sum_list_with_ext. intros p _. apply ca_contrib_kept, Hk.
      - apply NoDup_all_cells.
      - apply NoDup_all_cells.
      - intros p. apply (In_all_cells_dyn m m' p Hd).
      - intros p Hp Hno. exfalso. apply Hno.
        apply (In_all_cells_dyn m m' p Hd), Hp. }
    assert (S1 : same_shape a1 a1').
    { destruct S as (S1 & S2 & S3 & S4 & S5 & S6 & S7).
      destruct Hco as (C1 & C2 & C3 & C4 & C5 & C6 & _).
      destruct Hco' as (D1 & D2 & D3 & D4 & D5 & D6 & _).
      unfold same_shape. rewrite Hn, Hn', Hsum. intuition congruence. }
    destruct (decide (r ∈ all_cells m)) as [Hr|Hr];
      rewrite list_elem_of_In in Hr.
    + rewrite (Hin Hr) in Ha2. injection Ha2 as <-.
      exists (updateCA_cell a1'). split; [|apply same_shape_cell, S1].
      apply Hin'. apply (In_all_cells_dyn m m' r Hd), Hr.
    + rewrite (Hout Hr) in Ha2. injection Ha2 as <-.
      exists a1'. split; [|exact S1].
      apply Hout'. intros Hr'. apply Hr.
      apply (In_all_cells_dyn m m' r Hd), Hr'.
Qed.

(** X19: the compiler writes nothing but [node], [originalNode] and [offset],
    and the CA reads none of them. After the compilation of a freshly loaded
    grid the game's grid holds the same chunks and every cell has the shape,
    rotation, mirroring, function, [active], [signalCount] and [lastState] it
    was loaded with; and the CA run on the game's grid stays, tick after tick,
    cell for cell, what it is on the grid as loaded. This holds for every
    order [ks] in which the compiler may visit the chunks of the grid
    ([map.chunks] is visited in the order of insertion). *)
Theorem compile_keeps_cells (m : GameMap) (ks : list ChunkPos)
  (fuel : nat) :
  fresh m -> ks ≡ₚ chunk_keys m ->
  (length (all_cells m) < fuel)%nat ->
  exists g,
    compile ks fuel m = Some g
    /\ grid_kept m (chunks g)
    /\ forall k,
         grid_kept (Nat.iter k updateCA m) (Nat.iter k updateCA (chunks g)).
Proof.
  intros Hf Hks Hfuel.
  destruct (compile_kept m ks fuel Hf Hks Hfuel) as (g & Hg & _ & Hk).
  exists g. split; [exact Hg|]. split; [exact Hk|].
  induction k as [|k IH]; [exact Hk|].
  rewrite !Nat.iter_succ. apply updateCA_kept, IH.
Qed.

Lemma compile_keeps_cells_witness :
  exists g, compile borderOrder 513 borderGrid = Some g
    /\ grid_kept borderGrid (chunks g).
Proof.
  destruct (compile_keeps_cells borderGrid borderOrder 513) as (g & Hg & Hk & _).
  - exact borderGrid_fresh.
  - exact borderGrid_order.
  - exact borderGrid_fuel.
  - exists g. auto.
Defined.

(** ** Clicking a cell in either model *)

Lemma agree_ticks m0 g0 m g j :
  compiled_ok m0 g0 -> agree m0 g0 m g ->
  agree m0 g0 (Nat.iter j updateCA m) (Nat.iter j updateNodes g).
Proof.
  intros Hok Hag. induction j as [|j IH]; [exact Hag|].
  rewrite !Nat.iter_succ. apply agree_step; assumption.
Qed.

Lemma position_arrow g c s j :
  position g c = Some (s, j) ->
  exists a, arrowAt (chunks g) c = Some a /\ node a = Some s /\ offset a = j.
Proof.
  unfold position. destruct (arrowAt (chunks g) c) as [a|]; [|discriminate].
  destruct (node a) as [nd|] eqn:Hnd; [|discriminate].
  intros [= <- <-]. exists a. auto.
Qed.

Lemma agree_click m0 g0 m g c :
  compiled_ok m0 g0 -> grid_kept m0 (chunks g0) -> agree m0 g0 m g ->
  0 <= fst (snd c) < CHUNK_SIZE -> 0 <= snd (snd c) < CHUNK_SIZE ->
  exists g', onClick_nodes g c = Some g'
    /\ agree m0 g0 (onClick_CA m c) g'.
Proof.
  intros Hok Hkept Hag Hx Hy.
  pose proof Hag as (Hdyn & Hcnt & Hch & Hna & Hlen & Hst & Hzero & Hview).
  unfold onClick_CA, onClick_nodes. rewrite Hch.
  destruct (arrowAt m c) as [a|] eqn:Ha.
  2:{ destruct (arrowAt (chunks g0) c) as [a'|] eqn:Ha'; [|eauto].
      exfalso. assert (Hs : is_Some (arrowAt m c)).
      { apply arrowAt_is_Some, (proj1 Hdyn), (proj1 Hkept),
          (arrowAt_is_Some (chunks g0) c). eauto. }
      destruct Hs as [? Hs]. congruence. }
  assert (Hs0 : is_Some (arrowAt m0 c)).
  { apply arrowAt_is_Some, (proj1 Hdyn), (arrowAt_is_Some m c). eauto. }
  destruct Hs0 as [a0 Ha0].
  destruct (proj2 Hdyn c a0 Ha0) as (a_ & Ha_ & Hty & _).
  rewrite Ha in Ha_. injection Ha_ as <-.
  destruct (proj2 Hkept c a0 Ha0) as (a' & Ha' & S). rewrite Ha'.
  assert (Hty' : arrowType a' = arrowType a)
    by (destruct S as (-> & _); congruence).
  rewrite Hty'.
  destruct (arrowType a =? 0)%nat eqn:Hz; [eauto|].
  apply Nat.eqb_neq in Hz.
  assert (Hc : cell_of m c a).
  { split; [exact Ha|]. split; [lia|]. split; assumption. }
  destruct (tick_cell0 m0 g0 m g Hag c a Hc) as (a0' & Hc0 & _).
  pose proof Hok as (K1 & K2 & K3).
  destruct (K3 c a0' Hc0) as (s & j & n0 & Hpos & Hs & Hn0 & Hj).
  destruct (position_arrow g0 c s j Hpos) as (a'' & Ha'' & Hnode & Hoff).
  rewrite Ha' in Ha''. injection Ha'' as <-.
  rewrite Hnode, Hoff.
  destruct (Hst s n0 Hn0) as (n & Hn & Hns). rewrite Hn.
  eexists. split; [reflexivity|].
  assert (Hsig : LogicNode.signals n !! j = Some (active a)).
  { exact (tick_view m0 g0 m g Hag c a s j n Hc Hpos Hn). }
  assert (Hdyn' : grid_dyn m (updateArrow m c toggleActive)).
  { split; [intros k; apply lookup_updateArrow_is_Some|].
    intros r b Hb. rewrite arrowAt_updateArrow, Hb.
    destruct (decide (c = r)); simpl; eexists; (split; [reflexivity|]);
      simpl; auto. }
  split; [eapply grid_dyn_trans; eassumption|]. split.
  { intros c' b (Hb & Hbpos & Hbx & Hby).
    rewrite arrowAt_updateArrow in Hb.
    destruct (decide (c = c')) as [<-|Hne].
    - rewrite Ha in Hb. injection Hb as <-. simpl. apply (Hcnt c a Hc).
    - apply (Hcnt c' b). exact (conj Hb (conj Hbpos (conj Hbx Hby))). }
  split; [exact Hch|]. split; [exact Hna|]. split.
  { unfold alterNode. simpl. rewrite length_alter. exact Hlen. }
  split.
  { intros i ni Hni. destruct (Hst i ni Hni) as (n' & Hn' & Hns').
    unfold alterNode. simpl.
    destruct (decide (i = s)) as [->|Hne].
    - rewrite list_lookup_alter_eq, Hn'. simpl. eexists.
      split; [reflexivity|].
      unfold node_static in *. simpl. rewrite length_insert. exact Hns'.
    - rewrite list_lookup_alter_ne by congruence. eauto. }
  split.
  { intros s' n' Hs' Hn'. unfold alterNode in Hn'. simpl in Hn', Hs'.
    destruct (decide (s' = s)) as [->|Hne].
    - rewrite list_lookup_alter_eq, Hn in Hn'. simpl in Hn'.
      injection Hn' as <-. simpl. apply (Hzero s n); [|exact Hn].
      rewrite Hna. exact Hs.
    - rewrite list_lookup_alter_ne in Hn' by congruence.
      apply (Hzero s' n'); assumption. }
  intros c' b (Hb & Hbpos & Hbx & Hby).
  rewrite arrowAt_updateArrow in Hb.
  unfold cell_view, position, alterNode. simpl. rewrite Hch.
  destruct (decide (c = c')) as [<-|Hne].
  - rewrite Ha in Hb. injection Hb as <-.
    rewrite Ha', Hnode, Hoff, list_lookup_alter_eq, Hn. simpl.
    unfold signals_at. rewrite Hsig. simpl.
    apply list_lookup_insert_eq. apply lookup_lt_Some in Hsig. exact Hsig.
  - assert (Hc' : cell_of m c' b)
      by exact (conj Hb (conj Hbpos (conj Hbx Hby))).
    pose proof (Hview c' b Hc') as Hv.
    unfold cell_view, position in Hv. rewrite Hch in Hv.
    destruct (tick_cell0 m0 g0 m g Hag c' b Hc') as (b0 & Hb0 & _).
    destruct (K3 c' b0 Hb0) as (s' & j' & n0' & Hpos' & Hs' & Hn0' & Hj').
    destruct (position_arrow g0 c' s' j' Hpos')
      as (b' & Hb' & Hnode' & Hoff').
    rewrite Hb', Hnode', Hoff' in Hv |- *.
    destruct (decide (s' = s)) as [->|Hns'].
    + rewrite Hn in Hv. rewrite list_lookup_alter_eq, Hn. simpl.
      rewrite Hn0 in Hn0'. injection Hn0' as <-.
      rewrite list_lookup_insert_ne; [exact Hv|].
      intros <-. apply Hne. congruence.
    + rewrite list_lookup_alter_ne by congruence. exact Hv.
Qed.

(** X20: a click keeps the two models together. On the compiled graph of a
    freshly loaded grid at rest, after any number of ticks, a click on a place
    of a chunk does not fail in the node model, and when the same place is
    clicked in the CA (which negates [active] of a non-empty cell and does
    nothing on an empty one) the two models show the same value on every cell
    at every later tick. This holds for every order [ks] in which the compiler
    may visit the chunks of the grid ([map.chunks] is visited in the order of
    insertion). *)
Theorem onClick_keeps_agreement (m : GameMap) (ks : list ChunkPos)
  (fuel : nat) :
  fresh m -> ks ≡ₚ chunk_keys m ->
  (length (all_cells m) < fuel)%nat -> at_rest m ->
  exists g,
    compile ks fuel m = Some g
    /\ forall k c,
         0 <= fst (snd c) < CHUNK_SIZE -> 0 <= snd (snd c) < CHUNK_SIZE ->
         exists g',
           onClick_nodes (Nat.iter k updateNodes g) c = Some g'
           /\ forall j c' a',
                cell_of (Nat.iter j updateCA
                           (onClick_CA (Nat.iter k updateCA m) c)) c' a' ->
                cell_view (Nat.iter j updateNodes g') c' = Some (active a').
Proof.
  intros Hf Hks Hfuel Hrest.
  destruct (compile_kept m ks fuel Hf Hks Hfuel) as (g & Hg & Hok & Hkept).
  exists g. split; [exact Hg|]. intros k c Hx Hy.
  assert (Hag : agree m g (Nat.iter k updateCA m) (Nat.iter k updateNodes g)).
  { apply agree_from; [exact Hok|].
    apply agree_start; [exact Hok|]. apply rest_same; assumption. }
  destruct (agree_click m g _ _ c Hok Hkept Hag Hx Hy) as (g' & Hg' & Hag').
  exists g'. split; [exact Hg'|]. intros j.
  pose proof (agree_ticks m g _ _ j Hok Hag')
    as (_ & _ & _ & _ & _ & _ & _ & Hview).
  exact Hview.
Qed.

Lemma onClick_keeps_agreement_witness :
  exists g g',
    compile borderOrder 513 borderGrid = Some g
    /\ onClick_nodes (Nat.iter 2 updateNodes g) ((1, 0), (0, 2)) = Some g'.
Proof.
  destruct (onClick_keeps_agreement borderGrid borderOrder 513) as (g & Hg & Hclick).
  - exact borderGrid_fresh.
  - exact borderGrid_order.
  - exact borderGrid_fuel.
  - apply quiet_at_rest, borderGrid_quiet.
  - destruct (Hclick 2%nat ((1, 0), (0, 2))) as (g' & Hg' & _);
      [unfold CHUNK_SIZE; simpl; lia|unfold CHUNK_SIZE; simpl; lia|].
    exists g, g'. auto.
Defined.

(** ** The ticks do not depend on the visiting order *)

Lemma count_only_eq a a1 a2 :
  count_only a a1 -> count_only a a2 -> signalCount a1 = signalCount a2 ->
  a1 = a2.
Proof.
  intros (A1 & A2 & A3 & A4 & A5 & A6 & A7 & A8 & A9 & _)
         (B1 & B2 & B3 & B4 & B5 & B6 & B7 & B8 & B9 & _) Hc.
  destruct a1, a2. simpl in *. congruence.
Qed.

Lemma fold_send_None l : forall m r,
  arrowAt m r = None -> arrowAt (fold_left updateCA_send l m) r = None.
Proof.
  intros m r Hn.
  destruct (arrowAt (fold_left updateCA_send l m) r) as [a|] eqn:Ha;
    [|reflexivity].
  exfalso.
  assert (Hle : grid_le m (fold_left updateCA_send l m))
    by (apply grid_le_fold, grid_le_updateCA_send).
  assert (Hs : is_Some (arrowAt m r)).
  { apply arrowAt_is_Some, (proj1 Hle),
      (arrowAt_is_Some (fold_left updateCA_send l m) r). eauto. }
  destruct Hs as [? Hs]. congruence.
Qed.

(** X21: a tick of the CA does not depend on the order in which the chunks
    and their cells are visited. Whatever orders the two loop nests take
    over the cells of the grid, every cell ends the tick as [updateCA]
    leaves it: the second pass reads only counts the first pass has
    finished, and each pass writes a cell from that cell alone. *)
Theorem updateCA_any_order (m : GameMap) (l1 l2 : list ArrowRef) :
  l1 ≡ₚ all_cells m -> l2 ≡ₚ all_cells m ->
  forall r, arrowAt (updateCA_in l1 l2 m) r = arrowAt (updateCA m) r.
Proof.
  intros H1 H2 r. unfold updateCA_in, updateCA, updateCA_pass2.
  assert (Hnd2 : NoDup l2) by (rewrite H2; apply NoDup_all_cells).
  rewrite fold_updateArrow by exact Hnd2.
  rewrite fold_updateArrow by apply NoDup_all_cells.
  assert (Hin : r ∈ l2 <-> r ∈ all_cells (updateCA_pass1 m)).
  { rewrite H2, !list_elem_of_In.
    symmetry. apply In_all_cells_dyn, grid_le_dyn, grid_le_pass1. }
  rewrite (bool_decide_ext _ _ Hin).
  assert (E : arrowAt (fold_left updateCA_send l1 m) r
              = arrowAt (updateCA_pass1 m) r); [|rewrite E; reflexivity].
  destruct (arrowAt m r) as [a|] eqn:Ha.
  - destruct (pass1_fold_count m r l1 m a (grid_le_refl m) Ha)
      as (a1 & Ha1 & Hco1 & Hn1).
    destruct (pass1_count m r a Ha) as (a2 & Ha2 & Hco2 & Hn2).
    rewrite Ha1, Ha2. f_equal.
    apply (count_only_eq a); [assumption|assumption|].
    rewrite Hn1, Hn2, H1. reflexivity.
  - unfold updateCA_pass1. rewrite !fold_send_None by exact Ha.
    reflexivity.
Qed.

Lemma updateCA_any_order_witness :
  arrowAt (updateCA_in (rev (all_cells sourceGrid))
                       (rev (all_cells sourceGrid)) sourceGrid)
          ((0, 0), (3, 2))
  = arrowAt (updateCA sourceGrid) ((0, 0), (3, 2)).
Proof.
  apply (updateCA_any_order sourceGrid); symmetry; apply Permutation_rev.
Defined.

Lemma node_dyn_eq n n1 n2 :
  node_dyn n n1 -> node_dyn n n2 ->
  LogicNode.signalCount n1 = LogicNode.signalCount n2 ->
  LogicNode.lastSignal n1 = LogicNode.lastSignal n2 ->
  LogicNode.lastSignalCount n1 = LogicNode.lastSignalCount n2 ->
  n1 = n2.
Proof.
  intros (A1 & A2 & A3 & A4 & A5 & A6 & A7)
         (B1 & B2 & B3 & B4 & B5 & B6 & B7) Hc Hl Hlc.
  destruct n1, n2. simpl in *. congruence.
Qed.

Lemma length_fold_send l : forall h,
  length (fold_left updateNodes_send l h) = length h.
Proof.
  induction l as [|s l IH]; intros h; simpl; [reflexivity|].
  rewrite IH. apply length_send.
Qed.

(** X22: a tick of the node simulator does not depend on the order of the
    flat list. Whatever orders the two [forEach] take over the nodes of a
    duplicate-free flat list, every node object ends the tick as
    [updateNodes] leaves it. *)
Theorem updateNodes_any_order (g : Game) (l1 l2 : list NodeId) :
  NoDup (nodeArray g) -> l1 ≡ₚ nodeArray g -> l2 ≡ₚ nodeArray g ->
  updateNodes_in l1 l2 g = updateNodes g.
Proof.
  intros Hnd H1 H2. unfold updateNodes_in, updateNodes, updateNodes_pass2,
    updateNodes_pass1. simpl. unfold set_heap. simpl. f_equal.
  apply list_eq. intros i.
  assert (Hnd2 : NoDup l2) by (rewrite H2; exact Hnd).
  rewrite !fold_alter_lookup by assumption.
  assert (Hin : i ∈ l2 <-> i ∈ nodeArray g) by (rewrite H2; reflexivity).
  rewrite (bool_decide_ext _ _ Hin).
  assert (E : fold_left updateNodes_send l1 (heap g) !! i
              = fold_left updateNodes_send (nodeArray g) (heap g) !! i);
    [|rewrite E; reflexivity].
  destruct (heap g !! i) as [n|] eqn:Hn.
  - destruct (pass1_nodes_fold (heap g) i l1 (heap g) n
                (heap_dyn_refl _) eq_refl Hn)
      as (n1 & Hn1 & D1 & Hlc1 & Hin1 & Hout1 & Hc1).
    destruct (pass1_nodes_fold (heap g) i (nodeArray g) (heap g) n
                (heap_dyn_refl _) eq_refl Hn)
      as (n2 & Hn2 & D2 & Hlc2 & Hin2 & Hout2 & Hc2).
    rewrite Hn1, Hn2. f_equal.
    apply (node_dyn_eq n); try assumption.
    + rewrite Hc1, Hc2, H1. reflexivity.
    + destruct (decide (i ∈ nodeArray g)) as [Hi|Hi].
      * rewrite Hin1, Hin2; [reflexivity| |];
          apply list_elem_of_In; [|rewrite H1]; exact Hi.
      * rewrite Hout1, Hout2; [reflexivity| |];
          rewrite <- list_elem_of_In; [|rewrite H1]; exact Hi.
    + congruence.
  - apply lookup_ge_None in Hn.
    rewrite !(proj2 (lookup_ge_None _ _)); [reflexivity| |];
      rewrite length_fold_send; exact Hn.
Qed.

Lemma updateNodes_any_order_witness :
  updateNodes_in [1%nat; 0%nat] [1%nat; 0%nat]
    (mkGame ∅ [LogicNode.new [((0, 0), (1, 1)); ((0, 0), (1, 0))] 1 2;
               LogicNode.new [((0, 0), (2, 1))] 0 1]
            [0%nat; 1%nat] [0%nat; 1%nat] ∅)
  = updateNodes
      (mkGame ∅ [LogicNode.new [((0, 0), (1, 1)); ((0, 0), (1, 0))] 1 2;
                 LogicNode.new [((0, 0), (2, 1))] 0 1]
              [0%nat; 1%nat] [0%nat; 1%nat] ∅).
Proof.
  apply updateNodes_any_order.
  - repeat constructor; rewrite ?elem_of_cons, ?elem_of_nil;
      intuition congruence.
  - apply perm_swap.
  - apply perm_swap.
Defined.

(** ** The resolver is local *)

Lemma resolve_near m chunk arrow x y d tc a p :
  0 <= x < CHUNK_SIZE -> 0 <= y < CHUNK_SIZE ->
  Z.abs (fst d) + Z.abs (snd d) <= 2 ->
  getArrowRelative m chunk arrow x y (fst d) (snd d) = Some (tc, a, p) ->
  cell_of m (tc, p) a
  /\ Z.abs (fst (world (tc, p)) - fst (world (chunk, (x, y))))
     + Z.abs (snd (world (tc, p)) - snd (world (chunk, (x, y)))) <= 2.
Proof.
  intros Hx Hy Hd Hr.
  apply getArrowRelative_world in Hr as [Hw Hc]; try assumption.
  split; [exact Hc|]. rewrite Hw. cbn [fst snd].
  destruct (getArrowRelative_transform arrow 0 0 (fst d) (snd d))
    as [tx ty] eqn:Ht.
  pose proof (transform_bounds _ _ _ _ _ _ _ Ht). cbn [fst snd]. lia.
Qed.

Lemma length_omap_le {A B : Type} (f : A -> option B) (l : list A) :
  (length (omap f l) <= length l)%nat.
Proof.
  induction l as [|x l IH]; [reflexivity|]. rewrite omap_cons.
  destruct (f x); simpl; lia.
Qed.

Lemma length_shape_offsets k : (length (shape_offsets k) <= 4)%nat.
Proof.
  do 14 (destruct k as [|k]; [simpl; lia|]). simpl. lia.
Qed.

(** X23: signals travel at most two cells a tick. Every target
    [getTargetArrows] resolves for a cell, and every source
    [getSourceArrows] finds for it, is a non-empty cell of a materialised
    chunk at taxicab distance at most 2 in world coordinates, whatever the
    rotation field holds; a cell has at most 4 targets and at most 13
    sources. *)
Theorem resolver_is_local (m : GameMap) (c : ArrowRef) (a : Arrow) :
  cell_of m c a ->
  (forall r,
     In r (getTargetArrows m (fst c) a (fst (snd c)) (snd (snd c)))
     \/ In r (getSourceArrows m (fst c) a (fst (snd c)) (snd (snd c))) ->
     (exists ar, cell_of m r ar)
     /\ Z.abs (fst (world r) - fst (world c))
        + Z.abs (snd (world r) - snd (world c)) <= 2)
  /\ (length (getTargetArrows m (fst c) a (fst (snd c)) (snd (snd c)))
      <= 4)%nat
  /\ (length (getSourceArrows m (fst c) a (fst (snd c)) (snd (snd c)))
      <= 13)%nat.
Proof.
  destruct c as [cc [cx cy]]. cbn [fst snd].
  intros Hc. pose proof Hc as (Hat & Hpos & Hx & Hy).
  cbn [fst snd] in Hx, Hy. split; [|split].
  - intros [rc rp] [Hin|Hin].
    + apply In_getTargetArrows in Hin as (d & ar & Hd & Hr).
      cbn [fst snd] in Hr.
      destruct (resolve_near m cc a cx cy d rc ar rp Hx Hy
                  (shape_offsets_small _ _ Hd) Hr) as [Hcell Hnear].
      split; [eauto|exact Hnear].
    + apply In_getSourceArrows in Hin as (ar & Hfrom & _).
      cbn [fst snd] in Hfrom. destruct Hfrom as [Heq|(d & Hd & Hr)].
      * injection Heq as -> -> ->. split; [eauto|].
        rewrite !Z.sub_diag. simpl. lia.
      * destruct (resolve_near m cc a cx cy d rc ar rp Hx Hy
                    (source_candidates_small _ Hd) Hr) as [Hcell Hnear].
        split; [eauto|exact Hnear].
  - unfold getTargetArrows.
    etransitivity; [apply length_omap_le|apply length_shape_offsets].
  - unfold getSourceArrows. rewrite length_map.
    etransitivity; [apply List.filter_length_le|].
    etransitivity; [apply length_omap_le|].
    cbn [length]. rewrite length_map. unfold source_candidates.
    cbn [length]. lia.
Qed.

Lemma resolver_is_local_witness :
  (length (getTargetArrows branchGrid (0, 0)%Z (plainArrow 5 0 0) 5%Z 5%Z)
   <= 4)%nat.
Proof.
  apply (resolver_is_local branchGrid ((0, 0), (5, 5)) (plainArrow 5 0 0)).
  unfold cell_of, CHUNK_SIZE. cbn [fst snd].
  split; [vm_compute; reflexivity|]. simpl. lia.
Defined.

(** ** Copying a selection *)

Lemma copy_min_fold (coord : Z * Z -> Z) (l : list (Z * Z)) : forall v,
  exists mn,
    fold_left
      (fun mn pos =>
         match mn with
         | None => Some (coord pos)
         | Some v => if coord pos <? v then Some (coord pos) else Some v
         end) l (Some v) = Some mn
    /\ mn <= v
    /\ (forall pos, In pos l -> mn <= coord pos)
    /\ (mn = v \/ exists pos, In pos l /\ coord pos = mn).
Proof.
  induction l as [|p l IH]; intros v; simpl.
  - exists v. split; [reflexivity|]. split; [lia|]. split; [tauto|auto].
  - destruct (coord p <? v) eqn:E.
    + apply Z.ltb_lt in E.
      destruct (IH (coord p)) as (mn & Hmn & Hle & Hall & Hat).
      exists mn. split; [exact Hmn|]. split; [lia|]. split.
      * intros pos [<-|Hin]; [exact Hle|apply Hall, Hin].
      * right. destruct Hat as [->|(pos & Hin & Hpos)]; eauto.
    + apply Z.ltb_ge in E.
      destruct (IH v) as (mn & Hmn & Hle & Hall & Hat).
      exists mn. split; [exact Hmn|]. split; [lia|]. split.
      * intros pos [<-|Hin]; [lia|apply Hall, Hin].
      * destruct Hat as [->|(pos & Hin & Hpos)]; [left; reflexivity|].
        right. eauto.
Qed.

Lemma copy_min_spec (coord : Z * Z -> Z) (p : Z * Z) (l : list (Z * Z)) :
  exists mn,
    copy_min coord (p :: l) = Some mn
    /\ (forall pos, In pos (p :: l) -> mn <= coord pos)
    /\ (exists pos, In pos (p :: l) /\ coord pos = mn).
Proof.
  unfold copy_min. simpl.
  destruct (copy_min_fold coord l (coord p)) as (mn & Hmn & Hle & Hall & Hat).
  exists mn. split; [exact Hmn|]. split.
  - intros pos [<-|Hin]; [exact Hle|apply Hall, Hin].
  - destruct Hat as [->|(pos & Hin & Hpos)]; eauto.
Qed.

(** X24: [copy] anchors the selection at the origin. With at least one
    cell highlighted, every cell is merged into the temporary map at its
    position moved by one common shift, no place of the temporary map has
    a negative coordinate, some cell lands in column 0 and some in row 0,
    and cells at different positions land at different places. *)
Theorem copy_anchors_selection (highlighted : list (Z * Z)) :
  highlighted <> [] ->
  exists minX minY,
    copy_places highlighted
    = List.map (fun pos => ((fst pos - minX, snd pos - minY), pos))
               highlighted
    /\ (forall place pos, In (place, pos) (copy_places highlighted) ->
          In pos highlighted /\ 0 <= fst place /\ 0 <= snd place)
    /\ (exists place pos,
          In (place, pos) (copy_places highlighted) /\ fst place = 0)
    /\ (exists place pos,
          In (place, pos) (copy_places highlighted) /\ snd place = 0)
    /\ (forall place pos pos',
          In (place, pos) (copy_places highlighted) ->
          In (place, pos') (copy_places highlighted) -> pos = pos').
Proof.
  destruct highlighted as [|p l]; [congruence|]. intros _.
  destruct (copy_min_spec fst p l) as (minX & HX & HXle & pX & HpX & HXat).
  destruct (copy_min_spec snd p l) as (minY & HY & HYle & pY & HpY & HYat).
  exists minX, minY. unfold copy_places. rewrite HX, HY.
  split; [reflexivity|]. split; [|split; [|split]].
  - intros place pos Hin. apply in_map_iff in Hin as (q & [= <- <-] & Hq).
    split; [exact Hq|]. cbn [fst snd].
    pose proof (HXle q Hq). pose proof (HYle q Hq). lia.
  - exists (fst pX - minX, snd pX - minY), pX. split.
    + apply in_map_iff. exists pX. auto.
    + cbn [fst]. lia.
  - exists (fst pY - minX, snd pY - minY), pY. split.
    + apply in_map_iff. exists pY. auto.
    + cbn [snd]. lia.
  - intros place pos pos' Hin Hin'.
    apply in_map_iff in Hin as (q & [= <- <-] & Hq).
    apply in_map_iff in Hin' as (q' & [= E1 E2 <-] & Hq').
    destruct q, q'. cbn [fst snd] in *. f_equal; lia.
Qed.

Lemma copy_anchors_selection_witness :
  copy_places [(3, -2); (5, 7); (-1, 4)]
  = [((4, 0), (3, -2)); ((6, 9), (5, 7)); ((0, 6), (-1, 4))].
Proof.
  destruct (copy_anchors_selection [(3, -2); (5, 7); (-1, 4)])
    as (minX & minY & H & _); [discriminate|].
  reflexivity.
Defined.

(** ** Turning and mirroring the cell under the pointer *)

Lemma frame_turn_holdF m fs c :
  frame_turn holdF (m, fs) c
  = match arrowAt m c with
    | None => (m, fs)
    | Some arrow =>
      if (0 <? arrowType arrow)%nat then
        let v := match fs with
                 | None => negb (flipped arrow)
                 | Some v => v
                 end in
        (updateArrow m c (fun a => fst (turn_or_flip holdF a fs)), Some v)
      else (m, fs)
    end.
Proof.
  unfold frame_turn. cbn [fst snd].
  destruct (arrowAt m c) as [a|]; [|reflexivity].
  destruct (0 <? arrowType a)%nat; [|reflexivity].
  destruct fs; reflexivity.
Qed.

Lemma frames_latched v cs : forall m,
  snd (fold_left (frame_turn holdF) cs (m, Some v)) = Some v
  /\ (forall c, is_Some (fst (fold_left (frame_turn holdF) cs (m, Some v))
                          !! c) <-> is_Some (m !! c))
  /\ forall c a, arrowAt m c = Some a ->
       arrowAt (fst (fold_left (frame_turn holdF) cs (m, Some v))) c
       = Some (if bool_decide (c ∈ cs) && (0 <? arrowType a)%nat
               then set_flipped a v else a).
Proof.
  induction cs as [|c0 cs IH]; intros m.
  - simpl. split; [reflexivity|]. split; [tauto|].
    intros c a Ha. rewrite Ha. reflexivity.
  - cbn [fold_left]. rewrite frame_turn_holdF.
    destruct (arrowAt m c0) as [a0|] eqn:Ha0.
    2:{ destruct (IH m) as (F & D & A). split; [exact F|].
        split; [exact D|]. intros c a Ha. rewrite (A c a Ha).
        destruct (decide (c = c0)) as [->|Hne]; [congruence|].
        f_equal. rewrite (bool_decide_ext (c ∈ c0 :: cs) (c ∈ cs));
          [reflexivity|]. rewrite elem_of_cons. tauto. }
    destruct (0 <? arrowType a0)%nat eqn:Hpos.
    2:{ destruct (IH m) as (F & D & A). split; [exact F|].
        split; [exact D|]. intros c a Ha. rewrite (A c a Ha).
        destruct (decide (c = c0)) as [->|Hne].
        - rewrite Ha0 in Ha. injection Ha as <-. rewrite Hpos.
          rewrite !andb_false_r. reflexivity.
        - f_equal. rewrite (bool_decide_ext (c ∈ c0 :: cs) (c ∈ cs));
            [reflexivity|]. rewrite elem_of_cons. tauto. }
    cbn zeta.
    set (m1 := updateArrow m c0
                 (fun a => fst (turn_or_flip holdF a (Some v)))).
    destruct (IH m1) as (F & D & A). split; [exact F|]. split.
    { intros c. rewrite D. apply lookup_updateArrow_is_Some. }
    intros c a Ha.
    destruct (decide (c = c0)) as [->|Hne].
    + rewrite Ha0 in Ha. injection Ha as <-.
      rewrite (A c0 (set_flipped a0 v)).
      * rewrite (bool_decide_eq_true_2 (c0 ∈ c0 :: cs))
          by (apply elem_of_cons; auto).
        simpl. rewrite Hpos. destruct (bool_decide _); reflexivity.
      * unfold m1. rewrite arrowAt_updateArrow_eq, Ha0. reflexivity.
    + rewrite (A c a).
      * f_equal. rewrite (bool_decide_ext (c ∈ c0 :: cs) (c ∈ cs));
          [reflexivity|]. rewrite elem_of_cons. tauto.
      * unfold m1. rewrite arrowAt_updateArrow_ne by congruence. exact Ha.
Qed.

(** X25: the mirror key latches. With only key F held and the pointer
    over a non-empty cell [c0] in the first frame, that cell is mirrored
    once, and however the pointer then moves (over the places [cs], one a
    frame, the first cell included or not) every non-empty cell it passes
    ends with the mirroring the first cell was given, a cell passed twice
    is not mirrored back, and no other cell and no other field changes.
    The rotation keys, which are asked first, only ever write 0 to 3. *)
Theorem flip_key_latches (m : GameMap) (c0 : ArrowRef) (a0 : Arrow)
    (cs : list ArrowRef) :
  cell_of m c0 a0 ->
  let st := fold_left (frame_turn holdF) (c0 :: cs) (m, None) in
  snd st = Some (negb (flipped a0))
  /\ (forall c a, arrowAt m c = Some a ->
        arrowAt (fst st) c
        = Some (if bool_decide (c ∈ c0 :: cs) && (0 <? arrowType a)%nat
                then set_flipped a (negb (flipped a0)) else a))
  /\ (forall keys a fs,
        (rotation a < 4)%nat ->
        (rotation (fst (turn_or_flip keys a fs)) < 4)%nat).
Proof.
  intros (Ha0 & Hpos & _) st. unfold st. cbn [fold_left].
  rewrite frame_turn_holdF, Ha0.
  apply Nat.ltb_lt in Hpos. rewrite Hpos. cbn zeta.
  set (v := negb (flipped a0)).
  set (m1 := updateArrow m c0 (fun a => fst (turn_or_flip holdF a None))).
  destruct (frames_latched v cs m1) as (F & D & A).
  split; [exact F|]. split.
  - intros c a Ha. destruct (decide (c = c0)) as [->|Hne].
    + rewrite Ha0 in Ha. injection Ha as <-.
      rewrite (A c0 (set_flipped a0 v)).
      * rewrite (bool_decide_eq_true_2 (c0 ∈ c0 :: cs))
          by (apply elem_of_cons; auto).
        simpl. rewrite Hpos. destruct (bool_decide _); reflexivity.
      * unfold m1. rewrite arrowAt_updateArrow_eq, Ha0. reflexivity.
    + rewrite (A c a).
      * f_equal. rewrite (bool_decide_ext (c ∈ c0 :: cs) (c ∈ cs));
          [reflexivity|]. rewrite elem_of_cons. tauto.
      * unfold m1. rewrite arrowAt_updateArrow_ne by congruence. exact Ha.
  - intros keys a fs Hrot. unfold turn_or_flip.
    destruct (KeyW keys); [simpl; lia|].
    destruct (KeyA keys); [simpl; lia|].
    destruct (KeyS keys); [simpl; lia|].
    destruct (KeyD keys); [simpl; lia|].
    destruct (KeyF keys); [destruct fs; exact Hrot|exact Hrot].
Qed.

Lemma flip_key_latches_witness :
  snd (fold_left (frame_turn holdF)
         [((0, 0), (5, 5)); ((0, 0), (5, 5)); ((0, 0), (4, 5))]
         (branchGrid, None))
  = Some true.
Proof.
  apply (flip_key_latches branchGrid ((0, 0), (5, 5)) (plainArrow 5 0 0)
           [((0, 0), (5, 5)); ((0, 0), (4, 5))]).
  unfold cell_of, CHUNK_SIZE. cbn [fst snd].
  split; [vm_compute; reflexivity|]. simpl. lia.
Defined.

(** ** The two models on the game's own grid *)

(** X26: the models agree on the grid the game holds. For a freshly loaded
    grid at rest, compiled, the CA ticked on the game's own grid (the one the
    compiler has written node and offset into) and the node simulator ticked
    on the graph show the same value on every non-empty cell after every
    number of ticks. This holds for every order [ks] in which the compiler may
    visit the chunks of the grid ([map.chunks] is visited in the order of
    insertion). *)
Theorem models_agree_on_game_grid (m : GameMap) (ks : list ChunkPos)
  (fuel : nat) :
  fresh m -> ks ≡ₚ chunk_keys m ->
  (length (all_cells m) < fuel)%nat -> at_rest m ->
  exists g,
    compile ks fuel m = Some g
    /\ forall k c a, cell_of (Nat.iter k updateCA (chunks g)) c a ->
         cell_view (Nat.iter k updateNodes g) c = Some (active a).
Proof.
  intros Hf Hks Hfuel Hrest.
  destruct (compile_kept m ks fuel Hf Hks Hfuel) as (g & Hg & Hok & Hkept).
  exists g. split; [exact Hg|]. intros k c a' (Ha' & Hpos & Hx & Hy).
  assert (Hk : grid_kept (Nat.iter k updateCA m)
                         (Nat.iter k updateCA (chunks g))).
  { clear Ha' Hpos. induction k as [|k IH]; [exact Hkept|].
    rewrite !Nat.iter_succ. apply updateCA_kept, IH. }
  assert (Hs : is_Some (arrowAt (Nat.iter k updateCA m) c)).
  { apply arrowAt_is_Some, (proj1 Hk),
      (arrowAt_is_Some (Nat.iter k updateCA (chunks g)) c). eauto. }
  destruct Hs as [a Ha].
  destruct (proj2 Hk c a Ha) as (a2 & Ha2 & S).
  rewrite Ha' in Ha2. injection Ha2 as <-.
  destruct S as (Hty & _ & _ & _ & Hact & _).
  pose proof (agree_from m g k Hok
                (agree_start m g Hok (rest_same m g Hok Hrest)))
    as (_ & _ & _ & _ & _ & _ & _ & Hview).
  rewrite Hact. apply Hview.
  split; [exact Ha|]. split; [lia|]. split; assumption.
Qed.

Lemma models_agree_on_game_grid_witness :
  exists g,
    compile borderOrder 513 borderGrid = Some g
    /\ forall c a, cell_of (Nat.iter 3 updateCA (chunks g)) c a ->
         cell_view (Nat.iter 3 updateNodes g) c = Some (active a).
Proof.
  destruct (models_agree_on_game_grid borderGrid borderOrder 513) as (g & Hg & Hsame).
  - exact borderGrid_fresh.
  - exact borderGrid_order.
  - exact borderGrid_fuel.
  - apply quiet_at_rest, borderGrid_quiet.
  - exists g. split; [exact Hg|]. exact (Hsame 3%nat).
Defined.

(** ** A rotation outside 0..3 *)

Lemma transform_illegal arrow x y dx dy :
  (4 <= rotation arrow)%nat ->
  getArrowRelative_transform arrow x y dx dy = (x, y).
Proof.
  unfold getArrowRelative_transform.
  destruct (rotation arrow) as [|[|[|[|r]]]]; try lia.
  destruct (flipped arrow); reflexivity.
Qed.

Lemma omap_const {A B : Type} (f : A -> option B) (b : B) (l : list A) :
  (forall x, In x l -> f x = Some b) -> omap f l = replicate (length l) b.
Proof.
  induction l as [|x l IH]; intros H; [reflexivity|].
  rewrite omap_cons, (H x) by (left; reflexivity).
  simpl. f_equal. apply IH. intros y Hy. apply H. right. exact Hy.
Qed.

(** X27: a rotation outside 0..3 turns every offset into the cell itself.
    The [switch] of [getArrowRelative] has no case for such a value, so a
    non-empty cell with one has itself as its target once for each offset
    of its shape, and while it is active the send pass of the CA raises
    its own [signalCount] by at least one whenever its shape has an
    offset. *)
Theorem illegal_rotation_targets_self (m : GameMap) (c : ArrowRef)
    (a : Arrow) :
  cell_of m c a -> (4 <= rotation a)%nat ->
  getTargetArrows m (fst c) a (fst (snd c)) (snd (snd c))
  = replicate (length (shape_offsets (arrowType a))) c
  /\ (active a = true -> shape_offsets (arrowType a) <> [] ->
      exists a1, arrowAt (updateCA_pass1 m) c = Some a1
        /\ (signalCount a < signalCount a1)%nat).
Proof.
  intros Hc Hrot. pose proof Hc as (Ha & Hpos & Hx & Hy).
  assert (Ht : getTargetArrows m (fst c) a (fst (snd c)) (snd (snd c))
               = replicate (length (shape_offsets (arrowType a))) c).
  { unfold getTargetArrows. apply omap_const. intros d _.
    unfold getArrowRelative.
    rewrite transform_illegal by exact Hrot.
    rewrite rebase_inside by assumption. simpl.
    unfold arrowAt in Ha.
    destruct (m !! fst c) as [ch|]; [|discriminate].
    injection Ha as Ha. rewrite Ha.
    apply Nat.ltb_lt in Hpos. rewrite Hpos.
    destruct c as [cc [cx cy]]. reflexivity. }
  split; [exact Ht|]. intros Hact Hne.
  destruct (pass1_count m c a Ha) as (a1 & Ha1 & _ & Hn).
  exists a1. split; [exact Ha1|]. rewrite Hn.
  assert (Hself : (1 <= ca_contrib m c c)%nat).
  { unfold ca_contrib, edges. rewrite Ha, Hact, Ht.
    apply Nat.ltb_lt in Hpos. rewrite Hpos. simpl.
    destruct (shape_offsets (arrowType a)) as [|d ds]; [congruence|].
    simpl. rewrite count_ref_cons, ArrowRef_eqb_refl. lia. }
  assert (Hsum : (ca_contrib m c c
                  <= sum_list_with (ca_contrib m c) (all_cells m))%nat).
  { pose proof (cell_of_In_all_cells m c a Hc) as Hin.
    revert Hin. generalize (all_cells m). intros l.
    induction l as [|x l IH]; intros [].
    - subst x. simpl. lia.
    - simpl. specialize (IH H). lia. }
  lia.
Qed.

Lemma illegal_rotation_targets_self_witness :
  getTargetArrows
    {[ (0, 0) := chunkOf [ (5, 5, plainArrow 5 7 0) ] ]}
    (0, 0) (plainArrow 5 7 0) 5 5
  = replicate 4 ((0, 0), (5, 5)).
Proof.
  apply (illegal_rotation_targets_self
           {[ (0, 0) := chunkOf [ (5, 5, plainArrow 5 7 0) ] ]}
           ((0, 0), (5, 5)) (plainArrow 5 7 0)).
  - unfold cell_of, CHUNK_SIZE. cbn [fst snd].
    split; [vm_compute; reflexivity|]. simpl. lia.
  - simpl. lia.
Defined.

(** ** The node simulator at rest *)

Lemma signals_insert_false l :
  Forall (fun b => b = false) l ->
  Forall (fun b => b = false) (LogicNode.signals_insert false l).
Proof.
  intros H. unfold LogicNode.signals_insert.
  apply Forall_take. constructor; [reflexivity|exact H].
Qed.

Lemma all_false_last l :
  Forall (fun b => b = false) l -> List.last l false = false.
Proof.
  induction l as [|x l IH]; intros H; [reflexivity|].
  apply Forall_cons in H as [-> H].
  destruct l as [|y l]; [reflexivity|]. apply (IH H).
Qed.

Lemma updateNodes_rest_step g :
  NoDup (nodeArray g) -> nodes_at_rest g ->
  (forall s n, In s (nodeArray g) -> heap g !! s = Some n ->
     LogicNode.type n <> 1%nat /\ LogicNode.type n <> 2%nat) ->
  nodes_at_rest (updateNodes g)
  /\ (forall s n, In s (nodeArray (updateNodes g)) ->
        heap (updateNodes g) !! s = Some n ->
        LogicNode.type n <> 1%nat /\ LogicNode.type n <> 2%nat).
Proof.
  intros Hnd Hrest Hty.
  assert (Hstep : forall s n2, In s (nodeArray g) ->
            heap (updateNodes g) !! s = Some n2 ->
            exists n, heap g !! s = Some n
              /\ LogicNode.type n2 = LogicNode.type n
              /\ LogicNode.signalCount n2 = 0%nat
              /\ Forall (fun b => b = false) (LogicNode.signals n2)).
  { intros s n2 Hs Hn2.
    assert (Hsome : is_Some (heap g !! s)).
    { apply lookup_lt_is_Some. rewrite <- length_updateNodes.
      apply lookup_lt_Some in Hn2. exact Hn2. }
    destruct Hsome as [n Hn]. exists n. split; [exact Hn|].
    destruct (updateNodes_node_step g s n Hnd Hs Hn)
      as (n2' & Hn2' & _ & Htype & _ & Hcnt & Hsig).
    rewrite Hn2 in Hn2'. injection Hn2' as <-.
    split; [exact Htype|]. split; [exact Hcnt|].
    destruct (Hrest s n Hs Hn) as [Hall Hzero].
    rewrite Hsig, Hzero.
    rewrite sum_list_with_zero.
    2:{ intros t Ht. unfold node_contrib.
        destruct (heap g !! t) as [nt|] eqn:Hnt; [|reflexivity].
        unfold LogicNode.signals_last.
        rewrite (all_false_last _ (proj1 (Hrest t nt Ht Hnt))).
        reflexivity. }
    assert (Hfirst : LogicNode.signals_first n = false).
    { unfold LogicNode.signals_first.
      destruct (LogicNode.signals n) as [|b l]; [reflexivity|].
      apply Forall_cons in Hall as [-> _]. reflexivity. }
    rewrite Hfirst.
    assert (Hfalse : updateNodes_active (LogicNode.type n) (0 + 0) false
                     = false).
    { destruct (Hty s n Hs Hn) as [T1 T2].
      destruct (LogicNode.type n) as [|[|[|[|[|[|[|t]]]]]]]; simpl;
        try reflexivity; congruence. }
    rewrite Hfalse. apply signals_insert_false, Hall. }
  assert (Hna : nodeArray (updateNodes g) = nodeArray g) by reflexivity.
  split.
  - intros s n2 Hs Hn2. rewrite Hna in Hs.
    destruct (Hstep s n2 Hs Hn2) as (n & _ & _ & Hc & Hall). auto.
  - intros s n2 Hs Hn2. rewrite Hna in Hs.
    destruct (Hstep s n2 Hs Hn2) as (n & Hn & Ht & _).
    rewrite Ht. apply (Hty s n Hs Hn).
Qed.

(** X28: a graph at rest stays at rest unless its flat list holds a
    constant source or an inverter. If every listed node has an all-false
    history and no signal pending and none has type 1 or 2, the same is
    true after any number of ticks of the node simulator. *)
Theorem updateNodes_rest (g : Game) (k : nat) :
  NoDup (nodeArray g) -> nodes_at_rest g ->
  (forall s n, In s (nodeArray g) -> heap g !! s = Some n ->
     LogicNode.type n <> 1%nat /\ LogicNode.type n <> 2%nat) ->
  nodes_at_rest (Nat.iter k updateNodes g).
Proof.
  intros Hnd Hrest Hty.
  assert (H : NoDup (nodeArray (Nat.iter k updateNodes g))
              /\ nodes_at_rest (Nat.iter k updateNodes g)
              /\ forall s n, In s (nodeArray (Nat.iter k updateNodes g)) ->
                   heap (Nat.iter k updateNodes g) !! s = Some n ->
                   LogicNode.type n <> 1%nat /\ LogicNode.type n <> 2%nat);
    [|exact (proj1 (proj2 H))].
  induction k as [|k (IHn & IHr & IHt)]; [auto|].
  rewrite Nat.iter_succ. split; [exact IHn|].
  apply updateNodes_rest_step; assumption.
Qed.

Lemma updateNodes_rest_witness :
  nodes_at_rest
    (Nat.iter 3 updateNodes
       (mkGame ∅ [LogicNode.new [((0, 0), (1, 1)); ((0, 0), (1, 0))] 0 2;
                  LogicNode.new [((0, 0), (2, 1))] 3 1]
               [0%nat; 1%nat] [0%nat; 1%nat] ∅)).
Proof.
  apply updateNodes_rest.
  - repeat constructor; rewrite ?elem_of_cons, ?elem_of_nil;
      intuition congruence.
  - intros s n Hs Hn. destruct s as [|[|s]]; simpl in Hn;
      try discriminate; injection Hn as <-; simpl;
      (split; [repeat constructor|reflexivity]).
  - intros s n Hs Hn. destruct s as [|[|s]]; simpl in Hn;
      try discriminate; injection Hn as <-; simpl; split; discriminate.
Defined.

(** ** From the screen to a cell *)

(** X29: [screenToWorld] rounds a coordinate down to its cell, except on
    the edge of a cell left of or above the origin. For a finite value
    whose cell index fits 32 bits the result is the floor of the value,
    unless the value is a negative integer, where the result is one less
    than the value. *)
Theorem screenToWorld_rounding (v : QArith_base.Q) :
  - 2 ^ 31 <= Qround.Qfloor v < 2 ^ 31 - 1 ->
  cell_index v
  = Qround.Qfloor v
    - (if (QArith_base.Qnum v <? 0)
          && (QArith_base.Qnum v mod Zpos (QArith_base.Qden v) =? 0)
       then 1 else 0).
Proof.
  destruct v as [n d]. unfold cell_index, Qround.Qfloor.
  cbn [QArith_base.Qnum QArith_base.Qden].
  intros Hb.
  pose proof (Z.div_mod n (Zpos d) ltac:(lia)) as E.
  pose proof (Z.mod_pos_bound n (Zpos d) ltac:(lia)) as B.
  destruct (n <? 0) eqn:Hneg.
  - apply Z.ltb_lt in Hneg.
    replace n with (- (- n)) at 1 by lia.
    rewrite Z.quot_opp_l by lia. rewrite Z.quot_div_nonneg by lia.
    pose proof (Z.div_mod (- n) (Zpos d) ltac:(lia)) as E'.
    pose proof (Z.mod_pos_bound (- n) (Zpos d) ltac:(lia)) as B'.
    destruct (n mod Zpos d =? 0) eqn:Hint; simpl.
    + apply Z.eqb_eq in Hint.
      assert (Hq : - n / Zpos d = - (n / Zpos d)).
      { symmetry. apply (Z.div_unique (- n) (Zpos d) _ 0); nia. }
      rewrite Hq, toInt32_small by lia. lia.
    + apply Z.eqb_neq in Hint.
      assert (Hq : - n / Zpos d = - (n / Zpos d) - 1).
      { symmetry.
        apply (Z.div_unique (- n) (Zpos d) _ (Zpos d - n mod Zpos d)); nia. }
      rewrite Hq, toInt32_small by lia. lia.
  - apply Z.ltb_ge in Hneg. simpl.
    rewrite Z.quot_div_nonneg by lia.
    rewrite toInt32_small by lia. lia.
Qed.

Lemma screenToWorld_rounding_witness :
  cell_index (QArith_base.Qmake (-1) 1) = -2
  /\ cell_index (QArith_base.Qmake (-1) 2) = -1.
Proof.
  split.
  - rewrite (screenToWorld_rounding (QArith_base.Qmake (-1) 1));
      [reflexivity|].
    vm_compute. split; [discriminate|reflexivity].
  - rewrite (screenToWorld_rounding (QArith_base.Qmake (-1) 2));
      [reflexivity|].
    vm_compute. split; [discriminate|reflexivity].
Defined.

(** ** The send pass neither loses nor invents a signal *)

Lemma sum_list_with_add {A : Type} (F G : A -> nat) (l : list A) :
  sum_list_with (fun x => (F x + G x)%nat) l
  = (sum_list_with F l + sum_list_with G l)%nat.
Proof.
  induction l as [|x l IH]; simpl; [reflexivity|]. rewrite IH. lia.
Qed.

Lemma sum_list_with_swap {A B : Type} (F : A -> B -> nat) (l : list A)
    (l' : list B) :
  sum_list_with (fun x => sum_list_with (F x) l') l
  = sum_list_with (fun y => sum_list_with (fun x => F x y) l) l'.
Proof.
  induction l as [|x l IH]; simpl.
  - symmetry. apply sum_list_with_zero. reflexivity.
  - rewrite IH, <- sum_list_with_add. reflexivity.
Qed.

Lemma sum_count_ref (l L : list ArrowRef) :
  NoDup l -> (forall t, In t L -> In t l) ->
  sum_list_with (fun c => count_ref c L) l = length L.
Proof.
  intros Hnd. induction L as [|t L IH]; intros Hsub.
  - apply sum_list_with_zero. reflexivity.
  - rewrite (sum_list_with_ext _
               (fun c => ((if ArrowRef_eqb c t then 1 else 0)
                          + count_ref c L)%nat))
      by (intros c _; apply count_ref_cons).
    rewrite sum_list_with_add, IH by (intros u Hu; apply Hsub; right; exact Hu).
    rewrite (sum_list_with_single _ l t Hnd).
    + rewrite ArrowRef_eqb_refl. reflexivity.
    + apply Hsub. left. reflexivity.
    + intros p _ Hne. rewrite ArrowRef_eqb_neq by exact Hne. reflexivity.
Qed.

Lemma edges_in_grid m p t :
  In p (all_cells m) -> In t (edges m p) -> In t (all_cells m).
Proof.
  intros Hp Ht. apply In_all_cells in Hp as (_ & Hx & Hy).
  unfold edges in Ht. destruct (arrowAt m p) as [a|]; [|destruct Ht].
  apply In_getTargetArrows in Ht as (d & at' & Hd & Hr).
  apply getArrowRelative_world in Hr as [_ Hc];
    [|assumption|assumption|apply (shape_offsets_small _ _ Hd)].
  apply (cell_of_In_all_cells m t at'). destruct t. exact Hc.
Qed.

(** X30: the send pass of the CA neither loses nor invents a signal. Over
    the cells of the grid, the counts after the first loop nest of
    [updateCA] add up to the counts before it plus, for every non-empty
    active cell, the number of targets it resolves. *)
Theorem updateCA_send_conserves (m : GameMap) :
  sum_list_with (count_at (updateCA_pass1 m)) (all_cells m)
  = (sum_list_with (count_at m) (all_cells m)
     + sum_list_with (sent_by m) (all_cells m))%nat.
Proof.
  rewrite (sum_list_with_ext (count_at (updateCA_pass1 m))
             (fun c => (count_at m c
                        + sum_list_with (ca_contrib m c) (all_cells m))%nat)).
  - rewrite sum_list_with_add. f_equal.
    rewrite sum_list_with_swap. apply sum_list_with_ext. intros p Hp.
    unfold sent_by.
    destruct (arrowAt m p) as [a|] eqn:Ha.
    + destruct ((0 <? arrowType a)%nat && active a) eqn:Hon.
      * rewrite (sum_list_with_ext _ (fun c => count_ref c (edges m p)))
          by (intros c _; unfold ca_contrib; rewrite Ha, Hon; reflexivity).
        apply sum_count_ref; [apply NoDup_all_cells|].
        intros t. apply edges_in_grid, Hp.
      * apply sum_list_with_zero. intros c _. unfold ca_contrib.
        rewrite Ha, Hon. reflexivity.
    + apply sum_list_with_zero. intros c _. unfold ca_contrib.
      rewrite Ha. reflexivity.
  - intros c Hc. unfold count_at.
    assert (Hs : is_Some (arrowAt m c)).
    { apply arrowAt_is_Some. apply In_all_cells in Hc. tauto. }
    destruct Hs as [a Ha]. rewrite Ha.
    destruct (pass1_count m c a Ha) as (a1 & Ha1 & _ & Hn).
    rewrite Ha1. exact Hn.
Qed.
